(** * Thread manager and generic I/O layer of the teaching kernel

    A shallow embedding of [src/kern/thread.c] (thread table, ready list,
    condition variables, fork of a kernel thread) and of the generic I/O
    helpers and the in-memory literal device of [io.c], together with the
    properties of the specification that concern them. *)

From Stdlib Require Import ZArith Lia.
From stdpp Require Import base strings functions option gmap list.

Local Open Scope Z_scope.

Set Warnings "-clear-no-such-hyp".

(** ** Outcomes of kernel code

    Kernel functions either return, or stop the machine ([panic], a failed
    [assert], [halt_success]), or leave the defined behaviour of C (a NULL or
    dangling dereference, an index outside an array). *)

Inductive fault : Type :=
  | Panic (msg : string)
  | AssertFailed (cond : string)
  | Halted
  | Undefined (what : string).

Inductive result (A : Type) : Type :=
  | Ok (a : A)
  | Fault (f : fault).

Arguments Ok {A} a.
Arguments Fault {A} f.

Definition rbind {A B : Type} (r : result A) (k : A → result B) : result B :=
  match r with
  | Ok a => k a
  | Fault f => Fault f
  end.

Global Instance result_bind : MBind result := λ A B k r, rbind r k.
Global Instance result_ret : MRet result := @Ok.

Definition assert (b : bool) (cond : string) : result unit :=
  if b then Ok tt else Fault (AssertFailed cond).

(** ** Data model of thread.c *)

(** NTHR is the maximum number of threads. *)
Definition NTHR : Z := 16.

Inductive thread_state : Type :=
  | THREAD_UNINITIALIZED
  | THREAD_STOPPED
  | THREAD_WAITING
  | THREAD_RUNNING
  | THREAD_READY
  | THREAD_EXITED.

Global Instance thread_state_eq_dec : EqDecision thread_state.
Proof. solve_decision. Defined.

(** A [struct thread *] points to one of the two statically allocated
    threads or to a block handed out by [kmalloc]. *)
Inductive tptr : Type :=
  | main_thread
  | idle_thread
  | Kmalloc (addr : Z).

Global Instance tptr_eq_dec : EqDecision tptr.
Proof. solve_decision. Defined.

Definition tptr_code (p : tptr) : Z + bool :=
  match p with
  | main_thread => inr true
  | idle_thread => inr false
  | Kmalloc a => inl a
  end.

Definition tptr_decode (c : Z + bool) : tptr :=
  match c with
  | inr true => main_thread
  | inr false => idle_thread
  | inl a => Kmalloc a
  end.

Global Instance tptr_countable : Countable tptr.
Proof.
  apply (inj_countable' tptr_code tptr_decode).
  intros [| |a]; reflexivity.
Defined.

(** A [struct condition *] is either the address of the [child_exit] member
    of a thread or the address of a condition owned by another subsystem. *)
Inductive cptr : Type :=
  | child_exit (t : tptr)
  | cond_at (addr : Z).

Global Instance cptr_eq_dec : EqDecision cptr.
Proof. solve_decision. Defined.

(** Where a suspended thread continues when [_thread_swtch] restores its
    saved [ra]: at its entry function ([_thread_setup]), behind the call of
    [_thread_swtch] in [suspend_self], or behind the call of
    [_thread_finish_fork] in [thread_fork_to_user] (with the locals
    [child_tid] and [child] of that frame). [ra_null] is the [ra] of a
    context that was never written. *)
Inductive resume_point : Type :=
  | ra_null
  | ra_thread_start
  | ra_suspend_self
  | ra_fork (child_tid : Z) (child : tptr).

Record thread_list : Type := mk_list {
  head : option tptr;
  tail : option tptr
}.

(** [struct thread]; the embedded [child_exit] condition is kept in the
    condition store of the kernel state under [child_exit p]. Of the saved
    context only [ra] is represented. *)
Record thread : Type := mk_thread {
  context_ra : resume_point;
  name : string;
  stack_base : Z;
  stack_size : Z;
  state : thread_state;
  id : Z;
  proc : option Z;
  parent : option tptr;
  list_next : option tptr;
  wait_cond : option cptr
}.

Definition set_context_ra (r : resume_point) (t : thread) : thread :=
  mk_thread r (name t) (stack_base t) (stack_size t) (state t) (id t)
            (proc t) (parent t) (list_next t) (wait_cond t).
Definition set_stack (base size : Z) (t : thread) : thread :=
  mk_thread (context_ra t) (name t) base size (state t) (id t)
            (proc t) (parent t) (list_next t) (wait_cond t).
Definition set_state (s : thread_state) (t : thread) : thread :=
  mk_thread (context_ra t) (name t) (stack_base t) (stack_size t) s (id t)
            (proc t) (parent t) (list_next t) (wait_cond t).
Definition set_proc (p : option Z) (t : thread) : thread :=
  mk_thread (context_ra t) (name t) (stack_base t) (stack_size t) (state t)
            (id t) p (parent t) (list_next t) (wait_cond t).
Definition set_parent (p : option tptr) (t : thread) : thread :=
  mk_thread (context_ra t) (name t) (stack_base t) (stack_size t) (state t)
            (id t) (proc t) p (list_next t) (wait_cond t).
Definition set_list_next (n : option tptr) (t : thread) : thread :=
  mk_thread (context_ra t) (name t) (stack_base t) (stack_size t) (state t)
            (id t) (proc t) (parent t) n (wait_cond t).
Definition set_wait_cond (c : option cptr) (t : thread) : thread :=
  mk_thread (context_ra t) (name t) (stack_base t) (stack_size t) (state t)
            (id t) (proc t) (parent t) (list_next t) c.

(** The part of the machine state the thread manager works on. [kmalloc],
    [memory_alloc_page] and [memory_free_page] belong to other files; the
    state records which thread structures are allocated ([heap]) and which
    pages were handed to [memory_free_page]. *)
Record kstate : Type := mk_state {
  thrtab : list (option tptr);
  heap : gmap tptr thread;
  conds : cptr → thread_list;
  ready_list : thread_list;
  CURTHR : tptr;
  active_mspace : option Z;
  freed_pages : list Z;
  kmem : gmap Z Z
}.

Definition with_thrtab (tab : list (option tptr)) (st : kstate) : kstate :=
  mk_state tab (heap st) (conds st) (ready_list st) (CURTHR st)
           (active_mspace st) (freed_pages st) (kmem st).
Definition with_heap (h : gmap tptr thread) (st : kstate) : kstate :=
  mk_state (thrtab st) h (conds st) (ready_list st) (CURTHR st)
           (active_mspace st) (freed_pages st) (kmem st).
Definition with_conds (cs : cptr → thread_list) (st : kstate) : kstate :=
  mk_state (thrtab st) (heap st) cs (ready_list st) (CURTHR st)
           (active_mspace st) (freed_pages st) (kmem st).
Definition with_ready_list (l : thread_list) (st : kstate) : kstate :=
  mk_state (thrtab st) (heap st) (conds st) l (CURTHR st)
           (active_mspace st) (freed_pages st) (kmem st).
Definition with_CURTHR (p : tptr) (st : kstate) : kstate :=
  mk_state (thrtab st) (heap st) (conds st) (ready_list st) p
           (active_mspace st) (freed_pages st) (kmem st).
Definition with_active_mspace (m : option Z) (st : kstate) : kstate :=
  mk_state (thrtab st) (heap st) (conds st) (ready_list st) (CURTHR st)
           m (freed_pages st) (kmem st).
Definition with_freed_pages (fp : list Z) (st : kstate) : kstate :=
  mk_state (thrtab st) (heap st) (conds st) (ready_list st) (CURTHR st)
           (active_mspace st) fp (kmem st).
Definition with_kmem (m : gmap Z Z) (st : kstate) : kstate :=
  mk_state (thrtab st) (heap st) (conds st) (ready_list st) (CURTHR st)
           (active_mspace st) (freed_pages st) m.

(** [p->field]: reading through a pointer that is not an allocated thread
    is undefined. *)
Definition deref (h : gmap tptr thread) (p : tptr) : result thread :=
  match h !! p with
  | Some t => Ok t
  | None => Fault (Undefined "dereference of a pointer to no thread")
  end.

(** [p->field = v]. *)
Definition store (h : gmap tptr thread) (p : tptr) (f : thread → thread)
  : result (gmap tptr thread) :=
  t ← deref h p; Ok (<[p := f t]> h).

(** [thrtab[tid]] for an [int tid]; an index outside the array is
    undefined. *)
Definition thrtab_at (tab : list (option tptr)) (tid : Z)
  : result (option tptr) :=
  if bool_decide (0 ≤ tid < NTHR) then
    match tab !! Z.to_nat tid with
    | Some slot => Ok slot
    | None => Fault (Undefined "thrtab index out of bounds")
    end
  else Fault (Undefined "thrtab index out of bounds").

(** ** Thread lists *)

Definition tlclear (l : thread_list) : thread_list := mk_list None None.

Definition tlempty (l : thread_list) : bool :=
  bool_decide (head l = None).

(** [tlinsert]: the store to [thr->list_next] comes before the NULL test, so
    the test is dead for every pointer that can be dereferenced. *)
Definition tlinsert (h : gmap tptr thread) (l : thread_list) (thr : tptr)
  : result (gmap tptr thread * thread_list) :=
  h1 ← store h thr (set_list_next None);
  match tail l with
  | Some tl =>
      _ ← assert (bool_decide (head l ≠ None)) "list->head != NULL";
      h2 ← store h1 tl (set_list_next (Some thr));
      Ok (h2, mk_list (head l) (Some thr))
  | None =>
      _ ← assert (bool_decide (head l = None)) "list->head == NULL";
      Ok (h1, mk_list (Some thr) (Some thr))
  end.

Definition tlremove (h : gmap tptr thread) (l : thread_list)
  : result (gmap tptr thread * thread_list * option tptr) :=
  match head l with
  | None => Ok (h, l, None)
  | Some thr =>
      t ← deref h thr;
      let l1 := mk_list (list_next t) (tail l) in
      let l2 := match head l1 with
                | Some _ => l1
                | None => mk_list (head l1) None
                end in
      h1 ← store h thr (set_list_next None);
      Ok (h1, l2, Some thr)
  end.

(** Appends the elements of [l1] to the end of [l0] and clears [l1]. *)
Definition tlappend (h : gmap tptr thread) (l0 l1 : thread_list)
  : result (gmap tptr thread * thread_list * thread_list) :=
  match head l0 with
  | Some _ =>
      _ ← assert (bool_decide (tail l0 ≠ None)) "l0->tail != NULL";
      match head l1 with
      | Some h1 =>
          _ ← assert (bool_decide (tail l1 ≠ None)) "l1->tail != NULL";
          match tail l0 with
          | Some t0 =>
              h' ← store h t0 (set_list_next (Some h1));
              Ok (h', mk_list (head l0) (tail l1), mk_list None None)
          | None => Fault (Undefined "l0->tail is NULL")
          end
      | None => Ok (h, l0, mk_list None None)
      end
  | None =>
      _ ← assert (bool_decide (tail l0 = None)) "l0->tail == NULL";
      Ok (h, mk_list (head l1) (tail l1), mk_list None None)
  end.

(** A call that may block either returns, or leaves the caller suspended
    inside [condition_wait]; the caller goes on from there when it is
    scheduled again. *)
Inductive blocking (A : Type) : Type :=
  | Returned (a : A) (st : kstate)
  | Suspended (st : kstate).

Arguments Returned {A} a st.
Arguments Suspended {A} st.

(** The operations of an I/O object ([struct io_ops]) over a device state
    [D]. A buffer of the caller is a list of bytes; [read] and [write] get
    the buffer and the offset of the position they are handed ([buf+acc]).
    A member that is NULL is [None]. *)
Record io_ops (D : Type) : Type := mk_io_ops {
  ops_read : option (D → list Z → Z → Z → Z * D * list Z);
  ops_write : option (D → list Z → Z → Z → Z * D);
  ops_ctl : option (D → Z → Z → Z * D * Z)
}.

Arguments mk_io_ops {D} _ _ _.
Arguments ops_read {D} _.
Arguments ops_write {D} _.
Arguments ops_ctl {D} _.

(** [struct io_term]: the backing device and the two bits of state of the
    line-ending normalisation. The embedded [io_intf] of the terminal itself
    holds only its operations, which are fixed by [ioterm_init]. *)
Record io_term (R : Type) : Type := mk_io_term {
  rawio : R;
  cr_out : bool;
  cr_in : bool
}.

Arguments mk_io_term {R} _ _ _.
Arguments rawio {R} _.
Arguments cr_out {R} _.
Arguments cr_in {R} _.


(** ** The thread manager *)

Section Kernel.

(** Constants of headers that are not part of the sources at hand:
    [PAGE_SIZE] (memory.h), [sizeof(struct thread_stack_anchor)] (thread.h),
    [sizeof(struct trap_frame)] and the byte offset of [x[TFR_A0]] inside a
    trap frame (trap.h). *)
Variable PAGE_SIZE : Z.
Variable ANCHOR_SIZE : Z.
Variable TFR_SIZE : Z.
Variable TFR_A0_OFFSET : Z.

(** Error numbers (error.h) and [ioctl] commands (io.h), also outside the
    sources at hand. *)
Variable EINVAL : Z.
Variable ENOTSUP : Z.
Variable IOCTL_GETLEN : Z.
Variable IOCTL_SETPOS : Z.
Variable IOCTL_GETPOS : Z.
Variable IOCTL_GETBLKSZ : Z.

Definition MAIN_TID : Z := 0.
Definition IDLE_TID : Z := NTHR - 1.

Definition empty_list : thread_list := mk_list None None.

(** The statically initialised objects: [main_thread], [idle_thread],
    [thrtab] and [ready_list]. The thread pointer register and the memory
    hold whatever the boot code left there. *)
Definition main_thread_static : thread :=
  mk_thread ra_null "main" 0 0 THREAD_RUNNING MAIN_TID
            None None None None.

Definition idle_thread_static : thread :=
  mk_thread ra_null "idle" 0 0 THREAD_READY IDLE_TID
            None (Some main_thread) None None.

Definition boot_state (tp : tptr) (mem : gmap Z Z) : kstate :=
  mk_state (Some main_thread :: replicate 14 None ++ [Some idle_thread])
           {[ main_thread := main_thread_static;
              idle_thread := idle_thread_static ]}
           (λ _, empty_list) empty_list tp None [] mem.

(** Modelled from the spec: [_thread_setup] of thrasm.s, which is not among
    the sources, initialises the saved context of a thread so that its first
    scheduled execution enters its entry function. *)
Definition _thread_setup (h : gmap tptr thread) (thr : tptr)
  : result (gmap tptr thread) :=
  store h thr (set_context_ra ra_thread_start).

Definition init_main_thread (main_stack_anchor main_stack_lowest : Z)
    (st : kstate) : result kstate :=
  h ← store (heap st) main_thread
        (set_stack main_stack_anchor (main_stack_anchor - main_stack_lowest));
  Ok (with_heap h st).

Definition init_idle_thread (idle_stack_anchor idle_stack_lowest : Z)
    (st : kstate) : result kstate :=
  h ← store (heap st) idle_thread
        (set_stack idle_stack_anchor (idle_stack_anchor - idle_stack_lowest));
  h ← _thread_setup h idle_thread;
  '(h, rl) ← tlinsert h (ready_list st) idle_thread;
  Ok (with_ready_list rl (with_heap h st)).

Definition set_running_thread (thr : tptr) (st : kstate) : kstate :=
  with_CURTHR thr st.

Definition thread_init (main_stack_anchor main_stack_lowest
    idle_stack_anchor idle_stack_lowest : Z) (st : kstate) : result kstate :=
  st ← init_main_thread main_stack_anchor main_stack_lowest st;
  st ← init_idle_thread idle_stack_anchor idle_stack_lowest st;
  Ok (set_running_thread main_thread st).

Definition running_thread (st : kstate) : result Z :=
  t ← deref (heap st) (CURTHR st); Ok (id t).

(** The slot search of [thread_spawn]:
    [tid = 0; while (++tid < NTHR) if (thrtab[tid] == NULL) break;].
    [n] bounds the number of iterations. *)
Fixpoint spawn_scan (n : nat) (tab : list (option tptr)) (tid : Z)
  : result Z :=
  match n with
  | O => Ok tid
  | S n' =>
      let tid := tid + 1 in
      if bool_decide (tid < NTHR) then
        slot ← thrtab_at tab tid;
        match slot with
        | None => Ok tid
        | Some _ => spawn_scan n' tab tid
        end
      else Ok tid
  end.

(** [thread_spawn]. The results of [kmalloc(sizeof(struct thread))] (the
    address [child_addr] and the unspecified contents [fresh] of the new
    block) and of [memory_alloc_page()] are arguments. The two stores into
    the stack anchor go to the stack page, which is not represented. *)
Definition thread_spawn (thread_name : string)
    (child_addr : Z) (fresh : thread) (stack_page : Z) (st : kstate)
  : result (Z * kstate) :=
  tid ← spawn_scan (Z.to_nat NTHR) (thrtab st) 0;
  if bool_decide (tid = NTHR) then Fault (Panic "Too many threads") else
  let child := Kmalloc child_addr in
  let stack_anchor := stack_page + PAGE_SIZE - ANCHOR_SIZE in
  let tab := <[Z.to_nat tid := Some child]> (thrtab st) in
  cur ← deref (heap st) (CURTHR st);
  let c := mk_thread (context_ra fresh) thread_name stack_anchor
             (stack_anchor - stack_page) THREAD_READY tid (proc cur)
             (Some (CURTHR st)) (list_next fresh) (wait_cond fresh) in
  '(h, rl) ← tlinsert (<[child := c]> (heap st)) (ready_list st) child;
  h ← _thread_setup h child;
  Ok (tid, with_ready_list rl (with_heap h (with_thrtab tab st))).

(** ** Kernel memory as bytes, for the trap frame of a forked thread

    The memory maps the addresses that have been written to their bytes; a
    byte that was never written reads as 0. *)

Definition mem_read (mem : gmap Z Z) (addr : Z) : Z :=
  default 0 (mem !! addr).

Definition store64 (mem : gmap Z Z) (addr v : Z) : gmap Z Z :=
  foldr (λ i m, <[addr + Z.of_nat i :=
                    Z.land (Z.shiftr v (8 * Z.of_nat i)) 255]> m)
        mem (seq 0 8).

Definition load64 (mem : gmap Z Z) (addr : Z) : Z :=
  foldr (λ i acc, mem_read mem (addr + Z.of_nat i) + 256 * acc) 0 (seq 0 8).

(** [memcpy(dst, src, n)] for areas that do not overlap. *)
Definition memcpy (mem : gmap Z Z) (dst src n : Z) : gmap Z Z :=
  foldr (λ i m, <[dst + i := mem_read mem (src + i)]> m) mem (seqZ 0 n).

(** The slot search of [thread_fork_to_user]:
    [child_tid = 0; while (child_tid < NTHR) { if (thrtab[child_tid] == NULL)
    break; child_tid++; }]. *)
Fixpoint fork_scan (n : nat) (tab : list (option tptr)) (child_tid : Z)
  : result Z :=
  match n with
  | O => Ok child_tid
  | S n' =>
      if bool_decide (child_tid < NTHR) then
        slot ← thrtab_at tab child_tid;
        match slot with
        | None => Ok child_tid
        | Some _ => fork_scan n' tab (child_tid + 1)
        end
      else Ok child_tid
  end.

(** The statements of [thread_fork_to_user] behind the call of
    [_thread_finish_fork]. They are executed twice: by the child, which
    leaves [_thread_finish_fork] at once, and by the parent when it is next
    scheduled; [CURTHR] tells the two apart. *)
Definition thread_fork_to_user_resumed (child_tid : Z) (child : tptr)
    (st : kstate) : result (Z * kstate) :=
  tid ← running_thread st;
  if bool_decide (tid = child_tid) then
    c ← deref (heap st) child;
    let c_tfr := stack_base c - TFR_SIZE in
    Ok (child_tid,
        with_kmem (store64 (kmem st) (c_tfr + TFR_A0_OFFSET) 0) st)
  else Ok (child_tid, st).

Definition memory_space_switch (mtag_of : Z) (st : kstate) : kstate :=
  with_active_mspace (Some mtag_of) st.

(** Modelled from the spec: [_thread_swtch] of thrasm.s, which is not among
    the sources, saves the callee-saved registers of the current thread
    (among them the return address, which lies in [suspend_self]) into its
    context, loads those of the resuming thread, and makes it the current
    thread. The resuming thread continues at its saved [ra] and, where that
    lies in [suspend_self], sees the displaced thread as the value of the
    call. *)
Definition _thread_swtch (resuming_thread : tptr) (st : kstate)
  : result (resume_point * tptr * kstate) :=
  let prev := CURTHR st in
  h ← store (heap st) prev (set_context_ra ra_suspend_self);
  n ← deref h resuming_thread;
  Ok (context_ra n, prev, with_CURTHR resuming_thread (with_heap h st)).

(** The statements of [suspend_self] behind the call of [_thread_swtch],
    executed by the resumed thread. *)
Definition suspend_self_resumed (prev_thread : tptr) (st : kstate)
  : result kstate :=
  p ← deref (heap st) prev_thread;
  if bool_decide (state p = THREAD_EXITED) then
    h ← store (heap st) prev_thread (set_stack 0 0);
    Ok (with_heap h
          (with_freed_pages (freed_pages st ++ [stack_base p - PAGE_SIZE])
             st))
  else Ok st.

Definition resume_at (ra : resume_point) (prev_thread : tptr) (st : kstate)
  : result kstate :=
  match ra with
  | ra_null => Fault (Undefined "jump to a return address that was never set")
  | ra_thread_start => Ok st
  | ra_suspend_self => suspend_self_resumed prev_thread st
  | ra_fork child_tid child =>
      '(_, st) ← thread_fork_to_user_resumed child_tid child st; Ok st
  end.

(** The statements of [suspend_self] up to and including the call of
    [_thread_swtch]. *)
Definition suspend_self_switch (st : kstate)
  : result (resume_point * tptr * kstate) :=
  _ ← assert (negb (tlempty (ready_list st))) "!tlempty(&ready_list)";
  let susp_thread := CURTHR st in
  '(h, rl, next) ← tlremove (heap st) (ready_list st);
  match next with
  | None => Fault (Undefined "next_thread is NULL")
  | Some next_thread =>
      n ← deref h next_thread;
      _ ← assert (bool_decide (state n = THREAD_READY))
            "next_thread->state == THREAD_READY";
      h ← store h next_thread (set_state THREAD_RUNNING);
      s ← deref h susp_thread;
      '(h, rl) ← (if bool_decide (state s = THREAD_RUNNING) then
                    h ← store h susp_thread (set_state THREAD_READY);
                    tlinsert h rl susp_thread
                  else Ok (h, rl));
      n ← deref h next_thread;
      let st := with_ready_list rl (with_heap h st) in
      let st := match proc n with
                | Some p => memory_space_switch p st
                | None => st
                end in
      _thread_swtch next_thread st
  end.

(** [suspend_self], up to the point where the resumed thread has left its
    own [suspend_self] (or has started, or has left
    [thread_fork_to_user]). What the suspending thread does after its own
    call returns happens when it is scheduled again. *)
Definition suspend_self (st : kstate) : result kstate :=
  '(ra, prev_thread, st) ← suspend_self_switch st;
  resume_at ra prev_thread st.

Definition thread_yield (st : kstate) : result kstate :=
  t ← deref (heap st) (CURTHR st);
  _ ← assert (bool_decide (state t = THREAD_RUNNING))
        "CURTHR->state == THREAD_RUNNING";
  suspend_self st.

(** The loop of [condition_broadcast] over the wait list. A walk that needs
    more steps than there are threads has entered a cycle and never ends. *)
Fixpoint broadcast_loop (n : nat) (cond : cptr) (h : gmap tptr thread)
    (thr : option tptr) : result (gmap tptr thread) :=
  match thr with
  | None => Ok h
  | Some p =>
      match n with
      | O => Fault (Undefined "unbounded walk of a cyclic list")
      | S n' =>
          t ← deref h p;
          _ ← assert (bool_decide (state t = THREAD_WAITING))
                "thr->state == THREAD_WAITING";
          _ ← assert (bool_decide (wait_cond t = Some cond))
                "thr->wait_cond == cond";
          h ← store h p (set_state THREAD_READY);
          h ← store h p (set_wait_cond None);
          t ← deref h p;
          broadcast_loop n' cond h (list_next t)
      end
  end.

Definition condition_init (cond : cptr) (st : kstate) : kstate :=
  with_conds (<[cond := tlclear (conds st cond)]> (conds st)) st.

Definition condition_broadcast (cond : cptr) (st : kstate) : result kstate :=
  if tlempty (conds st cond) then Ok st else
  h ← broadcast_loop (size (heap st)) cond (heap st) (head (conds st cond));
  '(h, rl, wl) ← tlappend h (ready_list st) (conds st cond);
  Ok (with_conds (<[cond := tlclear wl]> (conds st))
        (with_ready_list rl (with_heap h st))).

Definition condition_wait (cond : cptr) (st : kstate) : result kstate :=
  t ← deref (heap st) (CURTHR st);
  _ ← assert (bool_decide (state t = THREAD_RUNNING))
        "CURTHR->state == THREAD_RUNNING";
  h ← store (heap st) (CURTHR st) (set_state THREAD_WAITING);
  h ← store h (CURTHR st) (set_wait_cond (Some cond));
  h ← store h (CURTHR st) (set_list_next None);
  '(h, wl) ← tlinsert h (conds st cond) (CURTHR st);
  suspend_self (with_conds (<[cond := wl]> (conds st)) (with_heap h st)).

(** [thread_exit], up to the switch to the next thread; the [panic] behind
    the call of [suspend_self] is for an exited thread that runs again. *)
Definition thread_exit (st : kstate) : result kstate :=
  if bool_decide (CURTHR st = main_thread) then Fault Halted else
  h ← store (heap st) (CURTHR st) (set_state THREAD_EXITED);
  t ← deref h (CURTHR st);
  match parent t with
  | None => Fault (AssertFailed "CURTHR->parent != NULL")
  | Some par =>
      st ← condition_broadcast (child_exit par) (with_heap h st);
      suspend_self st
  end.

(** Modelled from the spec: [_thread_finish_fork] of thrasm.s, which is not
    among the sources, saves the context of the parent (its return address
    lies in [thread_fork_to_user]) and continues in the child with the
    callee-saved registers of the parent, the thread pointer of the child
    and the stack pointer [child_ksp]. *)
Definition _thread_finish_fork (child_tid : Z) (child : tptr) (st : kstate)
  : result kstate :=
  h ← store (heap st) (CURTHR st) (set_context_ra (ra_fork child_tid child));
  Ok (with_CURTHR child (with_heap h st)).

(** [thread_fork_to_user] as the child runs it. [child_stack_lowest] is the
    result of [kmalloc(PAGE_SIZE)], [child_addr] and [fresh] those of
    [kmalloc(sizeof(struct thread))], and [parent_kernel_sp] the stack
    pointer read by the inline assembly. *)
Definition thread_fork_to_user (child_proc : option Z)
    (child_stack_lowest child_addr : Z) (fresh : thread)
    (parent_kernel_sp : Z) (st : kstate) : result (Z * kstate) :=
  match child_proc with
  | None => Fault (AssertFailed "child_proc != NULL")
  | Some cproc =>
      child_tid ← fork_scan (Z.to_nat NTHR + 1) (thrtab st) 0;
      if bool_decide (child_tid = NTHR) then Fault (Panic "Too many threads")
      else
      let child_kernel_stack_base := child_stack_lowest + PAGE_SIZE in
      let child := Kmalloc child_addr in
      let tab := <[Z.to_nat child_tid := Some child]> (thrtab st) in
      let base := child_kernel_stack_base - ANCHOR_SIZE in
      let c := mk_thread (context_ra fresh) "a forked thread" base
                 (base - child_stack_lowest) THREAD_RUNNING child_tid
                 child_proc (Some (CURTHR st)) (list_next fresh)
                 (wait_cond fresh) in
      h ← store (<[child := c]> (heap st)) (CURTHR st)
            (set_state THREAD_READY);
      '(h, rl) ← tlinsert h (ready_list st) (CURTHR st);
      let st1 := memory_space_switch cproc
                   (with_ready_list rl (with_heap h (with_thrtab tab st))) in
      par ← deref h (CURTHR st);
      let parent_kstack_used_size :=
        (stack_base par - parent_kernel_sp) `mod` 2 ^ 64 in
      let child_kernel_sp := base - parent_kstack_used_size in
      let st2 := with_kmem (memcpy (kmem st1) child_kernel_sp
                              parent_kernel_sp parent_kstack_used_size)
                   st1 in
      st3 ← _thread_finish_fork child_tid child st2;
      thread_fork_to_user_resumed child_tid child st3
  end.

(** The loop of [recycle_thread]:
    [for (ctid = 1; ctid < NTHR; ctid++) if (thrtab[ctid] != NULL &&
    thrtab[ctid]->parent == thr) thrtab[ctid]->parent = thr->parent;],
    entered with [ctid] and [n] iterations left. *)
Fixpoint recycle_loop (n : nat) (tab : list (option tptr)) (thr : tptr)
    (ctid : Z) (h : gmap tptr thread) : result (gmap tptr thread) :=
  match n with
  | O => Ok h
  | S n' =>
      slot ← thrtab_at tab ctid;
      h ← match slot with
          | None => Ok h
          | Some c =>
              ct ← deref h c;
              if bool_decide (parent ct = Some thr) then
                t ← deref h thr;
                store h c (set_parent (parent t))
              else Ok h
          end;
      recycle_loop n' tab thr (ctid + 1) h
  end.

(** [recycle_thread]; [kfree] ends the life of the thread structure. *)
Definition recycle_thread (tid : Z) (st : kstate) : result kstate :=
  slot ← thrtab_at (thrtab st) tid;
  _ ← assert (bool_decide (0 < tid ∧ tid < NTHR ∧ slot ≠ None))
        "0 < tid && tid < NTHR && thr != NULL";
  match slot with
  | None => Fault (AssertFailed "0 < tid && tid < NTHR && thr != NULL")
  | Some thr =>
      t ← deref (heap st) thr;
      _ ← assert (bool_decide (state t = THREAD_EXITED))
            "thr->state == THREAD_EXITED";
      h ← recycle_loop (Z.to_nat (NTHR - 1)) (thrtab st) thr 1 (heap st);
      Ok (with_heap (delete thr h)
            (with_thrtab (<[Z.to_nat tid := None]> (thrtab st)) st))
  end.

(** One round of the loop of [thread_join] and what follows it. *)
Definition thread_join_wait (tid : Z) (child : tptr) (st : kstate)
  : result (blocking Z) :=
  c ← deref (heap st) child;
  if bool_decide (state c ≠ THREAD_EXITED) then
    st ← condition_wait (child_exit (CURTHR st)) st; Ok (Suspended st)
  else
    st ← recycle_thread tid st; Ok (Returned tid st).

(** [thread_join]. The table is read before the range of [tid] is tested. *)
Definition thread_join (tid : Z) (st : kstate) : result (blocking Z) :=
  child ← thrtab_at (thrtab st) tid;
  if bool_decide (tid ≤ 0 ∨ NTHR ≤ tid) then Ok (Returned (-1) st) else
  match child with
  | None => Ok (Returned (-1) st)
  | Some child =>
      c ← deref (heap st) child;
      if bool_decide (parent c ≠ Some (CURTHR st)) then Ok (Returned (-1) st)
      else thread_join_wait tid child st
  end.

(** The first loop of [thread_join_any]; [childcnt] counts the children
    that have not exited. *)
Fixpoint join_any_scan (n : nat) (tid : Z) (childcnt : Z) (st : kstate)
  : result (Z + Z) :=
  match n with
  | O => Ok (inr childcnt)
  | S n' =>
      slot ← thrtab_at (thrtab st) tid;
      match slot with
      | None => join_any_scan n' (tid + 1) childcnt st
      | Some c =>
          ct ← deref (heap st) c;
          if bool_decide (parent ct = Some (CURTHR st)) then
            if bool_decide (state ct = THREAD_EXITED) then Ok (inl tid)
            else join_any_scan n' (tid + 1) (childcnt + 1) st
          else join_any_scan n' (tid + 1) childcnt st
      end
  end.

(** The second loop of [thread_join_any], run after the wake-up. *)
Fixpoint join_any_reap (n : nat) (tid : Z) (st : kstate)
  : result (Z * kstate) :=
  match n with
  | O => Fault (Panic "spurious child_exit signal")
  | S n' =>
      slot ← thrtab_at (thrtab st) tid;
      match slot with
      | None => join_any_reap n' (tid + 1) st
      | Some c =>
          ct ← deref (heap st) c;
          if bool_decide (parent ct = Some (CURTHR st)
                          ∧ state ct = THREAD_EXITED) then
            st ← recycle_thread tid st; Ok (tid, st)
          else join_any_reap n' (tid + 1) st
      end
  end.

Definition thread_join_any (st : kstate) : result (blocking Z) :=
  found ← join_any_scan (Z.to_nat (NTHR - 1)) 1 0 st;
  match found with
  | inl tid => thread_join tid st
  | inr childcnt =>
      if bool_decide (childcnt = 0)
      then Fault (Panic "thread_wait called by childless thread")
      else st ← condition_wait (child_exit (CURTHR st)) st; Ok (Suspended st)
  end.

(** The range test of the three accessors, [0 <= tid || tid < NTHR]. *)
Definition tid_in_range (tid : Z) : bool :=
  bool_decide (0 ≤ tid) || bool_decide (tid < NTHR).

Definition thread_process (tid : Z) (st : kstate) : result (option Z) :=
  _ ← assert (tid_in_range tid) "0 <= tid || tid < NTHR";
  slot ← thrtab_at (thrtab st) tid;
  match slot with
  | None => Fault (AssertFailed "thrtab[tid] != NULL")
  | Some p => t ← deref (heap st) p; Ok (proc t)
  end.

Definition thread_set_process (tid : Z) (new_proc : option Z) (st : kstate)
  : result kstate :=
  _ ← assert (tid_in_range tid) "0 <= tid || tid < NTHR";
  slot ← thrtab_at (thrtab st) tid;
  match slot with
  | None => Fault (AssertFailed "thrtab[tid] != NULL")
  | Some p => h ← store (heap st) p (set_proc new_proc); Ok (with_heap h st)
  end.

Definition thread_name (tid : Z) (st : kstate) : result string :=
  _ ← assert (tid_in_range tid) "0 <= tid || tid < NTHR";
  slot ← thrtab_at (thrtab st) tid;
  match slot with
  | None => Fault (AssertFailed "thrtab[tid] != NULL")
  | Some p => t ← deref (heap st) p; Ok (name t)
  end.

(** ** The generic I/O layer (io.c) *)

(** [long] and [unsigned long] are 64 bits wide. *)
Definition LONG_MAX : Z := 2 ^ 63 - 1.
Definition to_ulong (z : Z) : Z := z `mod` 2 ^ 64.
Definition to_long (z : Z) : Z := (z + 2 ^ 63) `mod` 2 ^ 64 - 2 ^ 63.

(** The loop shared by [ioread_full] and [iowrite]:
    [while (acc < n) { cnt = op(io, buf+acc, n-acc); if (cnt < 0) return cnt;
    else if (cnt == 0) return acc; acc += cnt; } return acc;]
    with [acc] a [long] and [n] an [unsigned long]. The state [St] is what
    the operation changes. [None] when [fuel] iterations did not end it. *)
Fixpoint transfer_loop {St : Type} (fuel : nat) (op : St → Z → Z → Z * St)
    (n : Z) (acc : Z) (s : St) : option (Z * St) :=
  if bool_decide (to_ulong acc < n) then
    match fuel with
    | O => None
    | S fuel' =>
        let '(cnt, s') := op s acc (to_ulong (n - acc)) in
        if bool_decide (cnt < 0) then Some (cnt, s')
        else if bool_decide (cnt = 0) then Some (acc, s')
        else transfer_loop fuel' op n (to_long (acc + cnt)) s'
    end
  else Some (acc, s).

(** A call [io->ops->read(io, buf+acc, bufsz-acc)] of [ioread_full] and a
    call [io->ops->write(io, buf+acc, n-acc)] of [iowrite] as steps of the
    loop; a read changes the device and the buffer, a write the device. *)
Definition read_step {D : Type} (rd : D → list Z → Z → Z → Z * D * list Z)
  : D * list Z → Z → Z → Z * (D * list Z) :=
  λ '(d, b) acc len, let '(cnt, d', b') := rd d b acc len in (cnt, (d', b')).

Definition write_step {D : Type} (wr : D → list Z → Z → Z → Z * D)
    (buf : list Z) : D → Z → Z → Z * D :=
  λ d acc len, wr d buf acc len.

Definition ioread_full {D : Type} (fuel : nat) (ops : io_ops D) (io : D)
    (buf : list Z) (bufsz : Z) : option (Z * (D * list Z)) :=
  match ops_read ops with
  | None => Some (- ENOTSUP, (io, buf))
  | Some rd => transfer_loop fuel (read_step rd) bufsz 0 (io, buf)
  end.

Definition iowrite {D : Type} (fuel : nat) (ops : io_ops D) (io : D)
    (buf : list Z) (n : Z) : option (Z * D) :=
  match ops_write ops with
  | None => Some (- ENOTSUP, io)
  | Some wr => transfer_loop fuel (write_step wr buf) n 0 io
  end.

(** The course of the shared loop: it goes on until the full length has
    been transferred, or the operation reports an error, which is the
    result, or the operation reports 0, and then the result is what has been
    accumulated. *)
Inductive transfer_run {St : Type} (op : St → Z → Z → Z * St) (n : Z)
  : Z → St → Z → St → Prop :=
  | run_full acc s :
      n ≤ acc → transfer_run op n acc s acc s
  | run_error acc s cnt s' :
      acc < n → op s acc (n - acc) = (cnt, s') → cnt < 0 →
      transfer_run op n acc s cnt s'
  | run_eof acc s s' :
      acc < n → op s acc (n - acc) = (0, s') →
      transfer_run op n acc s acc s'
  | run_more acc s cnt s' r s'' :
      acc < n → op s acc (n - acc) = (cnt, s') → 0 < cnt →
      transfer_run op n (acc + cnt) s' r s'' →
      transfer_run op n acc s r s''.

(** [ioread_full] and [iowrite] in the words of the specification, over the
    backing operation itself: the helper asks the backing operation for what
    is still missing, at the place in the buffer behind what has been
    transferred, until the full length has been transferred, or the
    operation reports an error, which is the result, or the operation
    reports 0, and then the result is what has been accumulated. *)
Inductive read_run {D : Type} (rd : D → list Z → Z → Z → Z * D * list Z)
    (n : Z) : Z → D → list Z → Z → D → list Z → Prop :=
  | read_run_full acc d b :
      n ≤ acc → read_run rd n acc d b acc d b
  | read_run_error acc d b cnt d' b' :
      acc < n → rd d b acc (n - acc) = (cnt, d', b') → cnt < 0 →
      read_run rd n acc d b cnt d' b'
  | read_run_eof acc d b d' b' :
      acc < n → rd d b acc (n - acc) = (0, d', b') →
      read_run rd n acc d b acc d' b'
  | read_run_more acc d b cnt d' b' r d'' b'' :
      acc < n → rd d b acc (n - acc) = (cnt, d', b') → 0 < cnt →
      read_run rd n (acc + cnt) d' b' r d'' b'' →
      read_run rd n acc d b r d'' b''.

Inductive write_run {D : Type} (wr : D → list Z → Z → Z → Z * D)
    (buf : list Z) (n : Z) : Z → D → Z → D → Prop :=
  | write_run_full acc d :
      n ≤ acc → write_run wr buf n acc d acc d
  | write_run_error acc d cnt d' :
      acc < n → wr d buf acc (n - acc) = (cnt, d') → cnt < 0 →
      write_run wr buf n acc d cnt d'
  | write_run_eof acc d d' :
      acc < n → wr d buf acc (n - acc) = (0, d') →
      write_run wr buf n acc d acc d'
  | write_run_more acc d cnt d' r d'' :
      acc < n → wr d buf acc (n - acc) = (cnt, d') → 0 < cnt →
      write_run wr buf n (acc + cnt) d' r d'' →
      write_run wr buf n acc d r d''.

(** ** The in-memory literal device *)

Record io_lit : Type := mk_io_lit {
  lit_refcnt : Z;
  lit_buf : list Z;
  lit_size : Z;
  lit_pos : Z
}.

Definition set_lit_pos (pos : Z) (lit : io_lit) : io_lit :=
  mk_io_lit (lit_refcnt lit) (lit_buf lit) (lit_size lit) pos.
Definition set_lit_buf (b : list Z) (lit : io_lit) : io_lit :=
  mk_io_lit (lit_refcnt lit) b (lit_size lit) (lit_pos lit).

(** [memcpy(dst + doff, src + soff, n)] on byte lists. *)
Definition copy_bytes (dst : list Z) (doff : Z) (src : list Z) (soff n : Z)
  : list Z :=
  take (Z.to_nat doff) dst
  ++ take (Z.to_nat n) (drop (Z.to_nat soff) src)
  ++ drop (Z.to_nat (doff + n)) dst.

(** [io_lit_read], called with the caller's buffer at offset [off]. *)
Definition io_lit_read (lit : io_lit) (buf : list Z) (off bufsz : Z)
  : Z * io_lit * list Z :=
  if bool_decide (lit_size lit ≤ lit_pos lit) then (- EINVAL, lit, buf) else
  let bytes_to_read :=
    if bool_decide (lit_size lit < to_ulong (lit_pos lit + bufsz))
    then to_ulong (lit_size lit - lit_pos lit) else bufsz in
  (0, set_lit_pos (to_ulong (lit_pos lit + bytes_to_read)) lit,
   copy_bytes buf off (lit_buf lit) (lit_pos lit) bytes_to_read).

Definition io_lit_write (lit : io_lit) (buf : list Z) (off n : Z)
  : Z * io_lit :=
  if bool_decide (lit_size lit ≤ lit_pos lit) then (- EINVAL, lit) else
  let bytes_to_write :=
    if bool_decide (lit_size lit < to_ulong (lit_pos lit + n))
    then to_ulong (lit_size lit - lit_pos lit) else n in
  (0, set_lit_pos (to_ulong (lit_pos lit + bytes_to_write))
        (set_lit_buf (copy_bytes (lit_buf lit) (lit_pos lit) buf off
                        bytes_to_write) lit)).

(** [io_lit_ioctl]; [arg] is the [uint64_t] the argument points to, and the
    third component of the result is its value afterwards. *)
Definition io_lit_ioctl (lit : io_lit) (cmd : Z) (arg : Z)
  : Z * io_lit * Z :=
  if bool_decide (cmd = IOCTL_GETLEN) then (0, lit, lit_size lit)
  else if bool_decide (cmd = IOCTL_SETPOS) then (0, set_lit_pos arg lit, arg)
  else if bool_decide (cmd = IOCTL_GETPOS) then (0, lit, lit_pos lit)
  else if bool_decide (cmd = IOCTL_GETBLKSZ) then (0, lit, 4096)
  else (-1, lit, arg).

Definition iolit_ops : io_ops io_lit :=
  mk_io_ops (Some io_lit_read) (Some io_lit_write) (Some io_lit_ioctl).

Definition iolit_init (buf : list Z) (size : Z) : io_lit :=
  mk_io_lit 1 buf size 0.

(** ** Thread lists as sequences

    [lseg h p xs]: following [list_next] from [p] visits exactly the threads
    [xs] and then reaches NULL. [is_tlist h l xs]: the list [l] holds [xs],
    in this order, and its [tail] points to the last of them. *)
Fixpoint lseg (h : gmap tptr thread) (p : option tptr) (xs : list tptr)
  : Prop :=
  match xs with
  | [] => p = None
  | x :: xs' => p = Some x ∧ ∃ t, h !! x = Some t ∧ lseg h (list_next t) xs'
  end.

Definition is_tlist (h : gmap tptr thread) (l : thread_list)
    (xs : list tptr) : Prop :=
  lseg h (head l) xs ∧ tail l = last xs.

(** The threads met on a walk of at most [n] steps from [p]. *)
Fixpoint walk (n : nat) (h : gmap tptr thread) (p : option tptr)
  : list tptr :=
  match n, p with
  | S n', Some x =>
      x :: walk n' h (match h !! x with
                      | Some t => list_next t
                      | None => None
                      end)
  | _, _ => []
  end.

(** The members of a thread list, in list order. *)
Definition tl_elems (h : gmap tptr thread) (l : thread_list) : list tptr :=
  walk (size h) h (head l).

Definition has_state (st : kstate) (p : tptr) (s : thread_state) : Prop :=
  ∃ t, heap st !! p = Some t ∧ state t = s.
(** [next_only h h']: the heap [h'] differs from [h] at most in the
    [list_next] members of its threads. *)
Definition next_only (h h' : gmap tptr thread) : Prop :=
  ∀ p, match h !! p with
       | Some t => ∃ n, h' !! p = Some (set_list_next n t)
       | None => h' !! p = None
       end.

(** What [condition_broadcast] does to one waiter. *)
Definition wake (t : thread) : thread :=
  set_wait_cond None (set_state THREAD_READY t).

(** ** The scheduler invariant *)

(** The scheduling state and the awaited condition of a thread. *)
Definition sw (h : gmap tptr thread) (p : tptr)
  : option (thread_state * option cptr) :=
  (λ t, (state t, wait_cond t)) <$> h !! p.

(** The [list_next] member of a thread. *)
Definition nx (h : gmap tptr thread) (p : tptr) : option (option tptr) :=
  list_next <$> h !! p.

(** The lists and the thread states agree: the ready list holds [rs], the
    wait list of every condition [c] holds [ws c], the READY threads are
    those of [rs], and the threads WAITING on [c] are those of [ws c]. *)
Record lists_inv (h : gmap tptr thread) (rl : thread_list)
    (cs : cptr → thread_list) (rs : list tptr) (ws : cptr → list tptr)
  : Prop := mk_lists_inv {
  li_ready_list : is_tlist h rl rs;
  li_wait_lists : ∀ c, is_tlist h (cs c) (ws c);
  li_ready : ∀ p, p ∈ rs ↔ ∃ w, sw h p = Some (THREAD_READY, w);
  li_waiting : ∀ p c, p ∈ ws c ↔ sw h p = Some (THREAD_WAITING, Some c);
  li_wait_cond : ∀ p, sw h p ≠ Some (THREAD_WAITING, None)
}.

Definition sched_inv_at (st : kstate) (rs : list tptr)
    (ws : cptr → list tptr) : Prop :=
  lists_inv (heap st) (ready_list st) (conds st) rs ws
  ∧ ∀ p, (∃ w, sw (heap st) p = Some (THREAD_RUNNING, w)) ↔ p = CURTHR st.

Definition sched_inv (st : kstate) : Prop :=
  ∃ rs ws, sched_inv_at st rs ws.

(** The number of times [p] occurs in [l]. *)
Definition occurrences (p : tptr) (l : list tptr) : nat :=
  length (filter (λ q, q = p) l).

(** The invariant as the specification words it: exactly one thread is
    RUNNING, every READY thread is on the ready list exactly once, and every
    WAITING thread is on the wait list of exactly one condition. *)
Definition scheduler_invariant (st : kstate) : Prop :=
  (∃ p, has_state st p THREAD_RUNNING
        ∧ ∀ q, has_state st q THREAD_RUNNING → q = p)
  ∧ (∀ p, has_state st p THREAD_READY →
          occurrences p (tl_elems (heap st) (ready_list st)) = 1%nat)
  ∧ (∀ p, has_state st p THREAD_WAITING →
          ∃ c, occurrences p (tl_elems (heap st) (conds st c)) = 1%nat
               ∧ ∀ c', p ∈ tl_elems (heap st) (conds st c') → c' = c).

(** The operations of the scheduler, with the values that the allocators
    hand to [thread_spawn]. *)
Inductive sched_op : Type :=
  | op_thread_spawn (thread_name : string) (child_addr : Z) (fresh : thread)
      (stack_page : Z)
  | op_thread_yield
  | op_thread_exit
  | op_condition_wait (c : cptr)
  | op_condition_broadcast (c : cptr)
  | op_suspend_self.

Definition run_op (o : sched_op) (st : kstate) : result kstate :=
  match o with
  | op_thread_spawn nm a fresh pg =>
      '(_, st) ← thread_spawn nm a fresh pg st; Ok st
  | op_thread_yield => thread_yield st
  | op_thread_exit => thread_exit st
  | op_condition_wait c => condition_wait c st
  | op_condition_broadcast c => condition_broadcast c st
  | op_suspend_self => suspend_self st
  end.

(** [kmalloc] hands out a block that is not in use. *)
Definition kmalloc_fresh (o : sched_op) (st : kstate) : Prop :=
  match o with
  | op_thread_spawn _ a _ _ => heap st !! Kmalloc a = None
  | _ => True
  end.

(** The states the scheduler can get into from the state [thread_init]
    leaves behind. *)
Inductive reachable : kstate → Prop :=
  | reachable_init tp mem msa msl isa isl st :
      thread_init msa msl isa isl (boot_state tp mem) = Ok st →
      reachable st
  | reachable_step st o st' :
      reachable st → kmalloc_fresh o st → run_op o st = Ok st' →
      reachable st'.

(** What [recycle_thread] does to a thread of the table when it recycles
    [thr], whose parent is [par]. *)
Definition reparent (thr : tptr) (par : option tptr) (t : thread) : thread :=
  if bool_decide (parent t = Some thr) then set_parent par t else t.

(** ** Members of a thread structure across an operation *)

(** [agree P h h']: the heaps [h] and [h'] hold the same threads, and the
    member (or group of members) [P] of each of them has the same value in
    both. *)
Definition agree {A : Type} (P : thread → A) (h h' : gmap tptr thread)
  : Prop :=
  ∀ p, P <$> h' !! p = P <$> h !! p.

(** The members that are written when a thread is created and, afterwards,
    only by [thread_set_process] and [recycle_thread]. *)
Definition identity (t : thread) : string * Z * option Z * option tptr :=
  (name t, id t, proc t, parent t).

Global Instance resume_point_eq_dec : EqDecision resume_point.
Proof. solve_decision. Defined.

(** The saved [ra] of a thread is one that the thread manager writes: the
    thread goes on from [_thread_setup], or behind the call of
    [_thread_swtch] in [suspend_self], or, as the parent, behind the call
    of [_thread_finish_fork] in [thread_fork_to_user], where [child_tid] is
    the slot of its child and so not its own. *)
Definition resumable (t : thread) : Prop :=
  context_ra t = ra_thread_start
  ∨ context_ra t = ra_suspend_self
  ∨ ∃ child_tid child,
      context_ra t = ra_fork child_tid child ∧ id t ≠ child_tid.

(** What decides where a thread goes on: its saved [ra] and its [id]. *)
Definition saved_context (t : thread) : resume_point * Z :=
  (context_ra t, id t).

(** Every thread but the one that runs has a saved [ra] that the thread
    manager has written. *)
Definition parked_inv (st : kstate) : Prop :=
  ∀ p t, heap st !! p = Some t → p ≠ CURTHR st → resumable t.

(** [P] is a member (or group of members) that the scheduler does not
    write: it is the same after a change of the list link, the state, the
    awaited condition, the saved context and the stack members. *)
Definition sched_stable {A : Type} (P : thread → A) : Prop :=
  (∀ n t, P (set_list_next n t) = P t)
  ∧ (∀ s t, P (set_state s t) = P t)
  ∧ (∀ w t, P (set_wait_cond w t) = P t)
  ∧ (∀ r t, P (set_context_ra r t) = P t)
  ∧ (∀ b s t, P (set_stack b s t) = P t).

(** The place of a thread in the thread table and in the family tree. *)
Definition kinship (t : thread) : Z * option tptr := (id t, parent t).

(** ** All operations of the thread manager *)

Definition state_after {A : Type} (b : blocking A) : kstate :=
  match b with
  | Returned _ st => st
  | Suspended st => st
  end.

(** The exported operations, with the values the allocators hand to them.
    A call of [thread_join] or [thread_join_any] that was suspended goes on
    when its caller runs again: [thread_join] with the next round of its
    loop, for the [tid] and the [child] it holds, [thread_join_any] with its
    second loop. *)
Inductive thread_op : Type :=
  | call_sched (o : sched_op)
  | call_thread_fork_to_user (child_proc : option Z)
      (child_stack_lowest child_addr : Z) (fresh : thread)
      (parent_kernel_sp : Z)
  | call_thread_join (tid : Z)
  | call_thread_join_again (tid : Z) (child : tptr)
  | call_thread_join_any
  | call_thread_join_any_woken
  | call_thread_set_process (tid : Z) (new_proc : option Z).

Definition run_thread_op (o : thread_op) (st : kstate) : result kstate :=
  match o with
  | call_sched o => run_op o st
  | call_thread_fork_to_user cp low a fresh sp =>
      '(_, st) ← thread_fork_to_user cp low a fresh sp st; Ok st
  | call_thread_join tid => b ← thread_join tid st; Ok (state_after b)
  | call_thread_join_again tid child =>
      b ← thread_join_wait tid child st; Ok (state_after b)
  | call_thread_join_any => b ← thread_join_any st; Ok (state_after b)
  | call_thread_join_any_woken =>
      '(_, st) ← join_any_reap (Z.to_nat (NTHR - 1)) 1 st; Ok st
  | call_thread_set_process tid p => thread_set_process tid p st
  end.

(** [kmalloc] hands out a block that is not in use. *)
Definition kmalloc_fresh_op (o : thread_op) (st : kstate) : Prop :=
  match o with
  | call_sched o => kmalloc_fresh o st
  | call_thread_fork_to_user _ _ a _ _ => heap st !! Kmalloc a = None
  | _ => True
  end.

(** The states the thread manager can get into from the state
    [thread_init] leaves behind, by any of its operations. *)
Inductive reachable_by_all : kstate → Prop :=
  | reachable_by_all_init tp mem msa msl isa isl st :
      thread_init msa msl isa isl (boot_state tp mem) = Ok st →
      reachable_by_all st
  | reachable_by_all_step st o st' :
      reachable_by_all st → kmalloc_fresh_op o st →
      run_thread_op o st = Ok st' →
      reachable_by_all st'.

(** The thread table and the thread structures agree: the table has [NTHR]
    slots; a slot that is not NULL points to a live thread whose [id] is the
    index of the slot; every live thread is in the slot of its [id]; slot 0
    is the main thread, which alone has no parent; and the parent of a
    thread is a live thread, with no thread among its own ancestors. *)
Record thrtab_inv (st : kstate) : Prop := mk_thrtab_inv {
  ti_length : length (thrtab st) = Z.to_nat NTHR;
  ti_slot : ∀ i p, thrtab st !! i = Some (Some p) →
                   ∃ t, heap st !! p = Some t ∧ id t = Z.of_nat i;
  ti_heap : ∀ p t, heap st !! p = Some t →
                   0 ≤ id t ∧ thrtab st !! Z.to_nat (id t) = Some (Some p);
  ti_main : thrtab st !! 0%nat = Some (Some main_thread);
  ti_orphan : ∀ p t, heap st !! p = Some t →
                     parent t = None ↔ p = main_thread;
  ti_rank : ∃ rank : tptr → nat,
              ∀ p t q, heap st !! p = Some t → parent t = Some q →
                       is_Some (heap st !! q) ∧ (rank q < rank p)%nat
}.

(** Slot [i] of the thread table holds a child of the running thread, and a
    child of the running thread that has EXITED. *)
Definition child_in_slot (st : kstate) (i : Z) : Prop :=
  ∃ p t, thrtab st !! Z.to_nat i = Some (Some p) ∧ heap st !! p = Some t
         ∧ parent t = Some (CURTHR st).

Definition exited_child_in_slot (st : kstate) (i : Z) : Prop :=
  ∃ p t, thrtab st !! Z.to_nat i = Some (Some p) ∧ heap st !! p = Some t
         ∧ parent t = Some (CURTHR st) ∧ state t = THREAD_EXITED.


(** ** The terminal layer (io.c)

    The inline functions [ioread], [ioputc] and [iogetc] of io.h are not
    among the sources; where the terminal code calls one of them on its
    backing device, the model takes the function as an argument. *)

Definition set_rawio {R : Type} (raw : R) (iot : io_term R) : io_term R :=
  mk_io_term raw (cr_out iot) (cr_in iot).
Definition set_cr_out {R : Type} (b : bool) (iot : io_term R) : io_term R :=
  mk_io_term (rawio iot) b (cr_in iot).
Definition set_cr_in {R : Type} (b : bool) (iot : io_term R) : io_term R :=
  mk_io_term (rawio iot) (cr_out iot) b.

Definition ioterm_init {R : Type} (rawio : R) : io_term R :=
  mk_io_term rawio false false.

(** The inner loop of [ioterm_read], which fixes up the line endings of the
    bytes just read, in place: [rp] is the read position, [wp] the write
    position, and [n] the number of bytes between [rp] and [buf+cnt]. *)
Fixpoint ioterm_read_scan (n : nat) (buf : list Z) (rp wp : nat)
    (cr_in : bool) : result (list Z * nat * bool) :=
  match n with
  | O => Ok (buf, wp, cr_in)
  | S n' =>
      match buf !! rp with
      | None => Fault (Undefined "read past the end of the buffer")
      | Some ch =>
          if cr_in then
            if bool_decide (ch = 13) then
              ioterm_read_scan n' (<[wp := 10]> buf) (S rp) (S wp) cr_in
            else if bool_decide (ch = 10) then
              ioterm_read_scan n' buf (S rp) wp false
            else
              ioterm_read_scan n' (<[wp := ch]> buf) (S rp) (S wp) false
          else
            if bool_decide (ch = 13) then
              ioterm_read_scan n' (<[wp := 10]> buf) (S rp) (S wp) true
            else
              ioterm_read_scan n' (<[wp := ch]> buf) (S rp) (S wp) cr_in
      end
  end.

(** [ioterm_read], called with the caller's buffer at offset [off]; [ioread]
    is the read of the backing device. The do-while loop reads and scans
    until at least one character is left in the buffer. [None] when [fuel]
    rounds did not end it. *)
Fixpoint ioterm_read {R : Type}
    (ioread : R → list Z → Z → Z → Z * R * list Z)
    (fuel : nat) (iot : io_term R) (buf : list Z) (off len : Z)
  : option (result (Z * io_term R * list Z)) :=
  match fuel with
  | O => None
  | S fuel' =>
      let '(cnt, raw, buf) := ioread (rawio iot) buf off len in
      let iot := set_rawio raw iot in
      if bool_decide (cnt < 0) then Some (Ok (cnt, iot, buf)) else
      match ioterm_read_scan (Z.to_nat cnt) buf (Z.to_nat off) (Z.to_nat off)
              (cr_in iot) with
      | Fault f => Some (Fault f)
      | Ok (buf, wp, cr) =>
          let iot := set_cr_in cr iot in
          if bool_decide (wp = Z.to_nat off)
          then ioterm_read ioread fuel' iot buf off len
          else Some (Ok (Z.of_nat wp - off, iot, buf))
      end
  end.

(** Input normalisation in the words of the comment at the head of the
    terminal code: what is returned for the character [ch] in the state
    [cr_in], and the state afterwards. *)
Definition crlf_in_step (cr_in : bool) (ch : Z) : list Z * bool :=
  if cr_in then
    if bool_decide (ch = 13) then ([10], true)
    else if bool_decide (ch = 10) then ([], false)
    else ([ch], false)
  else
    if bool_decide (ch = 13) then ([10], true) else ([ch], false).

Fixpoint crlf_in (cr_in : bool) (bs : list Z) : list Z * bool :=
  match bs with
  | [] => ([], cr_in)
  | ch :: bs' =>
      let '(o, cr) := crlf_in_step cr_in ch in
      let '(os, cr') := crlf_in cr bs' in
      (o ++ os, cr')
  end.


(** One [cnt = iowrite(iot->rawio, wp, n)] of [ioterm_write] with the two
    early returns that follow it, [if (cnt < 0) return cnt; else if
    (cnt == 0) return acc;]. [k] is the rest of the function. The pointer
    [wp] is the buffer from the position [wp] on. *)
Definition ioterm_write_out {R : Type} (fuel : nat) (ops : io_ops R)
    (iot : io_term R) (buf : list Z) (wp n acc : Z)
    (k : Z → io_term R → option (result (Z * io_term R)))
  : option (result (Z * io_term R)) :=
  match iowrite fuel ops (rawio iot) (drop (Z.to_nat wp) buf) (to_ulong n) with
  | None => None
  | Some (cnt, raw) =>
      let iot := set_rawio raw iot in
      if bool_decide (cnt < 0) then Some (Ok (cnt, iot))
      else if bool_decide (cnt = 0) then Some (Ok (acc, iot))
      else k cnt iot
  end.

(** One [cnt = ioputc(iot->rawio, c); if (cnt < 0) return cnt;]. *)
Definition ioterm_write_putc {R : Type} (ioputc : R → Z → Z * R)
    (iot : io_term R) (c : Z)
    (k : io_term R → option (result (Z * io_term R)))
  : option (result (Z * io_term R)) :=
  let '(cnt, raw) := ioputc (rawio iot) c in
  let iot := set_rawio raw iot in
  if bool_decide (cnt < 0) then Some (Ok (cnt, iot)) else k iot.

(** The loop of [ioterm_write] and what follows it. [rp] and [wp] are
    positions in the caller's buffer, [n] the number of bytes between [rp]
    and [buf+len]; [ioputc] is the one-character write of the backing
    device, and [fuel] bounds the rounds of each [iowrite]. *)
Fixpoint ioterm_write_loop {R : Type} (ioputc : R → Z → Z * R) (fuel : nat)
    (ops : io_ops R) (n : nat) (buf : list Z) (iot : io_term R)
    (rp wp acc : Z) : option (result (Z * io_term R)) :=
  match n with
  | O =>
      if bool_decide (rp ≠ wp) then
        ioterm_write_out fuel ops iot buf wp (rp - wp) acc
          (λ cnt iot, Some (Ok (to_long (acc + cnt), iot)))
      else Some (Ok (acc, iot))
  | S n' =>
      match buf !! Z.to_nat rp with
      | None => Some (Fault (Undefined "read past the end of the buffer"))
      | Some ch =>
          let rp := rp + 1 in
          if bool_decide (ch = 13) then
            let lone_cr :=
              ioterm_write_out fuel ops iot buf wp (rp - wp) acc
                (λ cnt iot,
                   let acc := to_long (acc + cnt) in
                   let wp := wp + cnt in
                   ioterm_write_putc ioputc iot 10
                     (λ iot,
                        ioterm_write_loop ioputc fuel ops n' buf
                          (set_cr_out true iot) rp wp acc)) in
            match n' with
            | O => lone_cr
            | S n'' =>
                match buf !! Z.to_nat rp with
                | None =>
                    Some (Fault (Undefined "read past the end of the buffer"))
                | Some nx =>
                    if bool_decide (nx = 10) then
                      ioterm_write_loop ioputc fuel ops n'' buf
                        (set_cr_out false iot) (rp + 1) wp acc
                    else lone_cr
                end
            end
          else if bool_decide (ch = 10) then
            if cr_out iot then
              ioterm_write_loop ioputc fuel ops n' buf
                (set_cr_out false iot) rp (wp + 1) acc
            else
              let put_cr := λ iot wp acc,
                ioterm_write_putc ioputc iot 13
                  (λ iot,
                     ioterm_write_loop ioputc fuel ops n' buf
                       (set_cr_out false iot) rp wp acc) in
              if bool_decide (wp ≠ rp - 1) then
                ioterm_write_out fuel ops iot buf wp (rp - 1 - wp) acc
                  (λ cnt iot, put_cr iot (wp + cnt) (to_long (acc + cnt)))
              else put_cr iot wp acc
          else
            ioterm_write_loop ioputc fuel ops n' buf
              (set_cr_out false iot) rp wp acc
      end
  end.

(** [ioterm_write], called with the caller's buffer at offset [off]. *)
Definition ioterm_write {R : Type} (ioputc : R → Z → Z * R) (fuel : nat)
    (ops : io_ops R) (iot : io_term R) (buf : list Z) (off len : Z)
  : option (result (Z * io_term R)) :=
  ioterm_write_loop ioputc fuel ops (Z.to_nat len) buf iot off off 0.

(** Output normalisation in the words of the comment at the head of the
    terminal code: what is written to the backing device for the character
    [ch] in the state [cr_out], and the state afterwards. *)
Definition crlf_out_step (cr_out : bool) (ch : Z) : list Z * bool :=
  if cr_out then
    if bool_decide (ch = 13) then ([13; 10], true)
    else if bool_decide (ch = 10) then ([], false)
    else ([ch], false)
  else
    if bool_decide (ch = 13) then ([13; 10], true)
    else if bool_decide (ch = 10) then ([13; 10], false)
    else ([ch], false).

Fixpoint crlf_out (cr_out : bool) (bs : list Z) : list Z * bool :=
  match bs with
  | [] => ([], cr_out)
  | ch :: bs' =>
      let '(o, cr) := crlf_out_step cr_out ch in
      let '(os, cr') := crlf_out cr bs' in
      (o ++ os, cr')
  end.

(** A backing device that takes whatever it is given: [sent] is what it
    has received so far; its write takes all the bytes it is handed and
    reports their number, its one-character write takes the character. *)
Definition accepts_all {R : Type} (sent : R → list Z) (ops : io_ops R)
    (ioputc : R → Z → Z * R) : Prop :=
  (∃ wr, ops_write ops = Some wr
         ∧ ∀ r b off n, 0 ≤ off → 0 ≤ n →
             (wr r b off n).1 = n
             ∧ sent (wr r b off n).2
               = sent r ++ take (Z.to_nat n) (drop (Z.to_nat off) b))
  ∧ (∀ r c, 0 ≤ (ioputc r c).1 ∧ sent (ioputc r c).2 = sent r ++ [c]).

(** A byte stream in which every carriage return is followed by a line
    feed and every line feed follows a carriage return. *)
Fixpoint crlf_only (l : list Z) : bool :=
  match l with
  | [] => true
  | c :: l' =>
      if bool_decide (c = 13) then
        match l' with
        | [] => false
        | d :: l'' => bool_decide (d = 10) && crlf_only l''
        end
      else bool_decide (c ≠ 10) && crlf_only l'
  end.

(** [*p = c] on the caller's buffer, [p] being the offset from [buf]. *)
Definition poke (buf : list Z) (p : Z) (c : Z) : result (list Z) :=
  if bool_decide (0 ≤ p < Z.of_nat (length buf))
  then Ok (<[Z.to_nat p := c]> buf)
  else Fault (Undefined "write outside the buffer").

(** One [result = ioputc(iot->rawio, c)] of [ioterm_getsn]. *)
Definition getsn_putc {R : Type} (ioputc : R → Z → Z * R) (iot : io_term R)
    (c : Z) : Z * io_term R :=
  let '(result, raw) := ioputc (rawio iot) c in (result, set_rawio raw iot).

(** [ioterm_getsn]: [iogetc] reads the next character from the terminal
    itself, [ioputc] echoes to the backing device. [p] is the offset of the
    write position from [buf], [n] the room that is left. The result is
    [true] for [buf] and [false] for NULL, with the terminal and the buffer
    afterwards; [None] when [fuel] characters did not end the line. *)
Fixpoint ioterm_getsn_loop {R : Type} (iogetc : io_term R → Z * io_term R)
    (ioputc : R → Z → Z * R) (fuel : nat) (iot : io_term R)
    (buf : list Z) (p n : Z) : option (result (bool * io_term R * list Z)) :=
  match fuel with
  | O => None
  | S fuel' =>
      let '(c, iot) := iogetc iot in
      if bool_decide (c = 91) then
        ioterm_getsn_loop iogetc ioputc fuel' (set_cr_in false iot) buf p n
      else if bool_decide (c = 13 ∨ c = 10) then
        let '(result, iot) := getsn_putc ioputc iot 13 in
        if bool_decide (result < 0) then Some (Ok (false, iot, buf)) else
        let '(result, iot) := getsn_putc ioputc iot 10 in
        if bool_decide (result < 0) then Some (Ok (false, iot, buf)) else
        match poke buf p 0 with
        | Fault f => Some (Fault f)
        | Ok buf => Some (Ok (true, iot, buf))
        end
      else if bool_decide (c = 8 ∨ c = 127) then
        if bool_decide (p ≠ 0) then
          let p := p - 1 in
          let n := to_ulong (n + 1) in
          let '(result, iot) := getsn_putc ioputc iot 8 in
          if bool_decide (result < 0) then Some (Ok (false, iot, buf)) else
          let '(result, iot) := getsn_putc ioputc iot 32 in
          if bool_decide (result < 0) then Some (Ok (false, iot, buf)) else
          let '(result, iot) := getsn_putc ioputc iot 8 in
          if bool_decide (result < 0) then Some (Ok (false, iot, buf)) else
          ioterm_getsn_loop iogetc ioputc fuel' iot buf p n
        else
          let '(result, iot) := getsn_putc ioputc iot 7 in
          if bool_decide (result < 0) then Some (Ok (false, iot, buf)) else
          ioterm_getsn_loop iogetc ioputc fuel' iot buf p n
      else
        if bool_decide (1 < n) then
          let '(result, iot) := getsn_putc ioputc iot c in
          match poke buf p c with
          | Fault f => Some (Fault f)
          | Ok buf =>
              let p := p + 1 in
              let n := to_ulong (n - 1) in
              if bool_decide (result < 0) then Some (Ok (false, iot, buf))
              else ioterm_getsn_loop iogetc ioputc fuel' iot buf p n
          end
        else
          let '(result, iot) := getsn_putc ioputc iot 7 in
          if bool_decide (result < 0) then Some (Ok (false, iot, buf)) else
          ioterm_getsn_loop iogetc ioputc fuel' iot buf p n
  end.

Definition ioterm_getsn {R : Type} (iogetc : io_term R → Z * io_term R)
    (ioputc : R → Z → Z * R) (fuel : nat) (iot : io_term R)
    (buf : list Z) (n : Z) : option (result (bool * io_term R * list Z)) :=
  ioterm_getsn_loop iogetc ioputc fuel iot buf 0 n.

(** A terminal whose input is known: [keys] is what [iogetc] will deliver,
    one character a call; the echo is taken and does not touch the input. *)
Definition delivers {R : Type} (keys : io_term R → list Z)
    (iogetc : io_term R → Z * io_term R) (ioputc : R → Z → Z * R) : Prop :=
  (∀ t c ks, keys t = c :: ks →
             (iogetc t).1 = c ∧ keys (iogetc t).2 = ks)
  ∧ (∀ t c, 0 ≤ (ioputc (rawio t) c).1
            ∧ keys (set_rawio (ioputc (rawio t) c).2 t) = keys t).

(** ** Basic facts about the model *)

Lemma bind_Ok {A B : Type} (r : result A) (k : A → result B) (b : B) :
  r ≫= k = Ok b → ∃ a, r = Ok a ∧ k a = Ok b.
Proof. destruct r as [a|f]; simpl; [eauto | discriminate]. Qed.

Lemma assert_Ok (b : bool) (cond : string) (u : unit) :
  assert b cond = Ok u → b = true.
Proof. destruct b; simpl; [done | discriminate]. Qed.

Lemma deref_Ok (h : gmap tptr thread) (p : tptr) (t : thread) :
  deref h p = Ok t ↔ h !! p = Some t.
Proof.
  unfold deref. destruct (h !! p); split; intros H; by simplify_eq.
Qed.

Lemma store_Ok (h h' : gmap tptr thread) (p : tptr) (f : thread → thread) :
  store h p f = Ok h' ↔ ∃ t, h !! p = Some t ∧ h' = <[p := f t]> h.
Proof.
  unfold store, deref. destruct (h !! p) as [t|]; simpl; split.
  - intros [= <-]. eauto.
  - intros (t' & [= <-] & ->). done.
  - discriminate.
  - intros (t' & [=] & _).
Qed.

Lemma thrtab_at_Ok (tab : list (option tptr)) (tid : Z) (slot : option tptr) :
  thrtab_at tab tid = Ok slot ↔
  0 ≤ tid < NTHR ∧ tab !! Z.to_nat tid = Some slot.
Proof.
  unfold thrtab_at. case_bool_decide.
  - destruct (tab !! Z.to_nat tid); split; intros H'; [by simplify_eq | |done|].
    + destruct H' as [_ [= ->]]. done.
    + by destruct H'.
  - split; [discriminate | intros [? _]; lia].
Qed.

(** ** The range test of the accessors *)

(** C10: for every [tid] the test [0 <= tid || tid < NTHR] of
    [thread_process], [thread_set_process] and [thread_name] is true, so none
    of the three ever stops on it; a [tid] outside [0, NTHR) passes it and
    goes on to index [thrtab] outside its bounds. *)
Theorem tid_range_test_never_rejects (tid : Z) (st : kstate) (q : option Z) :
  tid_in_range tid = true
  ∧ thread_process tid st ≠ Fault (AssertFailed "0 <= tid || tid < NTHR")
  ∧ thread_set_process tid q st
    ≠ Fault (AssertFailed "0 <= tid || tid < NTHR")
  ∧ thread_name tid st ≠ Fault (AssertFailed "0 <= tid || tid < NTHR")
  ∧ (¬ (0 ≤ tid < NTHR) →
     thread_process tid st = Fault (Undefined "thrtab index out of bounds")
     ∧ thread_set_process tid q st
       = Fault (Undefined "thrtab index out of bounds")
     ∧ thread_name tid st = Fault (Undefined "thrtab index out of bounds")).
Proof.
  assert (Hr : tid_in_range tid = true).
  { unfold tid_in_range, NTHR.
    destruct (decide (0 ≤ tid)) as [Hle|Hlt].
    - by rewrite (bool_decide_eq_true_2 _ Hle).
    - rewrite (bool_decide_eq_true_2 (tid < 16)) by lia.
      apply orb_true_r. }
  unfold thread_process, thread_set_process, thread_name.
  rewrite Hr. simpl.
  split; [done|].
  unfold thrtab_at, store, deref.
  repeat split.
  - case_bool_decide; [|done].
    destruct (thrtab st !! Z.to_nat tid) as [[p|]|]; simpl; try done.
    by destruct (heap st !! p).
  - case_bool_decide; [|done].
    destruct (thrtab st !! Z.to_nat tid) as [[p|]|]; simpl; try done.
    by destruct (heap st !! p).
  - case_bool_decide; [|done].
    destruct (thrtab st !! Z.to_nat tid) as [[p|]|]; simpl; try done.
    by destruct (heap st !! p).
  - by rewrite bool_decide_eq_false_2.
  - by rewrite bool_decide_eq_false_2.
  - by rewrite bool_decide_eq_false_2.
Qed.

(** ** Facts about list segments *)

Lemma lseg_functional h p xs ys : lseg h p xs → lseg h p ys → xs = ys.
Proof.
  revert p ys. induction xs as [|x xs IH]; intros p [|y ys]; simpl.
  - done.
  - intros -> [? _]. done.
  - intros [-> _] ?. done.
  - intros [-> (t & Ht & Hxs)] [[= <-] (t' & Ht' & Hys)].
    rewrite Ht in Ht'. injection Ht' as <-.
    f_equal. eauto.
Qed.

Lemma lseg_drop h p a x b :
  lseg h p (a ++ x :: b) → lseg h (Some x) (x :: b).
Proof.
  revert p. induction a as [|y a IH]; simpl; intros p.
  - intros [-> H]. by split.
  - intros [-> (t & _ & H)]. by apply (IH (list_next t)).
Qed.

Lemma lseg_NoDup h p xs : lseg h p xs → NoDup xs.
Proof.
  revert p. induction xs as [|x xs IH]; intros p; [constructor|].
  intros Hseg. pose proof Hseg as [-> (t & Ht & Hxs)].
  constructor; [|eauto].
  intros (a & b & ->)%list_elem_of_split.
  pose proof (lseg_drop _ _ _ _ _ Hxs) as Hsuf.
  pose proof (lseg_functional _ _ _ _ Hseg Hsuf) as Heq.
  apply (f_equal length) in Heq. simpl in Heq.
  rewrite length_app in Heq. simpl in Heq. lia.
Qed.

Lemma lseg_allocated h p xs x : lseg h p xs → x ∈ xs → is_Some (h !! x).
Proof.
  revert p. induction xs as [|y xs IH]; intros p; simpl.
  - intros _ ?%elem_of_nil. done.
  - intros [-> (t & Ht & Hxs)] [->|Hin]%elem_of_cons; eauto.
Qed.

(** A segment only depends on the [list_next] members of its threads. *)
Lemma lseg_frame h h' p xs :
  lseg h p xs →
  (∀ x, x ∈ xs → list_next <$> h' !! x = list_next <$> h !! x) →
  lseg h' p xs.
Proof.
  revert p. induction xs as [|x xs IH]; intros p; simpl; [done|].
  intros [-> (t & Ht & Hxs)] Hsame.
  split; [done|].
  pose proof (Hsame x (list_elem_of_here _ _)) as Hx.
  rewrite Ht in Hx. simpl in Hx.
  destruct (h' !! x) as [t'|] eqn:Ht'; simpl in Hx; [|done].
  injection Hx as Hx. exists t'. split; [done|]. rewrite Hx.
  apply IH; [done|]. intros y Hy. apply Hsame. by apply list_elem_of_further.
Qed.

Lemma lseg_length_le h p xs : lseg h p xs → (length xs ≤ size h)%nat.
Proof.
  intros Hseg.
  rewrite <- (size_list_to_set (C := gset tptr) xs)
    by eauto using lseg_NoDup.
  rewrite <- (size_dom h).
  apply subseteq_size. intros x Hx%elem_of_list_to_set.
  apply elem_of_dom. eauto using lseg_allocated.
Qed.

Lemma lseg_walk h p xs n : lseg h p xs → (length xs ≤ n)%nat → walk n h p = xs.
Proof.
  revert p n. induction xs as [|x xs IH]; intros p n; simpl.
  - intros -> _. by destruct n.
  - intros [-> (t & Ht & Hxs)] Hn.
    destruct n as [|n]; [lia|]. simpl. rewrite Ht. f_equal.
    apply IH; [done|lia].
Qed.

Lemma is_tlist_elems h l xs : is_tlist h l xs → tl_elems h l = xs.
Proof.
  intros [Hseg _]. apply lseg_walk; eauto using lseg_length_le.
Qed.

(** Linking the last thread of a segment to a second segment. *)
Lemma lseg_link h h' p xs ys tl q tq :
  lseg h p xs → last xs = Some tl →
  h' !! tl = Some tq → list_next tq = q → lseg h' q ys →
  (∀ x, x ∈ xs → x ≠ tl → list_next <$> h' !! x = list_next <$> h !! x) →
  lseg h' p (xs ++ ys).
Proof.
  intros Hseg. pose proof (lseg_NoDup _ _ _ Hseg) as Hnd.
  revert p Hseg Hnd. induction xs as [|x xs IH]; intros p; simpl; [done|].
  intros [-> (t & Ht & Hxs)] Hnd Hlast Htl Hq Hys Hsame.
  apply NoDup_cons in Hnd as [Hx Hnd].
  split; [done|].
  destruct xs as [|x' xs].
  - simpl in *. injection Hlast as <-. exists tq. by subst.
  - rewrite last_cons_cons in Hlast.
    assert (x ≠ tl) as Hne.
    { intros ->. apply Hx. by apply last_Some_elem_of. }
    pose proof (Hsame x (list_elem_of_here _ _) Hne) as Hnx.
    rewrite Ht in Hnx. simpl in Hnx.
    destruct (h' !! x) as [t'|] eqn:Ht'; simpl in Hnx; [|done].
    injection Hnx as Hnx. exists t'. split; [done|]. rewrite Hnx.
    apply IH; try done.
    intros y Hy. apply Hsame. by apply list_elem_of_further.
Qed.

Lemma set_list_next_id t : set_list_next (list_next t) t = t.
Proof. by destruct t. Qed.

Lemma set_list_next_twice n m t :
  set_list_next n (set_list_next m t) = set_list_next n t.
Proof. done. Qed.

Lemma next_only_refl h : next_only h h.
Proof.
  intros p. destruct (h !! p) as [t|] eqn:Ht; [|done].
  exists (list_next t). by rewrite set_list_next_id.
Qed.

Lemma next_only_trans h1 h2 h3 :
  next_only h1 h2 → next_only h2 h3 → next_only h1 h3.
Proof.
  intros H12 H23 p. specialize (H12 p). specialize (H23 p).
  destruct (h1 !! p) as [t|].
  - destruct H12 as [n Hn]. rewrite Hn in H23.
    destruct H23 as [m Hm]. exists m. by rewrite Hm.
  - by rewrite H12 in H23.
Qed.

Lemma next_only_insert h p t n :
  h !! p = Some t → next_only h (<[p := set_list_next n t]> h).
Proof.
  intros Ht q. destruct (decide (p = q)) as [<-|Hne].
  - rewrite Ht, lookup_insert_eq. eauto.
  - rewrite lookup_insert_ne by done. apply next_only_refl.
Qed.

Lemma next_only_lookup h h' p t :
  next_only h h' → h !! p = Some t →
  ∃ t', h' !! p = Some t' ∧ t' = set_list_next (list_next t') t.
Proof.
  intros Hno Ht. specialize (Hno p). rewrite Ht in Hno.
  destruct Hno as [n Hn]. eauto.
Qed.

Lemma next_only_lookup_inv h h' p t' :
  next_only h h' → h' !! p = Some t' →
  ∃ t, h !! p = Some t ∧ t' = set_list_next (list_next t') t.
Proof.
  intros Hno Ht'. specialize (Hno p).
  destruct (h !! p) as [t|]; [|congruence].
  destruct Hno as [n Hn]. rewrite Hn in Ht'. injection Ht' as <-. eauto.
Qed.

(** ** The list operations on sequences *)

Lemma tlinsert_spec h l xs thr t :
  is_tlist h l xs → h !! thr = Some t → thr ∉ xs →
  ∃ h' l',
    tlinsert h l thr = Ok (h', l')
    ∧ is_tlist h' l' (xs ++ [thr])
    ∧ next_only h h'
    ∧ (∀ p, p ≠ thr → last xs ≠ Some p → h' !! p = h !! p).
Proof.
  intros [Hseg Htail] Ht Hnin.
  unfold tlinsert, store, deref. rewrite Ht. simpl.
  destruct (last xs) as [tl|] eqn:Hlast; rewrite Htail.
  - assert (tl ∈ xs) as Htl by by apply last_Some_elem_of.
    assert (tl ≠ thr) as Hne by (intros ->; done).
    destruct (lseg_allocated _ _ _ _ Hseg Htl) as [tt Htt].
    destruct xs as [|x xs]; [done|]. destruct Hseg as [Hhd Hrest].
    rewrite Hhd. simpl. rewrite lookup_insert_ne, Htt by done. simpl.
    eexists _, _. split; [done|]. repeat split.
    + eapply (lseg_link h _ (Some x) (x :: xs) [thr] tl (Some thr)); simpl.
      * eauto.
      * done.
      * apply lookup_insert_eq.
      * done.
      * split; [done|]. eexists.
        split; [by rewrite lookup_insert_ne, lookup_insert_eq|done].
      * intros y Hy Hytl. rewrite !lookup_insert_ne; [done|congruence..].
    + simpl. by rewrite app_comm_cons, last_snoc.
    + apply (next_only_trans _ (<[thr:=set_list_next None t]> h));
        [by apply next_only_insert|].
      apply next_only_insert. by rewrite lookup_insert_ne.
    + intros p Hp Hp'. rewrite !lookup_insert_ne; [done|congruence..].
  - apply last_None in Hlast as ->. simpl in Hseg. rewrite Hseg. simpl.
    eexists _, _. split; [done|]. repeat split.
    + simpl. eexists. split; [apply lookup_insert_eq|done].
    + by apply next_only_insert.
    + intros p Hp _. by rewrite lookup_insert_ne.
Qed.

Lemma tlremove_nil h l : is_tlist h l [] → tlremove h l = Ok (h, l, None).
Proof. intros [Hseg _]. simpl in Hseg. unfold tlremove. by rewrite Hseg. Qed.

Lemma tlremove_spec h l x xs :
  is_tlist h l (x :: xs) →
  ∃ h' l',
    tlremove h l = Ok (h', l', Some x)
    ∧ is_tlist h' l' xs
    ∧ next_only h h'
    ∧ (∀ p, p ≠ x → h' !! p = h !! p).
Proof.
  intros [Hseg Htail]. pose proof (lseg_NoDup _ _ _ Hseg) as Hnd.
  apply NoDup_cons in Hnd as [Hx _].
  destruct Hseg as [Hhd (t & Ht & Hxs)].
  unfold tlremove, store, deref. rewrite Hhd, Ht. simpl.
  eexists _, _. split; [done|].
  assert (lseg (<[x:=set_list_next None t]> h) (list_next t) xs) as Hxs'.
  { eapply lseg_frame; [done|]. intros y Hy.
    rewrite lookup_insert_ne; [done|]. intros ->. done. }
  assert (is_tlist (<[x:=set_list_next None t]> h)
            match list_next t with
            | Some _ => mk_list (list_next t) (tail l)
            | None => mk_list (list_next t) None
            end xs) as Hl'.
  { destruct xs as [|y ys].
    - simpl in Hxs. rewrite Hxs. by split.
    - pose proof Hxs as [Hn _]. rewrite Hn in Hxs' |- *. split; [done|].
      simpl. by rewrite Htail, last_cons_cons. }
  repeat split; try apply Hl'.
  - by apply next_only_insert.
  - intros p Hp. by rewrite lookup_insert_ne.
Qed.

Lemma tlappend_spec h l0 l1 xs ys :
  is_tlist h l0 xs → is_tlist h l1 ys → (∀ x, x ∈ xs → x ∉ ys) →
  ∃ h' l0',
    tlappend h l0 l1 = Ok (h', l0', mk_list None None)
    ∧ is_tlist h' l0' (xs ++ ys)
    ∧ next_only h h'
    ∧ (∀ p, last xs ≠ Some p → h' !! p = h !! p).
Proof.
  intros [Hxs Ht0] [Hys Ht1] Hdisj. unfold tlappend.
  destruct xs as [|x xs].
  { simpl in Hxs. simpl in Ht0. rewrite Hxs, Ht0. simpl.
    eexists _, _. split; [done|]. repeat split; try done.
    apply next_only_refl. }
  pose proof Hxs as [Hhd _]. rewrite Hhd.
  destruct (last (x :: xs)) as [t0|] eqn:Hlast;
    [|by apply last_None in Hlast].
  rewrite Ht0. simpl.
  destruct ys as [|y ys].
  { simpl in Hys. rewrite Hys. eexists _, _. split; [done|].
    rewrite app_nil_r. split; [|split].
    - split; [done|]. by rewrite Ht0.
    - apply next_only_refl.
    - done. }
  pose proof Hys as [Hhd1 _]. rewrite Hhd1.
  destruct (last (y :: ys)) as [t1|] eqn:Hlast1;
    [|by apply last_None in Hlast1].
  rewrite Ht1. simpl.
  assert (t0 ∈ x :: xs) as Hin0 by by apply last_Some_elem_of.
  destruct (lseg_allocated _ _ _ _ Hxs Hin0) as [tt Htt].
  unfold store, deref. rewrite Htt. simpl.
  eexists _, _. split; [done|]. repeat split.
  - rewrite Hhd in Hxs. rewrite Hhd1 in Hys.
    apply (lseg_link h _ (Some x) (x :: xs) (y :: ys) t0 (Some y)
             (set_list_next (Some y) tt)); try done.
    + apply lookup_insert_eq.
    + eapply lseg_frame; [done|]. intros z Hz.
      rewrite lookup_insert_ne; [done|]. intros ->. by apply (Hdisj z).
    + intros z Hz Hne. by rewrite lookup_insert_ne.
  - change (x :: xs ++ y :: ys) with ((x :: xs) ++ y :: ys).
    by rewrite last_app, Hlast1.
  - by apply next_only_insert.
  - intros p Hp. rewrite lookup_insert_ne; [done|]. congruence.
Qed.

Lemma wake_list_next t : list_next (wake t) = list_next t.
Proof. done. Qed.

Lemma broadcast_loop_spec n c h p ws :
  lseg h p ws →
  (∀ w, w ∈ ws →
        ∃ t, h !! w = Some t ∧ state t = THREAD_WAITING
             ∧ wait_cond t = Some c) →
  (length ws ≤ n)%nat →
  ∃ h', broadcast_loop n c h p = Ok h'
        ∧ (∀ q, q ∈ ws → h' !! q = wake <$> h !! q)
        ∧ (∀ q, q ∉ ws → h' !! q = h !! q).
Proof.
  intros Hseg. pose proof (lseg_NoDup _ _ _ Hseg) as Hnd.
  revert n h p Hseg Hnd.
  induction ws as [|w ws IH]; intros n h p Hseg Hnd Hwait Hlen.
  { simpl in Hseg. subst p. exists h. destruct n; simpl; repeat split;
      try done; by intros q ?%elem_of_nil. }
  destruct Hseg as [-> (t & Ht & Hws)].
  apply NoDup_cons in Hnd as [Hw Hnd].
  destruct n as [|n]; [simpl in Hlen; lia|].
  destruct (Hwait w (list_elem_of_here _ _)) as (t' & Ht' & Hst & Hwc).
  rewrite Ht in Ht'. injection Ht' as <-.
  simpl. unfold store, deref. rewrite Ht. simpl.
  rewrite (bool_decide_eq_true_2 _ Hst), (bool_decide_eq_true_2 _ Hwc).
  simpl. rewrite lookup_insert_eq. simpl.
  rewrite insert_insert_eq, lookup_insert_eq. simpl.
  destruct (IH n (<[w:=wake t]> h) (list_next t)) as (h' & Hrun & Hin & Hout).
  - eapply lseg_frame; [done|]. intros z Hz.
    rewrite lookup_insert_ne; [done|]. intros ->. done.
  - done.
  - intros z Hz. rewrite lookup_insert_ne by (intros ->; done).
    apply Hwait. by apply list_elem_of_further.
  - simpl in Hlen. lia.
  - exists h'. split; [done|]. split.
    + intros q [->|Hq]%elem_of_cons.
      * rewrite Hout by done. by rewrite lookup_insert_eq, Ht.
      * rewrite Hin by done. rewrite lookup_insert_ne; [done|].
        intros ->. done.
    + intros q Hq. apply not_elem_of_cons in Hq as [Hne Hq].
      rewrite Hout by done. by rewrite lookup_insert_ne.
Qed.

Lemma is_tlist_nil h l : is_tlist h l [] → l = mk_list None None.
Proof. destruct l as [hd tl]. intros [Hh Ht]. simpl in *. by subst. Qed.

(** ** Broadcast *)

Lemma condition_broadcast_spec (c : cptr) (st : kstate) (rs ws : list tptr) :
  is_tlist (heap st) (ready_list st) rs →
  is_tlist (heap st) (conds st c) ws →
  (∀ r, r ∈ rs → has_state st r THREAD_READY) →
  (∀ w, w ∈ ws →
        ∃ t, heap st !! w = Some t ∧ state t = THREAD_WAITING
             ∧ wait_cond t = Some c) →
  ∃ st',
    condition_broadcast c st = Ok st'
    ∧ is_tlist (heap st') (ready_list st') (rs ++ ws)
    ∧ (∀ c', conds st' c' = if decide (c' = c) then mk_list None None
                            else conds st c')
    ∧ (∀ p, ∃ n, heap st' !! p =
                 (λ t, set_list_next n (if decide (p ∈ ws) then wake t
                                        else t)) <$> heap st !! p)
    ∧ (∀ p, p ∉ ws → last rs ≠ Some p → heap st' !! p = heap st !! p)
    ∧ thrtab st' = thrtab st ∧ CURTHR st' = CURTHR st
    ∧ freed_pages st' = freed_pages st ∧ kmem st' = kmem st.
Proof.
  intros Hrs Hws Hready Hwait.
  unfold condition_broadcast, tlempty.
  destruct ws as [|w ws].
  { pose proof Hws as [Hhd _]. simpl in Hhd. rewrite Hhd. simpl.
    exists st. rewrite app_nil_r.
    pose proof (is_tlist_nil _ _ Hws) as Hnil.
    split_and!; try done.
    - intros c'. case_decide; by subst.
    - intros p. destruct (heap st !! p) as [t|]; simpl; [|by exists None].
      exists (list_next t). by rewrite set_list_next_id. }
  pose proof Hws as [[Hhd _] _]. rewrite Hhd. simpl.
  destruct (broadcast_loop_spec (size (heap st)) c (heap st) (Some w)
              (w :: ws)) as (h1 & Hloop & Hin & Hout).
  { destruct Hws as [Hseg _]. by rewrite Hhd in Hseg. }
  { done. }
  { destruct Hws as [Hseg _]. eauto using lseg_length_le. }
  rewrite Hloop. simpl.
  assert (∀ q, list_next <$> h1 !! q = list_next <$> heap st !! q) as Hnext.
  { intros q. destruct (decide (q ∈ w :: ws)) as [Hq|Hq].
    - rewrite Hin by done. by destruct (heap st !! q).
    - by rewrite Hout. }
  assert (is_tlist h1 (ready_list st) rs) as Hrs1.
  { destruct Hrs as [Hseg Ht]. split; [|done].
    eapply lseg_frame; [done|]. intros; apply Hnext. }
  assert (is_tlist h1 (conds st c) (w :: ws)) as Hws1.
  { destruct Hws as [Hseg Ht]. split; [|done].
    eapply lseg_frame; [done|]. intros; apply Hnext. }
  destruct (tlappend_spec h1 _ _ _ _ Hrs1 Hws1)
    as (h2 & rl & Happ & Hrl & Hno & Hsame).
  { intros x Hx Hx'. destruct (Hready x Hx) as (t & Ht & Hst).
    destruct (Hwait x Hx') as (t' & Ht' & Hst' & _). congruence. }
  rewrite Happ. simpl.
  eexists. split; [done|]. simpl.
  split_and!; try done.
  - intros c'. case_decide as Hc.
    + subst c'. by rewrite fn_lookup_insert.
    + by rewrite fn_lookup_insert_ne.
  - intros p. specialize (Hno p).
    destruct (decide (p ∈ w :: ws)) as [Hp|Hp].
    + rewrite (Hin p Hp) in Hno.
      destruct (heap st !! p) as [t|]; simpl in *; [|by exists None].
      destruct Hno as [n Hn]. by exists n.
    + rewrite (Hout p Hp) in Hno.
      destruct (heap st !! p) as [t|]; simpl in *; [|by exists None].
      destruct Hno as [n Hn]. by exists n.
  - intros p Hp Hlast. rewrite Hsame by done. by apply Hout.
Qed.

(** C6: if the wait list of condition [c] holds the threads [ws] in
    insertion order (each of them WAITING on [c]) and the ready list holds
    [rs], then [condition_broadcast c] returns; afterwards every waiter is
    READY with its [wait_cond] cleared, the ready list holds [rs] followed by
    [ws] in the same order, and the wait list of [c] is empty. Threads
    outside [ws] keep all their members except that the old tail of the
    ready list gets a new [list_next]; the other conditions are untouched.
    When the wait list is empty the state is returned as it is. *)
Theorem condition_broadcast_wakes_in_order
    (c : cptr) (st : kstate) (rs ws : list tptr) :
  is_tlist (heap st) (ready_list st) rs →
  is_tlist (heap st) (conds st c) ws →
  (∀ r, r ∈ rs → has_state st r THREAD_READY) →
  (∀ w, w ∈ ws →
        ∃ t, heap st !! w = Some t ∧ state t = THREAD_WAITING
             ∧ wait_cond t = Some c) →
  (ws = [] → condition_broadcast c st = Ok st)
  ∧ ∃ st',
      condition_broadcast c st = Ok st'
      ∧ is_tlist (heap st') (ready_list st') (rs ++ ws)
      ∧ tl_elems (heap st') (ready_list st')
        = tl_elems (heap st) (ready_list st) ++ tl_elems (heap st) (conds st c)
      ∧ conds st' c = mk_list None None
      ∧ tl_elems (heap st') (conds st' c) = []
      ∧ (∀ w t, w ∈ ws → heap st !! w = Some t →
           ∃ t', heap st' !! w = Some t'
                 ∧ state t' = THREAD_READY ∧ wait_cond t' = None
                 ∧ t' = set_list_next (list_next t') (wake t))
      ∧ (∀ p t, p ∉ ws → heap st !! p = Some t →
           ∃ t', heap st' !! p = Some t'
                 ∧ t' = set_list_next (list_next t') t
                 ∧ (last rs ≠ Some p → t' = t))
      ∧ (∀ c', c' ≠ c → conds st' c' = conds st c')
      ∧ thrtab st' = thrtab st ∧ CURTHR st' = CURTHR st.
Proof.
  intros Hrs Hws Hready Hwait.
  pose proof (is_tlist_elems _ _ _ Hrs) as Ers.
  pose proof (is_tlist_elems _ _ _ Hws) as Ews.
  split.
  { intros ->. unfold condition_broadcast, tlempty.
    destruct Hws as [Hhd _]. simpl in Hhd. by rewrite Hhd. }
  destruct (condition_broadcast_spec c st rs ws Hrs Hws Hready Hwait)
    as (st' & Hrun & Hrl & Hcs & Hheap & Hsame & Htab & Hcur & _).
  exists st'. split_and!; try done.
  - rewrite Ers, Ews. by apply is_tlist_elems.
  - rewrite Hcs. by rewrite decide_True.
  - rewrite Hcs, decide_True by done. unfold tl_elems. simpl.
    by destruct (size (heap st')).
  - intros w t Hw Ht. destruct (Hheap w) as [n Hn].
    rewrite Ht in Hn. simpl in Hn. rewrite decide_True in Hn by done.
    eexists. split_and!; done.
  - intros p t Hp Ht. destruct (Hheap p) as [n Hn].
    rewrite Ht in Hn. simpl in Hn. rewrite decide_False in Hn by done.
    eexists. split_and!; [done..|].
    intros Hlast. rewrite Hsame, Ht in Hn by done. congruence.
  - intros c' Hc'. rewrite Hcs. by rewrite decide_False.
Qed.

(** ** Thread states and links under heap updates *)

Lemma sw_Some h p s w :
  sw h p = Some (s, w) ↔ ∃ t, h !! p = Some t ∧ state t = s ∧ wait_cond t = w.
Proof.
  unfold sw. destruct (h !! p) as [t|]; simpl; split.
  - intros [= <- <-]. eauto.
  - intros (t' & [= <-] & <- & <-). done.
  - discriminate.
  - intros (t' & [=] & _).
Qed.

Lemma sw_insert h p t q :
  sw (<[p := t]> h) q
  = if decide (p = q) then Some (state t, wait_cond t) else sw h q.
Proof.
  unfold sw. destruct (decide (p = q)) as [<-|Hne].
  - by rewrite lookup_insert_eq.
  - by rewrite lookup_insert_ne.
Qed.

Lemma nx_insert h p t q :
  nx (<[p := t]> h) q = if decide (p = q) then Some (list_next t) else nx h q.
Proof.
  unfold nx. destruct (decide (p = q)) as [<-|Hne].
  - by rewrite lookup_insert_eq.
  - by rewrite lookup_insert_ne.
Qed.

Lemma nx_insert_same h p t t' q :
  h !! p = Some t → list_next t' = list_next t →
  nx (<[p := t']> h) q = nx h q.
Proof.
  intros Ht Hn. rewrite nx_insert. destruct (decide (p = q)) as [<-|]; [|done].
  unfold nx. by rewrite Ht, Hn.
Qed.

Lemma sw_insert_same h p t t' q :
  h !! p = Some t → state t' = state t → wait_cond t' = wait_cond t →
  sw (<[p := t']> h) q = sw h q.
Proof.
  intros Ht Hs Hw. rewrite sw_insert. destruct (decide (p = q)) as [<-|]; [|done].
  unfold sw. by rewrite Ht, Hs, Hw.
Qed.

Lemma next_only_sw h h' p : next_only h h' → sw h' p = sw h p.
Proof.
  intros Hno. specialize (Hno p). unfold sw.
  destruct (h !! p) as [t|].
  - destruct Hno as [n ->]. done.
  - by rewrite Hno.
Qed.

Lemma is_tlist_frame h h' l xs :
  is_tlist h l xs → (∀ x, x ∈ xs → nx h' x = nx h x) → is_tlist h' l xs.
Proof. intros [Hseg Ht] Hsame. split; [|done]. by eapply lseg_frame. Qed.

Lemma lists_inv_ext h h' rl cs rs ws :
  lists_inv h rl cs rs ws →
  (∀ p, sw h' p = sw h p) → (∀ p, nx h' p = nx h p) →
  lists_inv h' rl cs rs ws.
Proof.
  intros [Hrl Hwl Hr Hw Hwc] Hsw Hnx. split.
  - eapply is_tlist_frame; eauto.
  - intros c. eapply is_tlist_frame; eauto.
  - intros p. rewrite Hsw. apply Hr.
  - intros p c. rewrite Hsw. apply Hw.
  - intros p. rewrite Hsw. apply Hwc.
Qed.

Lemma sched_inv_at_ext st st' rs ws :
  sched_inv_at st rs ws →
  (∀ p, sw (heap st') p = sw (heap st) p) →
  (∀ p, nx (heap st') p = nx (heap st) p) →
  ready_list st' = ready_list st → conds st' = conds st →
  CURTHR st' = CURTHR st →
  sched_inv_at st' rs ws.
Proof.
  intros [Hl Hrun] Hsw Hnx Hrl Hcs Hcur. unfold sched_inv_at.
  rewrite Hrl, Hcs, Hcur. split.
  - eapply lists_inv_ext; eauto.
  - intros p. rewrite Hsw. apply Hrun.
Qed.

(** Threads on a list are neither the running thread nor on another list. *)
Lemma lists_inv_ready_not_waiting h rl cs rs ws p c :
  lists_inv h rl cs rs ws → p ∈ rs → p ∉ ws c.
Proof.
  intros Hl Hr Hw. apply (li_ready _ _ _ _ _ Hl) in Hr as [w Hr].
  apply (li_waiting _ _ _ _ _ Hl) in Hw. congruence.
Qed.

Lemma lists_inv_not_listed h rl cs rs ws p s w :
  lists_inv h rl cs rs ws → sw h p = Some (s, w) →
  s ≠ THREAD_READY → s ≠ THREAD_WAITING →
  (p ∉ rs) ∧ (∀ c, p ∉ ws c).
Proof.
  intros Hl Hp Hr Hw. split.
  - intros [w' Hin]%(li_ready _ _ _ _ _ Hl). congruence.
  - intros c Hin%(li_waiting _ _ _ _ _ Hl). congruence.
Qed.

(** ** The context switch *)

(** The invariant after a switch from [cur] to the head [n] of the ready
    list, from what the switch did to the states and to the lists. *)
Lemma sched_inv_after_switch h0 h5 rl l2 cs rs ws n cur tc wn :
  lists_inv h0 rl cs (n :: rs) ws →
  (∀ p w, sw h0 p = Some (THREAD_RUNNING, w) → p = cur) →
  h0 !! cur = Some tc → state tc ≠ THREAD_READY →
  is_tlist h5 l2
    (if bool_decide (state tc = THREAD_RUNNING) then rs ++ [cur] else rs) →
  (∀ c, is_tlist h5 (cs c) (ws c)) →
  (∀ p, sw h5 p =
        if decide (p = n) then Some (THREAD_RUNNING, wn)
        else if decide (p = cur) then
          if bool_decide (state tc = THREAD_RUNNING)
          then Some (THREAD_READY, wait_cond tc) else sw h0 p
        else sw h0 p) →
  lists_inv h5 l2 cs
    (if bool_decide (state tc = THREAD_RUNNING) then rs ++ [cur] else rs) ws
  ∧ (∀ p, (∃ w, sw h5 p = Some (THREAD_RUNNING, w)) ↔ p = n).
Proof.
  intros Hl Hrun Htc Hnr Hl2 Hwl Hsw.
  assert (sw h0 cur = Some (state tc, wait_cond tc)) as Hcur.
  { apply sw_Some. eauto. }
  assert (n ∉ rs) as Hn_rs.
  { pose proof (li_ready_list _ _ _ _ _ Hl) as [Hseg _].
    apply lseg_NoDup in Hseg. by apply NoDup_cons in Hseg as [? _]. }
  assert (∃ w, sw h0 n = Some (THREAD_READY, w)) as [wn0 Hn0].
  { apply (li_ready _ _ _ _ _ Hl), list_elem_of_here. }
  assert (cur ≠ n) as Hne by (intros ->; congruence).
  assert (∀ p, p ≠ n → (p ∈ rs ↔ ∃ w, sw h0 p = Some (THREAD_READY, w)))
    as Hready.
  { intros p Hp. rewrite <- (li_ready _ _ _ _ _ Hl), elem_of_cons.
    naive_solver. }
  split; [split|]; try done.
  - intros p. rewrite Hsw.
    destruct (decide (p = n)) as [->|Hpn].
    { split; [|intros [w [=]]].
      case_bool_decide; [|done].
      rewrite elem_of_app, list_elem_of_singleton. naive_solver. }
    destruct (decide (p = cur)) as [->|Hpc].
    + case_bool_decide.
      * rewrite elem_of_app, list_elem_of_singleton. naive_solver.
      * rewrite Hready by done. done.
    + rewrite <- Hready by done. case_bool_decide; [|done].
      rewrite elem_of_app, list_elem_of_singleton. naive_solver.
  - intros p c. rewrite Hsw, (li_waiting _ _ _ _ _ Hl).
    destruct (decide (p = n)) as [->|Hpn]; [split; congruence|].
    destruct (decide (p = cur)) as [->|Hpc]; [|done].
    case_bool_decide; [|done]. rewrite Hcur. split; congruence.
  - intros p. rewrite Hsw.
    destruct (decide (p = n)) as [->|Hpn]; [done|].
    destruct (decide (p = cur)) as [->|Hpc];
      [|apply (li_wait_cond _ _ _ _ _ Hl)].
    case_bool_decide; [done|apply (li_wait_cond _ _ _ _ _ Hl)].
  - intros p. rewrite Hsw.
    destruct (decide (p = n)) as [->|Hpn]; [naive_solver|].
    split; [|done]. intros [w Hp]. exfalso.
    destruct (decide (p = cur)) as [->|Hpc].
    + case_bool_decide; [done|]. congruence.
    + apply Hrun in Hp. done.
Qed.

Lemma suspend_self_switch_spec st n rs ws tc :
  lists_inv (heap st) (ready_list st) (conds st) (n :: rs) ws →
  (∀ p w, sw (heap st) p = Some (THREAD_RUNNING, w) → p = CURTHR st) →
  heap st !! CURTHR st = Some tc → state tc ≠ THREAD_READY →
  ∃ ra st',
    suspend_self_switch st = Ok (ra, CURTHR st, st')
    ∧ sched_inv_at st'
        (if bool_decide (state tc = THREAD_RUNNING) then rs ++ [CURTHR st]
         else rs) ws
    ∧ CURTHR st' = n
    ∧ thrtab st' = thrtab st ∧ freed_pages st' = freed_pages st
    ∧ kmem st' = kmem st
    ∧ ∃ tc', heap st' !! CURTHR st = Some tc'
             ∧ state tc' = (if bool_decide (state tc = THREAD_RUNNING)
                            then THREAD_READY else state tc)
             ∧ stack_base tc' = stack_base tc.
Proof.
  intros Hl Hrun Htc Hnr.
  pose proof (li_ready_list _ _ _ _ _ Hl) as Hrl.
  destruct (tlremove_spec _ _ _ _ Hrl) as (h1 & l1 & Hrem & Hl1 & Hno1 & Hsame1).
  assert (n ∈ n :: rs) as Hn by apply list_elem_of_here.
  apply (li_ready _ _ _ _ _ Hl) in Hn as [wn Hn].
  assert (CURTHR st ≠ n) as Hne.
  { intros Heq. rewrite <- Heq in Hn. apply sw_Some in Hn as (t & Ht & Hs & _).
    congruence. }
  unfold suspend_self_switch, tlempty.
  destruct Hrl as [[Hhd _] _]. rewrite Hhd. simpl.
  rewrite Hrem. simpl.
  (* the thread taken from the ready list *)
  pose proof Hn as Hn1. rewrite <- (next_only_sw _ _ _ Hno1) in Hn1.
  apply sw_Some in Hn1 as (t1 & Ht1 & Hs1 & Hw1).
  unfold store, deref. rewrite Ht1. simpl.
  rewrite (bool_decide_eq_true_2 _ Hs1). simpl.
  rewrite lookup_insert_ne by done.
  rewrite (Hsame1 _ Hne), Htc. simpl.
  set (h2 := <[n:=set_state THREAD_RUNNING t1]> h1).
  assert (∀ p, nx h2 p = nx h1 p) as Hnx2.
  { intros p. by apply (nx_insert_same _ _ t1). }
  assert (∀ p, sw h2 p = if decide (p = n) then Some (THREAD_RUNNING, wn)
                         else sw (heap st) p) as Hsw2.
  { intros p. unfold h2. rewrite sw_insert, (next_only_sw _ _ _ Hno1).
    simpl. rewrite Hw1. repeat case_decide; congruence. }
  assert (is_tlist h2 l1 rs) as Hl2.
  { eapply is_tlist_frame; [done|]. intros; apply Hnx2. }
  assert (∀ c, is_tlist h2 (conds st c) (ws c)) as Hwl2.
  { intros c. eapply is_tlist_frame; [apply (li_wait_lists _ _ _ _ _ Hl)|].
    intros x Hx. rewrite Hnx2. unfold nx. rewrite Hsame1; [done|].
    intros ->. eapply lists_inv_ready_not_waiting; [done| |done].
    apply list_elem_of_here. }
  assert (h2 !! CURTHR st = Some tc) as Htc2.
  { unfold h2. by rewrite lookup_insert_ne, Hsame1. }
  assert (h2 !! n = Some (set_state THREAD_RUNNING t1)) as Hn2
    by apply lookup_insert_eq.
  (* the suspending thread goes to the back of the ready list *)
  assert (∃ h4 l2 tc4 tn4,
    (if bool_decide (state tc = THREAD_RUNNING)
     then tlinsert (<[CURTHR st:=set_state THREAD_READY tc]> h2) l1 (CURTHR st)
     else Ok (h2, l1)) = Ok (h4, l2)
    ∧ is_tlist h4 l2 (if bool_decide (state tc = THREAD_RUNNING)
                      then rs ++ [CURTHR st] else rs)
    ∧ (∀ c, is_tlist h4 (conds st c) (ws c))
    ∧ (∀ p, sw h4 p =
            if decide (p = n) then Some (THREAD_RUNNING, wn)
            else if decide (p = CURTHR st) then
              if bool_decide (state tc = THREAD_RUNNING)
              then Some (THREAD_READY, wait_cond tc) else sw (heap st) p
            else sw (heap st) p)
    ∧ h4 !! CURTHR st = Some tc4
    ∧ state tc4 = (if bool_decide (state tc = THREAD_RUNNING)
                   then THREAD_READY else state tc)
    ∧ stack_base tc4 = stack_base tc
    ∧ h4 !! n = Some tn4) as (h4 & l2 & tc4 & tn4 & Hins & Hl4 & Hwl4 & Hsw4
                               & Htc4 & Hst4 & Hsb4 & Hn4).
  { case_bool_decide as Hr.
    - set (h3 := <[CURTHR st:=set_state THREAD_READY tc]> h2).
      assert (∀ p, nx h3 p = nx h2 p) as Hnx3.
      { intros p. by apply (nx_insert_same _ _ tc). }
      assert (sw (heap st) (CURTHR st) = Some (THREAD_RUNNING, wait_cond tc))
        as Hswc by (apply sw_Some; eauto).
      destruct (lists_inv_not_listed _ _ _ _ _ _ _ _ Hl Hswc)
        as [Hc_rs Hc_ws]; [done..|].
      destruct (tlinsert_spec h3 l1 rs (CURTHR st)
                  (set_state THREAD_READY tc))
        as (h4 & l2 & Hins & Hl4 & Hno4 & Hsame4).
      { eapply is_tlist_frame; [done|]. intros; apply Hnx3. }
      { apply lookup_insert_eq. }
      { intros Hin. apply Hc_rs. by apply list_elem_of_further. }
      destruct (next_only_lookup _ _ (CURTHR st) _ Hno4
                  (lookup_insert_eq _ _ _)) as (tc4 & Htc4 & Heq4).
      assert (h3 !! n = Some (set_state THREAD_RUNNING t1)) as Hn3.
      { unfold h3. by rewrite lookup_insert_ne. }
      destruct (next_only_lookup _ _ n _ Hno4 Hn3) as (tn4 & Htn4 & _).
      exists h4, l2, tc4, tn4. split_and!; try done.
      + intros c. eapply is_tlist_frame; [apply Hwl2|].
        intros x Hx. rewrite <- Hnx3. unfold nx. rewrite Hsame4; [done| |].
        * intros ->. by apply (Hc_ws c).
        * intros Hlast%last_Some_elem_of.
          eapply lists_inv_ready_not_waiting; [done| |done].
          by apply list_elem_of_further.
      + intros p. rewrite (next_only_sw _ _ _ Hno4). unfold h3.
        rewrite sw_insert, Hsw2. simpl.
        repeat case_decide; congruence.
      + by rewrite Heq4.
      + by rewrite Heq4.
    - exists h2, l1, tc, (set_state THREAD_RUNNING t1).
      split_and!; try done.
      intros p. rewrite Hsw2. repeat case_decide; congruence. }
  rewrite Hins. simpl. rewrite Hn4. simpl.
  set (st_a := match proc tn4 with
               | Some p => memory_space_switch p
                             (with_ready_list l2 (with_heap h4 st))
               | None => with_ready_list l2 (with_heap h4 st)
               end).
  assert (heap st_a = h4 ∧ CURTHR st_a = CURTHR st ∧ ready_list st_a = l2
          ∧ conds st_a = conds st ∧ thrtab st_a = thrtab st
          ∧ freed_pages st_a = freed_pages st ∧ kmem st_a = kmem st)
    as (Eh & Ec & Er & Ecs & Et & Ef & Ek).
  { unfold st_a. by destruct (proc tn4). }
  unfold _thread_swtch, store, deref. rewrite Eh, Ec, Htc4. simpl.
  rewrite lookup_insert_ne, Hn4 by done. simpl.
  eexists _, _. split; [done|]. simpl.
  set (h5 := <[CURTHR st:=set_context_ra ra_suspend_self tc4]> h4).
  assert (∀ p, nx h5 p = nx h4 p) as Hnx5.
  { intros p. by apply (nx_insert_same _ _ tc4). }
  assert (∀ p, sw h5 p = sw h4 p) as Hsw5.
  { intros p. by apply (sw_insert_same _ _ tc4). }
  split_and!; try done.
  - unfold sched_inv_at. simpl. rewrite Er, Ecs.
    eapply (sched_inv_after_switch (heap st) h5); try done.
    + eapply is_tlist_frame; [done|]. intros; apply Hnx5.
    + intros c. eapply is_tlist_frame; [apply Hwl4|]. intros; apply Hnx5.
    + intros p. rewrite Hsw5. apply Hsw4.
  - eexists. split; [apply lookup_insert_eq|]. done.
Qed.

Lemma resume_at_preserves ra prev st st' rs ws :
  sched_inv_at st rs ws → resume_at ra prev st = Ok st' →
  sched_inv_at st' rs ws.
Proof.
  intros Hinv. destruct ra as [| | |child_tid child]; simpl.
  - done.
  - by intros [= <-].
  - unfold suspend_self_resumed, store, deref.
    destruct (heap st !! prev) as [t|] eqn:Ht; simpl; [|done].
    case_bool_decide; simpl; intros [= <-]; [|done].
    eapply sched_inv_at_ext; [done| | |done..]; simpl; intros p.
    + by apply (sw_insert_same _ _ t).
    + by apply (nx_insert_same _ _ t).
  - unfold thread_fork_to_user_resumed, running_thread, deref.
    destruct (heap st !! CURTHR st) as [t|]; simpl; [|done].
    case_bool_decide; simpl; [|by intros [= <-]].
    destruct (heap st !! child) as [c|]; simpl; [|done].
    intros [= <-]. by eapply sched_inv_at_ext.
Qed.

Lemma suspend_self_preserves st st' rs ws tc :
  lists_inv (heap st) (ready_list st) (conds st) rs ws →
  (∀ p w, sw (heap st) p = Some (THREAD_RUNNING, w) → p = CURTHR st) →
  heap st !! CURTHR st = Some tc → state tc ≠ THREAD_READY →
  suspend_self st = Ok st' →
  ∃ n rs', rs = n :: rs'
    ∧ sched_inv_at st'
        (if bool_decide (state tc = THREAD_RUNNING)
         then rs' ++ [CURTHR st] else rs') ws.
Proof.
  intros Hl Hrun Htc Hnr. unfold suspend_self.
  destruct rs as [|n rs].
  { pose proof (li_ready_list _ _ _ _ _ Hl) as [Hhd _]. simpl in Hhd.
    unfold suspend_self_switch, tlempty. rewrite Hhd. done. }
  destruct (suspend_self_switch_spec _ _ _ _ _ Hl Hrun Htc Hnr)
    as (ra & st1 & -> & Hinv & _).
  simpl. intros Hres. exists n, rs. split; [done|].
  by eapply resume_at_preserves.
Qed.

Lemma sched_inv_at_running st rs ws :
  sched_inv_at st rs ws →
  ∃ tc, heap st !! CURTHR st = Some tc ∧ state tc = THREAD_RUNNING.
Proof.
  intros [_ Hrun]. destruct (proj2 (Hrun (CURTHR st)) eq_refl) as [w Hw].
  apply sw_Some in Hw as (t & ? & ? & _). eauto.
Qed.

Lemma thread_yield_preserves st st' :
  sched_inv st → thread_yield st = Ok st' → sched_inv st'.
Proof.
  intros (rs & ws & Hinv).
  destruct (sched_inv_at_running _ _ _ Hinv) as (tc & Htc & Hst).
  unfold thread_yield, deref. rewrite Htc. simpl.
  rewrite (bool_decide_eq_true_2 _ Hst). simpl. intros Hsusp.
  destruct Hinv as [Hl Hrun].
  eapply suspend_self_preserves in Hsusp as (n & rs' & _ & Hinv');
    [| done | | done |].
  - by eexists _, _.
  - intros p w Hp. apply Hrun. eauto.
  - congruence.
Qed.

Lemma suspend_self_sched_inv st st' :
  sched_inv st → suspend_self st = Ok st' → sched_inv st'.
Proof.
  intros (rs & ws & Hinv).
  destruct (sched_inv_at_running _ _ _ Hinv) as (tc & Htc & Hst).
  intros Hsusp. destruct Hinv as [Hl Hrun].
  eapply suspend_self_preserves in Hsusp as (n & rs' & _ & Hinv');
    [| done | | done |].
  - by eexists _, _.
  - intros p w Hp. apply Hrun. eauto.
  - congruence.
Qed.

(** ** The operations keep the lists and the states in agreement *)

Lemma lists_inv_wait_disjoint h rl cs rs ws p c c' :
  lists_inv h rl cs rs ws → p ∈ ws c → p ∈ ws c' → c = c'.
Proof.
  intros Hl Hc%(li_waiting _ _ _ _ _ Hl) Hc'%(li_waiting _ _ _ _ _ Hl).
  congruence.
Qed.

Lemma condition_broadcast_lists c st st' rs ws :
  lists_inv (heap st) (ready_list st) (conds st) rs ws →
  condition_broadcast c st = Ok st' →
  lists_inv (heap st') (ready_list st') (conds st') (rs ++ ws c)
    (<[c := []]> ws)
  ∧ CURTHR st' = CURTHR st
  ∧ (∀ p, sw (heap st') p = if decide (p ∈ ws c)
                            then Some (THREAD_READY, None)
                            else sw (heap st) p)
  ∧ (∀ p, p ∉ ws c → is_Some (heap st' !! p) → is_Some (heap st !! p)).
Proof.
  intros Hl Hrun.
  destruct (condition_broadcast_spec c st rs (ws c))
    as (st'' & Hrun' & Hrl & Hcs & Hheap & Hsame & _ & Hcur & _).
  { apply (li_ready_list _ _ _ _ _ Hl). }
  { apply (li_wait_lists _ _ _ _ _ Hl). }
  { intros r [w (t & ? & ? & _)%sw_Some]%(li_ready _ _ _ _ _ Hl).
    by exists t. }
  { intros w (t & ? & ? & ?)%(li_waiting _ _ _ _ _ Hl)%sw_Some. eauto. }
  rewrite Hrun in Hrun'. injection Hrun' as <-.
  assert (∀ p, sw (heap st') p = if decide (p ∈ ws c)
                                 then Some (THREAD_READY, None)
                                 else sw (heap st) p) as Hsw.
  { intros p. destruct (Hheap p) as [n Hn]. unfold sw. rewrite Hn.
    destruct (decide (p ∈ ws c)) as [Hp|Hp].
    - apply (li_waiting _ _ _ _ _ Hl), sw_Some in Hp as (t & -> & _). done.
    - by destruct (heap st !! p). }
  assert (∀ c' x, c' ≠ c → x ∈ ws c' → nx (heap st') x = nx (heap st) x)
    as Hnx.
  { intros c' x Hc' Hx. unfold nx. rewrite Hsame; [done| |].
    - intros Hx'. by destruct (lists_inv_wait_disjoint _ _ _ _ _ _ _ _ Hl Hx Hx').
    - intros Hlast%last_Some_elem_of.
      by eapply lists_inv_ready_not_waiting. }
  split_and!; [split| done..| ].
  - done.
  - intros c'. rewrite Hcs. destruct (decide (c' = c)) as [->|Hc'].
    + by rewrite fn_lookup_insert.
    + rewrite fn_lookup_insert_ne by done.
      eapply is_tlist_frame; [apply (li_wait_lists _ _ _ _ _ Hl)|].
      intros x Hx. by apply (Hnx c').
  - intros p. rewrite Hsw, elem_of_app, (li_ready _ _ _ _ _ Hl).
    case_decide; naive_solver.
  - intros p c'. rewrite Hsw. destruct (decide (c' = c)) as [->|Hc'].
    + rewrite fn_lookup_insert, elem_of_nil.
      case_decide as Hp; [naive_solver|].
      by rewrite <- (li_waiting _ _ _ _ _ Hl).
    + rewrite fn_lookup_insert_ne by done.
      rewrite (li_waiting _ _ _ _ _ Hl).
      case_decide as Hp; [|done].
      apply (li_waiting _ _ _ _ _ Hl) in Hp. split; congruence.
  - intros p. rewrite Hsw. case_decide; [done|].
    apply (li_wait_cond _ _ _ _ _ Hl).
  - intros p Hp. destruct (Hheap p) as [n Hn]. rewrite Hn.
    by destruct (heap st !! p).
Qed.

Lemma condition_broadcast_preserves c st st' :
  sched_inv st → condition_broadcast c st = Ok st' → sched_inv st'.
Proof.
  intros (rs & ws & [Hl Hcur]) Hrun.
  destruct (condition_broadcast_lists _ _ _ _ _ Hl Hrun)
    as (Hl' & Ec & Hsw & _).
  eexists _, _. split; [done|].
  intros p. rewrite Hsw, Ec, <- Hcur.
  case_decide as Hp; [|done].
  apply (li_waiting _ _ _ _ _ Hl) in Hp. rewrite Hp. naive_solver.
Qed.

Lemma condition_wait_preserves c st st' :
  sched_inv st → condition_wait c st = Ok st' → sched_inv st'.
Proof.
  intros (rs & ws & Hinv).
  destruct (sched_inv_at_running _ _ _ Hinv) as (tc & Htc & Hst).
  destruct Hinv as [Hl Hcur].
  assert (sw (heap st) (CURTHR st) = Some (THREAD_RUNNING, wait_cond tc))
    as Hswc by (apply sw_Some; eauto).
  destruct (lists_inv_not_listed _ _ _ _ _ _ _ _ Hl Hswc)
    as [Hc_rs Hc_ws]; [done..|].
  unfold condition_wait, store, deref. rewrite Htc. simpl.
  rewrite (bool_decide_eq_true_2 _ Hst). simpl.
  rewrite lookup_insert_eq. simpl. rewrite lookup_insert_eq. simpl.
  rewrite !insert_insert_eq.
  set (t3 := set_list_next None
               (set_wait_cond (Some c) (set_state THREAD_WAITING tc))).
  set (h3 := <[CURTHR st:=t3]> (heap st)).
  assert (∀ x, x ≠ CURTHR st → h3 !! x = heap st !! x) as Hsame3.
  { intros x Hx. unfold h3. by rewrite lookup_insert_ne. }
  destruct (tlinsert_spec h3 (conds st c) (ws c) (CURTHR st) t3)
    as (h4 & wl & Hins & Hl4 & Hno4 & Hsame4).
  { eapply is_tlist_frame; [apply (li_wait_lists _ _ _ _ _ Hl)|].
    intros x Hx. unfold nx. rewrite Hsame3; [done|].
    intros ->. by apply (Hc_ws c). }
  { apply lookup_insert_eq. }
  { apply Hc_ws. }
  rewrite Hins. simpl.
  destruct (next_only_lookup _ _ (CURTHR st) _ Hno4 (lookup_insert_eq _ _ _))
    as (tc4 & Htc4 & Heq4).
  intros Hsusp.
  eapply (suspend_self_preserves _ _ rs
            (<[c := ws c ++ [CURTHR st]]> ws) tc4)
    in Hsusp as (n & rs' & _ & Hinv'); simpl.
  - by eexists _, _.
  - assert (∀ p, sw h4 p = if decide (p = CURTHR st)
                           then Some (THREAD_WAITING, Some c)
                           else sw (heap st) p) as Hsw4.
    { intros p. rewrite (next_only_sw _ _ _ Hno4). unfold h3.
      rewrite sw_insert. repeat case_decide; congruence || done. }
    assert (∀ x, x ≠ CURTHR st → last (ws c) ≠ Some x →
                 nx h4 x = nx (heap st) x) as Hnx4.
    { intros x Hx Hlast. unfold nx. by rewrite Hsame4, Hsame3. }
    split.
    + eapply is_tlist_frame; [apply (li_ready_list _ _ _ _ _ Hl)|].
      intros x Hx. apply Hnx4; [by intros ->|].
      intros Hlast%last_Some_elem_of.
      by eapply lists_inv_ready_not_waiting.
    + intros c'. destruct (decide (c' = c)) as [->|Hc'].
      * by rewrite !fn_lookup_insert.
      * rewrite !fn_lookup_insert_ne by done.
        eapply is_tlist_frame; [apply (li_wait_lists _ _ _ _ _ Hl)|].
        intros x Hx. apply Hnx4.
        -- intros ->. by apply (Hc_ws c').
        -- intros Hlast%last_Some_elem_of.
           by destruct (lists_inv_wait_disjoint _ _ _ _ _ _ _ _ Hl Hx Hlast).
    + intros p. rewrite Hsw4, (li_ready _ _ _ _ _ Hl).
      case_decide as Hp; [|done]. subst p. rewrite Hswc. naive_solver.
    + intros p c'. rewrite Hsw4. destruct (decide (c' = c)) as [->|Hc'].
      * rewrite fn_lookup_insert, elem_of_app, list_elem_of_singleton.
        rewrite (li_waiting _ _ _ _ _ Hl).
        case_decide as Hp; [naive_solver|]. naive_solver.
      * rewrite fn_lookup_insert_ne by done.
        rewrite (li_waiting _ _ _ _ _ Hl).
        case_decide as Hp; [|done]. subst p. rewrite Hswc.
        split; congruence.
    + intros p. rewrite Hsw4. case_decide; [done|].
      apply (li_wait_cond _ _ _ _ _ Hl).
  - intros p w. rewrite (next_only_sw _ _ _ Hno4). unfold h3.
    rewrite sw_insert. case_decide; [done|].
    intros Hp. apply Hcur. eauto.
  - done.
  - rewrite Heq4. simpl. done.
Qed.

Lemma lists_inv_set_unlisted h rl cs rs ws p t t' :
  lists_inv h rl cs rs ws → h !! p = Some t →
  state t ≠ THREAD_READY → state t ≠ THREAD_WAITING →
  state t' ≠ THREAD_READY → state t' ≠ THREAD_WAITING →
  list_next t' = list_next t →
  lists_inv (<[p := t']> h) rl cs rs ws.
Proof.
  intros Hl Ht Hr Hw Hr' Hw' Hn.
  assert (sw h p = Some (state t, wait_cond t)) as Hp
    by (apply sw_Some; eauto).
  assert (∀ q, nx (<[p := t']> h) q = nx h q) as Hnx.
  { intros q. by apply (nx_insert_same _ _ t). }
  split.
  - eapply is_tlist_frame; [apply (li_ready_list _ _ _ _ _ Hl)|]. eauto.
  - intros c. eapply is_tlist_frame; [apply (li_wait_lists _ _ _ _ _ Hl)|].
    eauto.
  - intros q. rewrite sw_insert, (li_ready _ _ _ _ _ Hl).
    case_decide as Hq; [|done]. subst q. rewrite Hp. naive_solver.
  - intros q c. rewrite sw_insert, (li_waiting _ _ _ _ _ Hl).
    case_decide as Hq; [|done]. subst q. rewrite Hp. naive_solver.
  - intros q. rewrite sw_insert. case_decide; [congruence|].
    apply (li_wait_cond _ _ _ _ _ Hl).
Qed.

Lemma thread_exit_preserves st st' :
  sched_inv st → thread_exit st = Ok st' → sched_inv st'.
Proof.
  intros (rs & ws & Hinv).
  destruct (sched_inv_at_running _ _ _ Hinv) as (tc & Htc & Hst).
  destruct Hinv as [Hl Hcur].
  unfold thread_exit, store, deref. case_bool_decide; [done|].
  rewrite Htc. simpl. rewrite lookup_insert_eq. simpl.
  destruct (parent tc) as [par|]; [|done]. simpl.
  set (h1 := <[CURTHR st:=set_state THREAD_EXITED tc]> (heap st)).
  destruct (condition_broadcast (child_exit par) (with_heap h1 st))
    as [st1|] eqn:Hbc; [|done].
  simpl. intros Hsusp.
  assert (lists_inv h1 (ready_list st) (conds st) rs ws) as Hl1.
  { eapply lists_inv_set_unlisted; try done; simpl; congruence. }
  destruct (condition_broadcast_lists _ (with_heap h1 st) _ _ _ Hl1 Hbc)
    as (Hl' & Ec & Hsw & _).
  simpl in Ec.
  assert (sw h1 (CURTHR st) = Some (THREAD_EXITED, wait_cond tc)) as Hc1.
  { unfold h1. rewrite sw_insert. by rewrite decide_True. }
  assert (sw (heap st1) (CURTHR st) = Some (THREAD_EXITED, wait_cond tc))
    as Hc2.
  { rewrite Hsw. simpl. rewrite decide_False; [done|].
    intros Hin%(li_waiting _ _ _ _ _ Hl1). congruence. }
  apply sw_Some in Hc2 as (tc1 & Htc1 & Hst1 & _).
  rewrite <- Ec in Htc1.
  eapply (suspend_self_preserves _ _ _ _ tc1) in Hsusp
    as (n & rs' & _ & Hinv'); [|done| |done|congruence].
  - by eexists _, _.
  - intros p w. rewrite Hsw. simpl. case_decide; [done|].
    unfold h1. rewrite sw_insert. case_decide; [done|].
    intros Hp. rewrite Ec. apply Hcur. eauto.
Qed.

(** ** Spawning a thread *)

Lemma thread_spawn_spec nm a fresh pg st rs tid tc :
  spawn_scan (Z.to_nat NTHR) (thrtab st) 0 = Ok tid → tid ≠ NTHR →
  heap st !! CURTHR st = Some tc →
  is_tlist (heap st) (ready_list st) rs →
  heap st !! Kmalloc a = None →
  ∃ st' c,
    thread_spawn nm a fresh pg st = Ok (tid, st')
    ∧ thrtab st' = <[Z.to_nat tid := Some (Kmalloc a)]> (thrtab st)
    ∧ is_tlist (heap st') (ready_list st') (rs ++ [Kmalloc a])
    ∧ heap st' !! Kmalloc a = Some c
    ∧ state c = THREAD_READY ∧ id c = tid ∧ name c = nm
    ∧ parent c = Some (CURTHR st) ∧ proc c = proc tc
    ∧ stack_base c = pg + PAGE_SIZE - ANCHOR_SIZE
    ∧ wait_cond c = wait_cond fresh
    ∧ (∀ p, p ≠ Kmalloc a →
            ∃ n, heap st' !! p = set_list_next n <$> heap st !! p)
    ∧ (∀ p, p ≠ Kmalloc a → last rs ≠ Some p →
            heap st' !! p = heap st !! p)
    ∧ conds st' = conds st ∧ CURTHR st' = CURTHR st
    ∧ freed_pages st' = freed_pages st ∧ kmem st' = kmem st.
Proof.
  intros Hscan Htid Htc Hrl Hfresh.
  unfold thread_spawn. rewrite Hscan. simpl.
  rewrite (bool_decide_eq_false_2 _ Htid).
  unfold deref at 1. rewrite Htc. simpl.
  set (c0 := mk_thread _ _ _ _ _ _ _ _ _ _).
  set (h0 := <[Kmalloc a:=c0]> (heap st)).
  assert (Kmalloc a ∉ rs) as Hnin.
  { intros Hin. destruct Hrl as [Hseg _].
    destruct (lseg_allocated _ _ _ _ Hseg Hin) as [t Ht]. congruence. }
  assert (∀ x, x ≠ Kmalloc a → h0 !! x = heap st !! x) as Hsame0.
  { intros x Hx. unfold h0. by rewrite lookup_insert_ne. }
  destruct (tlinsert_spec h0 (ready_list st) rs (Kmalloc a) c0)
    as (h1 & rl & Hins & Hl1 & Hno1 & Hsame1).
  { eapply is_tlist_frame; [done|]. intros x Hx. unfold nx.
    rewrite Hsame0; [done|]. by intros ->. }
  { apply lookup_insert_eq. }
  { done. }
  rewrite Hins. simpl.
  destruct (next_only_lookup _ _ (Kmalloc a) _ Hno1 (lookup_insert_eq _ _ _))
    as (c1 & Hc1 & Heq1).
  unfold _thread_setup, store, deref. rewrite Hc1. simpl.
  eexists _, (set_context_ra ra_thread_start c1).
  split; [done|]. simpl. split_and!; try done; try (by rewrite Heq1).
  - eapply is_tlist_frame; [done|]. intros x Hx.
    by apply (nx_insert_same _ _ c1).
  - apply lookup_insert_eq.
  - intros p Hp. rewrite lookup_insert_ne by done.
    specialize (Hno1 p). rewrite Hsame0 in Hno1 by done.
    destruct (heap st !! p) as [t|]; simpl; [|by exists None].
    destruct Hno1 as [n Hn]. by exists n.
  - intros p Hp Hlast. rewrite lookup_insert_ne by done.
    by rewrite Hsame1, Hsame0.
Qed.

Lemma thread_spawn_preserves nm a fresh pg st tid st' :
  sched_inv st → heap st !! Kmalloc a = None →
  thread_spawn nm a fresh pg st = Ok (tid, st') → sched_inv st'.
Proof.
  intros (rs & ws & Hinv) Hfresh.
  destruct (sched_inv_at_running _ _ _ Hinv) as (tc & Htc & Hst).
  destruct Hinv as [Hl Hcur].
  destruct (spawn_scan (Z.to_nat NTHR) (thrtab st) 0) as [tid'|] eqn:Hscan;
    [|by unfold thread_spawn; rewrite Hscan].
  destruct (decide (tid' = NTHR)) as [Hfull|Hfree].
  { unfold thread_spawn. rewrite Hscan. simpl.
    by rewrite (bool_decide_eq_true_2 _ Hfull). }
  destruct (thread_spawn_spec nm a fresh pg st rs tid' tc Hscan Hfree Htc
              (li_ready_list _ _ _ _ _ Hl) Hfresh)
    as (st1 & c & Hrun & _ & Hrl & Hc & Hsc & _ & _ & _ & _ & _ & Hwc & Hno
        & Hsame & Hcs & Hcu & _).
  rewrite Hrun. intros [= <- <-].
  assert (sw (heap st) (Kmalloc a) = None) as Hsw0.
  { unfold sw. by rewrite Hfresh. }
  assert (∀ p, sw (heap st1) p = if decide (p = Kmalloc a)
                                 then Some (THREAD_READY, wait_cond fresh)
                                 else sw (heap st) p) as Hsw.
  { intros p. unfold sw. case_decide as Hp.
    - subst p. rewrite Hc. simpl. by rewrite Hsc, Hwc.
    - destruct (Hno p Hp) as [n ->]. by destruct (heap st !! p). }
  exists (rs ++ [Kmalloc a]), ws. split; [split|].
  - done.
  - intros c'. rewrite Hcs.
    eapply is_tlist_frame; [apply (li_wait_lists _ _ _ _ _ Hl)|].
    intros x Hx. unfold nx. rewrite Hsame; [done| |].
    + intros ->. apply (li_waiting _ _ _ _ _ Hl) in Hx. congruence.
    + intros Hlast%last_Some_elem_of.
      by eapply lists_inv_ready_not_waiting.
  - intros p. rewrite Hsw, elem_of_app, list_elem_of_singleton.
    rewrite (li_ready _ _ _ _ _ Hl). case_decide; naive_solver.
  - intros p c'. rewrite Hsw, (li_waiting _ _ _ _ _ Hl).
    case_decide as Hp; [|done]. subst p. rewrite Hsw0. naive_solver.
  - intros p. rewrite Hsw. case_decide; [done|].
    apply (li_wait_cond _ _ _ _ _ Hl).
  - intros p. rewrite Hsw, Hcu, <- Hcur.
    case_decide as Hp; [|done]. subst p. rewrite Hsw0. naive_solver.
Qed.

(** ** The state after [thread_init] *)

Lemma thread_init_sched_inv tp mem msa msl isa isl st :
  thread_init msa msl isa isl (boot_state tp mem) = Ok st →
  sched_inv_at st [idle_thread] (λ _, []).
Proof.
  unfold thread_init, init_main_thread, init_idle_thread, _thread_setup,
    tlinsert, store, deref, boot_state. simpl.
  rewrite lookup_insert_eq. simpl.
  rewrite insert_insert_eq.
  rewrite lookup_insert_ne by done. rewrite lookup_singleton_eq. simpl.
  rewrite !lookup_insert_eq. simpl. rewrite !lookup_insert_eq. simpl.
  rewrite !insert_insert_eq.
  intros [= <-]. unfold sched_inv_at. simpl.
  set (h := <[idle_thread:=_]> _).
  assert (∀ p, sw h p = match p with
                        | main_thread => Some (THREAD_RUNNING, None)
                        | idle_thread => Some (THREAD_READY, None)
                        | Kmalloc _ => None
                        end) as Hsw.
  { intros p. unfold sw, h. destruct p.
    - by rewrite lookup_insert_ne, lookup_insert_eq.
    - by rewrite lookup_insert_eq.
    - by rewrite !lookup_insert_ne, lookup_singleton_ne. }
  split; [split|].
  - split; [|done]. simpl. split; [done|]. eexists.
    split; [apply lookup_insert_eq|done].
  - done.
  - intros p. rewrite Hsw, list_elem_of_singleton.
    destruct p; naive_solver.
  - intros p c. rewrite Hsw, elem_of_nil. by destruct p.
  - intros p. rewrite Hsw. by destruct p.
  - intros p. rewrite Hsw. destruct p; naive_solver.
Qed.

(** ** The invariant in every reachable state *)

Lemma occurrences_not_in p l : p ∉ l → occurrences p l = 0%nat.
Proof.
  unfold occurrences. induction l as [|x l IH]; [done|].
  intros [Hne Hl]%not_elem_of_cons.
  rewrite filter_cons_False by congruence. auto.
Qed.

Lemma occurrences_NoDup p l : NoDup l → p ∈ l → occurrences p l = 1%nat.
Proof.
  unfold occurrences. induction l as [|x l IH]; [by intros _ ?%elem_of_nil|].
  intros [Hx Hnd]%NoDup_cons Hin.
  destruct (decide (x = p)) as [->|Hne].
  - rewrite filter_cons_True by done. simpl.
    pose proof (occurrences_not_in p l Hx) as H0.
    unfold occurrences in H0. by rewrite H0.
  - rewrite filter_cons_False by done. apply IH; [done|].
    apply elem_of_cons in Hin as [->|]; done.
Qed.

Lemma has_state_sw st p s : has_state st p s ↔ ∃ w, sw (heap st) p = Some (s, w).
Proof.
  unfold has_state. split.
  - intros (t & Ht & Hs). exists (wait_cond t). apply sw_Some. eauto.
  - intros [w (t & Ht & Hs & _)%sw_Some]. eauto.
Qed.

Lemma sched_inv_scheduler_invariant st :
  sched_inv st → scheduler_invariant st.
Proof.
  intros (rs & ws & [Hl Hcur]).
  pose proof (li_ready_list _ _ _ _ _ Hl) as Hrl.
  pose proof (is_tlist_elems _ _ _ Hrl) as Ers.
  assert (∀ c, tl_elems (heap st) (conds st c) = ws c) as Ews.
  { intros c. apply is_tlist_elems, (li_wait_lists _ _ _ _ _ Hl). }
  split_and!.
  - exists (CURTHR st). split.
    + apply has_state_sw. by apply Hcur.
    + intros q Hq%has_state_sw. by apply Hcur.
  - intros p Hp%has_state_sw. rewrite Ers.
    apply occurrences_NoDup.
    + destruct Hrl as [Hseg _]. eauto using lseg_NoDup.
    + by apply (li_ready _ _ _ _ _ Hl).
  - intros p [w Hp]%has_state_sw.
    destruct w as [c|]; [|by destruct (li_wait_cond _ _ _ _ _ Hl p)].
    exists c. split.
    + rewrite Ews. apply occurrences_NoDup.
      * destruct (li_wait_lists _ _ _ _ _ Hl c) as [Hseg _].
        eauto using lseg_NoDup.
      * by apply (li_waiting _ _ _ _ _ Hl).
    + intros c'. rewrite Ews. intros Hin%(li_waiting _ _ _ _ _ Hl).
      congruence.
Qed.

Lemma run_op_preserves o st st' :
  sched_inv st → kmalloc_fresh o st → run_op o st = Ok st' → sched_inv st'.
Proof.
  intros Hinv Hfresh. destruct o as [nm a fresh pg| | |c|c|]; simpl.
  - destruct (thread_spawn nm a fresh pg st) as [[tid st1]|] eqn:Hsp; [|done].
    simpl. intros [= <-]. by eapply thread_spawn_preserves.
  - by apply thread_yield_preserves.
  - by apply thread_exit_preserves.
  - by apply condition_wait_preserves.
  - by apply condition_broadcast_preserves.
  - by apply suspend_self_sched_inv.
Qed.

Lemma reachable_sched_inv st : reachable st → sched_inv st.
Proof.
  induction 1 as [tp mem msa msl isa isl st Hinit|st o st' _ IH Hfresh Hrun].
  - eexists _, _. by eapply thread_init_sched_inv.
  - by eapply run_op_preserves.
Qed.

(** C4: in every state that is reachable from the state [thread_init]
    leaves behind through [thread_spawn], [thread_yield], [thread_exit],
    [condition_wait], [condition_broadcast] and [suspend_self], exactly one
    thread is RUNNING, every READY thread occurs exactly once on the ready
    list, and every WAITING thread occurs exactly once on the wait list of
    exactly one condition; every one of these operations that returns leads
    to a state with the same property. *)
Theorem scheduler_invariant_reachable (st : kstate) :
  reachable st →
  scheduler_invariant st
  ∧ ∀ o st', kmalloc_fresh o st → run_op o st = Ok st' →
             scheduler_invariant st'.
Proof.
  intros Hreach. split.
  - by apply sched_inv_scheduler_invariant, reachable_sched_inv.
  - intros o st' Hfresh Hrun.
    eapply sched_inv_scheduler_invariant, run_op_preserves; [|done..].
    by apply reachable_sched_inv.
Qed.

(** ** The slot search of [thread_spawn] *)

Lemma spawn_scan_free n tab t0 tid :
  0 ≤ t0 < tid → tid < NTHR → (Z.to_nat (tid - t0) ≤ n)%nat →
  tab !! Z.to_nat tid = Some None →
  (∀ j, t0 < j < tid → ∃ p, tab !! Z.to_nat j = Some (Some p)) →
  spawn_scan n tab t0 = Ok tid.
Proof.
  revert t0. induction n as [|n IH]; intros t0 Ht0 Htid Hn Hfree Hocc;
    [lia|].
  simpl. rewrite bool_decide_eq_true_2 by lia.
  destruct (decide (t0 + 1 = tid)) as [<-|Hne].
  - rewrite (proj2 (thrtab_at_Ok tab (t0 + 1) None)) by (split; [lia|done]).
    done.
  - destruct (Hocc (t0 + 1)) as [p Hp]; [lia|].
    rewrite (proj2 (thrtab_at_Ok tab (t0 + 1) (Some p)))
      by (split; [lia|done]).
    simpl. apply IH; try lia; try done.
    intros j Hj. apply Hocc. lia.
Qed.

Lemma spawn_scan_full n tab t0 :
  0 ≤ t0 < NTHR → (Z.to_nat (NTHR - t0) ≤ n)%nat →
  (∀ j, t0 < j < NTHR → ∃ p, tab !! Z.to_nat j = Some (Some p)) →
  spawn_scan n tab t0 = Ok NTHR.
Proof.
  revert t0. induction n as [|n IH]; intros t0 Ht0 Hn Hocc; [lia|].
  simpl. case_bool_decide as Hlt.
  - destruct (Hocc (t0 + 1)) as [p Hp]; [lia|].
    rewrite (proj2 (thrtab_at_Ok tab (t0 + 1) (Some p)))
      by (split; [lia|done]).
    simpl. apply IH; try lia.
    intros j Hj. apply Hocc. lia.
  - f_equal. lia.
Qed.

(** C2, as the code has it: when every slot of index 1..NTHR-1 is occupied,
    [thread_spawn] does not return to its caller at all: it stops the
    kernel with [panic("Too many threads")], and no thread is created.
    When some slot of index 1..NTHR-1 is free, [thread_spawn] returns the
    smallest free index, and the new thread, READY and at the tail of the
    ready list, occupies that slot. *)
Theorem thread_spawn_slot (nm : string) (a : Z) (fresh : thread) (pg : Z)
    (st : kstate) :
  ((∀ i, 1 ≤ i < NTHR → ∃ p, thrtab st !! Z.to_nat i = Some (Some p)) →
   thread_spawn nm a fresh pg st = Fault (Panic "Too many threads"))
  ∧ (∀ tid rs tc,
       1 ≤ tid < NTHR →
       thrtab st !! Z.to_nat tid = Some None →
       (∀ j, 1 ≤ j < tid → ∃ p, thrtab st !! Z.to_nat j = Some (Some p)) →
       heap st !! CURTHR st = Some tc →
       is_tlist (heap st) (ready_list st) rs →
       heap st !! Kmalloc a = None →
       ∃ st',
         thread_spawn nm a fresh pg st = Ok (tid, st')
         ∧ thrtab st' = <[Z.to_nat tid := Some (Kmalloc a)]> (thrtab st)
         ∧ thrtab st' !! Z.to_nat tid = Some (Some (Kmalloc a))
         ∧ has_state st' (Kmalloc a) THREAD_READY
         ∧ tl_elems (heap st') (ready_list st') = rs ++ [Kmalloc a]).
Proof.
  split.
  - intros Hocc. unfold thread_spawn.
    rewrite (spawn_scan_full _ _ 0); [done|unfold NTHR; lia..|].
    intros j Hj. apply Hocc. lia.
  - intros tid rs tc Htid Hfree Hocc Htc Hrl Hfresh.
    assert (spawn_scan (Z.to_nat NTHR) (thrtab st) 0 = Ok tid) as Hscan.
    { apply spawn_scan_free; try done; [lia..|].
      intros j Hj. apply Hocc. lia. }
    destruct (thread_spawn_spec nm a fresh pg st rs tid tc Hscan)
      as (st' & c & Hrun & Htab & Hrl' & Hc & Hsc & _); try done; [lia|].
    exists st'. split_and!; try done.
    + rewrite Htab. apply list_lookup_insert_eq.
      by apply lookup_lt_Some in Hfree.
    + by exists c.
    + by apply is_tlist_elems.
Qed.

(** ** Recycling a thread *)

Lemma reparent_idemp thr par t :
  reparent thr par (reparent thr par t) = reparent thr par t.
Proof.
  unfold reparent. destruct (decide (parent t = Some thr)) as [H1|H1].
  - rewrite (bool_decide_eq_true_2 _ H1). simpl. by case_bool_decide.
  - by rewrite !(bool_decide_eq_false_2 _ H1).
Qed.

Lemma reparent_parent_self thr t :
  parent (reparent thr (parent t) t) = parent t.
Proof. unfold reparent. by case_bool_decide. Qed.

Lemma reparent_other thr par t :
  parent t ≠ Some thr → reparent thr par t = t.
Proof. intros H. unfold reparent. by rewrite bool_decide_eq_false_2. Qed.

Lemma recycle_loop_spec n tab thr ctid h h' t :
  h !! thr = Some t → 0 ≤ ctid →
  recycle_loop n tab thr ctid h = Ok h' →
  (∀ p, ∃ b : bool,
      h' !! p = (if b then reparent thr (parent t) else λ x, x) <$> h !! p)
  ∧ (∀ c p, ctid ≤ c < ctid + Z.of_nat n →
            tab !! Z.to_nat c = Some (Some p) →
            h' !! p = reparent thr (parent t) <$> h !! p).
Proof.
  revert ctid h t. induction n as [|n IH]; intros ctid h t Ht Hc; simpl.
  { intros [= <-]. split; [|lia].
    intros p. exists false. by destruct (h !! p). }
  intros Hrun. apply bind_Ok in Hrun as (slot & Hslot & Hrun).
  apply bind_Ok in Hrun as (h1 & Hstep & Hrun).
  apply thrtab_at_Ok in Hslot as [Hrange Hslot].
  assert (∀ p, h1 !! p =
               if bool_decide (slot = Some p)
               then reparent thr (parent t) <$> h !! p else h !! p) as Hh1.
  { destruct slot as [c0|]; [|by injection Hstep as <-].
    apply bind_Ok in Hstep as (ct & Hct%deref_Ok & Hstep).
    intros p. unfold reparent. case_bool_decide as Hpar.
    - apply bind_Ok in Hstep as (t' & Ht'%deref_Ok & Hstep).
      rewrite Ht in Ht'. injection Ht' as <-.
      apply store_Ok in Hstep as (ct' & Hct' & ->).
      rewrite Hct in Hct'. injection Hct' as <-.
      case_bool_decide as Hp.
      + injection Hp as <-. rewrite lookup_insert_eq, Hct. simpl.
        by rewrite bool_decide_eq_true_2.
      + rewrite lookup_insert_ne; [done|]. congruence.
    - injection Hstep as <-. case_bool_decide as Hp; [|done].
      injection Hp as <-. rewrite Hct. simpl.
      by rewrite bool_decide_eq_false_2. }
  assert (∃ t1, h1 !! thr = Some t1 ∧ parent t1 = parent t) as (t1 & Ht1 & Hp1).
  { rewrite Hh1, Ht. case_bool_decide; simpl; eexists; split; try done.
    apply reparent_parent_self. }
  destruct (IH (ctid + 1) h1 t1 Ht1 ltac:(lia) Hrun) as [HR1 HR2].
  rewrite Hp1 in HR1, HR2.
  split.
  - intros p. destruct (HR1 p) as [b Hb]. rewrite Hb, Hh1.
    case_bool_decide.
    + exists true. destruct (h !! p) as [x|]; simpl; [|by destruct b].
      destruct b; [by rewrite reparent_idemp|done].
    + by exists b.
  - intros c p Hcr Hcp. destruct (decide (c = ctid)) as [->|Hne].
    + rewrite Hslot in Hcp. injection Hcp as Hcp.
      destruct (HR1 p) as [b Hb]. rewrite Hb, Hh1.
      rewrite (bool_decide_eq_true_2 _ Hcp).
      destruct (h !! p) as [x|]; simpl; [|by destruct b].
      destruct b; [by rewrite reparent_idemp|done].
    + rewrite (HR2 c p) by (done || lia). rewrite Hh1.
      case_bool_decide; [|done].
      destruct (h !! p) as [x|]; simpl; [|done].
      by rewrite reparent_idemp.
Qed.

(** [thread_join] and the second loop of [thread_join_any] get rid of a
    child through [recycle_thread] only. *)
Lemma thread_join_returns tid st r st' :
  thread_join tid st = Ok (Returned r st') →
  (r = -1 ∧ st' = st) ∨ (r = tid ∧ recycle_thread tid st = Ok st').
Proof.
  unfold thread_join, thread_join_wait. intros H.
  apply bind_Ok in H as (slot & _ & H).
  case_bool_decide; [left; by injection H as <- <-|].
  destruct slot as [child|]; [|left; by injection H as <- <-].
  apply bind_Ok in H as (c & _ & H).
  case_bool_decide; [left; by injection H as <- <-|].
  apply bind_Ok in H as (c' & _ & H).
  case_bool_decide.
  - apply bind_Ok in H as (? & _ & [=]).
  - apply bind_Ok in H as (st1 & Hrec & H). injection H as <- <-.
    by right.
Qed.

Lemma join_any_reap_returns n tid0 st tid st' :
  join_any_reap n tid0 st = Ok (tid, st') → recycle_thread tid st = Ok st'.
Proof.
  revert tid0. induction n as [|n IH]; intros tid0; simpl; [done|].
  intros H. apply bind_Ok in H as (slot & _ & H).
  destruct slot as [c|]; [|eauto].
  apply bind_Ok in H as (ct & _ & H).
  case_bool_decide; [|eauto].
  apply bind_Ok in H as (st1 & Hrec & H). by injection H as <- <-.
Qed.

(** C9: when [recycle_thread tid] returns, in a table of NTHR slots whose
    slot 0 holds a thread without parent (the main thread), the slot [tid]
    held an EXITED thread [thr]; afterwards every other thread of the table
    whose parent was [thr] has the parent of [thr] as its parent and is
    otherwise as before, slot [tid] is NULL and [thr] is freed, every other
    slot is as before, and every thread that was not a child of [thr] is as
    before. *)
Theorem recycle_thread_reparents (tid : Z) (st st' : kstate) :
  length (thrtab st) = Z.to_nat NTHR →
  (∀ p0 t0, thrtab st !! 0%nat = Some (Some p0) → heap st !! p0 = Some t0 →
            parent t0 = None) →
  recycle_thread tid st = Ok st' →
  ∃ thr t,
    0 < tid < NTHR
    ∧ thrtab st !! Z.to_nat tid = Some (Some thr)
    ∧ heap st !! thr = Some t ∧ state t = THREAD_EXITED
    ∧ (∀ c p tc, thrtab st !! c = Some (Some p) → heap st !! p = Some tc →
                 parent tc = Some thr → p ≠ thr →
                 heap st' !! p = Some (set_parent (parent t) tc))
    ∧ thrtab st' !! Z.to_nat tid = Some None
    ∧ heap st' !! thr = None
    ∧ (∀ c, c ≠ Z.to_nat tid → thrtab st' !! c = thrtab st !! c)
    ∧ (∀ p tc, heap st !! p = Some tc → parent tc ≠ Some thr → p ≠ thr →
               heap st' !! p = Some tc).
Proof.
  intros Hlen Hmain Hrun. unfold recycle_thread in Hrun.
  apply bind_Ok in Hrun as (slot & [Hrange Hslot]%thrtab_at_Ok & Hrun).
  apply bind_Ok in Hrun as ([] & Hassert%assert_Ok & Hrun).
  apply bool_decide_eq_true in Hassert as (Hpos & _ & _).
  destruct slot as [thr|]; [|done].
  apply bind_Ok in Hrun as (t & Ht%deref_Ok & Hrun).
  apply bind_Ok in Hrun as ([] & Hex%assert_Ok & Hrun).
  apply bool_decide_eq_true in Hex.
  apply bind_Ok in Hrun as (h & Hloop & Hrun). injection Hrun as <-.
  destruct (recycle_loop_spec _ _ _ 1 _ _ _ Ht ltac:(lia) Hloop) as [HR1 HR2].
  exists thr, t. simpl. split_and!; try done.
  - lia.
  - intros c p tc Hc Hp Hpar Hne.
    rewrite lookup_delete_ne by done.
    destruct (decide (c = 0%nat)) as [->|Hc0].
    { rewrite (Hmain _ _ Hc Hp) in Hpar. done. }
    rewrite (HR2 (Z.of_nat c) p).
    + rewrite Hp. simpl. unfold reparent.
      by rewrite bool_decide_eq_true_2.
    + apply lookup_lt_Some in Hc. unfold NTHR in *. lia.
    + by rewrite Nat2Z.id.
  - apply list_lookup_insert_eq. by apply lookup_lt_Some in Hslot.
  - apply lookup_delete_eq.
  - intros c Hc. by rewrite list_lookup_insert_ne.
  - intros p tc Hp Hpar Hne. rewrite lookup_delete_ne by done.
    destruct (HR1 p) as [b Hb]. rewrite Hb, Hp. simpl.
    destruct b; [|done]. by rewrite reparent_other.
Qed.

(** ** Stack pages and the fork of a thread *)

Lemma next_only_store h h' p n :
  store h p (set_list_next n) = Ok h' → next_only h h'.
Proof. intros (t & Ht & ->)%store_Ok. by apply next_only_insert. Qed.

Lemma tlinsert_next_only h l thr h' l' :
  tlinsert h l thr = Ok (h', l') → next_only h h'.
Proof.
  unfold tlinsert. intros H.
  apply bind_Ok in H as (h1 & H1%next_only_store & H).
  destruct (tail l) as [tl|].
  - apply bind_Ok in H as ([] & _ & H).
    apply bind_Ok in H as (h2 & H2%next_only_store & H).
    injection H as <- <-. by eapply next_only_trans.
  - apply bind_Ok in H as ([] & _ & H). by injection H as <- <-.
Qed.

Lemma thread_spawn_stack nm a fresh pg st tid st1 :
  thread_spawn nm a fresh pg st = Ok (tid, st1) →
  ∃ c, heap st1 !! Kmalloc a = Some c
       ∧ stack_base c = pg + PAGE_SIZE - ANCHOR_SIZE
       ∧ stack_size c = PAGE_SIZE - ANCHOR_SIZE.
Proof.
  unfold thread_spawn. intros H.
  apply bind_Ok in H as (tid' & _ & H).
  case_bool_decide; [done|].
  apply bind_Ok in H as (cur & _ & H).
  apply bind_Ok in H as ([h rl] & Hins%tlinsert_next_only & H).
  apply bind_Ok in H as (h2 & (c1 & Hc1 & ->)%store_Ok & H).
  injection H as <- <-. simpl.
  destruct (next_only_lookup _ _ (Kmalloc a) _ Hins (lookup_insert_eq _ _ _))
    as (c1' & Hc1' & Heq).
  rewrite Hc1 in Hc1'. injection Hc1' as <-.
  eexists. split; [apply lookup_insert_eq|].
  rewrite Heq. simpl. split; [done|lia].
Qed.

(** What [suspend_self] hands to [memory_free_page] for a thread made by
    [thread_spawn] on the stack page [pg]: the address [pg - ANCHOR_SIZE],
    which lies below the page. *)
Lemma suspend_self_resumed_frees nm a fresh pg st tid st1 :
  thread_spawn nm a fresh pg st = Ok (tid, st1) →
  ∃ c, heap st1 !! Kmalloc a = Some c
       ∧ ∀ st2 c2,
           heap st2 !! Kmalloc a = Some c2 →
           stack_base c2 = stack_base c → state c2 = THREAD_EXITED →
           ∃ st3, suspend_self_resumed (Kmalloc a) st2 = Ok st3
                  ∧ freed_pages st3 = freed_pages st2 ++ [pg - ANCHOR_SIZE].
Proof.
  intros (c & Hc & Hbase & _)%thread_spawn_stack.
  exists c. split; [done|]. intros st2 c2 Hc2 Hb2 Hex.
  unfold suspend_self_resumed, store, deref. rewrite Hc2. simpl.
  rewrite (bool_decide_eq_true_2 _ Hex). simpl.
  eexists. split; [done|]. simpl. do 2 f_equal. lia.
Qed.

Lemma mem_read_zeroed mem addr (l : list nat) a :
  a ∈ (λ i, addr + Z.of_nat i) <$> l →
  mem_read
    (foldr (λ i m, <[addr + Z.of_nat i :=
                       Z.land (Z.shiftr 0 (8 * Z.of_nat i)) 255]> m) mem l) a
  = 0.
Proof.
  induction l as [|i l IH]; simpl; [by intros ?%elem_of_nil|].
  intros Ha. unfold mem_read.
  destruct (decide (addr + Z.of_nat i = a)) as [<-|Hne].
  - rewrite lookup_insert_eq. simpl.
    by rewrite Z.shiftr_0_l, Z.land_0_l.
  - rewrite lookup_insert_ne by done.
    apply elem_of_cons in Ha as [->|Ha]; [done|]. by apply IH.
Qed.

Lemma load64_store64_zero mem addr : load64 (store64 mem addr 0) addr = 0.
Proof.
  unfold load64, store64.
  assert (∀ i, (i < 8)%nat →
               mem_read
                 (foldr (λ i m, <[addr + Z.of_nat i :=
                                    Z.land (Z.shiftr 0 (8 * Z.of_nat i)) 255]>
                                  m) mem (seq 0 8)) (addr + Z.of_nat i) = 0)
    as Hz.
  { intros i Hi. apply mem_read_zeroed.
    apply (list_elem_of_fmap_2 (λ i, addr + Z.of_nat i)).
    apply elem_of_seq. lia. }
  cbn [foldr seq].
  rewrite !Hz by lia. done.
Qed.

Lemma fork_scan_spec n tab t0 tid :
  0 ≤ t0 ≤ NTHR → (Z.to_nat (NTHR - t0) + 1 ≤ n)%nat →
  fork_scan n tab t0 = Ok tid →
  t0 ≤ tid ≤ NTHR
  ∧ (tid < NTHR → tab !! Z.to_nat tid = Some None)
  ∧ (∀ j, t0 ≤ j < tid → ∃ p, tab !! Z.to_nat j = Some (Some p)).
Proof.
  revert t0. induction n as [|n IH]; intros t0 Ht0 Hn; [lia|]. simpl.
  case_bool_decide as Hlt.
  - intros H. apply bind_Ok in H as (slot & [_ Hslot]%thrtab_at_Ok & H).
    destruct slot as [p|].
    + destruct (IH (t0 + 1) ltac:(lia) ltac:(lia) H) as (Hle & Hfree & Hocc).
      split; [lia|]. split; [done|].
      intros j Hj. destruct (decide (j = t0)) as [->|]; [eauto|].
      apply Hocc. lia.
    + injection H as <-. split; [lia|]. split; [done|lia].
  - intros [= <-]. split; [lia|]. split; lia.
Qed.

(** C1: let [thread_fork_to_user] be called by a thread that is registered
    in the table under its id, with slot 0 of the table occupied (the main
    thread) and with a fresh block from [kmalloc] for the child. On the path
    of the child, which is the one that leaves [_thread_finish_fork] at once,
    the call installs the child in a free slot [r] with [0 < r < NTHR], makes
    it the current thread, and stores 0 into the [a0] slot of the trap frame
    that lies immediately below the [stack_base] of the child. The parent is
    left READY with its context pointing behind [_thread_finish_fork]; when
    it is resumed there, it returns [r], which is positive, and stores
    nothing. *)
Theorem fork_return_divergence (child_proc : option Z) (low a : Z)
    (fresh : thread) (sp : Z) (st st' : kstate) (r : Z) (tc : thread) :
  heap st !! CURTHR st = Some tc →
  heap st !! Kmalloc a = None →
  (∃ p0, thrtab st !! 0%nat = Some (Some p0)) →
  0 ≤ id tc →
  thrtab st !! Z.to_nat (id tc) = Some (Some (CURTHR st)) →
  thread_fork_to_user child_proc low a fresh sp st = Ok (r, st') →
  ∃ c par,
    0 < r < NTHR
    ∧ thrtab st !! Z.to_nat r = Some None
    ∧ thrtab st' !! Z.to_nat r = Some (Some (Kmalloc a))
    ∧ CURTHR st' = Kmalloc a
    ∧ heap st' !! Kmalloc a = Some c
    ∧ id c = r ∧ state c = THREAD_RUNNING ∧ parent c = Some (CURTHR st)
    ∧ stack_base c = low + PAGE_SIZE - ANCHOR_SIZE
    ∧ load64 (kmem st') (stack_base c - TFR_SIZE + TFR_A0_OFFSET) = 0
    ∧ heap st' !! CURTHR st = Some par
    ∧ context_ra par = ra_fork r (Kmalloc a)
    ∧ state par = THREAD_READY ∧ id par = id tc
    ∧ ∀ st2 par2,
        CURTHR st2 = CURTHR st → heap st2 !! CURTHR st = Some par2 →
        id par2 = id tc →
        thread_fork_to_user_resumed r (Kmalloc a) st2 = Ok (r, st2).
Proof.
  intros Htc Hfresh [p0 Hp0] Hid Hreg Hrun.
  unfold thread_fork_to_user in Hrun.
  destruct child_proc as [cproc|]; [|done].
  apply bind_Ok in Hrun as (child_tid & Hscan & Hrun).
  apply fork_scan_spec in Hscan as (Hge & Hfree & Hocc);
    [|unfold NTHR; lia..].
  case_bool_decide as Hfull; [done|].
  specialize (Hfree ltac:(lia)).
  assert (child_tid ≠ 0) as Hnz.
  { intros ->. change (Z.to_nat 0) with 0%nat in Hfree.
    rewrite Hp0 in Hfree. done. }
  assert (CURTHR st ≠ Kmalloc a) as Hne by congruence.
  assert (id tc ≠ child_tid) as Hidne by congruence.
  apply bind_Ok in Hrun as (h1 & (tc1 & Htc1 & ->)%store_Ok & Hrun).
  rewrite lookup_insert_ne, Htc in Htc1 by done. injection Htc1 as <-.
  apply bind_Ok in Hrun as ([h2 rl] & Hno%tlinsert_next_only & Hrun).
  apply bind_Ok in Hrun as (par1 & Hpar1%deref_Ok & Hrun).
  apply bind_Ok in Hrun as (st3 & Hff & Hrun).
  unfold _thread_finish_fork in Hff. simpl in Hff.
  apply bind_Ok in Hff as (h3 & (par1' & Hpar1' & ->)%store_Ok & Hff).
  rewrite Hpar1 in Hpar1'. injection Hpar1' as <-. injection Hff as <-.
  (* the threads of parent and child in the heap the child runs on *)
  destruct (next_only_lookup _ _ (CURTHR st) _ Hno (lookup_insert_eq _ _ _))
    as (par1' & Hpar1' & Heqp).
  rewrite Hpar1 in Hpar1'. injection Hpar1' as <-.
  set (c0 := mk_thread _ _ _ _ _ _ _ _ _ _) in *.
  assert (<[CURTHR st:=set_state THREAD_READY tc]>
            (<[Kmalloc a:=c0]> (heap st)) !! Kmalloc a = Some c0) as Hc0.
  { by rewrite lookup_insert_ne, lookup_insert_eq. }
  destruct (next_only_lookup _ _ _ _ Hno Hc0) as (c2 & Hc2 & Heqc).
  unfold thread_fork_to_user_resumed, running_thread, deref in Hrun.
  simpl in Hrun. rewrite lookup_insert_ne, Hc2 in Hrun by done.
  simpl in Hrun.
  assert (id c2 = child_tid) as Hidc by by rewrite Heqc.
  rewrite (bool_decide_eq_true_2 _ Hidc) in Hrun.
  injection Hrun as <- <-. simpl.
  exists c2, (set_context_ra (ra_fork child_tid (Kmalloc a)) par1).
  split_and!; try done; try (by rewrite Heqc); try (by rewrite Heqp).
  - lia.
  - lia.
  - apply list_lookup_insert_eq. by apply lookup_lt_Some in Hfree.
  - by rewrite lookup_insert_ne.
  - apply load64_store64_zero.
  - apply lookup_insert_eq.
  - intros st2 par2 Hcur2 Hpar2 Hid2.
    unfold thread_fork_to_user_resumed, running_thread, deref.
    rewrite Hcur2, Hpar2. simpl.
    rewrite bool_decide_eq_false_2; [done|]. congruence.
Qed.

(** ** The transfer loop of [ioread_full] and [iowrite] *)

Lemma transfer_loop_spec {St : Type} (op : St → Z → Z → Z * St) n fuel acc s :
  0 ≤ acc ≤ n → n ≤ LONG_MAX →
  (∀ s acc len, 0 < len → (op s acc len).1 ≤ len) →
  (Z.to_nat (n - acc) ≤ fuel)%nat →
  ∃ r s', transfer_loop fuel op n acc s = Some (r, s')
          ∧ transfer_run op n acc s r s'
          ∧ (r < 0 ∨ acc ≤ r ≤ n).
Proof.
  intros Hacc Hn Hop. revert acc s Hacc.
  unfold LONG_MAX in Hn.
  induction fuel as [|fuel IH]; intros acc s Hacc Hfuel.
  - assert (acc = n) as -> by lia. simpl.
    rewrite bool_decide_eq_false_2
      by (unfold to_ulong; rewrite Z.mod_small; lia).
    eexists _, _. split; [done|]. split; [by apply run_full|lia].
  - simpl. unfold to_ulong. rewrite !Z.mod_small by lia.
    case_bool_decide as Hlt.
    + pose proof (Hop s acc (n - acc) ltac:(lia)) as Hcnt.
      destruct (op s acc (n - acc)) as [cnt s1] eqn:Hcall. simpl in Hcnt.
      case_bool_decide as Hneg.
      { eexists _, _. split; [done|].
        split; [by eapply run_error|lia]. }
      case_bool_decide as Hzero.
      { subst cnt. eexists _, _. split; [done|].
        split; [by eapply run_eof|lia]. }
      assert (to_long (acc + cnt) = acc + cnt) as ->.
      { unfold to_long. rewrite Z.mod_small; lia. }
      destruct (IH (acc + cnt) s1) as (r & s' & Hrun & Hspec & Hr);
        [lia..|].
      exists r, s'. split; [done|].
      split; [eapply run_more; eauto; lia|lia].
    + eexists _, _. split; [done|]. split; [apply run_full|]; lia.
Qed.

Lemma transfer_run_read {D : Type}
    (rd : D → list Z → Z → Z → Z * D * list Z) n acc s r s' :
  transfer_run (read_step rd) n acc s r s' →
  read_run rd n acc s.1 s.2 r s'.1 s'.2.
Proof.
  induction 1 as [acc [d b] Hn|acc [d b] cnt [d' b'] Hn Hop Hc
                 |acc [d b] [d' b'] Hn Hop
                 |acc [d b] cnt [d' b'] r [d'' b''] Hn Hop Hc _ IH];
    cbn [fst snd] in *.
  - by apply read_run_full.
  - unfold read_step in Hop.
    destruct (rd d b acc (n - acc)) as [[c d1] b1] eqn:E.
    injection Hop as -> -> ->. by eapply read_run_error.
  - unfold read_step in Hop.
    destruct (rd d b acc (n - acc)) as [[c d1] b1] eqn:E.
    injection Hop as -> -> ->. by eapply read_run_eof.
  - unfold read_step in Hop.
    destruct (rd d b acc (n - acc)) as [[c d1] b1] eqn:E.
    injection Hop as -> -> ->. by eapply read_run_more.
Qed.

Lemma transfer_run_write {D : Type} (wr : D → list Z → Z → Z → Z * D)
    (buf : list Z) n acc d r d' :
  transfer_run (write_step wr buf) n acc d r d' →
  write_run wr buf n acc d r d'.
Proof.
  unfold write_step.
  induction 1 as [acc d Hn|acc d cnt d' Hn Hop Hc|acc d d' Hn Hop
                 |acc d cnt d' r d'' Hn Hop Hc _ IH].
  - by apply write_run_full.
  - by eapply write_run_error.
  - by eapply write_run_eof.
  - by eapply write_run_more.
Qed.

(** C7, as the code has it: for a requested length that fits a [long] and a backing
    operation that never reports more bytes than it was asked for,
    [ioread_full] and [iowrite] return (given enough fuel for at most one
    round per byte), and they do what the specification says of them: the
    backing operation is asked for what is missing until the full length
    has been transferred, or it reports a negative error code, which is
    returned as it is, or it reports 0, and then the bytes accumulated so
    far are returned; a result that is not negative lies between 0 and the
    requested length. When the backing operation is absent the result is
    [-ENOTSUP]. *)
Theorem io_transfer_helpers {D : Type} (ops : io_ops D) (io : D)
    (buf : list Z) (n : Z) (fuel : nat) :
  0 ≤ n ≤ LONG_MAX → (Z.to_nat n ≤ fuel)%nat →
  match ops_read ops with
  | None => ioread_full fuel ops io buf n = Some (- ENOTSUP, (io, buf))
  | Some rd =>
      (∀ d b off len, 0 < len → (rd d b off len).1.1 ≤ len) →
      ∃ r io' buf',
        ioread_full fuel ops io buf n = Some (r, (io', buf'))
        ∧ read_run rd n 0 io buf r io' buf'
        ∧ (r < 0 ∨ 0 ≤ r ≤ n)
  end
  ∧ match ops_write ops with
    | None => iowrite fuel ops io buf n = Some (- ENOTSUP, io)
    | Some wr =>
        (∀ d b off len, 0 < len → (wr d b off len).1 ≤ len) →
        ∃ r io', iowrite fuel ops io buf n = Some (r, io')
                 ∧ write_run wr buf n 0 io r io'
                 ∧ (r < 0 ∨ 0 ≤ r ≤ n)
    end.
Proof.
  intros Hn Hfuel. unfold ioread_full, iowrite. split.
  - destruct (ops_read ops) as [rd|]; [|done]. intros Hrd.
    destruct (transfer_loop_spec (read_step rd) n fuel 0 (io, buf))
      as (r & [io' buf'] & Hrun & Hspec & Hr); try lia.
    { intros [d b] acc len Hlen. unfold read_step.
      specialize (Hrd d b acc len Hlen).
      by destruct (rd d b acc len) as [[cnt d'] b']. }
    exists r, io', buf'. split; [done|]. split; [|done].
    exact (transfer_run_read rd n 0 (io, buf) r (io', buf') Hspec).
  - destruct (ops_write ops) as [wr|]; [|done]. intros Hwr.
    destruct (transfer_loop_spec (write_step wr buf) n fuel 0 io)
      as (r & io' & Hrun & Hspec & Hr); try lia.
    { intros d acc len Hlen. by apply Hwr. }
    exists r, io'. split; [done|]. split; [|done].
    by apply transfer_run_write.
Qed.

(** ** The in-memory literal *)

(** Inside the buffer, [io_lit_read] and [io_lit_write] move
    [min(n, size - pos)] bytes, advance the position by as much, and return
    0. *)
Lemma io_lit_read_in_range lit buf off bufsz :
  0 ≤ lit_pos lit < lit_size lit → lit_size lit < 2 ^ 64 →
  0 ≤ bufsz → lit_pos lit + bufsz < 2 ^ 64 →
  io_lit_read lit buf off bufsz
  = (0,
     set_lit_pos (lit_pos lit + Z.min bufsz (lit_size lit - lit_pos lit)) lit,
     copy_bytes buf off (lit_buf lit) (lit_pos lit)
       (Z.min bufsz (lit_size lit - lit_pos lit))).
Proof.
  intros Hpos Hsize Hn Hsum. unfold io_lit_read.
  rewrite (bool_decide_eq_false_2 (lit_size lit ≤ lit_pos lit)) by lia.
  unfold to_ulong. rewrite (Z.mod_small (lit_pos lit + bufsz)) by lia.
  case_bool_decide.
  - rewrite (Z.mod_small (lit_size lit - lit_pos lit)) by lia.
    rewrite Z.mod_small by lia. by rewrite Z.min_r by lia.
  - rewrite Z.min_l by lia. by rewrite Z.mod_small by lia.
Qed.

Lemma io_lit_write_in_range lit buf off n :
  0 ≤ lit_pos lit < lit_size lit → lit_size lit < 2 ^ 64 →
  0 ≤ n → lit_pos lit + n < 2 ^ 64 →
  io_lit_write lit buf off n
  = (0,
     set_lit_pos (lit_pos lit + Z.min n (lit_size lit - lit_pos lit))
       (set_lit_buf
          (copy_bytes (lit_buf lit) (lit_pos lit) buf off
             (Z.min n (lit_size lit - lit_pos lit))) lit)).
Proof.
  intros Hpos Hsize Hn Hsum. unfold io_lit_write.
  rewrite (bool_decide_eq_false_2 (lit_size lit ≤ lit_pos lit)) by lia.
  unfold to_ulong. rewrite (Z.mod_small (lit_pos lit + n)) by lia.
  case_bool_decide.
  - rewrite (Z.mod_small (lit_size lit - lit_pos lit)) by lia.
    rewrite Z.mod_small by lia. by rewrite Z.min_r by lia.
  - rewrite Z.min_l by lia. by rewrite Z.mod_small by lia.
Qed.

(** C8, as the code has it: [io_lit_ioctl] with [IOCTL_SETPOS] stores
    whatever position it is given, also one beyond the size, and returns 0.
    The position is refused later: with the position at or beyond the size,
    [io_lit_read] and [io_lit_write] return [-EINVAL] and leave the literal,
    its position included, as it is. *)
Theorem io_lit_setpos_then_einval (lit : io_lit) (arg : Z) (buf : list Z)
    (off n : Z) :
  IOCTL_SETPOS ≠ IOCTL_GETLEN →
  io_lit_ioctl lit IOCTL_SETPOS arg = (0, set_lit_pos arg lit, arg)
  ∧ (lit_size lit ≤ arg →
     io_lit_read (set_lit_pos arg lit) buf off n
     = (- EINVAL, set_lit_pos arg lit, buf)
     ∧ io_lit_write (set_lit_pos arg lit) buf off n
       = (- EINVAL, set_lit_pos arg lit)).
Proof.
  intros Hcmd. split.
  - unfold io_lit_ioctl. rewrite bool_decide_eq_false_2 by done.
    by rewrite bool_decide_eq_true_2.
  - intros Hout. unfold io_lit_read, io_lit_write. simpl.
    by rewrite !bool_decide_eq_true_2.
Qed.

(** ** Members that the list operations and the scheduler leave alone *)

Lemma agree_refl {A : Type} (P : thread → A) h : agree P h h.
Proof. by intros p. Qed.

Lemma agree_trans {A : Type} (P : thread → A) h1 h2 h3 :
  agree P h1 h2 → agree P h2 h3 → agree P h1 h3.
Proof. intros H12 H23 p. by rewrite H23, H12. Qed.

Lemma agree_lookup {A : Type} (P : thread → A) h h' p t :
  agree P h h' → h !! p = Some t → ∃ t', h' !! p = Some t' ∧ P t' = P t.
Proof.
  intros Ha Ht. specialize (Ha p). rewrite Ht in Ha. simpl in Ha.
  destruct (h' !! p) as [t'|]; simplify_eq/=. eauto.
Qed.

Lemma agree_lookup_inv {A : Type} (P : thread → A) h h' p t' :
  agree P h h' → h' !! p = Some t' → ∃ t, h !! p = Some t ∧ P t' = P t.
Proof.
  intros Ha Ht. specialize (Ha p). rewrite Ht in Ha. simpl in Ha.
  destruct (h !! p) as [t|]; simplify_eq/=. eauto.
Qed.

Lemma agree_None {A : Type} (P : thread → A) h h' p :
  agree P h h' → h !! p = None ↔ h' !! p = None.
Proof.
  intros Ha. specialize (Ha p).
  destruct (h !! p), (h' !! p); simplify_eq/=; done.
Qed.

Lemma agree_store {A : Type} (P : thread → A) h p f h' :
  (∀ t, P (f t) = P t) → store h p f = Ok h' → agree P h h'.
Proof.
  intros Hf (t & Ht & ->)%store_Ok q.
  destruct (decide (p = q)) as [->|Hne].
  - rewrite lookup_insert_eq, Ht. simpl. by rewrite Hf.
  - by rewrite lookup_insert_ne.
Qed.

Lemma store_other h p f h' q :
  store h p f = Ok h' → q ≠ p → h' !! q = h !! q.
Proof. intros (t & Ht & ->)%store_Ok Hq. by rewrite lookup_insert_ne. Qed.

Lemma agree_next_only {A : Type} (P : thread → A) h h' :
  (∀ n t, P (set_list_next n t) = P t) → next_only h h' → agree P h h'.
Proof.
  intros HP Hno p. specialize (Hno p).
  destruct (h !! p) as [t|].
  - destruct Hno as [n ->]. simpl. by rewrite HP.
  - by rewrite Hno.
Qed.

Lemma tlremove_next_only h l h' l' x :
  tlremove h l = Ok (h', l', x) → next_only h h'.
Proof.
  unfold tlremove. destruct (head l) as [thr|].
  - intros (t & _ & (h1 & Hst & [= <- _ _])%bind_Ok)%bind_Ok.
    by eapply next_only_store.
  - intros [= <- _ _]. apply next_only_refl.
Qed.

Lemma tlappend_next_only h l0 l1 h' l0' l1' :
  tlappend h l0 l1 = Ok (h', l0', l1') → next_only h h'.
Proof.
  unfold tlappend. destruct (head l0).
  - intros (_ & _ & H)%bind_Ok. destruct (head l1).
    + apply bind_Ok in H as (_ & _ & H). destruct (tail l0); [|done].
      apply bind_Ok in H as (h1 & Hst & [= <- _ _]).
      by eapply next_only_store.
    + injection H as <- _ _. apply next_only_refl.
  - intros (_ & _ & [= <- _ _])%bind_Ok. apply next_only_refl.
Qed.

Lemma broadcast_loop_agree {A : Type} (P : thread → A) n c h p h' :
  (∀ s t, P (set_state s t) = P t) →
  (∀ w t, P (set_wait_cond w t) = P t) →
  broadcast_loop n c h p = Ok h' → agree P h h'.
Proof.
  intros Hs Hw. revert h p. induction n as [|n IH]; intros h p.
  - destruct p; simpl; [done|]. intros [= <-]. apply agree_refl.
  - destruct p as [p|]; simpl; [|intros [= <-]; apply agree_refl].
    intros (t & _ & (_ & _ & (_ & _ & (h1 & H1 & (h2 & H2 &
             (t2 & _ & H)%bind_Ok)%bind_Ok)%bind_Ok)%bind_Ok)%bind_Ok)%bind_Ok.
    eapply agree_trans; [|by eapply IH].
    eapply agree_trans.
    + eapply agree_store; [|done]. intros; apply Hs.
    + eapply agree_store; [|done]. intros; apply Hw.
Qed.

Lemma suspend_self_switch_frame {A : Type} (P : thread → A) st ra prev st' :
  (∀ n t, P (set_list_next n t) = P t) →
  (∀ s t, P (set_state s t) = P t) →
  suspend_self_switch st = Ok (ra, prev, st') →
  prev = CURTHR st
  ∧ (∀ p, p ≠ CURTHR st → P <$> heap st' !! p = P <$> heap st !! p)
  ∧ ((∀ r t, P (set_context_ra r t) = P t) → agree P (heap st) (heap st'))
  ∧ thrtab st' = thrtab st ∧ conds st' = conds st
  ∧ freed_pages st' = freed_pages st ∧ kmem st' = kmem st
  ∧ ∃ tn, heap st' !! CURTHR st' = Some tn ∧ ra = context_ra tn.
Proof.
  intros HP1 HP2 H. unfold suspend_self_switch in H.
  apply bind_Ok in H as (_ & _ & H).
  apply bind_Ok in H as ([[h1 rl1] next] & Hrem & H).
  destruct next as [n|]; [|done].
  apply bind_Ok in H as (tn & Htn & H).
  apply bind_Ok in H as (_ & _ & H).
  apply bind_Ok in H as (h2 & Hst2 & H).
  apply bind_Ok in H as (s & Hs & H).
  apply bind_Ok in H as ([h3 rl3] & Hins & H).
  apply bind_Ok in H as (n3 & Hn3 & H).
  assert (agree P (heap st) h3) as Hag.
  { eapply agree_trans;
      [eapply agree_next_only; [done|by eapply tlremove_next_only]|].
    eapply agree_trans; [eapply agree_store; [|done]; intros; apply HP2|].
    destruct (bool_decide (state s = THREAD_RUNNING)).
    - apply bind_Ok in Hins as (h' & Hst' & Hins).
      eapply agree_trans; [eapply agree_store; [|done]; intros; apply HP2|].
      eapply agree_next_only; [done|by eapply tlinsert_next_only].
    - injection Hins as <- _. apply agree_refl. }
  unfold _thread_swtch in H.
  apply bind_Ok in H as (h4 & Hst4 & H).
  apply bind_Ok in H as (n4 & Hn4 & H).
  assert (heap (match proc n3 with
                | Some p => memory_space_switch p
                              (with_ready_list rl3 (with_heap h3 st))
                | None => with_ready_list rl3 (with_heap h3 st)
                end) = h3) as Eh by (by destruct (proc n3)).
  assert (CURTHR (match proc n3 with
                  | Some p => memory_space_switch p
                                (with_ready_list rl3 (with_heap h3 st))
                  | None => with_ready_list rl3 (with_heap h3 st)
                  end) = CURTHR st) as Ec by (by destruct (proc n3)).
  rewrite Eh, Ec in Hst4. apply deref_Ok in Hn4.
  injection H as <- <- <-. simpl.
  split_and!; try done.
  - intros p Hp. rewrite (store_other _ _ _ _ _ Hst4 Hp). apply Hag.
  - intros HP3. eapply agree_trans; [done|].
    eapply agree_store; [|done]. intros; apply HP3.
  - by destruct (proc n3).
  - by destruct (proc n3).
  - by destruct (proc n3).
  - by destruct (proc n3).
  - eauto.
Qed.

(** [suspend_self] with a thread on the ready list whose saved [ra] lets it
    go on: the thread at the head runs, the caller goes to the back of the
    list if it was RUNNING, and the stack of a caller that has EXITED is
    handed to [memory_free_page] if the thread that goes on does so inside
    [suspend_self]. *)
Lemma suspend_self_spec st n rs ws tc tn :
  lists_inv (heap st) (ready_list st) (conds st) (n :: rs) ws →
  (∀ p w, sw (heap st) p = Some (THREAD_RUNNING, w) → p = CURTHR st) →
  heap st !! CURTHR st = Some tc → state tc ≠ THREAD_READY →
  heap st !! n = Some tn → resumable tn →
  ∃ st',
    suspend_self st = Ok st'
    ∧ sched_inv_at st'
        (if bool_decide (state tc = THREAD_RUNNING) then rs ++ [CURTHR st]
         else rs) ws
    ∧ CURTHR st' = n
    ∧ thrtab st' = thrtab st ∧ kmem st' = kmem st
    ∧ conds st' = conds st
    ∧ agree identity (heap st) (heap st')
    ∧ freed_pages st'
      = freed_pages st
        ++ (if bool_decide (state tc = THREAD_EXITED
                            ∧ context_ra tn = ra_suspend_self)
            then [stack_base tc - PAGE_SIZE] else [])
    ∧ ∃ tc', heap st' !! CURTHR st = Some tc'
             ∧ state tc' = (if bool_decide (state tc = THREAD_RUNNING)
                            then THREAD_READY else state tc).
Proof.
  intros Hl Hrun Htc Hnr Htn Hres.
  destruct (suspend_self_switch_spec _ _ _ _ _ Hl Hrun Htc Hnr)
    as (ra & st1 & Hsw & Hinv & Hcur & Htab & Hfp & Hkm & tc1 & Htc1 & Hs1
        & Hb1).
  assert (CURTHR st ≠ n) as Hne.
  { intros Heq.
    assert (n ∈ n :: rs) as Hn by apply list_elem_of_here.
    apply (li_ready _ _ _ _ _ Hl) in Hn as [wn Hn].
    apply sw_Some in Hn as (t & Ht & Hs & _). congruence. }
  destruct (suspend_self_switch_frame context_ra _ _ _ _
              ltac:(done) ltac:(done) Hsw)
    as (_ & Hra & _ & _ & _ & _ & _ & tn1 & Htn1 & ->).
  destruct (suspend_self_switch_frame identity _ _ _ _
              ltac:(done) ltac:(done) Hsw)
    as (_ & _ & Hid & _ & Hcs & _ & _ & _).
  specialize (Hid ltac:(done)).
  assert (context_ra tn1 = context_ra tn) as Era.
  { specialize (Hra n ltac:(done)). rewrite Hcur in Htn1.
    rewrite Htn1, Htn in Hra. by simplify_eq/=. }
  unfold suspend_self. rewrite Hsw. simpl. rewrite Era.
  destruct Hres as [Hres|[Hres|(ct & ch & Hres & Hct)]]; rewrite Hres; simpl.
  - exists st1. split_and!; try done.
    + rewrite Hfp. rewrite bool_decide_eq_false_2; [by rewrite app_nil_r|].
      intros [_ ?]. congruence.
    + eauto.
  - unfold suspend_self_resumed, store, deref. rewrite Htc1. simpl.
    destruct (decide (state tc1 = THREAD_EXITED)) as [Hex|Hex];
      [rewrite (bool_decide_eq_true_2 _ Hex)
      |rewrite (bool_decide_eq_false_2 _ Hex)]; simpl.
    + assert (state tc = THREAD_EXITED) as Hex'.
      { rewrite Hs1 in Hex. by case_bool_decide. }
      eexists. split; [done|]. simpl.
      rewrite (bool_decide_eq_false_2 (state tc = THREAD_RUNNING))
        by congruence.
      rewrite (bool_decide_eq_false_2 (state tc = THREAD_RUNNING)) in Hinv
        by congruence.
      split_and!; try done.
      * eapply sched_inv_at_ext; [done| | |done..]; simpl; intros p.
        -- by apply (sw_insert_same _ _ tc1).
        -- by apply (nx_insert_same _ _ tc1).
      * eapply agree_trans; [done|]. intros p.
        destruct (decide (CURTHR st = p)) as [<-|Hp].
        -- by rewrite lookup_insert_eq, Htc1.
        -- by rewrite lookup_insert_ne.
      * rewrite Hfp, Hb1. by rewrite bool_decide_eq_true_2.
      * eexists. split; [apply lookup_insert_eq|]. simpl. by rewrite Hs1, Hex'.
    + exists st1. split_and!; try done.
      * rewrite Hfp. rewrite bool_decide_eq_false_2; [by rewrite app_nil_r|].
        intros [Hx _]. apply Hex. rewrite Hs1.
        rewrite bool_decide_eq_false_2; congruence.
      * eauto.
  - assert (id tn1 = id tn) as Eid.
    { pose proof (Hid n) as Hn. rewrite Hcur in Htn1.
      rewrite Htn1, Htn in Hn. by simplify_eq/=. }
    unfold thread_fork_to_user_resumed, running_thread, deref.
    rewrite Htn1. simpl. rewrite Eid.
    rewrite (bool_decide_eq_false_2 _ Hct). simpl.
    exists st1. split_and!; try done.
    + rewrite Hfp. rewrite bool_decide_eq_false_2; [by rewrite app_nil_r|].
      intros [_ ?]. congruence.
    + eauto.
Qed.

(** ** Thread lists are queues *)

(** X1: a thread list is a first-in first-out queue. [tlinsert] puts a
    thread that is not on the list behind its last member, [tlremove] takes
    the first member, so a thread inserted into a list of [xs] comes out
    after all of [xs]; the two change no member of a thread but [list_next];
    and [tlremove] on an empty list returns NULL and changes nothing. *)
Theorem tlinsert_tlremove_fifo (h : gmap tptr thread) (l : thread_list)
    (xs : list tptr) (thr : tptr) (t : thread) :
  is_tlist h l xs → h !! thr = Some t → thr ∉ xs →
  (xs = [] → tlremove h l = Ok (h, l, None))
  ∧ ∃ h1 l1 h2 l2 x rest,
      tlinsert h l thr = Ok (h1, l1)
      ∧ tl_elems h1 l1 = xs ++ [thr]
      ∧ xs ++ [thr] = x :: rest
      ∧ tlremove h1 l1 = Ok (h2, l2, Some x)
      ∧ tl_elems h2 l2 = rest
      ∧ tlempty l2 = bool_decide (rest = [])
      ∧ next_only h h2.
Proof.
  intros Hl Ht Hnin. split.
  { intros ->. by apply tlremove_nil. }
  destruct (tlinsert_spec _ _ _ _ _ Hl Ht Hnin)
    as (h1 & l1 & Hins & Hl1 & Hno1 & _).
  destruct (xs ++ [thr]) as [|x rest] eqn:Hxs.
  { by destruct xs. }
  destruct (tlremove_spec _ _ _ _ Hl1) as (h2 & l2 & Hrem & Hl2 & Hno2 & _).
  exists h1, l1, h2, l2, x, rest. split_and!; try done.
  - by apply is_tlist_elems.
  - by apply is_tlist_elems.
  - unfold tlempty. destruct Hl2 as [Hseg _].
    destruct rest as [|r rest]; simpl in Hseg.
    + by rewrite Hseg.
    + destruct Hseg as [-> _]. done.
  - by eapply next_only_trans.
Qed.

(** X2: [tlappend] moves the members of [l1] behind those of [l0], keeping
    the order of both, and leaves [l1] empty; it changes no member of a
    thread but [list_next], and with [l0] empty it changes no thread at
    all: [l0] takes over the head and the tail of [l1]. *)
Theorem tlappend_concatenates (h : gmap tptr thread) (l0 l1 : thread_list)
    (xs ys : list tptr) :
  is_tlist h l0 xs → is_tlist h l1 ys → (∀ x, x ∈ xs → x ∉ ys) →
  ∃ h' l0' l1',
    tlappend h l0 l1 = Ok (h', l0', l1')
    ∧ tl_elems h' l0' = xs ++ ys
    ∧ tlempty l1' = true
    ∧ tl_elems h' l1' = []
    ∧ next_only h h'
    ∧ (xs = [] → h' = h ∧ l0' = l1).
Proof.
  intros Hl0 Hl1 Hdis.
  destruct (tlappend_spec _ _ _ _ _ Hl0 Hl1 Hdis)
    as (h' & l0' & Happ & Hl' & Hno & _).
  exists h', l0', (mk_list None None). split_and!; try done.
  - by apply is_tlist_elems.
  - unfold tl_elems. simpl. by destruct (size h').
  - intros ->. destruct Hl0 as [Hhd _]. simpl in Hhd.
    unfold tlappend in Happ. rewrite Hhd in Happ.
    apply bind_Ok in Happ as (_ & _ & [= <- <-]). by destruct l1.
Qed.

(** ** Yielding *)

(** X4: with no thread on the ready list, [thread_yield] and
    [condition_wait] do not let the caller go on and do not switch: they
    stop on the assertion [!tlempty(&ready_list)] of [suspend_self]. *)
Theorem suspend_self_needs_a_ready_thread (st : kstate) (c : cptr)
    (ws : cptr → list tptr) :
  sched_inv_at st [] ws →
  suspend_self st = Fault (AssertFailed "!tlempty(&ready_list)")
  ∧ thread_yield st = Fault (AssertFailed "!tlempty(&ready_list)")
  ∧ condition_wait c st = Fault (AssertFailed "!tlempty(&ready_list)").
Proof.
  intros Hinv.
  destruct (sched_inv_at_running _ _ _ Hinv) as (tc & Htc & Hst).
  destruct Hinv as [Hl Hrun].
  pose proof (li_ready_list _ _ _ _ _ Hl) as [Hhd _]. simpl in Hhd.
  assert (∀ st1, ready_list st1 = ready_list st →
            suspend_self st1 = Fault (AssertFailed "!tlempty(&ready_list)"))
    as Hsusp.
  { intros st1 E. unfold suspend_self, suspend_self_switch, tlempty.
    by rewrite E, Hhd. }
  split_and!.
  - by apply Hsusp.
  - unfold thread_yield, deref. rewrite Htc. simpl.
    rewrite (bool_decide_eq_true_2 _ Hst). simpl. by apply Hsusp.
  - assert (sw (heap st) (CURTHR st) = Some (THREAD_RUNNING, wait_cond tc))
      as Hswc by (apply sw_Some; eauto).
    destruct (lists_inv_not_listed _ _ _ _ _ _ _ _ Hl Hswc)
      as [_ Hc_ws]; [done..|].
    unfold condition_wait, store, deref. rewrite Htc. simpl.
    rewrite (bool_decide_eq_true_2 _ Hst). simpl.
    rewrite lookup_insert_eq. simpl. rewrite lookup_insert_eq. simpl.
    rewrite !insert_insert_eq.
    set (t3 := set_list_next None
                 (set_wait_cond (Some c) (set_state THREAD_WAITING tc))).
    set (h3 := <[CURTHR st:=t3]> (heap st)).
    destruct (tlinsert_spec h3 (conds st c) (ws c) (CURTHR st) t3)
      as (h4 & wl & Hins & _).
    { eapply is_tlist_frame; [apply (li_wait_lists _ _ _ _ _ Hl)|].
      intros x Hx. unfold nx, h3. rewrite lookup_insert_ne; [done|].
      intros <-. by apply (Hc_ws c). }
    { apply lookup_insert_eq. }
    { apply Hc_ws. }
    rewrite Hins. simpl. by apply Hsusp.
Qed.

(** ** Waiting and waking *)

Lemma lists_inv_ws_ext h rl cs rs ws ws' :
  lists_inv h rl cs rs ws → (∀ c, ws' c = ws c) →
  lists_inv h rl cs rs ws'.
Proof.
  intros [H1 H2 H3 H4 H5] E. split; try done.
  - intros c. rewrite E. apply H2.
  - intros p c. rewrite E. apply H4.
Qed.

Lemma condition_wait_spec c st n rs ws tn :
  sched_inv_at st (n :: rs) ws → heap st !! n = Some tn → resumable tn →
  ∃ st',
    condition_wait c st = Ok st'
    ∧ sched_inv_at st' rs (<[c := ws c ++ [CURTHR st]]> ws)
    ∧ CURTHR st' = n
    ∧ thrtab st' = thrtab st ∧ freed_pages st' = freed_pages st
    ∧ kmem st' = kmem st
    ∧ agree identity (heap st) (heap st').
Proof.
  intros Hinv Htn Hres.
  destruct (sched_inv_at_running _ _ _ Hinv) as (tc & Htc & Hst).
  destruct Hinv as [Hl Hcur].
  assert (sw (heap st) (CURTHR st) = Some (THREAD_RUNNING, wait_cond tc))
    as Hswc by (apply sw_Some; eauto).
  destruct (lists_inv_not_listed _ _ _ _ _ _ _ _ Hl Hswc)
    as [Hc_rs Hc_ws]; [done..|].
  assert (CURTHR st ≠ n) as Hne.
  { intros Heq. apply Hc_rs. rewrite Heq. apply list_elem_of_here. }
  unfold condition_wait, store, deref. rewrite Htc. simpl.
  rewrite (bool_decide_eq_true_2 _ Hst). simpl.
  rewrite lookup_insert_eq. simpl. rewrite lookup_insert_eq. simpl.
  rewrite !insert_insert_eq.
  set (t3 := set_list_next None
               (set_wait_cond (Some c) (set_state THREAD_WAITING tc))).
  set (h3 := <[CURTHR st:=t3]> (heap st)).
  assert (∀ x, x ≠ CURTHR st → h3 !! x = heap st !! x) as Hsame3.
  { intros x Hx. unfold h3. by rewrite lookup_insert_ne. }
  destruct (tlinsert_spec h3 (conds st c) (ws c) (CURTHR st) t3)
    as (h4 & wl & Hins & Hl4 & Hno4 & Hsame4).
  { eapply is_tlist_frame; [apply (li_wait_lists _ _ _ _ _ Hl)|].
    intros x Hx. unfold nx. rewrite Hsame3; [done|].
    intros ->. by apply (Hc_ws c). }
  { apply lookup_insert_eq. }
  { apply Hc_ws. }
  rewrite Hins. simpl.
  destruct (next_only_lookup _ _ (CURTHR st) _ Hno4 (lookup_insert_eq _ _ _))
    as (tc4 & Htc4 & Heq4).
  assert (h3 !! n = Some tn) as Hn3 by (by rewrite Hsame3).
  destruct (next_only_lookup _ _ n _ Hno4 Hn3) as (tn4 & Htn4 & Heqn4).
  set (st_m := with_conds (<[c:=wl]> (conds st)) (with_heap h4 st)).
  assert (agree identity (heap st) h4) as Hid4.
  { eapply agree_trans; [|by eapply (agree_next_only identity)].
    intros p. unfold h3. destruct (decide (CURTHR st = p)) as [<-|Hp].
    - by rewrite lookup_insert_eq, Htc.
    - by rewrite lookup_insert_ne. }
  destruct (suspend_self_spec st_m n rs (<[c := ws c ++ [CURTHR st]]> ws)
              tc4 tn4)
    as (st' & Hsusp & Hinv' & Hcur' & Htab & Hkm & _ & Hid & Hfp & _);
    simpl.
  - assert (∀ p, sw h4 p = if decide (p = CURTHR st)
                           then Some (THREAD_WAITING, Some c)
                           else sw (heap st) p) as Hsw4.
    { intros p. rewrite (next_only_sw _ _ _ Hno4). unfold h3.
      rewrite sw_insert. repeat case_decide; congruence || done. }
    assert (∀ x, x ≠ CURTHR st → last (ws c) ≠ Some x →
                 nx h4 x = nx (heap st) x) as Hnx4.
    { intros x Hx Hlast. unfold nx. by rewrite Hsame4, Hsame3. }
    split.
    + eapply is_tlist_frame; [apply (li_ready_list _ _ _ _ _ Hl)|].
      intros x Hx. apply Hnx4; [by intros ->|].
      intros Hlast%last_Some_elem_of.
      by eapply lists_inv_ready_not_waiting.
    + intros c'. destruct (decide (c' = c)) as [->|Hc'].
      * by rewrite !fn_lookup_insert.
      * rewrite !fn_lookup_insert_ne by done.
        eapply is_tlist_frame; [apply (li_wait_lists _ _ _ _ _ Hl)|].
        intros x Hx. apply Hnx4.
        -- intros ->. by apply (Hc_ws c').
        -- intros Hlast%last_Some_elem_of.
           by destruct (lists_inv_wait_disjoint _ _ _ _ _ _ _ _ Hl Hx Hlast).
    + intros p. rewrite Hsw4, (li_ready _ _ _ _ _ Hl).
      case_decide as Hp; [|done]. subst p. rewrite Hswc. naive_solver.
    + intros p c'. rewrite Hsw4. destruct (decide (c' = c)) as [->|Hc'].
      * rewrite fn_lookup_insert, elem_of_app, list_elem_of_singleton.
        rewrite (li_waiting _ _ _ _ _ Hl).
        case_decide as Hp; [naive_solver|]. naive_solver.
      * rewrite fn_lookup_insert_ne by done.
        rewrite (li_waiting _ _ _ _ _ Hl).
        case_decide as Hp; [|done]. subst p. rewrite Hswc.
        split; congruence.
    + intros p. rewrite Hsw4. case_decide; [done|].
      apply (li_wait_cond _ _ _ _ _ Hl).
  - intros p w. rewrite (next_only_sw _ _ _ Hno4). unfold h3.
    rewrite sw_insert. case_decide; [done|].
    intros Hp. apply Hcur. eauto.
  - done.
  - rewrite Heq4. simpl. done.
  - done.
  - unfold resumable. rewrite Heqn4. apply Hres.
  - assert (state tc4 = THREAD_WAITING) as Hs4 by (by rewrite Heq4).
    rewrite bool_decide_eq_false_2 in Hinv' by congruence.
    rewrite bool_decide_eq_false_2 in Hfp by (intros [? _]; congruence).
    rewrite app_nil_r in Hfp.
    exists st'. split_and!; try done.
    by eapply agree_trans.
Qed.

Lemma condition_broadcast_frame {A : Type} (P : thread → A) c st st' :
  (∀ n t, P (set_list_next n t) = P t) →
  (∀ s t, P (set_state s t) = P t) →
  (∀ w t, P (set_wait_cond w t) = P t) →
  condition_broadcast c st = Ok st' →
  agree P (heap st) (heap st')
  ∧ thrtab st' = thrtab st ∧ CURTHR st' = CURTHR st
  ∧ freed_pages st' = freed_pages st ∧ kmem st' = kmem st.
Proof.
  intros HP1 HP2 HP3. unfold condition_broadcast.
  destruct (tlempty (conds st c)).
  { intros [= <-]. split; [apply agree_refl|done]. }
  intros (h1 & Hloop & ([[h2 rl] wl] & Happ & [= <-])%bind_Ok)%bind_Ok.
  simpl. split; [|done].
  eapply agree_trans; [by eapply broadcast_loop_agree|].
  eapply agree_next_only; [done|]. by eapply tlappend_next_only.
Qed.

(** ** Exiting *)

Lemma thread_exit_spec st rs ws tc par n rest tn :
  sched_inv_at st rs ws →
  CURTHR st ≠ main_thread →
  heap st !! CURTHR st = Some tc → parent tc = Some par →
  rs ++ ws (child_exit par) = n :: rest →
  heap st !! n = Some tn → resumable tn →
  ∃ st',
    thread_exit st = Ok st'
    ∧ CURTHR st' = n
    ∧ sched_inv_at st' rest (<[child_exit par := []]> ws)
    ∧ (∃ tc', heap st' !! CURTHR st = Some tc' ∧ state tc' = THREAD_EXITED)
    ∧ thrtab st' = thrtab st ∧ kmem st' = kmem st
    ∧ agree identity (heap st) (heap st')
    ∧ freed_pages st'
      = freed_pages st
        ++ (if bool_decide (context_ra tn = ra_suspend_self)
            then [stack_base tc - PAGE_SIZE] else []).
Proof.
  intros Hinv Hmain Htc Hpar Hlist Htn Hres.
  destruct (sched_inv_at_running _ _ _ Hinv) as (tc0 & Htc0 & Hst).
  rewrite Htc in Htc0. injection Htc0 as <-.
  destruct Hinv as [Hl Hcur].
  unfold thread_exit, store, deref.
  rewrite (bool_decide_eq_false_2 _ Hmain).
  rewrite Htc. simpl. rewrite lookup_insert_eq. simpl. rewrite Hpar.
  set (h1 := <[CURTHR st:=set_state THREAD_EXITED tc]> (heap st)).
  set (st1 := with_heap h1 st).
  set (cp := child_exit par) in *.
  assert (lists_inv h1 (ready_list st) (conds st) rs ws) as Hl1.
  { eapply lists_inv_set_unlisted; try done; simpl; congruence. }
  assert (∀ p, sw h1 p = if decide (p = CURTHR st)
                         then Some (THREAD_EXITED, wait_cond tc)
                         else sw (heap st) p) as Hsw1.
  { intros p. unfold h1. rewrite sw_insert. simpl.
    repeat case_decide; congruence. }
  destruct (condition_broadcast_spec cp st1 rs (ws cp))
    as (st2 & Hb & _).
  { apply Hl1. }
  { apply Hl1. }
  { intros r Hr. apply (li_ready _ _ _ _ _ Hl1) in Hr as [w Hr].
    apply has_state_sw. eauto. }
  { intros w Hin. apply (li_waiting _ _ _ _ _ Hl1) in Hin.
    apply sw_Some in Hin as (t & ? & ? & ?). eauto. }
  destruct (condition_broadcast_lists cp st1 st2 rs ws Hl1 Hb)
    as (Hl2 & Hcur2 & Hsw2 & _).
  destruct (condition_broadcast_frame identity cp st1 st2
              ltac:(done) ltac:(done) ltac:(done) Hb)
    as (Hid2 & Htab2 & _ & Hfp2 & Hkm2).
  destruct (condition_broadcast_frame context_ra cp st1 st2
              ltac:(done) ltac:(done) ltac:(done) Hb) as (Hra2 & _).
  destruct (condition_broadcast_frame stack_base cp st1 st2
              ltac:(done) ltac:(done) ltac:(done) Hb) as (Hsb2 & _).
  rewrite Hb. simpl. rewrite Hlist in Hl2.
  assert (sw (heap st2) (CURTHR st) = Some (THREAD_EXITED, wait_cond tc))
    as Hswc.
  { rewrite Hsw2. rewrite decide_False.
    - simpl. rewrite Hsw1. by rewrite decide_True.
    - intros Hin. apply (li_waiting _ _ _ _ _ Hl1) in Hin.
      rewrite Hsw1, decide_True in Hin by done. congruence. }
  apply sw_Some in Hswc as (tc2 & Htc2 & Hs2 & _).
  assert (stack_base tc2 = stack_base tc) as Hsb.
  { specialize (Hsb2 (CURTHR st)). simpl in Hsb2. unfold h1 in Hsb2.
    rewrite Htc2, lookup_insert_eq in Hsb2. by simplify_eq/=. }
  assert (∃ tn2, heap st2 !! n = Some tn2 ∧ context_ra tn2 = context_ra tn
                 ∧ id tn2 = id tn)
    as (tn2 & Htn2 & Hran & Hidn).
  { specialize (Hra2 n). pose proof (Hid2 n) as Hidn.
    simpl in Hra2, Hidn. unfold h1, identity in Hra2, Hidn.
    destruct (decide (CURTHR st = n)) as [E|E].
    - rewrite <- E, lookup_insert_eq in Hra2, Hidn. rewrite <- E in Htn.
      rewrite <- E. destruct (heap st2 !! CURTHR st) as [t|]; simplify_eq/=.
      eauto.
    - rewrite lookup_insert_ne, Htn in Hra2, Hidn by done.
      destruct (heap st2 !! n) as [t|]; simplify_eq/=. eauto. }
  destruct (suspend_self_spec st2 n rest (<[cp := []]> ws) tc2 tn2)
    as (st' & Hsusp & Hinv' & Hcur' & Htab' & Hkm' & _ & Hid' & Hfp'
        & tc' & Htc' & Hs'); try done.
  { intros p w. rewrite Hsw2. case_decide; [done|]. simpl. rewrite Hsw1.
    case_decide; [congruence|]. rewrite Hcur2. simpl.
    intros Hp. apply Hcur. eauto. }
  { by rewrite Hcur2. }
  { congruence. }
  { unfold resumable. by rewrite Hran, Hidn. }
  rewrite Hcur2 in Htc'.
  rewrite bool_decide_eq_false_2 in Hinv', Hs' by congruence.
  exists st'. split_and!; try done.
  - exists tc'. split; [done|]. congruence.
  - by rewrite Htab', Htab2.
  - by rewrite Hkm', Hkm2.
  - eapply agree_trans; [|done]. eapply agree_trans; [|done].
    intros p. unfold st1, h1. simpl.
    destruct (decide (CURTHR st = p)) as [<-|Hp].
    + by rewrite lookup_insert_eq, Htc.
    + by rewrite lookup_insert_ne.
  - rewrite Hfp', Hfp2, Hsb, Hran. simpl. f_equal.
    destruct (decide (context_ra tn = ra_suspend_self)) as [E|E].
    + rewrite !bool_decide_eq_true_2; done.
    + rewrite !bool_decide_eq_false_2; [done..|]. by intros [_ ?].
Qed.

(** ** What the operations leave alone *)

Lemma resume_at_frame {A : Type} (P : thread → A) ra prev st st' :
  (∀ b s t, P (set_stack b s t) = P t) →
  resume_at ra prev st = Ok st' →
  agree P (heap st) (heap st') ∧ thrtab st' = thrtab st.
Proof.
  intros HP. destruct ra as [| | |child_tid child]; simpl.
  - done.
  - intros [= <-]. split; [apply agree_refl|done].
  - unfold suspend_self_resumed. intros (p & Hp & H)%bind_Ok.
    destruct (bool_decide (state p = THREAD_EXITED)).
    + apply bind_Ok in H as (h & Hst & [= <-]). simpl. split; [|done].
      eapply agree_store; [|done]. intros; apply HP.
    + injection H as <-. split; [apply agree_refl|done].
  - intros ([r st1] & H & [= <-])%bind_Ok.
    unfold thread_fork_to_user_resumed in H.
    apply bind_Ok in H as (tid & _ & H).
    destruct (bool_decide (tid = child_tid)).
    + apply bind_Ok in H as (c & _ & [= _ <-]). simpl.
      split; [apply agree_refl|done].
    + injection H as _ <-. split; [apply agree_refl|done].
Qed.

Lemma suspend_self_frame {A : Type} (P : thread → A) st st' :
  sched_stable P → suspend_self st = Ok st' →
  agree P (heap st) (heap st') ∧ thrtab st' = thrtab st.
Proof.
  intros (H1 & H2 & H3 & H4 & H5). unfold suspend_self.
  intros ([[ra prev] st1] & Hsw & Hres)%bind_Ok.
  destruct (suspend_self_switch_frame P _ _ _ _ H1 H2 Hsw)
    as (_ & _ & Hag & Htab & _).
  destruct (resume_at_frame P _ _ _ _ H5 Hres) as (Hag' & Htab').
  split; [|congruence].
  eapply agree_trans; [by apply Hag|done].
Qed.

Lemma thread_yield_frame {A : Type} (P : thread → A) st st' :
  sched_stable P → thread_yield st = Ok st' →
  agree P (heap st) (heap st') ∧ thrtab st' = thrtab st.
Proof.
  intros HP. unfold thread_yield.
  intros (t & _ & (_ & _ & H)%bind_Ok)%bind_Ok.
  by eapply suspend_self_frame.
Qed.

Lemma condition_wait_frame {A : Type} (P : thread → A) c st st' :
  sched_stable P → condition_wait c st = Ok st' →
  agree P (heap st) (heap st') ∧ thrtab st' = thrtab st.
Proof.
  intros HP. pose proof HP as (H1 & H2 & H3 & H4 & H5).
  unfold condition_wait.
  intros (t & _ & (_ & _ & (h1 & Hs1 & (h2 & Hs2 & (h3 & Hs3 &
           ([h4 wl] & Hins & H)%bind_Ok)%bind_Ok)%bind_Ok)%bind_Ok)%bind_Ok)
         %bind_Ok.
  destruct (suspend_self_frame P _ _ HP H) as (Hag & Htab).
  split; [|done]. simpl in Hag.
  eapply agree_trans; [|done].
  eapply agree_trans; [eapply agree_store; [|done]; intros; apply H2|].
  eapply agree_trans; [eapply agree_store; [|done]; intros; apply H3|].
  eapply agree_trans; [eapply agree_store; [|done]; intros; apply H1|].
  eapply agree_next_only; [done|]. by eapply tlinsert_next_only.
Qed.

Lemma thread_exit_frame {A : Type} (P : thread → A) st st' :
  sched_stable P → thread_exit st = Ok st' →
  agree P (heap st) (heap st') ∧ thrtab st' = thrtab st.
Proof.
  intros HP. pose proof HP as (H1 & H2 & H3 & H4 & H5).
  unfold thread_exit. case_bool_decide as Hm; [done|].
  intros (h1 & Hs1 & (t & _ & H)%bind_Ok)%bind_Ok.
  destruct (parent t) as [par|]; [|done].
  apply bind_Ok in H as (st1 & Hb & H).
  destruct (condition_broadcast_frame P _ _ _ H1 H2 H3 Hb)
    as (Hag1 & Htab1 & _).
  destruct (suspend_self_frame P _ _ HP H) as (Hag & Htab).
  split; [|by rewrite Htab, Htab1].
  eapply agree_trans; [|done]. eapply agree_trans; [|done].
  eapply agree_store; [|done]. intros; apply H2.
Qed.

Lemma kinship_stable : sched_stable kinship.
Proof. by repeat split. Qed.

Lemma thrtab_inv_frame st st' :
  thrtab_inv st → thrtab st' = thrtab st →
  agree kinship (heap st) (heap st') → thrtab_inv st'.
Proof.
  intros [Hlen Hslot Hheap Hmain Horph [rank Hrank]] Htab Hag.
  assert (∀ p t', heap st' !! p = Some t' →
            ∃ t, heap st !! p = Some t ∧ id t' = id t ∧ parent t' = parent t)
    as Hback.
  { intros p t' Ht'.
    destruct (agree_lookup_inv _ _ _ _ _ Hag Ht') as (t & Ht & [= ? ?]).
    eauto. }
  split; rewrite ?Htab; try done.
  - intros i p Hp. destruct (Hslot i p Hp) as (t & Ht & Hid).
    destruct (agree_lookup _ _ _ _ _ Hag Ht) as (t' & Ht' & [= ? ?]).
    exists t'. split; [done|congruence].
  - intros p t' Ht'. destruct (Hback p t' Ht') as (t & Ht & -> & _).
    by apply Hheap.
  - intros p t' Ht'. destruct (Hback p t' Ht') as (t & Ht & _ & ->).
    by apply Horph.
  - exists rank. intros p t' q Ht' Hq.
    destruct (Hback p t' Ht') as (t & Ht & _ & Hpar).
    rewrite Hpar in Hq. destruct (Hrank p t q Ht Hq) as [[tq Htq] Hlt].
    split; [|done].
    destruct (agree_lookup _ _ _ _ _ Hag Htq) as (tq' & -> & _). done.
Qed.

(** ** Recycling keeps the invariants *)

Lemma recycle_thread_inv tid st st' :
  recycle_thread tid st = Ok st' →
  ∃ thr t h',
    0 < tid < NTHR
    ∧ thrtab st !! Z.to_nat tid = Some (Some thr)
    ∧ heap st !! thr = Some t ∧ state t = THREAD_EXITED
    ∧ recycle_loop (Z.to_nat (NTHR - 1)) (thrtab st) thr 1 (heap st) = Ok h'
    ∧ st' = with_heap (delete thr h')
              (with_thrtab (<[Z.to_nat tid := None]> (thrtab st)) st).
Proof.
  unfold recycle_thread.
  intros (slot & Hslot & (_ & Has%assert_Ok & H)%bind_Ok)%bind_Ok.
  apply thrtab_at_Ok in Hslot as [_ Hslot].
  apply bool_decide_eq_true in Has as (? & ? & _).
  destruct slot as [thr|]; [|done].
  apply bind_Ok in H as (t & Ht%deref_Ok & H).
  apply bind_Ok in H as (_ & Hex%assert_Ok & H).
  apply bool_decide_eq_true in Hex.
  apply bind_Ok in H as (h' & Hloop & [= <-]).
  exists thr, t, h'. split_and!; try done.
Qed.

Lemma reparent_sched thr par t :
  state (reparent thr par t) = state t
  ∧ wait_cond (reparent thr par t) = wait_cond t
  ∧ list_next (reparent thr par t) = list_next t
  ∧ id (reparent thr par t) = id t.
Proof. unfold reparent. by case_bool_decide. Qed.

Lemma recycle_thread_sched_inv tid st st' rs ws :
  sched_inv_at st rs ws → recycle_thread tid st = Ok st' →
  sched_inv_at st' rs ws.
Proof.
  intros [Hl Hcur] (thr & t & h' & _ & _ & Ht & Hex & Hloop & ->)
    %recycle_thread_inv.
  destruct (recycle_loop_spec _ _ _ 1 _ _ _ Ht ltac:(lia) Hloop)
    as [Hall _].
  assert (sw (heap st) thr = Some (THREAD_EXITED, wait_cond t)) as Hswt
    by (apply sw_Some; eauto).
  destruct (lists_inv_not_listed _ _ _ _ _ _ _ _ Hl Hswt)
    as [Ht_rs Ht_ws]; [done..|].
  assert (∀ p, sw (delete thr h') p
               = if decide (p = thr) then None else sw (heap st) p) as Hsw.
  { intros p. unfold sw. case_decide as Hp.
    - subst p. by rewrite lookup_delete_eq.
    - rewrite lookup_delete_ne by done. destruct (Hall p) as [b ->].
      destruct (heap st !! p) as [tp|]; [|done]. simpl.
      destruct b; [|done].
      by destruct (reparent_sched thr (parent t) tp) as (-> & -> & _). }
  assert (∀ p, p ≠ thr → nx (delete thr h') p = nx (heap st) p) as Hnx.
  { intros p Hp. unfold nx. rewrite lookup_delete_ne by done.
    destruct (Hall p) as [b ->].
    destruct (heap st !! p) as [tp|]; [|done]. simpl.
    destruct b; [|done].
    by destruct (reparent_sched thr (parent t) tp) as (_ & _ & -> & _). }
  split; simpl; [split|].
  - eapply is_tlist_frame; [apply Hl|]. intros x Hx. apply Hnx.
    by intros ->.
  - intros c. eapply is_tlist_frame; [apply Hl|]. intros x Hx. apply Hnx.
    intros ->. by apply (Ht_ws c).
  - intros p. rewrite Hsw, (li_ready _ _ _ _ _ Hl).
    case_decide as Hp; [|done]. subst p. rewrite Hswt.
    split; intros [w Hw]; congruence.
  - intros p c. rewrite Hsw, (li_waiting _ _ _ _ _ Hl).
    case_decide as Hp; [|done]. subst p. rewrite Hswt.
    split; congruence.
  - intros p. rewrite Hsw. case_decide; [done|]. apply Hl.
  - intros p. rewrite Hsw, <- Hcur.
    case_decide as Hp; [|done]. subst p. rewrite Hswt.
    split; intros [w Hw]; congruence.
Qed.

Lemma recycle_thread_thrtab_inv tid st st' :
  thrtab_inv st → recycle_thread tid st = Ok st' → thrtab_inv st'.
Proof.
  intros [Hlen Hslot Hheap Hmain Horph [rank Hrank]]
    (thr & t & h' & Htid & Htab & Ht & Hex & Hloop & ->)%recycle_thread_inv.
  destruct (recycle_loop_spec _ _ _ 1 _ _ _ Ht ltac:(lia) Hloop)
    as [Hall Hchildren].
  destruct (Hslot _ _ Htab) as (t0 & Ht0 & Hidt).
  rewrite Ht in Ht0. injection Ht0 as <-.
  rewrite Z2Nat.id in Hidt by lia.
  assert (thr ≠ main_thread) as Hnm.
  { intros ->. destruct (Hslot _ _ Hmain) as (tm & Htm & Hidm).
    rewrite Ht in Htm. injection Htm as <-. simpl in Hidm. lia. }
  (* every thread but the main thread was visited by the loop *)
  assert (∀ p tp, heap st !! p = Some tp → p ≠ main_thread →
            h' !! p = Some (reparent thr (parent t) tp)) as Hvisited.
  { intros p tp Hp Hpm. destruct (Hheap p tp Hp) as [Hid0 Hin].
    assert (id tp ≠ 0) as Hne.
    { intros E. rewrite E in Hin. change (Z.to_nat 0) with 0%nat in Hin.
      rewrite Hmain in Hin. congruence. }
    assert (Z.to_nat (id tp) < length (thrtab st))%nat as Hlt
      by (eapply lookup_lt_Some; eauto).
    rewrite Hlen in Hlt. unfold NTHR in *.
    rewrite (Hchildren (id tp) p); [by rewrite Hp|lia|done]. }
  assert (∀ p t', delete thr h' !! p = Some t' →
            p ≠ thr ∧ ∃ tp, heap st !! p = Some tp ∧ id t' = id tp
              ∧ (p = main_thread → t' = tp ∨ t' = reparent thr (parent t) tp)
              ∧ (p ≠ main_thread → t' = reparent thr (parent t) tp))
    as Hback.
  { intros p t' Hp. destruct (decide (p = thr)) as [->|Hpt].
    { by rewrite lookup_delete_eq in Hp. }
    rewrite lookup_delete_ne in Hp by done. split; [done|].
    destruct (Hall p) as [b Hb]. rewrite Hp in Hb.
    destruct (heap st !! p) as [tp|] eqn:Htp; [|done].
    exists tp. simpl in Hb. injection Hb as ->. split; [done|].
    split_and!.
    - destruct b; [|done]. apply reparent_sched.
    - intros _. destruct b; eauto.
    - intros Hpm. specialize (Hvisited p tp Htp Hpm).
      rewrite Hp in Hvisited. by injection Hvisited. }
  assert (∀ tm, heap st !! main_thread = Some tm →
            reparent thr (parent t) tm = tm) as Hmain_same.
  { intros tm Htm. apply reparent_other.
    rewrite (proj2 (Horph _ _ Htm) eq_refl). done. }
  split; simpl.
  - by rewrite length_insert.
  - intros i p Hp.
    destruct (decide (i = Z.to_nat tid)) as [->|Hi].
    { rewrite list_lookup_insert_eq in Hp; [done|].
      by eapply lookup_lt_Some. }
    rewrite list_lookup_insert_ne in Hp by done.
    destruct (Hslot i p Hp) as (tp & Htp & Hidp).
    assert (p ≠ thr) as Hpt.
    { intros ->. rewrite Ht in Htp. injection Htp as <-. lia. }
    rewrite lookup_delete_ne by done. destruct (Hall p) as [b ->].
    rewrite Htp. simpl. eexists. split; [done|].
    destruct b; [|done].
    by destruct (reparent_sched thr (parent t) tp) as (_ & _ & _ & ->).
  - intros p t' Hp. destruct (Hback p t' Hp) as (Hpt & tp & Htp & -> & _).
    destruct (Hheap p tp Htp) as [Hid0 Hin]. split; [done|].
    rewrite list_lookup_insert_ne; [done|].
    intros E. rewrite <- E, Htab in Hin. congruence.
  - rewrite list_lookup_insert_ne; [done|]. lia.
  - intros p t' Hp.
    destruct (Hback p t' Hp) as (Hpt & tp & Htp & _ & Hm & Hnm').
    destruct (decide (p = main_thread)) as [->|Hpm].
    + split; [done|]. intros _.
      destruct (Hm eq_refl) as [->| ->].
      * by apply (Horph _ _ Htp).
      * rewrite (Hmain_same _ Htp). by apply (Horph _ _ Htp).
    + split; [|done]. rewrite (Hnm' Hpm). unfold reparent.
      case_bool_decide as Hpar; simpl.
      * intros E. by apply (Horph _ _ Ht) in E.
      * intros E. by apply (Horph _ _ Htp) in E.
  - exists rank. intros p t' q Hp Hq.
    destruct (Hback p t' Hp) as (Hpt & tp & Htp & _ & Hm & Hnm').
    assert (t' = reparent thr (parent t) tp) as ->.
    { destruct (decide (p = main_thread)) as [->|Hpm]; [|by apply Hnm'].
      destruct (Hm eq_refl) as [->| ->]; [|done].
      by rewrite (Hmain_same _ Htp). }
    assert (∀ g, is_Some (heap st !! g) → g ≠ thr →
              is_Some (delete thr h' !! g)) as Hlive.
    { intros g [tg Htg] Hg. rewrite lookup_delete_ne by done.
      destruct (Hall g) as [b ->]. rewrite Htg. by destruct b. }
    unfold reparent in Hq. case_bool_decide as Hpar; simpl in Hq.
    + destruct (Hrank _ _ _ Ht Hq) as [Hg Hlt1].
      destruct (Hrank _ _ _ Htp Hpar) as [_ Hlt2].
      split; [|lia]. apply Hlive; [done|]. intros ->. lia.
    + destruct (Hrank _ _ _ Htp Hq) as [Hg Hlt]. split; [|done].
      apply Hlive; [done|]. intros ->. done.
Qed.

(** ** Creating threads keeps the invariants *)

Lemma spawn_scan_inv n tab t0 tid :
  0 ≤ t0 < NTHR → (Z.to_nat (NTHR - t0) ≤ n)%nat →
  spawn_scan n tab t0 = Ok tid →
  t0 < tid ≤ NTHR ∧ (tid < NTHR → tab !! Z.to_nat tid = Some None).
Proof.
  revert t0. induction n as [|n IH]; intros t0 Ht0 Hn; [lia|]. simpl.
  case_bool_decide as Hlt.
  - intros (slot & Hslot & H)%bind_Ok.
    apply thrtab_at_Ok in Hslot as [_ Hslot].
    destruct slot as [p|].
    + apply IH in H; [|lia..]. destruct H as [? ?]. split; [lia|done].
    + injection H as <-. split; [lia|done].
  - intros [= <-]. split; lia.
Qed.

Lemma thrtab_inv_new_thread st st' tid a c :
  thrtab_inv st →
  0 < tid < NTHR → thrtab st !! Z.to_nat tid = Some None →
  heap st !! Kmalloc a = None →
  is_Some (heap st !! CURTHR st) →
  thrtab st' = <[Z.to_nat tid := Some (Kmalloc a)]> (thrtab st) →
  heap st' !! Kmalloc a = Some c → id c = tid →
  parent c = Some (CURTHR st) →
  (∀ p, p ≠ Kmalloc a → kinship <$> heap st' !! p = kinship <$> heap st !! p) →
  thrtab_inv st'.
Proof.
  intros [Hlen Hslot Hheap Hmain Horph [rank Hrank]] Htid Hfree Hfresh
    [tc Htc] Htab Hc Hid Hpar Hold.
  assert (Z.to_nat tid < length (thrtab st))%nat as Hlt
    by (by eapply lookup_lt_Some).
  assert (∀ p t', heap st' !! p = Some t' → p ≠ Kmalloc a →
            ∃ t, heap st !! p = Some t ∧ id t' = id t ∧ parent t' = parent t)
    as Hback.
  { intros p t' Ht' Hp. specialize (Hold p Hp). rewrite Ht' in Hold.
    destruct (heap st !! p) as [t|]; simplify_eq/=. eauto. }
  assert (∀ p t, heap st !! p = Some t →
            p ≠ Kmalloc a ∧ ∃ t', heap st' !! p = Some t' ∧ id t' = id t
                                  ∧ parent t' = parent t) as Hfwd.
  { intros p t Ht. assert (p ≠ Kmalloc a) as Hp by congruence.
    split; [done|]. specialize (Hold p Hp). rewrite Ht in Hold.
    destruct (heap st' !! p) as [t'|]; simplify_eq/=. eauto. }
  split; rewrite ?Htab.
  - by rewrite length_insert.
  - intros i p Hp. destruct (decide (i = Z.to_nat tid)) as [->|Hi].
    + rewrite list_lookup_insert_eq in Hp by done. injection Hp as <-.
      exists c. split; [done|]. lia.
    + rewrite list_lookup_insert_ne in Hp by done.
      destruct (Hslot i p Hp) as (t & Ht & Hidt).
      destruct (Hfwd p t Ht) as (_ & t' & Ht' & Hid' & _).
      exists t'. split; [done|congruence].
  - intros p t' Ht'. destruct (decide (p = Kmalloc a)) as [->|Hp].
    + rewrite Hc in Ht'. injection Ht' as <-. rewrite Hid.
      split; [lia|]. by rewrite list_lookup_insert_eq.
    + destruct (Hback p t' Ht' Hp) as (t & Ht & -> & _).
      destruct (Hheap p t Ht) as [? Hin]. split; [done|].
      rewrite list_lookup_insert_ne; [done|].
      intros E. rewrite <- E, Hfree in Hin. congruence.
  - rewrite list_lookup_insert_ne; [done|]. lia.
  - intros p t' Ht'. destruct (decide (p = Kmalloc a)) as [->|Hp].
    + rewrite Hc in Ht'. injection Ht' as <-. rewrite Hpar. done.
    + destruct (Hback p t' Ht' Hp) as (t & Ht & _ & ->). by apply Horph.
  - exists (<[Kmalloc a := S (rank (CURTHR st))]> rank).
    intros p t' q Ht' Hq. destruct (decide (p = Kmalloc a)) as [->|Hp].
    + rewrite Hc in Ht'. injection Ht' as <-. rewrite Hpar in Hq.
      injection Hq as <-.
      destruct (Hfwd _ _ Htc) as (Hne & t' & Ht' & _).
      split; [by exists t'|].
      rewrite fn_lookup_insert, fn_lookup_insert_ne by done. lia.
    + destruct (Hback p t' Ht' Hp) as (t & Ht & _ & Hpar').
      rewrite Hpar' in Hq.
      destruct (Hrank p t q Ht Hq) as [[tq Htq] Hlt'].
      destruct (Hfwd _ _ Htq) as (Hne & tq' & Htq' & _).
      split; [by exists tq'|].
      by rewrite !fn_lookup_insert_ne.
Qed.

Lemma thread_spawn_thrtab_inv nm a fresh pg st tid st' :
  sched_inv st → thrtab_inv st → heap st !! Kmalloc a = None →
  thread_spawn nm a fresh pg st = Ok (tid, st') → thrtab_inv st'.
Proof.
  intros (rs & ws & Hinv) Hti Hfresh.
  destruct (sched_inv_at_running _ _ _ Hinv) as (tc & Htc & Hst).
  destruct Hinv as [Hl Hcur].
  destruct (spawn_scan (Z.to_nat NTHR) (thrtab st) 0) as [tid'|] eqn:Hscan;
    [|by unfold thread_spawn; rewrite Hscan].
  destruct (decide (tid' = NTHR)) as [Hfull|Hfree].
  { unfold thread_spawn. rewrite Hscan. simpl.
    by rewrite (bool_decide_eq_true_2 _ Hfull). }
  destruct (thread_spawn_spec nm a fresh pg st rs tid' tc Hscan Hfree Htc
              (li_ready_list _ _ _ _ _ Hl) Hfresh)
    as (st1 & c & Hrun & Htab & _ & Hc & _ & Hid & _ & Hpar & _ & _ & _ & Hno
        & _ & _ & Hcu & _).
  rewrite Hrun. intros [= <- <-].
  apply spawn_scan_inv in Hscan as [Hr Hslot]; [|unfold NTHR; lia..].
  eapply (thrtab_inv_new_thread st st1 tid' a c); try done.
  - lia.
  - apply Hslot. lia.
  - intros p Hp. destruct (Hno p Hp) as [n ->].
    by destruct (heap st !! p).
Qed.

Lemma thread_fork_to_user_spec cproc low a fresh sp st rs r tc :
  fork_scan (Z.to_nat NTHR + 1) (thrtab st) 0 = Ok r → r ≠ NTHR →
  heap st !! CURTHR st = Some tc →
  is_tlist (heap st) (ready_list st) rs → CURTHR st ∉ rs →
  heap st !! Kmalloc a = None →
  ∃ st' c par,
    thread_fork_to_user (Some cproc) low a fresh sp st = Ok (r, st')
    ∧ thrtab st' = <[Z.to_nat r := Some (Kmalloc a)]> (thrtab st)
    ∧ CURTHR st' = Kmalloc a
    ∧ is_tlist (heap st') (ready_list st') (rs ++ [CURTHR st])
    ∧ heap st' !! Kmalloc a = Some c
    ∧ state c = THREAD_RUNNING ∧ id c = r
    ∧ parent c = Some (CURTHR st) ∧ proc c = Some cproc
    ∧ wait_cond c = wait_cond fresh
    ∧ heap st' !! CURTHR st = Some par
    ∧ state par = THREAD_READY ∧ wait_cond par = wait_cond tc
    ∧ identity par = identity tc
    ∧ (∀ p, p ≠ Kmalloc a → p ≠ CURTHR st →
            ∃ n, heap st' !! p = set_list_next n <$> heap st !! p)
    ∧ (∀ p, p ≠ Kmalloc a → p ≠ CURTHR st → last rs ≠ Some p →
            heap st' !! p = heap st !! p)
    ∧ conds st' = conds st ∧ freed_pages st' = freed_pages st
    ∧ active_mspace st' = Some cproc.
Proof.
  intros Hscan Hr Htc Hrl Hnin Hfresh.
  assert (CURTHR st ≠ Kmalloc a) as Hne by congruence.
  unfold thread_fork_to_user. rewrite Hscan. simpl.
  rewrite (bool_decide_eq_false_2 _ Hr).
  set (c0 := mk_thread _ _ _ _ _ _ _ _ _ _).
  set (h0 := <[Kmalloc a:=c0]> (heap st)).
  assert (h0 !! CURTHR st = Some tc) as Htc0.
  { unfold h0. by rewrite lookup_insert_ne. }
  set (h1 := <[CURTHR st:=set_state THREAD_READY tc]> h0).
  assert (store h0 (CURTHR st) (set_state THREAD_READY) = Ok h1) as Hst1.
  { apply store_Ok. eauto. }
  rewrite Hst1. simpl.
  assert (∀ x, x ≠ Kmalloc a → x ≠ CURTHR st → h1 !! x = heap st !! x)
    as Hsame1.
  { intros x Hx1 Hx2. unfold h1, h0. by rewrite !lookup_insert_ne. }
  assert (Kmalloc a ∉ rs) as Hnin'.
  { intros Hin. destruct Hrl as [Hseg _].
    destruct (lseg_allocated _ _ _ _ Hseg Hin) as [t Ht]. congruence. }
  destruct (tlinsert_spec h1 (ready_list st) rs (CURTHR st)
              (set_state THREAD_READY tc))
    as (h2 & rl & Hins & Hl2 & Hno2 & Hsame2).
  { eapply is_tlist_frame; [done|]. intros x Hx. unfold nx.
    rewrite Hsame1; [done|by intros ->..]. }
  { apply lookup_insert_eq. }
  { done. }
  rewrite Hins. simpl.
  destruct (next_only_lookup _ _ (CURTHR st) _ Hno2 (lookup_insert_eq _ _ _))
    as (par2 & Hpar2 & Heqp).
  assert (h1 !! Kmalloc a = Some c0) as Hc1.
  { unfold h1, h0. by rewrite lookup_insert_ne, lookup_insert_eq. }
  destruct (next_only_lookup _ _ (Kmalloc a) _ Hno2 Hc1)
    as (c2 & Hc2 & Heqc).
  rewrite (proj2 (deref_Ok _ _ _) Hpar2). simpl.
  unfold _thread_finish_fork, store, deref. simpl. rewrite Hpar2. simpl.
  unfold thread_fork_to_user_resumed, running_thread, deref. simpl.
  rewrite lookup_insert_ne, Hc2 by done. simpl.
  assert (id c2 = r) as Hid2 by (by rewrite Heqc).
  rewrite (bool_decide_eq_true_2 _ Hid2). simpl.
  eexists _, c2, (set_context_ra (ra_fork r (Kmalloc a)) par2).
  split; [done|]. simpl.
  split_and!; try done; try (by rewrite Heqc); try (by rewrite Heqp).
  - eapply is_tlist_frame; [done|]. intros x Hx.
    by apply (nx_insert_same _ _ par2).
  - by rewrite lookup_insert_ne.
  - apply lookup_insert_eq.
  - intros p Hp1 Hp2. rewrite lookup_insert_ne by done.
    specialize (Hno2 p). rewrite Hsame1 in Hno2 by done.
    destruct (heap st !! p) as [t|]; simpl; [|by exists None].
    destruct Hno2 as [n Hn]. by exists n.
  - intros p Hp1 Hp2 Hlast. rewrite lookup_insert_ne by done.
    by rewrite Hsame2, Hsame1.
Qed.

Lemma thread_fork_to_user_runs_child cproc low a fresh sp st rs ws r :
  sched_inv_at st rs ws → heap st !! Kmalloc a = None →
  fork_scan (Z.to_nat NTHR + 1) (thrtab st) 0 = Ok r → r ≠ NTHR →
  ∃ st' c tc,
    thread_fork_to_user (Some cproc) low a fresh sp st = Ok (r, st')
    ∧ sched_inv_at st' (rs ++ [CURTHR st]) ws
    ∧ thrtab st' = <[Z.to_nat r := Some (Kmalloc a)]> (thrtab st)
    ∧ CURTHR st' = Kmalloc a
    ∧ heap st !! CURTHR st = Some tc
    ∧ heap st' !! Kmalloc a = Some c
    ∧ id c = r ∧ parent c = Some (CURTHR st) ∧ proc c = Some cproc
    ∧ (∀ p, p ≠ Kmalloc a →
            kinship <$> heap st' !! p = kinship <$> heap st !! p)
    ∧ active_mspace st' = Some cproc.
Proof.
  intros Hinv Hfresh Hscan Hfree.
  destruct (sched_inv_at_running _ _ _ Hinv) as (tc & Htc & Hst).
  destruct Hinv as [Hl Hcur].
  assert (sw (heap st) (CURTHR st) = Some (THREAD_RUNNING, wait_cond tc))
    as Hswc by (apply sw_Some; eauto).
  destruct (lists_inv_not_listed _ _ _ _ _ _ _ _ Hl Hswc)
    as [Hc_rs Hc_ws]; [done..|].
  destruct (thread_fork_to_user_spec cproc low a fresh sp st rs r tc
              Hscan Hfree Htc (li_ready_list _ _ _ _ _ Hl) Hc_rs Hfresh)
    as (st1 & c & par & Hrun & Htab & Hcu & Hrl & Hc & Hsc & Hidc & Hparc
        & Hprc & Hwc & Hpar & Hsp & Hwp & Hidp & Hno & Hsame & Hcs & _ & Hms).
  assert (CURTHR st ≠ Kmalloc a) as Hne by congruence.
  assert (sw (heap st) (Kmalloc a) = None) as Hsw0.
  { unfold sw. by rewrite Hfresh. }
  assert (∀ p, sw (heap st1) p
               = if decide (p = Kmalloc a)
                 then Some (THREAD_RUNNING, wait_cond fresh)
                 else if decide (p = CURTHR st)
                      then Some (THREAD_READY, wait_cond tc)
                      else sw (heap st) p) as Hsw.
  { intros p. unfold sw. case_decide as Hp.
    - subst p. rewrite Hc. simpl. by rewrite Hsc, Hwc.
    - case_decide as Hp'.
      + subst p. rewrite Hpar. simpl. by rewrite Hsp, Hwp.
      + destruct (Hno p Hp Hp') as [n ->]. by destruct (heap st !! p). }
  exists st1, c, tc. split_and!; try done.
  - split; [split|].
    + done.
    + intros c'. rewrite Hcs.
      eapply is_tlist_frame; [apply (li_wait_lists _ _ _ _ _ Hl)|].
      intros x Hx. unfold nx. rewrite Hsame; [done| | |].
      * intros ->. apply (li_waiting _ _ _ _ _ Hl) in Hx. congruence.
      * intros ->. by apply (Hc_ws c').
      * intros Hlast%last_Some_elem_of.
        by eapply lists_inv_ready_not_waiting.
    + intros p. rewrite Hsw, elem_of_app, list_elem_of_singleton.
      rewrite (li_ready _ _ _ _ _ Hl).
      repeat case_decide; subst; try rewrite Hsw0; naive_solver.
    + intros p c'. rewrite Hsw, (li_waiting _ _ _ _ _ Hl).
      repeat case_decide; subst; try rewrite Hsw0; try rewrite Hswc;
        naive_solver.
    + intros p. rewrite Hsw. repeat case_decide; [done..|].
      apply (li_wait_cond _ _ _ _ _ Hl).
    + intros p. rewrite Hsw, Hcu. repeat case_decide; subst.
      * naive_solver.
      * split; [intros [w Hw]; congruence|done].
      * rewrite (Hcur p). naive_solver.
  - intros p Hp. destruct (decide (p = CURTHR st)) as [->|Hp'].
    + rewrite Hpar, Htc. simpl. unfold kinship.
      injection Hidp as _ -> _ ->. done.
    + destruct (Hno p Hp Hp') as [n ->]. by destruct (heap st !! p).
Qed.

Lemma thread_fork_to_user_preserves cp low a fresh sp st rs ws r st' :
  sched_inv_at st rs ws → thrtab_inv st → heap st !! Kmalloc a = None →
  thread_fork_to_user cp low a fresh sp st = Ok (r, st') →
  sched_inv_at st' (rs ++ [CURTHR st]) ws ∧ thrtab_inv st'
  ∧ 0 < r < NTHR ∧ CURTHR st' = Kmalloc a
  ∧ thrtab st !! Z.to_nat r = Some None.
Proof.
  intros Hinv Hti Hfresh.
  destruct cp as [cproc|]; [|done].
  destruct (fork_scan (Z.to_nat NTHR + 1) (thrtab st) 0) as [r'|] eqn:Hscan;
    [|by unfold thread_fork_to_user; rewrite Hscan].
  destruct (decide (r' = NTHR)) as [Hfull|Hfree].
  { unfold thread_fork_to_user. rewrite Hscan. simpl.
    by rewrite (bool_decide_eq_true_2 _ Hfull). }
  destruct (thread_fork_to_user_runs_child cproc low a fresh sp st rs ws r'
              Hinv Hfresh Hscan Hfree)
    as (st1 & c & tc & Hrun & Hinv1 & Htab & Hcu & Htc & Hc & Hidc & Hparc
        & _ & Hkin & _).
  rewrite Hrun. intros [= <- <-].
  apply fork_scan_spec in Hscan as (Hr & Hslot & _); [|unfold NTHR; lia..].
  assert (r' ≠ 0) as Hr0.
  { intros ->. specialize (Hslot ltac:(unfold NTHR; lia)).
    change (Z.to_nat 0) with 0%nat in Hslot.
    rewrite (ti_main _ Hti) in Hslot. congruence. }
  assert (thrtab_inv st1) as Hti1.
  { eapply (thrtab_inv_new_thread st st1 r' a c); try done.
    - lia.
    - apply Hslot. lia. }
  split_and!; [done|done|lia|lia|done|apply Hslot; lia].
Qed.

Lemma thread_set_process_preserves tid q st st' rs ws :
  sched_inv_at st rs ws → thrtab_inv st →
  thread_set_process tid q st = Ok st' →
  sched_inv_at st' rs ws ∧ thrtab_inv st'.
Proof.
  intros Hinv Hti. unfold thread_set_process.
  intros (_ & _ & (slot & _ & H)%bind_Ok)%bind_Ok.
  destruct slot as [p|]; [|done].
  apply bind_Ok in H as (h & Hst & [= <-]).
  pose proof Hst as (t & Ht & ->)%store_Ok. split.
  - eapply sched_inv_at_ext; [done| | |done..]; simpl; intros x.
    + by apply (sw_insert_same _ _ t).
    + by apply (nx_insert_same _ _ t).
  - eapply thrtab_inv_frame; [done|done|]. simpl.
    eapply agree_store; [|done]. done.
Qed.

Lemma thread_join_wait_preserves tid child st b :
  sched_inv st → thrtab_inv st →
  thread_join_wait tid child st = Ok b →
  sched_inv (state_after b) ∧ thrtab_inv (state_after b).
Proof.
  intros Hinv Hti. unfold thread_join_wait.
  intros (c & _ & H)%bind_Ok. case_bool_decide.
  - apply bind_Ok in H as (st1 & Hw & [= <-]). simpl. split.
    + by eapply condition_wait_preserves.
    + destruct (condition_wait_frame kinship _ _ _ kinship_stable Hw).
      by eapply thrtab_inv_frame.
  - apply bind_Ok in H as (st1 & Hrec & [= <-]). simpl. split.
    + destruct Hinv as (rs & ws & Hinv). exists rs, ws.
      by eapply recycle_thread_sched_inv.
    + by eapply recycle_thread_thrtab_inv.
Qed.

Lemma thread_join_preserves tid st b :
  sched_inv st → thrtab_inv st →
  thread_join tid st = Ok b →
  sched_inv (state_after b) ∧ thrtab_inv (state_after b).
Proof.
  intros Hinv Hti. unfold thread_join.
  intros (slot & _ & H)%bind_Ok.
  case_bool_decide; [by injection H as <-|].
  destruct slot as [child|]; [|by injection H as <-].
  apply bind_Ok in H as (c & _ & H).
  case_bool_decide; [by injection H as <-|].
  by eapply thread_join_wait_preserves.
Qed.

Lemma thread_join_any_preserves st b :
  sched_inv st → thrtab_inv st →
  thread_join_any st = Ok b →
  sched_inv (state_after b) ∧ thrtab_inv (state_after b).
Proof.
  intros Hinv Hti. unfold thread_join_any.
  intros ([tid|childcnt] & _ & H)%bind_Ok.
  - by eapply thread_join_preserves.
  - case_bool_decide; [done|].
    apply bind_Ok in H as (st1 & Hw & [= <-]). simpl. split.
    + by eapply condition_wait_preserves.
    + destruct (condition_wait_frame kinship _ _ _ kinship_stable Hw).
      by eapply thrtab_inv_frame.
Qed.

Lemma boot_table_slots (i : nat) (p : tptr) :
  (Some main_thread :: replicate 14 None ++ [Some idle_thread]) !! i
  = Some (Some p) →
  (i = 0%nat ∧ p = main_thread) ∨ (i = 15%nat ∧ p = idle_thread).
Proof.
  intros Hp.
  do 16 (destruct i as [|i];
         [simpl in Hp; first [discriminate Hp | injection Hp as <-; auto]|]).
  simpl in Hp. discriminate Hp.
Qed.

Lemma thread_init_thrtab_inv tp mem msa msl isa isl st :
  thread_init msa msl isa isl (boot_state tp mem) = Ok st → thrtab_inv st.
Proof.
  unfold thread_init, init_main_thread, init_idle_thread, _thread_setup,
    tlinsert, store, deref, boot_state. simpl.
  rewrite lookup_insert_eq. simpl.
  rewrite insert_insert_eq.
  rewrite lookup_insert_ne by done. rewrite lookup_singleton_eq. simpl.
  rewrite !lookup_insert_eq. simpl. rewrite !lookup_insert_eq. simpl.
  rewrite !insert_insert_eq.
  intros [= <-].
  set (h := <[idle_thread:=_]> _).
  assert (∀ p t, h !! p = Some t →
            (p = main_thread ∧ id t = 0 ∧ parent t = None)
            ∨ (p = idle_thread ∧ id t = 15 ∧ parent t = Some main_thread))
    as Hh.
  { intros p t. unfold h. destruct p.
    - rewrite lookup_insert_ne, lookup_insert_eq by done.
      intros [= <-]. by left.
    - rewrite lookup_insert_eq. intros [= <-]. by right.
    - by rewrite !lookup_insert_ne, lookup_singleton_ne. }
  assert (is_Some (h !! main_thread)) as Hm.
  { unfold h. by rewrite lookup_insert_ne, lookup_insert_eq. }
  assert (is_Some (h !! idle_thread)) as Hi.
  { unfold h. by rewrite lookup_insert_eq. }
  split; simpl.
  - done.
  - intros i p Hp.
    destruct (boot_table_slots i p Hp) as [[-> ->]|[-> ->]].
    + destruct Hm as [t Ht]. exists t. split; [done|].
      destruct (Hh _ _ Ht) as [(_ & ? & _)|(? & _)]; done.
    + destruct Hi as [t Ht]. exists t. split; [done|].
      destruct (Hh _ _ Ht) as [(? & _)|(_ & ? & _)]; done.
  - intros p t Ht.
    destruct (Hh _ _ Ht) as [(-> & -> & _)|(-> & -> & _)]; done.
  - done.
  - intros p t Ht.
    destruct (Hh _ _ Ht) as [(-> & _ & ->)|(-> & _ & ->)]; done.
  - exists (λ p, match p with idle_thread => 1%nat | _ => 0%nat end).
    intros p t q Ht Hq.
    destruct (Hh _ _ Ht) as [(-> & _ & E)|(-> & _ & E)];
      rewrite E in Hq; [done|]. injection Hq as <-. split; [done|lia].
Qed.

Lemma run_op_thrtab_inv o st st' :
  sched_inv st → thrtab_inv st → kmalloc_fresh o st →
  run_op o st = Ok st' → thrtab_inv st'.
Proof.
  intros Hinv Hti Hfresh Hrun.
  destruct o as [nm a fresh pg| | |c|c|];
    cbv beta iota delta [run_op kmalloc_fresh] in Hrun, Hfresh.
  - apply bind_Ok in Hrun as ([tid st1] & Hsp & [= <-]).
    exact (thread_spawn_thrtab_inv _ _ _ _ _ _ _ Hinv Hti Hfresh Hsp).
  - destruct (thread_yield_frame kinship _ _ kinship_stable Hrun)
      as [Hag Htab].
    exact (thrtab_inv_frame _ _ Hti Htab Hag).
  - destruct (thread_exit_frame kinship _ _ kinship_stable Hrun)
      as [Hag Htab].
    exact (thrtab_inv_frame _ _ Hti Htab Hag).
  - destruct (condition_wait_frame kinship _ _ _ kinship_stable Hrun)
      as [Hag Htab].
    exact (thrtab_inv_frame _ _ Hti Htab Hag).
  - destruct (condition_broadcast_frame kinship _ _ _
                ltac:(done) ltac:(done) ltac:(done) Hrun)
      as (Hag & Htab & _).
    exact (thrtab_inv_frame _ _ Hti Htab Hag).
  - destruct (suspend_self_frame kinship _ _ kinship_stable Hrun)
      as [Hag Htab].
    exact (thrtab_inv_frame _ _ Hti Htab Hag).
Qed.

Lemma run_thread_op_preserves o st st' :
  sched_inv st → thrtab_inv st → kmalloc_fresh_op o st →
  run_thread_op o st = Ok st' → sched_inv st' ∧ thrtab_inv st'.
Proof.
  intros Hinv Hti Hfresh Hrun.
  destruct o as [o|cp low a fresh sp|tid|tid child| | |tid q];
    cbv beta iota delta [run_thread_op kmalloc_fresh_op] in Hrun, Hfresh.
  - split.
    + exact (run_op_preserves _ _ _ Hinv Hfresh Hrun).
    + exact (run_op_thrtab_inv _ _ _ Hinv Hti Hfresh Hrun).
  - apply bind_Ok in Hrun as ([r st1] & Hf & [= <-]).
    destruct Hinv as (rs & ws & Hinv).
    destruct (thread_fork_to_user_preserves _ _ _ _ _ _ _ _ _ _ Hinv Hti
                Hfresh Hf) as (Hs & Ht & _).
    split; [by exists (rs ++ [CURTHR st]), ws|exact Ht].
  - apply bind_Ok in Hrun as (b & Hj & [= <-]).
    exact (thread_join_preserves _ _ _ Hinv Hti Hj).
  - apply bind_Ok in Hrun as (b & Hj & [= <-]).
    exact (thread_join_wait_preserves _ _ _ _ Hinv Hti Hj).
  - apply bind_Ok in Hrun as (b & Hj & [= <-]).
    exact (thread_join_any_preserves _ _ Hinv Hti Hj).
  - apply bind_Ok in Hrun as ([r st1] & Hj & [= <-]).
    apply join_any_reap_returns in Hj. split.
    + destruct Hinv as (rs & ws & Hinv). exists rs, ws.
      exact (recycle_thread_sched_inv _ _ _ _ _ Hinv Hj).
    + exact (recycle_thread_thrtab_inv _ _ _ Hti Hj).
  - destruct Hinv as (rs & ws & Hinv).
    destruct (thread_set_process_preserves _ _ _ _ _ _ Hinv Hti Hrun)
      as [Hs Ht].
    split; [by exists rs, ws|exact Ht].
Qed.

Lemma reachable_by_all_inv st :
  reachable_by_all st → sched_inv st ∧ thrtab_inv st.
Proof.
  induction 1 as [tp mem msa msl isa isl st Hinit|st o st' _ [IH1 IH2] Hf Hrun].
  - split.
    + eexists _, _. exact (thread_init_sched_inv _ _ _ _ _ _ _ Hinit).
    + exact (thread_init_thrtab_inv _ _ _ _ _ _ _ Hinit).
  - exact (run_thread_op_preserves _ _ _ IH1 IH2 Hf Hrun).
Qed.

(** ** Every thread that does not run can go on *)

Lemma resumable_saved_context t t' :
  saved_context t' = saved_context t → resumable t → resumable t'.
Proof.
  unfold saved_context, resumable. intros [= Hra Hid]. by rewrite Hra, Hid.
Qed.

Lemma parked_agree h h' cur :
  (∀ p t, h !! p = Some t → p ≠ cur → resumable t) →
  agree saved_context h h' →
  ∀ p t, h' !! p = Some t → p ≠ cur → resumable t.
Proof.
  intros Hinv Hag p t' Ht' Hp.
  destruct (agree_lookup_inv _ _ _ _ _ Hag Ht') as (t & Ht & E).
  eapply resumable_saved_context; [exact E|]. by eapply Hinv.
Qed.

Lemma suspend_self_switch_parks st ra prev st' :
  suspend_self_switch st = Ok (ra, prev, st') →
  ∃ t, heap st' !! CURTHR st = Some t ∧ context_ra t = ra_suspend_self.
Proof.
  intros H. unfold suspend_self_switch in H.
  apply bind_Ok in H as (_ & _ & H).
  apply bind_Ok in H as ([[h1 rl1] next] & Hrem & H).
  destruct next as [n|]; [|done].
  apply bind_Ok in H as (tn & Htn & H).
  apply bind_Ok in H as (_ & _ & H).
  apply bind_Ok in H as (h2 & Hst2 & H).
  apply bind_Ok in H as (s & Hs & H).
  apply bind_Ok in H as ([h3 rl3] & Hins & H).
  apply bind_Ok in H as (n3 & Hn3 & H).
  unfold _thread_swtch in H.
  apply bind_Ok in H as (h4 & Hst4 & H).
  apply bind_Ok in H as (n4 & Hn4 & H).
  assert (CURTHR (match proc n3 with
                  | Some p => memory_space_switch p
                                (with_ready_list rl3 (with_heap h3 st))
                  | None => with_ready_list rl3 (with_heap h3 st)
                  end) = CURTHR st) as Ec by (by destruct (proc n3)).
  rewrite Ec in Hst4. apply store_Ok in Hst4 as (t & Ht & ->).
  injection H as <- <- <-. simpl.
  exists (set_context_ra ra_suspend_self t).
  by rewrite lookup_insert_eq.
Qed.

Lemma resume_at_CURTHR ra prev st st' :
  resume_at ra prev st = Ok st' → CURTHR st' = CURTHR st.
Proof.
  destruct ra as [| | |child_tid child]; simpl.
  - done.
  - by intros [= <-].
  - unfold suspend_self_resumed. intros (p & Hp & H)%bind_Ok.
    destruct (bool_decide (state p = THREAD_EXITED)).
    + by apply bind_Ok in H as (h & Hst & [= <-]).
    + by injection H as <-.
  - intros ([r st1] & H & [= <-])%bind_Ok.
    unfold thread_fork_to_user_resumed in H.
    apply bind_Ok in H as (tid & _ & H).
    destruct (bool_decide (tid = child_tid)).
    + by apply bind_Ok in H as (c & _ & [= _ <-]).
    + by injection H as _ <-.
Qed.

Lemma suspend_self_parked st st' :
  parked_inv st → suspend_self st = Ok st' → parked_inv st'.
Proof.
  intros Hinv. unfold suspend_self.
  intros ([[ra prev] st1] & Hsw & Hres)%bind_Ok.
  destruct (suspend_self_switch_frame saved_context _ _ _ _
              ltac:(done) ltac:(done) Hsw) as (_ & Hsame & _).
  destruct (suspend_self_switch_parks _ _ _ _ Hsw) as (tc & Htc & Hra).
  destruct (resume_at_frame saved_context _ _ _ _ ltac:(done) Hres)
    as [Hag _].
  intros p t' Ht' _.
  destruct (agree_lookup_inv _ _ _ _ _ Hag Ht') as (t1 & Ht1 & E).
  eapply resumable_saved_context; [exact E|].
  destruct (decide (p = CURTHR st)) as [->|Hp].
  - rewrite Htc in Ht1. injection Ht1 as <-. right. by left.
  - specialize (Hsame p Hp). rewrite Ht1 in Hsame.
    destruct (heap st !! p) as [t|] eqn:Ht; [|done].
    assert (saved_context t1 = saved_context t) as E1
      by (simpl in Hsame; congruence).
    eapply resumable_saved_context; [exact E1|]. by eapply Hinv.
Qed.

Lemma parked_inv_heap st h :
  parked_inv st → agree saved_context (heap st) h →
  ∀ st', heap st' = h → CURTHR st' = CURTHR st → parked_inv st'.
Proof.
  intros Hinv Hag st' Hh Hc p t Ht Hp. rewrite Hh in Ht. rewrite Hc in Hp.
  by eapply (parked_agree (heap st) h).
Qed.

Lemma condition_wait_parked c st st' :
  parked_inv st → condition_wait c st = Ok st' → parked_inv st'.
Proof.
  intros Hinv. unfold condition_wait.
  intros (t & _ & (_ & _ & (h1 & Hs1 & (h2 & Hs2 & (h3 & Hs3 &
           ([h4 wl] & Hins & H)%bind_Ok)%bind_Ok)%bind_Ok)%bind_Ok)%bind_Ok)
         %bind_Ok.
  eapply suspend_self_parked; [|exact H].
  eapply (parked_inv_heap st h4); [done| |done|done].
  eapply agree_trans; [eapply agree_store; [|done]; done|].
  eapply agree_trans; [eapply agree_store; [|done]; done|].
  eapply agree_trans; [eapply agree_store; [|done]; done|].
  eapply agree_next_only; [done|]. by eapply tlinsert_next_only.
Qed.

Lemma condition_broadcast_parked c st st' :
  parked_inv st → condition_broadcast c st = Ok st' → parked_inv st'.
Proof.
  intros Hinv Hb.
  destruct (condition_broadcast_frame saved_context _ _ _
              ltac:(done) ltac:(done) ltac:(done) Hb)
    as (Hag & _ & Hcur & _).
  by eapply (parked_inv_heap st (heap st')).
Qed.

Lemma thread_exit_parked st st' :
  parked_inv st → thread_exit st = Ok st' → parked_inv st'.
Proof.
  intros Hinv. unfold thread_exit. case_bool_decide as Hm; [done|].
  intros (h1 & Hs1 & (t & _ & H)%bind_Ok)%bind_Ok.
  destruct (parent t) as [par|]; [|done].
  apply bind_Ok in H as (st1 & Hb & H).
  eapply suspend_self_parked; [|exact H].
  eapply condition_broadcast_parked; [|exact Hb].
  eapply (parked_inv_heap st h1); [done| |done|done].
  eapply agree_store; [|done]. done.
Qed.

Lemma thread_yield_parked st st' :
  parked_inv st → thread_yield st = Ok st' → parked_inv st'.
Proof.
  intros Hinv. unfold thread_yield.
  intros (t & _ & (_ & _ & H)%bind_Ok)%bind_Ok.
  by eapply suspend_self_parked.
Qed.

Lemma thread_spawn_parked nm a fresh pg st tid st' :
  parked_inv st → thread_spawn nm a fresh pg st = Ok (tid, st') →
  parked_inv st'.
Proof.
  intros Hinv. unfold thread_spawn.
  intros (r & _ & H)%bind_Ok. case_bool_decide; [done|].
  apply bind_Ok in H as (cur & _ & H).
  apply bind_Ok in H as ([h1 rl] & Hins & H).
  apply bind_Ok in H as (h2 & Hset & [= _ <-]).
  unfold _thread_setup in Hset. apply store_Ok in Hset as (c & Hc & ->).
  apply tlinsert_next_only in Hins.
  intros p t Ht Hp. simpl in Ht, Hp.
  destruct (decide (p = Kmalloc a)) as [->|Hne].
  - rewrite lookup_insert_eq in Ht. injection Ht as <-. by left.
  - rewrite lookup_insert_ne in Ht by done.
    destruct (next_only_lookup_inv _ _ _ _ Hins Ht) as (t0 & Ht0 & ->).
    rewrite lookup_insert_ne in Ht0 by done.
    eapply (resumable_saved_context t0); [done|]. by eapply Hinv.
Qed.

Lemma thread_fork_to_user_parked cp low a fresh sp st r st' :
  parked_inv st → thrtab_inv st →
  thread_fork_to_user cp low a fresh sp st = Ok (r, st') →
  parked_inv st'.
Proof.
  intros Hinv Hti. unfold thread_fork_to_user.
  destruct cp as [cproc|]; [|done].
  intros (r0 & Hscan & H)%bind_Ok. case_bool_decide as Hfull; [done|].
  apply bind_Ok in H as (h1 & Hst1 & H).
  apply bind_Ok in H as ([h2 rl] & Hins & H).
  apply bind_Ok in H as (par & Hpar & H).
  apply bind_Ok in H as (st1 & Hff & H).
  unfold _thread_finish_fork in Hff.
  apply bind_Ok in Hff as (h3 & Hst3 & [= <-]).
  unfold thread_fork_to_user_resumed in H.
  apply bind_Ok in H as (tid & _ & H).
  assert (heap st' = h3 ∧ CURTHR st' = Kmalloc a) as [Eh Ec].
  { destruct (bool_decide (tid = r0)).
    - by apply bind_Ok in H as (c & _ & [= _ <-]).
    - by injection H as _ <-. }
  simpl in Hst3. apply store_Ok in Hst3 as (par2 & Hpar2 & ->).
  apply tlinsert_next_only in Hins.
  apply store_Ok in Hst1 as (tc & Htc & ->).
  apply fork_scan_spec in Hscan as (Hr & Hslot & _); [|unfold NTHR; lia..].
  intros p t Ht Hp. rewrite Eh in Ht. rewrite Ec in Hp.
  destruct (decide (p = CURTHR st)) as [->|Hne].
  - rewrite lookup_insert_eq in Ht. injection Ht as <-.
    right. right. exists r0, (Kmalloc a). split; [done|]. simpl.
    destruct (next_only_lookup_inv _ _ _ _ Hins Hpar2) as (t0 & Ht0 & ->).
    rewrite lookup_insert_eq in Ht0. injection Ht0 as <-. simpl.
    rewrite lookup_insert_ne in Htc by congruence.
    destruct (ti_heap _ Hti _ _ Htc) as [Hid0 Hin].
    intros E. rewrite E in Hin.
    rewrite Hslot in Hin by (unfold NTHR in *; lia). done.
  - rewrite lookup_insert_ne in Ht by done.
    destruct (next_only_lookup_inv _ _ _ _ Hins Ht) as (t0 & Ht0 & ->).
    rewrite !lookup_insert_ne in Ht0 by done.
    eapply (resumable_saved_context t0); [done|]. by eapply Hinv.
Qed.

Lemma recycle_thread_parked tid st st' :
  parked_inv st → recycle_thread tid st = Ok st' → parked_inv st'.
Proof.
  intros Hinv Hrec.
  destruct (recycle_thread_inv _ _ _ Hrec)
    as (thr & t & h' & _ & _ & Ht & _ & Hloop & ->).
  destruct (recycle_loop_spec _ _ _ 1 _ _ _ Ht ltac:(lia) Hloop) as [Hh _].
  intros p t' Ht' Hp. simpl in Ht', Hp.
  destruct (decide (p = thr)) as [->|Hne].
  { by rewrite lookup_delete_eq in Ht'. }
  rewrite lookup_delete_ne in Ht' by done.
  destruct (Hh p) as [b Hb]. rewrite Ht' in Hb.
  destruct (heap st !! p) as [t0|] eqn:Ht0; [|done].
  injection Hb as ->.
  eapply (resumable_saved_context t0); [|by eapply Hinv].
  destruct b; [|done]. unfold reparent. by case_bool_decide.
Qed.

Lemma thread_join_wait_parked tid child st b :
  parked_inv st → thread_join_wait tid child st = Ok b →
  parked_inv (state_after b).
Proof.
  intros Hinv. unfold thread_join_wait.
  intros (c & _ & H)%bind_Ok. case_bool_decide.
  - apply bind_Ok in H as (st1 & Hw & [= <-]). simpl.
    by eapply condition_wait_parked.
  - apply bind_Ok in H as (st1 & Hrec & [= <-]). simpl.
    by eapply recycle_thread_parked.
Qed.

Lemma thread_join_parked tid st b :
  parked_inv st → thread_join tid st = Ok b → parked_inv (state_after b).
Proof.
  intros Hinv. unfold thread_join.
  intros (slot & _ & H)%bind_Ok.
  case_bool_decide; [by injection H as <-|].
  destruct slot as [child|]; [|by injection H as <-].
  apply bind_Ok in H as (c & _ & H).
  case_bool_decide; [by injection H as <-|].
  by eapply thread_join_wait_parked.
Qed.

Lemma thread_join_any_parked st b :
  parked_inv st → thread_join_any st = Ok b → parked_inv (state_after b).
Proof.
  intros Hinv. unfold thread_join_any.
  intros ([tid|childcnt] & _ & H)%bind_Ok.
  - by eapply thread_join_parked.
  - case_bool_decide; [done|].
    apply bind_Ok in H as (st1 & Hw & [= <-]). simpl.
    by eapply condition_wait_parked.
Qed.

Lemma thread_set_process_parked tid q st st' :
  parked_inv st → thread_set_process tid q st = Ok st' → parked_inv st'.
Proof.
  intros Hinv. unfold thread_set_process.
  intros (_ & _ & (slot & _ & H)%bind_Ok)%bind_Ok.
  destruct slot as [p|]; [|done].
  apply bind_Ok in H as (h & Hst & [= <-]).
  eapply (parked_inv_heap st h); [done| |done|done].
  eapply agree_store; [|done]. done.
Qed.

Lemma thread_init_parked tp mem msa msl isa isl st :
  thread_init msa msl isa isl (boot_state tp mem) = Ok st → parked_inv st.
Proof.
  unfold thread_init, init_main_thread, init_idle_thread, _thread_setup,
    tlinsert, store, deref, boot_state. simpl.
  rewrite lookup_insert_eq. simpl.
  rewrite insert_insert_eq.
  rewrite lookup_insert_ne by done. rewrite lookup_singleton_eq. simpl.
  rewrite !lookup_insert_eq. simpl. rewrite !lookup_insert_eq. simpl.
  rewrite !insert_insert_eq.
  intros [= <-]. intros p t. simpl. destruct p.
  - done.
  - rewrite lookup_insert_eq. intros [= <-] _. by left.
  - by rewrite !lookup_insert_ne, lookup_singleton_ne.
Qed.

Lemma run_thread_op_parked o st st' :
  parked_inv st → thrtab_inv st →
  run_thread_op o st = Ok st' → parked_inv st'.
Proof.
  intros Hinv Hti Hrun.
  destruct o as [o|cp low a fresh sp|tid|tid child| | |tid q];
    cbv beta iota delta [run_thread_op] in Hrun.
  - destruct o as [nm a fresh pg| | |c|c|];
      cbv beta iota delta [run_op] in Hrun.
    + apply bind_Ok in Hrun as ([tid st1] & Hsp & [= <-]).
      exact (thread_spawn_parked _ _ _ _ _ _ _ Hinv Hsp).
    + exact (thread_yield_parked _ _ Hinv Hrun).
    + exact (thread_exit_parked _ _ Hinv Hrun).
    + exact (condition_wait_parked _ _ _ Hinv Hrun).
    + exact (condition_broadcast_parked _ _ _ Hinv Hrun).
    + exact (suspend_self_parked _ _ Hinv Hrun).
  - apply bind_Ok in Hrun as ([r st1] & Hf & [= <-]).
    exact (thread_fork_to_user_parked _ _ _ _ _ _ _ _ Hinv Hti Hf).
  - apply bind_Ok in Hrun as (b & Hj & [= <-]).
    exact (thread_join_parked _ _ _ Hinv Hj).
  - apply bind_Ok in Hrun as (b & Hj & [= <-]).
    exact (thread_join_wait_parked _ _ _ _ Hinv Hj).
  - apply bind_Ok in Hrun as (b & Hj & [= <-]).
    exact (thread_join_any_parked _ _ Hinv Hj).
  - apply bind_Ok in Hrun as ([r st1] & Hj & [= <-]).
    apply join_any_reap_returns in Hj.
    exact (recycle_thread_parked _ _ _ Hinv Hj).
  - exact (thread_set_process_parked _ _ _ _ Hinv Hrun).
Qed.

Lemma reachable_by_all_parked st : reachable_by_all st → parked_inv st.
Proof.
  induction 1 as [tp mem msa msl isa isl st Hinit|st o st' Hr IH Hf Hrun].
  - exact (thread_init_parked _ _ _ _ _ _ _ Hinit).
  - destruct (reachable_by_all_inv _ Hr) as [_ Hti].
    exact (run_thread_op_parked _ _ _ IH Hti Hrun).
Qed.

(** The thread at the head of the ready list of a reachable state can go
    on. *)
Lemma reachable_by_all_head_resumable st n rs ws :
  reachable_by_all st → sched_inv_at st (n :: rs) ws →
  ∃ tn, heap st !! n = Some tn ∧ resumable tn.
Proof.
  intros Hr [Hl Hrun].
  assert (n ∈ n :: rs) as Hn by apply list_elem_of_here.
  apply (li_ready _ _ _ _ _ Hl) in Hn as [wn Hn].
  apply sw_Some in Hn as (t & Ht & Hs & _).
  exists t. split; [done|].
  apply (reachable_by_all_parked _ Hr _ _ Ht).
  intros ->. destruct (sched_inv_at_running _ _ _ (conj Hl Hrun))
    as (tc & Htc & Hst). congruence.
Qed.

(** The lists of a reachable state are the ready list and the wait lists
    as they stand. *)
Lemma reachable_by_all_lists st :
  reachable_by_all st →
  sched_inv_at st (tl_elems (heap st) (ready_list st))
    (λ c, tl_elems (heap st) (conds st c)).
Proof.
  intros Hr. destruct (reachable_by_all_inv _ Hr) as [(rs & ws & Hinv) _].
  destruct Hinv as [Hl Hrun]. split; [|done].
  rewrite (is_tlist_elems _ _ _ (li_ready_list _ _ _ _ _ Hl)).
  eapply lists_inv_ws_ext; [done|]. intros c. simpl.
  apply is_tlist_elems, Hl.
Qed.

(** ** Switching to the next thread, in the states that can be reached *)

(** X3: in every state the thread manager can reach, [thread_yield]
    schedules round robin. With [n] at the head of the ready list, the
    caller becomes READY and goes to the back of the ready list, [n] becomes
    the RUNNING thread, whether it starts, goes on inside [suspend_self] or
    is a parent that goes on inside [thread_fork_to_user], the order of the
    other ready threads is kept, and nothing is freed and no wait list
    changes. *)
Theorem thread_yield_round_robin (st : kstate) (n : tptr) (rs : list tptr)
    (ws : cptr → list tptr) :
  reachable_by_all st → sched_inv_at st (n :: rs) ws →
  ∃ st',
    thread_yield st = Ok st'
    ∧ CURTHR st' = n
    ∧ has_state st' n THREAD_RUNNING
    ∧ has_state st' (CURTHR st) THREAD_READY
    ∧ tl_elems (heap st') (ready_list st') = rs ++ [CURTHR st]
    ∧ sched_inv_at st' (rs ++ [CURTHR st]) ws
    ∧ conds st' = conds st ∧ thrtab st' = thrtab st
    ∧ freed_pages st' = freed_pages st.
Proof.
  intros Hreach Hinv.
  destruct (reachable_by_all_head_resumable _ _ _ _ Hreach Hinv)
    as (tn & Htn & Hres).
  destruct (sched_inv_at_running _ _ _ Hinv) as (tc & Htc & Hst).
  destruct Hinv as [Hl Hrun].
  destruct (suspend_self_spec st n rs ws tc tn)
    as (st' & Hsusp & Hinv' & Hcur & Htab & _ & Hcs & _ & Hfp & tc' & Htc'
        & Hs'); try done.
  { intros p w Hp. apply Hrun. eauto. }
  { congruence. }
  rewrite (bool_decide_eq_true_2 _ Hst) in Hinv', Hs'.
  rewrite bool_decide_eq_false_2 in Hfp by (intros [? _]; congruence).
  rewrite app_nil_r in Hfp.
  exists st'. unfold thread_yield, deref. rewrite Htc. simpl.
  rewrite (bool_decide_eq_true_2 _ Hst). simpl.
  split_and!; try done.
  - destruct (sched_inv_at_running _ _ _ Hinv') as (t & Ht & Hs).
    rewrite Hcur in Ht. by exists t.
  - by exists tc'.
  - apply is_tlist_elems. apply Hinv'.
Qed.

(** X5: in every state the thread manager can reach, [condition_wait]
    blocks the caller and runs the next ready thread. With [n] at the head
    of the ready list, the caller becomes WAITING with [wait_cond] pointing
    to the condition and is the last member of its wait list, behind the
    threads that waited before; [n] is taken off the ready list and runs,
    whether it starts, goes on inside [suspend_self] or is a parent that
    goes on inside [thread_fork_to_user]; the caller is not on the ready
    list. *)
Theorem condition_wait_blocks_caller (c : cptr) (st : kstate) (n : tptr)
    (rs : list tptr) (ws : cptr → list tptr) :
  reachable_by_all st → sched_inv_at st (n :: rs) ws →
  ∃ st' t,
    condition_wait c st = Ok st'
    ∧ CURTHR st' = n
    ∧ has_state st' n THREAD_RUNNING
    ∧ heap st' !! CURTHR st = Some t
    ∧ state t = THREAD_WAITING ∧ wait_cond t = Some c
    ∧ tl_elems (heap st') (conds st' c) = ws c ++ [CURTHR st]
    ∧ tl_elems (heap st') (ready_list st') = rs
    ∧ (CURTHR st ∉ rs)
    ∧ sched_inv_at st' rs (<[c := ws c ++ [CURTHR st]]> ws).
Proof.
  intros Hreach Hinv.
  destruct (reachable_by_all_head_resumable _ _ _ _ Hreach Hinv)
    as (tn & Htn & Hres).
  destruct (condition_wait_spec c _ _ _ _ _ Hinv Htn Hres)
    as (st' & Hw & Hinv' & Hcur & _).
  assert (CURTHR st ∈ (<[c := ws c ++ [CURTHR st]]> ws) c) as Hin.
  { rewrite fn_lookup_insert, elem_of_app, list_elem_of_singleton. by right. }
  pose proof Hinv' as [Hl' Hrun'].
  apply (li_waiting _ _ _ _ _ Hl') in Hin.
  apply sw_Some in Hin as (t & Ht & Hs & Hwc).
  exists st', t. split_and!; try done.
  - destruct (sched_inv_at_running _ _ _ Hinv') as (t' & Ht' & Hs').
    rewrite Hcur in Ht'. by exists t'.
  - rewrite (is_tlist_elems _ _ _ (li_wait_lists _ _ _ _ _ Hl' c)).
    by rewrite fn_lookup_insert.
  - apply is_tlist_elems, Hl'.
  - intros Hin. apply (li_ready _ _ _ _ _ Hl') in Hin as [w Hw'].
    apply sw_Some in Hw' as (t' & Ht' & Hs' & _). congruence.
Qed.

(** X6: in every state the thread manager can reach, a thread that waits
    on a condition is woken by the next broadcast of that condition. After
    [condition_wait c] by the thread [p], a [condition_broadcast c] by the
    thread that runs then makes [p] READY with [wait_cond] NULL and puts it
    on the ready list behind the threads that were ready and behind those
    that waited on [c] before it; the wait list of [c] is empty afterwards
    and the broadcasting thread goes on running. *)
Theorem condition_wait_then_broadcast (c : cptr) (st : kstate) (n : tptr)
    (rs : list tptr) (ws : cptr → list tptr) :
  reachable_by_all st → sched_inv_at st (n :: rs) ws →
  ∃ st1 st2,
    condition_wait c st = Ok st1
    ∧ condition_broadcast c st1 = Ok st2
    ∧ CURTHR st2 = n
    ∧ has_state st2 (CURTHR st) THREAD_READY
    ∧ (∃ t, heap st2 !! CURTHR st = Some t ∧ wait_cond t = None)
    ∧ tl_elems (heap st2) (ready_list st2) = rs ++ ws c ++ [CURTHR st]
    ∧ tl_elems (heap st2) (conds st2 c) = []
    ∧ sched_inv_at st2 (rs ++ ws c ++ [CURTHR st]) (<[c := []]> ws).
Proof.
  intros Hreach Hinv.
  destruct (reachable_by_all_head_resumable _ _ _ _ Hreach Hinv)
    as (tn & Htn & Hres).
  destruct (condition_wait_spec c _ _ _ _ _ Hinv Htn Hres)
    as (st1 & Hw & Hinv1 & Hcur1 & _).
  set (ws1 := <[c := ws c ++ [CURTHR st]]> ws) in *.
  destruct Hinv1 as [Hl1 Hrun1].
  destruct (condition_broadcast_spec c st1 rs (ws1 c))
    as (st2 & Hb & _).
  { apply Hl1. }
  { apply Hl1. }
  { intros r Hr. apply (li_ready _ _ _ _ _ Hl1) in Hr as [w Hr].
    apply has_state_sw. eauto. }
  { intros w Hin. apply (li_waiting _ _ _ _ _ Hl1) in Hin.
    apply sw_Some in Hin as (t & ? & ? & ?). eauto. }
  destruct (condition_broadcast_lists c st1 st2 rs ws1 Hl1 Hb)
    as (Hl2 & Hcur2 & Hsw2 & _).
  assert (ws1 c = ws c ++ [CURTHR st]) as Ews
    by (unfold ws1; by rewrite fn_lookup_insert).
  rewrite Ews in Hl2.
  apply (lists_inv_ws_ext _ _ _ _ _ (<[c := []]> ws)) in Hl2.
  2:{ intros c'. unfold ws1. destruct (decide (c = c')) as [->|Hc].
      - by rewrite !fn_lookup_insert.
      - by rewrite !fn_lookup_insert_ne. }
  assert (sw (heap st2) (CURTHR st) = Some (THREAD_READY, None)) as Hp.
  { rewrite Hsw2, Ews. rewrite decide_True; [done|].
    rewrite elem_of_app, list_elem_of_singleton. by right. }
  apply sw_Some in Hp as (t & Ht & Hs & Hwc).
  exists st1, st2. split_and!; try done.
  - congruence.
  - by exists t.
  - by exists t.
  - apply is_tlist_elems, Hl2.
  - rewrite (is_tlist_elems _ _ _ (li_wait_lists _ _ _ _ _ Hl2 c)).
    by rewrite fn_lookup_insert.
  - split; [done|]. intros p. rewrite Hcur2, <- (Hrun1 p), Hsw2.
    case_decide as Hin; [|done].
    apply (li_waiting _ _ _ _ _ Hl1) in Hin. rewrite Hin.
    split; intros [w Hw']; congruence.
Qed.

(** X7: in every state the thread manager can reach, [thread_exit] by the
    main thread halts the machine. Another thread has a parent, and its
    [thread_exit] does not return to the caller: the caller is EXITED and
    on no list, every thread that waited on the [child_exit] condition of
    the parent is made ready behind the threads that were ready, in the
    order of the wait list, and the first thread of the ready list so
    extended runs; with no thread ready and none waiting for the caller,
    the call stops on the assertion [!tlempty(&ready_list)]. The stack of the caller is handed to [memory_free_page]
    (one stack anchor below the address of its page) only if the thread
    that runs next goes on inside [suspend_self]; a thread that runs for
    the first time, or a parent that goes on inside [thread_fork_to_user],
    frees nothing. *)
Theorem thread_exit_wakes_parent (st : kstate) (rs : list tptr)
    (ws : cptr → list tptr) :
  reachable_by_all st → sched_inv_at st rs ws →
  (CURTHR st = main_thread → thread_exit st = Fault Halted)
  ∧ (CURTHR st ≠ main_thread →
     ∃ tc par,
       heap st !! CURTHR st = Some tc ∧ parent tc = Some par
       ∧ (∀ n rest,
           rs ++ ws (child_exit par) = n :: rest →
           ∃ tn st',
             heap st !! n = Some tn
             ∧ thread_exit st = Ok st'
             ∧ CURTHR st' = n
             ∧ has_state st' (CURTHR st) THREAD_EXITED
             ∧ tl_elems (heap st') (ready_list st') = rest
             ∧ (CURTHR st ∉ rest)
             ∧ (∀ c, CURTHR st ∉ tl_elems (heap st') (conds st' c))
             ∧ tl_elems (heap st') (conds st' (child_exit par)) = []
             ∧ (∀ w, w ∈ ws (child_exit par) → w ≠ n →
                     has_state st' w THREAD_READY)
             ∧ sched_inv_at st' rest (<[child_exit par := []]> ws)
             ∧ freed_pages st'
               = freed_pages st
                 ++ (if bool_decide (context_ra tn = ra_suspend_self)
                     then [stack_base tc - PAGE_SIZE] else []))
       ∧ (rs ++ ws (child_exit par) = [] →
          thread_exit st = Fault (AssertFailed "!tlempty(&ready_list)"))).
Proof.
  intros Hreach Hinv. split.
  { intros Hm. unfold thread_exit. by rewrite (bool_decide_eq_true_2 _ Hm). }
  intros Hmain.
  destruct (reachable_by_all_inv _ Hreach) as [_ Hti].
  destruct (sched_inv_at_running _ _ _ Hinv) as (tc & Htc & Hst).
  destruct (parent tc) as [par|] eqn:Hpar.
  2:{ destruct Hmain. by apply (ti_orphan _ Hti _ _ Htc). }
  exists tc, par. split; [done|]. split; [done|]. split.
  2:{ intros Hnil. apply app_eq_nil in Hnil as [-> Hws].
      destruct Hinv as [Hl _].
      pose proof (li_ready_list _ _ _ _ _ Hl) as [Hhd _]. simpl in Hhd.
      pose proof (li_wait_lists _ _ _ _ _ Hl (child_exit par)) as [Hhd' _].
      rewrite Hws in Hhd'. simpl in Hhd'.
      unfold thread_exit, store, deref.
      rewrite (bool_decide_eq_false_2 _ Hmain).
      rewrite Htc. simpl. rewrite lookup_insert_eq. simpl. rewrite Hpar.
      unfold condition_broadcast, tlempty. simpl. rewrite Hhd'. simpl.
      unfold suspend_self, suspend_self_switch, tlempty. simpl.
      by rewrite Hhd. }
  intros n rest Hlist.
  assert (∃ tn, heap st !! n = Some tn ∧ resumable tn) as (tn & Htn & Hres).
  { pose proof Hinv as [Hl _].
    assert (n ∈ rs ++ ws (child_exit par)) as Hin
      by (rewrite Hlist; apply list_elem_of_here).
    assert (∃ t, heap st !! n = Some t ∧ state t ≠ THREAD_RUNNING)
      as (t & Ht & Hs).
    { apply elem_of_app in Hin as [Hin|Hin].
      - apply (li_ready _ _ _ _ _ Hl) in Hin as [w Hw].
        apply sw_Some in Hw as (t & Ht & Hs & _).
        exists t. split; [done|congruence].
      - apply (li_waiting _ _ _ _ _ Hl) in Hin.
        apply sw_Some in Hin as (t & Ht & Hs & _).
        exists t. split; [done|congruence]. }
    exists t. split; [done|].
    apply (reachable_by_all_parked _ Hreach _ _ Ht). congruence. }
  exists tn.
  destruct (thread_exit_spec _ _ _ _ _ _ _ _ Hinv Hmain Htc Hpar Hlist Htn
              Hres)
    as (st' & Hex & Hcur' & Hinv' & (tc' & Htc' & Hs') & _ & _ & _ & Hfp).
  pose proof Hinv' as [Hl' Hrun'].
  assert (sw (heap st') (CURTHR st) = Some (THREAD_EXITED, wait_cond tc'))
    as Hswc by (apply sw_Some; eauto).
  destruct (lists_inv_not_listed _ _ _ _ _ _ _ _ Hl' Hswc)
    as [Hc_rs Hc_ws]; [done..|].
  exists st'. split_and!; try done.
  - by exists tc'.
  - apply is_tlist_elems, Hl'.
  - intros c.
    rewrite (is_tlist_elems _ _ _ (li_wait_lists _ _ _ _ _ Hl' c)).
    apply Hc_ws.
  - rewrite (is_tlist_elems _ _ _
               (li_wait_lists _ _ _ _ _ Hl' (child_exit par))).
    by rewrite fn_lookup_insert.
  - intros w Hw Hwn.
    assert (w ∈ n :: rest) as Hin.
    { rewrite <- Hlist, elem_of_app. by right. }
    apply elem_of_cons in Hin as [->|Hin]; [done|].
    apply (li_ready _ _ _ _ _ Hl') in Hin as [x Hx].
    apply has_state_sw. eauto.
Qed.

(** ** The invariants of all reachable states *)

(** X8: the scheduler invariant is kept by all operations of the thread
    manager, also by [thread_fork_to_user], [thread_join],
    [thread_join_any] and [thread_set_process]: in every state they lead to
    from the state after [thread_init], exactly one thread is RUNNING, every
    READY thread is on the ready list exactly once, and every WAITING thread
    is on the wait list of exactly one condition. *)
Theorem scheduler_invariant_all_operations (st : kstate) :
  reachable_by_all st →
  scheduler_invariant st
  ∧ ∀ o st', kmalloc_fresh_op o st → run_thread_op o st = Ok st' →
             scheduler_invariant st'.
Proof.
  intros Hreach. destruct (reachable_by_all_inv st Hreach) as [Hs Ht].
  split; [by apply sched_inv_scheduler_invariant|].
  intros o st' Hf Hrun. apply sched_inv_scheduler_invariant.
  exact (proj1 (run_thread_op_preserves _ _ _ Hs Ht Hf Hrun)).
Qed.

(** X9: the thread table never dangles. In every state the operations of
    the thread manager lead to from the state after [thread_init], the table
    has [NTHR] slots, slot 0 is the main thread, every slot that is not NULL
    points to a live thread structure whose [id] is the index of the slot,
    every live thread structure is in the slot of its [id], the parent of
    every thread but the main thread is a live thread, and only the main
    thread has no parent. *)
Theorem thread_table_never_dangles (st : kstate) :
  reachable_by_all st →
  length (thrtab st) = Z.to_nat NTHR
  ∧ thrtab st !! 0%nat = Some (Some main_thread)
  ∧ (∀ i p, thrtab st !! i = Some (Some p) →
            ∃ t, heap st !! p = Some t ∧ id t = Z.of_nat i)
  ∧ (∀ p t, heap st !! p = Some t →
            0 ≤ id t < NTHR
            ∧ thrtab st !! Z.to_nat (id t) = Some (Some p))
  ∧ (∀ p t q, heap st !! p = Some t → parent t = Some q →
              q ≠ p ∧ is_Some (heap st !! q))
  ∧ (∀ p t, heap st !! p = Some t → parent t = None ↔ p = main_thread)
  ∧ is_Some (heap st !! CURTHR st).
Proof.
  intros Hreach.
  destruct (reachable_by_all_inv st Hreach) as [(rs & ws & Hs) Ht].
  pose proof Ht as [Hlen Hslot Hheap Hmain Horph [rank Hrank]].
  split_and!; try done.
  - intros p t Hp. destruct (Hheap p t Hp) as [H0 Hin]. split; [|done].
    split; [done|]. apply lookup_lt_Some in Hin. rewrite Hlen in Hin.
    unfold NTHR in *. lia.
  - intros p t q Hp Hq. destruct (Hrank p t q Hp Hq) as [Hlive Hlt].
    split; [|done]. intros ->. lia.
  - destruct (sched_inv_at_running _ _ _ Hs) as (tc & Htc & _). by exists tc.
Qed.

(** X10: in every reachable state in which a thread other than the main
    thread runs, [thread_exit] passes its assertion
    [CURTHR->parent != NULL] and finds a live thread behind the parent
    pointer: it goes on to broadcast the [child_exit] condition of that
    parent and to suspend the caller. *)
Theorem thread_exit_finds_live_parent (st : kstate) :
  reachable_by_all st → CURTHR st ≠ main_thread →
  ∃ tc par tp,
    heap st !! CURTHR st = Some tc
    ∧ state tc = THREAD_RUNNING
    ∧ parent tc = Some par
    ∧ heap st !! par = Some tp
    ∧ thread_exit st
      = (st1 ← condition_broadcast (child_exit par)
                 (with_heap (<[CURTHR st := set_state THREAD_EXITED tc]>
                               (heap st)) st);
         suspend_self st1).
Proof.
  intros Hreach Hmain.
  destruct (reachable_by_all_inv st Hreach) as [(rs & ws & Hs) Ht].
  destruct (sched_inv_at_running _ _ _ Hs) as (tc & Htc & Hst).
  destruct Ht as [_ _ _ _ Horph [rank Hrank]].
  destruct (parent tc) as [par|] eqn:Hpar.
  2:{ by apply (Horph _ _ Htc) in Hpar. }
  destruct (Hrank _ _ _ Htc Hpar) as [[tp Htp] _].
  exists tc, par, tp. split_and!; try done.
  unfold thread_exit, store, deref.
  rewrite (bool_decide_eq_false_2 _ Hmain), Htc. simpl.
  rewrite lookup_insert_eq. simpl. by rewrite Hpar.
Qed.

(** ** Forking *)

Lemma fork_scan_free n tab t0 r :
  0 ≤ t0 ≤ r → r < NTHR → (Z.to_nat (r - t0) + 1 ≤ n)%nat →
  tab !! Z.to_nat r = Some None →
  (∀ j, t0 ≤ j < r → ∃ p, tab !! Z.to_nat j = Some (Some p)) →
  fork_scan n tab t0 = Ok r.
Proof.
  revert t0. induction n as [|n IH]; intros t0 Ht0 Hr Hn Hfree Hocc; [lia|].
  simpl. rewrite bool_decide_eq_true_2 by lia.
  destruct (decide (t0 = r)) as [->|Hne].
  - rewrite (proj2 (thrtab_at_Ok _ _ None)); [done|]. split; [lia|done].
  - destruct (Hocc t0 ltac:(lia)) as [p Hp].
    rewrite (proj2 (thrtab_at_Ok _ _ (Some p))); [|split; [lia|done]].
    simpl. apply IH; [lia..|done|]. intros j Hj. apply Hocc. lia.
Qed.

Lemma fork_scan_full n tab t0 :
  0 ≤ t0 ≤ NTHR → (Z.to_nat (NTHR - t0) ≤ n)%nat →
  (∀ j, t0 ≤ j < NTHR → ∃ p, tab !! Z.to_nat j = Some (Some p)) →
  fork_scan n tab t0 = Ok NTHR.
Proof.
  revert t0. induction n as [|n IH]; intros t0 Ht0 Hn Hocc.
  - simpl. f_equal. lia.
  - simpl. case_bool_decide as Hlt; [|f_equal; lia].
    destruct (Hocc t0 ltac:(lia)) as [p Hp].
    rewrite (proj2 (thrtab_at_Ok _ _ (Some p))); [|split; [lia|done]].
    simpl. apply IH; [lia..|]. intros j Hj. apply Hocc. lia.
Qed.

(** X11: [thread_fork_to_user] stops on its assertion when the child
    process is NULL and panics with [Too many threads] when no slot of the
    thread table is free; it creates nothing then. Otherwise the child gets
    the free slot of the smallest index, counting from slot 0 (not from
    slot 1 as in [thread_spawn]); the child is the RUNNING thread when the
    call returns, in the memory space of its process, and the caller is
    READY at the back of the ready list. *)
Theorem thread_fork_to_user_slot (child_proc : option Z) (low a : Z)
    (fresh : thread) (sp : Z) (st : kstate) (rs : list tptr)
    (ws : cptr → list tptr) :
  sched_inv_at st rs ws → heap st !! Kmalloc a = None →
  (child_proc = None →
   thread_fork_to_user child_proc low a fresh sp st
   = Fault (AssertFailed "child_proc != NULL"))
  ∧ (is_Some child_proc →
     (∀ i, 0 ≤ i < NTHR → ∃ p, thrtab st !! Z.to_nat i = Some (Some p)) →
     thread_fork_to_user child_proc low a fresh sp st
     = Fault (Panic "Too many threads"))
  ∧ (∀ cproc r,
       child_proc = Some cproc →
       0 ≤ r < NTHR → thrtab st !! Z.to_nat r = Some None →
       (∀ j, 0 ≤ j < r → ∃ p, thrtab st !! Z.to_nat j = Some (Some p)) →
       ∃ st' c,
         thread_fork_to_user child_proc low a fresh sp st = Ok (r, st')
         ∧ thrtab st' !! Z.to_nat r = Some (Some (Kmalloc a))
         ∧ CURTHR st' = Kmalloc a
         ∧ heap st' !! Kmalloc a = Some c
         ∧ id c = r ∧ parent c = Some (CURTHR st) ∧ proc c = Some cproc
         ∧ has_state st' (Kmalloc a) THREAD_RUNNING
         ∧ has_state st' (CURTHR st) THREAD_READY
         ∧ tl_elems (heap st') (ready_list st') = rs ++ [CURTHR st]
         ∧ active_mspace st' = Some cproc
         ∧ sched_inv_at st' (rs ++ [CURTHR st]) ws).
Proof.
  intros Hinv Hfresh. split_and!.
  - by intros ->.
  - intros [cproc ->] Hfull. unfold thread_fork_to_user.
    rewrite (fork_scan_full _ _ 0); [|unfold NTHR; lia..|done]. done.
  - intros cproc r -> Hr Hfree Hocc.
    assert (fork_scan (Z.to_nat NTHR + 1) (thrtab st) 0 = Ok r) as Hscan.
    { apply fork_scan_free; try done; unfold NTHR in *; lia. }
    destruct (thread_fork_to_user_runs_child cproc low a fresh sp st rs ws r
                Hinv Hfresh Hscan ltac:(lia))
      as (st1 & c & tc & Hrun & Hinv1 & Htab & Hcu & Htc & Hc & Hidc & Hparc
          & Hprc & _ & Hms).
    exists st1, c. split_and!; try done.
    + rewrite Htab. apply list_lookup_insert_eq. by eapply lookup_lt_Some.
    + destruct (sched_inv_at_running _ _ _ Hinv1) as (t & Ht & Hs).
      rewrite Hcu in Ht. by exists t.
    + destruct Hinv1 as [Hl1 _]. apply has_state_sw.
      apply (li_ready _ _ _ _ _ Hl1).
      rewrite elem_of_app, list_elem_of_singleton. by right.
    + apply is_tlist_elems, Hinv1.
Qed.

(** ** Joining *)

Lemma deref_Some h p t : h !! p = Some t → deref h p = Ok t.
Proof. apply deref_Ok. Qed.

(** One step of the error monad, without unfolding the loops. *)
Ltac step_bind := cbv beta iota delta [mbind result_bind rbind assert].

Lemma recycle_loop_total n tab thr ctid h :
  0 ≤ ctid → ctid + Z.of_nat n ≤ NTHR → length tab = Z.to_nat NTHR →
  is_Some (h !! thr) →
  (∀ i p, tab !! i = Some (Some p) → is_Some (h !! p)) →
  ∃ h', recycle_loop n tab thr ctid h = Ok h'.
Proof.
  revert ctid h. induction n as [|n IH]; intros ctid h H0 Hn Hlen Hthr Hlive.
  { by eexists. }
  simpl.
  destruct (tab !! Z.to_nat ctid) as [slot|] eqn:Hslot.
  2:{ apply lookup_ge_None in Hslot. rewrite Hlen in Hslot.
      unfold NTHR in *. lia. }
  rewrite (proj2 (thrtab_at_Ok _ _ slot)); [|split; [lia|done]]. simpl.
  destruct slot as [c|]; simpl.
  - destruct (Hlive _ _ Hslot) as [ct Hct].
    rewrite (deref_Some _ _ _ Hct). simpl.
    case_bool_decide as Hpar; simpl.
    + destruct Hthr as [t Ht]. unfold store.
      rewrite (deref_Some _ _ _ Ht). simpl.
      rewrite (deref_Some _ _ _ Hct). simpl. apply IH; [lia..|done| |].
      * destruct (decide (c = thr)) as [->|Hc].
        -- by rewrite lookup_insert_eq.
        -- rewrite lookup_insert_ne by done. by exists t.
      * intros i p Hp. destruct (decide (c = p)) as [->|Hc].
        -- by rewrite lookup_insert_eq.
        -- rewrite lookup_insert_ne by done. by eapply Hlive.
    + apply IH; try done; lia.
  - apply IH; try done; lia.
Qed.

Lemma recycle_thread_total tid st thr t :
  thrtab_inv st → 0 < tid < NTHR →
  thrtab st !! Z.to_nat tid = Some (Some thr) →
  heap st !! thr = Some t → state t = THREAD_EXITED →
  ∃ st', recycle_thread tid st = Ok st'
         ∧ thrtab st' = <[Z.to_nat tid := None]> (thrtab st)
         ∧ heap st' !! thr = None
         ∧ CURTHR st' = CURTHR st ∧ freed_pages st' = freed_pages st
         ∧ ready_list st' = ready_list st ∧ conds st' = conds st.
Proof.
  intros Hti Htid Hslot Ht Hex.
  destruct (recycle_loop_total (Z.to_nat (NTHR - 1)) (thrtab st) thr 1
              (heap st)) as [h' Hloop].
  - lia.
  - unfold NTHR. lia.
  - apply Hti.
  - by exists t.
  - intros i p Hp. destruct (ti_slot _ Hti i p Hp) as (tp & Htp & _).
    by exists tp.
  - unfold recycle_thread.
    rewrite (proj2 (thrtab_at_Ok _ _ (Some thr))); [|split; [lia|done]].
    step_bind.
    rewrite (bool_decide_eq_true_2 (0 < tid ∧ tid < NTHR ∧ Some thr ≠ None))
      by (split_and!; [lia..|done]).
    step_bind. rewrite (deref_Some _ _ _ Ht). step_bind.
    rewrite (bool_decide_eq_true_2 _ Hex). step_bind.
    rewrite Hloop. step_bind.
    eexists. split; [done|]. simpl. split_and!; try done.
    apply lookup_delete_eq.
Qed.

Lemma spawn_scan_le n tab t0 tid :
  0 ≤ t0 < tid → tid < NTHR → (Z.to_nat (tid - t0) ≤ n)%nat →
  length tab = Z.to_nat NTHR →
  tab !! Z.to_nat tid = Some None →
  ∃ r, spawn_scan n tab t0 = Ok r ∧ t0 < r ≤ tid
       ∧ tab !! Z.to_nat r = Some None.
Proof.
  revert t0. induction n as [|n IH]; intros t0 Ht0 Htid Hn Hlen Hfree; [lia|].
  simpl. rewrite bool_decide_eq_true_2 by lia.
  destruct (tab !! Z.to_nat (t0 + 1)) as [slot|] eqn:Hslot.
  2:{ apply lookup_ge_None in Hslot. rewrite Hlen in Hslot.
      unfold NTHR in *. lia. }
  rewrite (proj2 (thrtab_at_Ok _ _ slot)); [|split; [lia|done]]. simpl.
  destruct slot as [p|].
  - assert (t0 + 1 ≠ tid) as Hne by (intros E; rewrite E in Hslot; congruence).
    destruct (IH (t0 + 1)) as (r & Hr & Hle & Hnone); [lia..|done|done|].
    exists r. split; [done|]. split; [lia|done].
  - exists (t0 + 1). split; [done|]. split; [lia|done].
Qed.

(** X12: [thread_join] refuses, with -1 and without any change of the
    state, exactly the thread ids it cannot wait for: for a [tid] inside the
    table it returns -1 if and only if [tid] is 0, or the slot is empty, or
    the thread in the slot is not a child of the caller (be it EXITED or
    not). For a [tid] outside the table the slot is read before the range
    of [tid] is tested. *)
Theorem thread_join_rejects (tid : Z) (st : kstate) :
  thrtab_inv st →
  (0 ≤ tid < NTHR →
   (thread_join tid st = Ok (Returned (-1) st)
    ↔ tid = 0
      ∨ thrtab st !! Z.to_nat tid = Some None
      ∨ ∃ p c, thrtab st !! Z.to_nat tid = Some (Some p)
               ∧ heap st !! p = Some c ∧ parent c ≠ Some (CURTHR st)))
  ∧ (¬ (0 ≤ tid < NTHR) →
     thread_join tid st = Fault (Undefined "thrtab index out of bounds")).
Proof.
  intros Hti. split.
  - intros Htid.
    destruct (thrtab st !! Z.to_nat tid) as [slot|] eqn:Hslot.
    2:{ apply lookup_ge_None in Hslot. rewrite (ti_length _ Hti) in Hslot.
        unfold NTHR in *. lia. }
    unfold thread_join.
    rewrite (proj2 (thrtab_at_Ok _ _ slot)); [|done]. simpl.
    case_bool_decide as H0.
    { split; [intros _; left; lia|done]. }
    destruct slot as [p|].
    2:{ split; [intros _; right; by left|done]. }
    destruct (ti_slot _ Hti _ _ Hslot) as (c & Hc & _).
    rewrite (deref_Some _ _ _ Hc). simpl.
    case_bool_decide as Hpar.
    { split; [intros _; right; right; by exists p, c|done]. }
    split.
    + unfold thread_join_wait, deref. rewrite Hc. simpl.
      case_bool_decide.
      * intros (? & _ & [=])%bind_Ok.
      * intros (? & _ & [= E _])%bind_Ok. lia.
    + intros [E|[E|(p' & c' & E1 & E2 & E3)]]; [lia|done|].
      injection E1 as <-. rewrite Hc in E2. injection E2 as <-.
      done.
  - intros Hout. unfold thread_join, thrtab_at.
    by rewrite (bool_decide_eq_false_2 _ Hout).
Qed.

Lemma thread_spawn_sched_inv_at nm a fresh pg st rs ws tid st' :
  sched_inv_at st rs ws → heap st !! Kmalloc a = None →
  thread_spawn nm a fresh pg st = Ok (tid, st') →
  sched_inv_at st' (rs ++ [Kmalloc a]) ws.
Proof.
  intros Hinv Hfresh.
  destruct (sched_inv_at_running _ _ _ Hinv) as (tc & Htc & Hst).
  destruct Hinv as [Hl Hcur].
  destruct (spawn_scan (Z.to_nat NTHR) (thrtab st) 0) as [tid'|] eqn:Hscan;
    [|by unfold thread_spawn; rewrite Hscan].
  destruct (decide (tid' = NTHR)) as [Hfull|Hfree].
  { unfold thread_spawn. rewrite Hscan. simpl.
    by rewrite (bool_decide_eq_true_2 _ Hfull). }
  destruct (thread_spawn_spec nm a fresh pg st rs tid' tc Hscan Hfree Htc
              (li_ready_list _ _ _ _ _ Hl) Hfresh)
    as (st1 & c & Hrun & _ & Hrl & Hc & Hsc & _ & _ & _ & _ & _ & Hwc & Hno
        & Hsame & Hcs & Hcu & _).
  rewrite Hrun. intros [= <- <-].
  assert (sw (heap st) (Kmalloc a) = None) as Hsw0.
  { unfold sw. by rewrite Hfresh. }
  assert (∀ p, sw (heap st1) p = if decide (p = Kmalloc a)
                                 then Some (THREAD_READY, wait_cond fresh)
                                 else sw (heap st) p) as Hsw.
  { intros p. unfold sw. case_decide as Hp.
    - subst p. rewrite Hc. simpl. by rewrite Hsc, Hwc.
    - destruct (Hno p Hp) as [n ->]. by destruct (heap st !! p). }
  split; [split|].
  - done.
  - intros c'. rewrite Hcs.
    eapply is_tlist_frame; [apply (li_wait_lists _ _ _ _ _ Hl)|].
    intros x Hx. unfold nx. rewrite Hsame; [done| |].
    + intros ->. apply (li_waiting _ _ _ _ _ Hl) in Hx. congruence.
    + intros Hlast%last_Some_elem_of.
      by eapply lists_inv_ready_not_waiting.
  - intros p. rewrite Hsw, elem_of_app, list_elem_of_singleton.
    rewrite (li_ready _ _ _ _ _ Hl). case_decide; naive_solver.
  - intros p c'. rewrite Hsw, (li_waiting _ _ _ _ _ Hl).
    case_decide as Hp; [|done]. subst p. rewrite Hsw0. naive_solver.
  - intros p. rewrite Hsw. case_decide; [done|].
    apply (li_wait_cond _ _ _ _ _ Hl).
  - intros p. rewrite Hsw, Hcu, <- Hcur.
    case_decide as Hp; [|done]. subst p. rewrite Hsw0. naive_solver.
Qed.

(** X13: [thread_join] on a child that has EXITED returns its [tid] at once:
    the slot of the table is NULL afterwards, the thread structure is
    freed, the caller goes on running, no list and no stack page is touched,
    the invariants of the scheduler and of the table still hold, and the
    slot can be taken again: the next [thread_spawn] succeeds with a thread
    id that is at most [tid]. *)
Theorem thread_join_reaps_exited_child (tid : Z) (st : kstate)
    (rs : list tptr) (ws : cptr → list tptr) (child : tptr) (c : thread) :
  sched_inv_at st rs ws → thrtab_inv st →
  0 < tid < NTHR → thrtab st !! Z.to_nat tid = Some (Some child) →
  heap st !! child = Some c → parent c = Some (CURTHR st) →
  state c = THREAD_EXITED →
  ∃ st',
    thread_join tid st = Ok (Returned tid st')
    ∧ thrtab st' !! Z.to_nat tid = Some None
    ∧ heap st' !! child = None
    ∧ CURTHR st' = CURTHR st
    ∧ ready_list st' = ready_list st ∧ conds st' = conds st
    ∧ freed_pages st' = freed_pages st
    ∧ sched_inv_at st' rs ws ∧ thrtab_inv st'
    ∧ ∀ nm a fresh pg,
        heap st' !! Kmalloc a = None →
        ∃ tid' st'',
          thread_spawn nm a fresh pg st' = Ok (tid', st'') ∧ 0 < tid' ≤ tid.
Proof.
  intros Hinv Hti Htid Hslot Hc Hpar Hex.
  destruct (recycle_thread_total tid st child c Hti Htid Hslot Hc Hex)
    as (st' & Hrec & Htab & Hfreed & Hcur & Hfp & Hrl & Hcs).
  pose proof (recycle_thread_sched_inv _ _ _ _ _ Hinv Hrec) as Hinv'.
  pose proof (recycle_thread_thrtab_inv _ _ _ Hti Hrec) as Hti'.
  assert (thrtab st' !! Z.to_nat tid = Some None) as Hnone.
  { rewrite Htab. apply list_lookup_insert_eq. by eapply lookup_lt_Some. }
  exists st'. split_and!; try done.
  - unfold thread_join.
    rewrite (proj2 (thrtab_at_Ok _ _ (Some child))); [|split; [lia|done]].
    simpl. rewrite bool_decide_eq_false_2 by lia.
    rewrite (deref_Some _ _ _ Hc). simpl.
    rewrite bool_decide_eq_false_2 by (by intros []).
    unfold thread_join_wait. rewrite (deref_Some _ _ _ Hc). simpl.
    rewrite bool_decide_eq_false_2 by (by intros []).
    by rewrite Hrec.
  - intros nm a fresh pg Hfresh.
    destruct (spawn_scan_le (Z.to_nat NTHR) (thrtab st') 0 tid)
      as (r & Hscan & Hr & _);
      [lia|lia|unfold NTHR in *; lia|apply Hti'|done|].
    destruct (sched_inv_at_running _ _ _ Hinv') as (tc & Htc & _).
    destruct (thread_spawn_spec nm a fresh pg st' rs r tc Hscan
                ltac:(lia) Htc (li_ready_list _ _ _ _ _ (proj1 Hinv'))
                Hfresh) as (st'' & _ & Hsp & _).
    exists r, st''. split; [done|lia].
Qed.

(** X14: in every state the thread manager can reach, [thread_join] on a
    child that has not EXITED blocks the caller: the call does not return,
    the caller is WAITING on its own [child_exit] condition, behind the
    threads that waited there before, the thread at the head of the ready
    list runs, whether it starts, goes on inside [suspend_self] or is a
    parent that goes on inside [thread_fork_to_user], and the child keeps
    its slot and its thread structure. *)
Theorem thread_join_blocks_until_exit (tid : Z) (st : kstate) (n : tptr)
    (rs : list tptr) (ws : cptr → list tptr) (child : tptr) (c : thread) :
  reachable_by_all st → sched_inv_at st (n :: rs) ws →
  0 < tid < NTHR → thrtab st !! Z.to_nat tid = Some (Some child) →
  heap st !! child = Some c → parent c = Some (CURTHR st) →
  state c ≠ THREAD_EXITED →
  ∃ st' t,
    thread_join tid st = Ok (Suspended st')
    ∧ CURTHR st' = n
    ∧ heap st' !! CURTHR st = Some t
    ∧ state t = THREAD_WAITING
    ∧ wait_cond t = Some (child_exit (CURTHR st))
    ∧ tl_elems (heap st') (conds st' (child_exit (CURTHR st)))
      = ws (child_exit (CURTHR st)) ++ [CURTHR st]
    ∧ thrtab st' = thrtab st
    ∧ is_Some (heap st' !! child)
    ∧ sched_inv_at st' rs
        (<[child_exit (CURTHR st)
           := ws (child_exit (CURTHR st)) ++ [CURTHR st]]> ws).
Proof.
  intros Hreach Hinv Htid Hslot Hc Hpar Hnex.
  destruct (reachable_by_all_head_resumable _ _ _ _ Hreach Hinv)
    as (tn & Htn & Hres).
  set (ce := child_exit (CURTHR st)).
  destruct (condition_wait_spec ce _ _ _ _ _ Hinv Htn Hres)
    as (st' & Hw & Hinv' & Hcur & Htab & _ & _ & Hid).
  assert (CURTHR st ∈ (<[ce := ws ce ++ [CURTHR st]]> ws) ce) as Hin.
  { rewrite fn_lookup_insert, elem_of_app, list_elem_of_singleton. by right. }
  pose proof Hinv' as [Hl' _].
  apply (li_waiting _ _ _ _ _ Hl') in Hin.
  apply sw_Some in Hin as (t & Ht & Hs & Hwc).
  exists st', t. split_and!; try done.
  - unfold thread_join.
    rewrite (proj2 (thrtab_at_Ok _ _ (Some child))); [|split; [lia|done]].
    step_bind. rewrite bool_decide_eq_false_2 by lia.
    rewrite (deref_Some _ _ _ Hc). step_bind.
    rewrite bool_decide_eq_false_2 by (by intros []).
    unfold thread_join_wait. rewrite (deref_Some _ _ _ Hc). step_bind.
    rewrite (bool_decide_eq_true_2 _ Hnex). fold ce. by rewrite Hw.
  - rewrite (is_tlist_elems _ _ _ (li_wait_lists _ _ _ _ _ Hl' ce)).
    by rewrite fn_lookup_insert.
  - destruct (agree_lookup _ _ _ _ _ Hid Hc) as (c' & -> & _). done.
Qed.

Lemma agree_identity_kinship h h' :
  agree identity h h' → agree kinship h h'.
Proof.
  intros Ha p. specialize (Ha p).
  destruct (h !! p) as [t|], (h' !! p) as [t'|]; simpl in *; try done.
  injection Ha as E1 E2 E3 E4. unfold kinship. congruence.
Qed.

(** X15: a child that exits hands over to the parent that waits for it in
    [thread_join]. When no thread is ready and the parent is the first to
    wait on its [child_exit] condition, [thread_exit] of the child switches
    to the parent; the parent, back in the loop of [thread_join], finds the
    child EXITED, recycles it and returns its [tid]. By then the stack of
    the child has been handed to [memory_free_page] (one stack anchor below
    the address of its page), its slot is NULL and its thread structure is
    freed. *)
Theorem thread_exit_then_parent_joins (st : kstate) (ws : cptr → list tptr)
    (tc : thread) (par : tptr) (wrest : list tptr) (tp : thread) :
  sched_inv_at st [] ws → thrtab_inv st →
  CURTHR st ≠ main_thread →
  heap st !! CURTHR st = Some tc → parent tc = Some par →
  ws (child_exit par) = par :: wrest →
  heap st !! par = Some tp → context_ra tp = ra_suspend_self →
  ∃ st1 st2,
    thread_exit st = Ok st1
    ∧ CURTHR st1 = par
    ∧ has_state st1 (CURTHR st) THREAD_EXITED
    ∧ thrtab st1 !! Z.to_nat (id tc) = Some (Some (CURTHR st))
    ∧ thread_join_wait (id tc) (CURTHR st) st1
      = Ok (Returned (id tc) st2)
    ∧ CURTHR st2 = par
    ∧ thrtab st2 !! Z.to_nat (id tc) = Some None
    ∧ heap st2 !! CURTHR st = None
    ∧ freed_pages st2 = freed_pages st ++ [stack_base tc - PAGE_SIZE]
    ∧ sched_inv_at st2 wrest (<[child_exit par := []]> ws)
    ∧ thrtab_inv st2.
Proof.
  intros Hinv Hti Hmain Htc Hpar Hws Htp Hra.
  destruct (thread_exit_spec st [] ws tc par par wrest tp)
    as (st1 & Hex & Hcur1 & Hinv1 & (tc1 & Htc1 & Hs1) & Htab1 & _ & Hid1
        & Hfp1); try done.
  { right. by left. }
  rewrite (bool_decide_eq_true_2 _ Hra) in Hfp1.
  assert (thrtab_inv st1) as Hti1.
  { eapply thrtab_inv_frame; [done|done|by apply agree_identity_kinship]. }
  destruct (ti_heap _ Hti _ _ Htc) as [Hid0 Hslot].
  assert (id tc ≠ 0) as Hne.
  { intros E. rewrite E in Hslot. change (Z.to_nat 0) with 0%nat in Hslot.
    rewrite (ti_main _ Hti) in Hslot. congruence. }
  assert (id tc < NTHR) as Hlt.
  { apply lookup_lt_Some in Hslot. rewrite (ti_length _ Hti) in Hslot.
    unfold NTHR in *. lia. }
  rewrite <- Htab1 in Hslot.
  destruct (recycle_thread_total (id tc) st1 (CURTHR st) tc1 Hti1
              ltac:(lia) Hslot Htc1 Hs1)
    as (st2 & Hrec & Htab2 & Hfreed & Hcur2 & Hfp2 & _).
  exists st1, st2. split_and!; try done.
  - by exists tc1.
  - unfold thread_join_wait. rewrite (deref_Some _ _ _ Htc1). step_bind.
    rewrite bool_decide_eq_false_2 by (by intros []).
    by rewrite Hrec.
  - congruence.
  - rewrite Htab2. apply list_lookup_insert_eq. by eapply lookup_lt_Some.
  - congruence.
  - by eapply recycle_thread_sched_inv.
  - by eapply recycle_thread_thrtab_inv.
Qed.

Lemma join_any_scan_spec n tid0 cnt st :
  thrtab_inv st → 0 ≤ tid0 → tid0 + Z.of_nat n ≤ NTHR →
  (∃ t, join_any_scan n tid0 cnt st = Ok (inl t)
        ∧ tid0 ≤ t < tid0 + Z.of_nat n
        ∧ exited_child_in_slot st t
        ∧ ∀ j, tid0 ≤ j < t → ¬ exited_child_in_slot st j)
  ∨ (∃ cnt', join_any_scan n tid0 cnt st = Ok (inr cnt')
             ∧ cnt ≤ cnt'
             ∧ (∀ j, tid0 ≤ j < tid0 + Z.of_nat n →
                     ¬ exited_child_in_slot st j)
             ∧ (cnt' = cnt ↔
                ∀ j, tid0 ≤ j < tid0 + Z.of_nat n → ¬ child_in_slot st j)).
Proof.
  intros Hti. revert tid0 cnt.
  induction n as [|n IH]; intros tid0 cnt H0 Hn.
  { right. exists cnt. simpl. split_and!; [done|lia|intros; lia|].
    split; [intros; lia|done]. }
  simpl.
  destruct (thrtab st !! Z.to_nat tid0) as [slot|] eqn:Hslot.
  2:{ apply lookup_ge_None in Hslot. rewrite (ti_length _ Hti) in Hslot.
      unfold NTHR in *. lia. }
  rewrite (proj2 (thrtab_at_Ok _ _ slot)); [|split; [lia|done]]. step_bind.
  assert (∀ j, tid0 ≤ j < tid0 + Z.of_nat (S n) →
            j = tid0 ∨ tid0 + 1 ≤ j < tid0 + 1 + Z.of_nat n) as Hsplit
    by (intros; lia).
  destruct slot as [p|].
  - destruct (ti_slot _ Hti _ _ Hslot) as (t & Ht & _).
    rewrite (deref_Some _ _ _ Ht). step_bind.
    case_bool_decide as Hpar.
    + case_bool_decide as Hex.
      * left. exists tid0. split_and!; [done|lia|lia|by exists p, t|].
        intros; lia.
      * destruct (IH (tid0 + 1) (cnt + 1)) as
          [(r & Hr & Hrange & Hrex & Hfirst)
          |(cnt' & Hr & Hle & Hnoex & Hcnt)]; [lia..| |].
        -- left. exists r. split_and!; [done|lia|lia|done|].
           intros j Hj Hjex.
           destruct (decide (j = tid0)) as [->|Hne];
             [|apply (Hfirst j); [lia|done]].
           destruct Hjex as (p' & t' & Hp' & Ht' & _ & Hex').
           rewrite Hslot in Hp'. injection Hp' as <-.
           rewrite Ht in Ht'. by injection Ht' as <-.
        -- right. exists cnt'. split_and!; [done|lia| |].
           ++ intros j Hj (p' & t' & Hp' & Ht' & Hpar' & Hex').
              destruct (Hsplit j Hj) as [->|Hj'].
              ** rewrite Hslot in Hp'. injection Hp' as <-.
                 rewrite Ht in Ht'. by injection Ht' as <-.
              ** apply (Hnoex j Hj'). by exists p', t'.
           ++ split; [lia|]. intros Hno. exfalso.
              apply (Hno tid0); [lia|]. by exists p, t.
    + destruct (IH (tid0 + 1) cnt) as
        [(r & Hr & Hrange & Hrex & Hfirst)
        |(cnt' & Hr & Hle & Hnoex & Hcnt)]; [lia..| |].
      * left. exists r. split_and!; [done|lia|lia|done|].
        intros j Hj Hjex.
        destruct (decide (j = tid0)) as [->|Hne];
          [|apply (Hfirst j); [lia|done]].
        destruct Hjex as (p' & t' & Hp' & Ht' & Hpar' & _).
        rewrite Hslot in Hp'. injection Hp' as <-.
        rewrite Ht in Ht'. by injection Ht' as <-.
      * right. exists cnt'. split_and!; [done|lia| |].
        -- intros j Hj (p' & t' & Hp' & Ht' & Hpar' & Hex').
           destruct (Hsplit j Hj) as [->|Hj'].
           ++ rewrite Hslot in Hp'. injection Hp' as <-.
              rewrite Ht in Ht'. by injection Ht' as <-.
           ++ apply (Hnoex j Hj'). by exists p', t'.
        -- rewrite Hcnt. split.
           ++ intros Hno j Hj (p' & t' & Hp' & Ht' & Hpar').
              destruct (Hsplit j Hj) as [->|Hj'].
              ** rewrite Hslot in Hp'. injection Hp' as <-.
                 rewrite Ht in Ht'. by injection Ht' as <-.
              ** apply (Hno j Hj'). by exists p', t'.
           ++ intros Hno j Hj. apply Hno. lia.
  - destruct (IH (tid0 + 1) cnt) as
      [(r & Hr & Hrange & Hrex & Hfirst)
      |(cnt' & Hr & Hle & Hnoex & Hcnt)]; [lia..| |].
    + left. exists r. split_and!; [done|lia|lia|done|].
      intros j Hj Hjex.
      destruct (decide (j = tid0)) as [->|Hne];
        [|apply (Hfirst j); [lia|done]].
      destruct Hjex as (p' & t' & Hp' & _).
      rewrite Hslot in Hp'. done.
    + right. exists cnt'. split_and!; [done|lia| |].
      * intros j Hj (p' & t' & Hp' & Ht' & Hpar' & Hex').
        destruct (Hsplit j Hj) as [->|Hj'].
        -- rewrite Hslot in Hp'. done.
        -- apply (Hnoex j Hj'). by exists p', t'.
      * rewrite Hcnt. split.
        -- intros Hno j Hj (p' & t' & Hp' & Ht' & Hpar').
           destruct (Hsplit j Hj) as [->|Hj'].
           ++ rewrite Hslot in Hp'. done.
           ++ apply (Hno j Hj'). by exists p', t'.
        -- intros Hno j Hj. apply Hno. lia.
Qed.

(** X16: [thread_join_any] has three outcomes. If a child of the caller has
    EXITED, it reaps the one in the slot of the smallest index and returns
    that index, leaving the slot NULL and the thread structure freed. If
    the caller has no child at all, the kernel panics with
    [thread_wait called by childless thread]. If it has children and none
    has EXITED, the caller is suspended on its own [child_exit]
    condition. *)
Theorem thread_join_any_outcomes (st : kstate) :
  thrtab_inv st →
  (∀ t, 0 < t < NTHR → exited_child_in_slot st t →
        (∀ j, 0 < j < t → ¬ exited_child_in_slot st j) →
        ∃ st' child,
          thread_join_any st = Ok (Returned t st')
          ∧ recycle_thread t st = Ok st'
          ∧ thrtab st !! Z.to_nat t = Some (Some child)
          ∧ thrtab st' !! Z.to_nat t = Some None
          ∧ heap st' !! child = None)
  ∧ ((∀ j, 0 < j < NTHR → ¬ child_in_slot st j) →
     thread_join_any st
     = Fault (Panic "thread_wait called by childless thread"))
  ∧ ((∃ j, 0 < j < NTHR ∧ child_in_slot st j) →
     (∀ j, 0 < j < NTHR → ¬ exited_child_in_slot st j) →
     thread_join_any st
     = (st' ← condition_wait (child_exit (CURTHR st)) st;
        Ok (Suspended st'))).
Proof.
  intros Hti.
  destruct (join_any_scan_spec (Z.to_nat (NTHR - 1)) 1 0 st Hti)
    as [(r & Hr & Hrange & Hrex & Hfirst)|(cnt' & Hr & Hle & Hnoex & Hcnt)];
    [lia|unfold NTHR; lia| |].
  - assert (0 < r < NTHR) as Hr' by (unfold NTHR in *; lia).
    split_and!.
    + intros t Ht Htex Htfirst.
      assert (t = r) as ->.
      { destruct (Z.lt_trichotomy t r) as [Hlt|[E|Hgt]]; [|done|].
        - destruct (Hfirst t); [lia|done].
        - destruct (Htfirst r); [lia|done]. }
      destruct Hrex as (child & c & Hslot & Hc & Hpar & Hex).
      destruct (recycle_thread_total r st child c Hti Hr' Hslot Hc Hex)
        as (st' & Hrec & Htab & Hfreed & _).
      exists st', child. split_and!; try done.
      * unfold thread_join_any. rewrite Hr. step_bind.
        unfold thread_join.
        rewrite (proj2 (thrtab_at_Ok _ _ (Some child)));
          [|split; [lia|done]].
        step_bind. rewrite bool_decide_eq_false_2 by lia.
        rewrite (deref_Some _ _ _ Hc). step_bind.
        rewrite bool_decide_eq_false_2 by (by intros []).
        unfold thread_join_wait. rewrite (deref_Some _ _ _ Hc). step_bind.
        rewrite bool_decide_eq_false_2 by (by intros []).
        by rewrite Hrec.
      * rewrite Htab. apply list_lookup_insert_eq. by eapply lookup_lt_Some.
    + intros Hno. destruct Hrex as (p & t & ? & ? & ? & _).
      destruct (Hno r Hr'). by exists p, t.
    + intros _ Hno. by destruct (Hno r Hr').
  - assert (∀ j, 0 < j < NTHR ↔ 1 ≤ j < 1 + Z.of_nat (Z.to_nat (NTHR - 1)))
      as Hiff by (intros; unfold NTHR; lia).
    split_and!.
    + intros t Ht Htex _. destruct (Hnoex t); [by apply Hiff|done].
    + intros Hno. unfold thread_join_any. rewrite Hr. step_bind.
      rewrite bool_decide_eq_true_2; [done|].
      apply Hcnt. intros j Hj. apply Hno. by apply Hiff.
    + intros (j & Hj & Hchild) _. unfold thread_join_any. rewrite Hr.
      step_bind. rewrite bool_decide_eq_false_2; [done|].
      intros E. destruct (proj1 Hcnt E j); [by apply Hiff|done].
Qed.

(** ** A new thread and its accessors *)

(** X17: [thread_spawn] registers the new thread so that the accessors find
    it. After a successful [thread_spawn] with the name [nm], which takes
    the free slot [tid] of the smallest index from 1 on, [thread_name(tid)]
    is [nm], [thread_process(tid)] is the process of the caller, the caller
    is still the running thread, and the new thread is READY at the back of
    the ready list; [thread_set_process(tid, q)] then makes
    [thread_process(tid)] return [q] and leaves the name alone. *)
Theorem thread_spawn_then_accessors (nm : string) (a : Z) (fresh : thread)
    (pg : Z) (st : kstate) (rs : list tptr) (ws : cptr → list tptr)
    (tid : Z) :
  sched_inv_at st rs ws → heap st !! Kmalloc a = None →
  0 < tid < NTHR → thrtab st !! Z.to_nat tid = Some None →
  (∀ j, 0 < j < tid → ∃ p, thrtab st !! Z.to_nat j = Some (Some p)) →
  ∃ st' tc,
    thread_spawn nm a fresh pg st = Ok (tid, st')
    ∧ heap st !! CURTHR st = Some tc
    ∧ thread_name tid st' = Ok nm
    ∧ thread_process tid st' = Ok (proc tc)
    ∧ CURTHR st' = CURTHR st
    ∧ running_thread st' = running_thread st
    ∧ tl_elems (heap st') (ready_list st') = rs ++ [Kmalloc a]
    ∧ sched_inv_at st' (rs ++ [Kmalloc a]) ws
    ∧ ∀ q, ∃ st'',
        thread_set_process tid q st' = Ok st''
        ∧ thread_process tid st'' = Ok q
        ∧ thread_name tid st'' = Ok nm.
Proof.
  intros Hinv Hfresh Htid Hfree Hocc.
  destruct (sched_inv_at_running _ _ _ Hinv) as (tc & Htc & Hst).
  assert (spawn_scan (Z.to_nat NTHR) (thrtab st) 0 = Ok tid) as Hscan.
  { apply spawn_scan_free; try done; unfold NTHR in *; lia. }
  destruct (thread_spawn_spec nm a fresh pg st rs tid tc Hscan ltac:(lia)
              Htc (li_ready_list _ _ _ _ _ (proj1 Hinv)) Hfresh)
    as (st' & c & Hrun & Htab & Hrl & Hc & _ & _ & Hnm & _ & Hproc & _ & _
        & Hno & _ & _ & Hcu & _).
  assert (thrtab st' !! Z.to_nat tid = Some (Some (Kmalloc a))) as Hslot.
  { rewrite Htab. apply list_lookup_insert_eq. by eapply lookup_lt_Some. }
  assert (tid_in_range tid = true) as Hrng.
  { unfold tid_in_range. rewrite (bool_decide_eq_true_2 (0 ≤ tid)) by lia.
    done. }
  assert (∀ s, thrtab s = thrtab st' →
            thrtab_at (thrtab s) tid = Ok (Some (Kmalloc a))) as Hat.
  { intros s ->. apply thrtab_at_Ok. split; [lia|done]. }
  exists st', tc. split_and!; try done.
  - unfold thread_name. rewrite Hrng, (Hat st' eq_refl). step_bind.
    rewrite (deref_Some _ _ _ Hc). step_bind. by rewrite Hnm.
  - unfold thread_process. rewrite Hrng, (Hat st' eq_refl). step_bind.
    rewrite (deref_Some _ _ _ Hc). step_bind. by rewrite Hproc.
  - unfold running_thread. rewrite Hcu.
    assert (CURTHR st ≠ Kmalloc a) as Hne by congruence.
    destruct (Hno _ Hne) as [n Hn]. rewrite Htc in Hn. simpl in Hn.
    by rewrite (deref_Some _ _ _ Hn), (deref_Some _ _ _ Htc).
  - by apply is_tlist_elems.
  - by eapply thread_spawn_sched_inv_at.
  - intros q. unfold thread_set_process.
    rewrite Hrng, (Hat st' eq_refl). step_bind.
    unfold store. rewrite (deref_Some _ _ _ Hc). step_bind.
    eexists. split; [done|].
    assert (<[Kmalloc a:=set_proc q c]> (heap st') !! Kmalloc a
            = Some (set_proc q c)) as Hc' by apply lookup_insert_eq.
    split.
    + unfold thread_process. rewrite Hrng. simpl thrtab.
      rewrite (Hat st' eq_refl). step_bind. simpl heap.
      by rewrite (deref_Some _ _ _ Hc').
    + unfold thread_name. rewrite Hrng. simpl thrtab.
      rewrite (Hat st' eq_refl). step_bind. simpl heap.
      rewrite (deref_Some _ _ _ Hc'). step_bind. simpl. by rewrite Hnm.
Qed.

(** ** Helpers for the sample run *)

Lemma thread_yield_spec st n rs ws tn :
  sched_inv_at st (n :: rs) ws → heap st !! n = Some tn → resumable tn →
  ∃ st', thread_yield st = Ok st' ∧ CURTHR st' = n
         ∧ sched_inv_at st' (rs ++ [CURTHR st]) ws
         ∧ thrtab st' = thrtab st
         ∧ agree identity (heap st) (heap st').
Proof.
  intros Hinv Htn Hres.
  destruct (sched_inv_at_running _ _ _ Hinv) as (tc & Htc & Hst).
  destruct Hinv as [Hl Hrun].
  destruct (suspend_self_spec st n rs ws tc tn)
    as (st' & Hsusp & Hinv' & Hcur & Htab & _ & _ & Hid & _); try done.
  { intros p w Hp. apply Hrun. eauto. }
  { congruence. }
  rewrite (bool_decide_eq_true_2 _ Hst) in Hinv'.
  exists st'. unfold thread_yield. rewrite (deref_Some _ _ _ Htc). step_bind.
  rewrite (bool_decide_eq_true_2 _ Hst). done.
Qed.

Lemma reachable_reachable_by_all st : reachable st → reachable_by_all st.
Proof.
  induction 1 as [tp mem msa msl isa isl st Hinit|st o st' _ IH Hf Hrun].
  - by eapply reachable_by_all_init.
  - by apply (reachable_by_all_step st (call_sched o)).
Qed.

(** ** The literal device: positions and bounds *)

Lemma copy_bytes_into dst doff src n :
  0 ≤ doff → (Z.to_nat doff ≤ length dst)%nat → n = Z.of_nat (length src) →
  copy_bytes dst doff src 0 n
  = take (Z.to_nat doff) dst ++ src ++ drop (Z.to_nat (doff + n)) dst.
Proof.
  intros Hd Hlen ->. unfold copy_bytes. simpl. rewrite drop_0.
  by rewrite Nat2Z.id, firstn_all.
Qed.

(** X18: what [io_lit_write] stores, [io_lit_read] gives back. Writing the
    bytes [data] at a position from which they fit into the literal, setting
    the position back with [IOCTL_SETPOS] and reading as many bytes returns
    [data] in the buffer of the caller and leaves the position behind the
    bytes; all three calls return 0, and the size of the literal is
    unchanged. *)
Theorem io_lit_write_then_read_back (lit : io_lit) (data buf : list Z) :
  IOCTL_SETPOS ≠ IOCTL_GETLEN →
  0 ≤ lit_pos lit → 0 < Z.of_nat (length data) →
  lit_pos lit + Z.of_nat (length data) ≤ lit_size lit →
  lit_size lit < 2 ^ 64 →
  (Z.to_nat (lit_size lit) ≤ length (lit_buf lit))%nat →
  length buf = length data →
  ∃ lit1 lit2 lit3,
    io_lit_write lit data 0 (Z.of_nat (length data)) = (0, lit1)
    ∧ io_lit_ioctl lit1 IOCTL_SETPOS (lit_pos lit) = (0, lit2, lit_pos lit)
    ∧ io_lit_read lit2 buf 0 (Z.of_nat (length data)) = (0, lit3, data)
    ∧ lit_pos lit3 = lit_pos lit + Z.of_nat (length data)
    ∧ lit_size lit3 = lit_size lit
    ∧ length (lit_buf lit3) = length (lit_buf lit).
Proof.
  intros Hcmd Hpos Hn Hfit Hsize Hbuf Hlen.
  set (n := Z.of_nat (length data)) in *.
  set (B := lit_buf lit) in *.
  set (B1 := take (Z.to_nat (lit_pos lit)) B ++ data
             ++ drop (Z.to_nat (lit_pos lit + n)) B).
  assert (length (take (Z.to_nat (lit_pos lit)) B)
          = Z.to_nat (lit_pos lit)) as Htake.
  { rewrite length_take. lia. }
  assert (length B1 = length B) as HlenB.
  { unfold B1. rewrite !length_app, Htake, length_drop. lia. }
  set (lit1 := set_lit_pos (lit_pos lit + n) (set_lit_buf B1 lit)).
  set (lit2 := set_lit_pos (lit_pos lit) lit1).
  exists lit1, lit2, (set_lit_pos (lit_pos lit + n) lit2).
  split_and!.
  - rewrite io_lit_write_in_range by lia.
    rewrite Z.min_l by lia. fold B.
    rewrite copy_bytes_into; [done|lia|lia|done].
  - unfold io_lit_ioctl.
    rewrite (bool_decide_eq_false_2 _ Hcmd).
    by rewrite bool_decide_eq_true_2.
  - rewrite io_lit_read_in_range by (simpl; lia). simpl.
    rewrite Z.min_l by lia. do 2 f_equal.
    unfold copy_bytes, B1. simpl.
    rewrite drop_app_length' by done.
    rewrite take_app_length' by (unfold n; lia).
    rewrite drop_ge by lia. by rewrite app_nil_r.
  - done.
  - done.
  - done.
Qed.


(** X20: [ioread_full] and [iowrite] over a literal never report a positive
    number of bytes. For a positive length they make exactly one call of
    [io_lit_read] or [io_lit_write], whatever [fuel] they are given, and
    return its value: 0 when bytes were moved (all that were asked for, or
    those that were left), and [-EINVAL] when the position is at or behind
    the size; the rest of a request that was clipped is never asked for. *)
Theorem iolit_transfers_report_no_count (lit : io_lit) (buf : list Z)
    (n : Z) (fuel : nat) :
  0 < EINVAL → 0 < n < 2 ^ 64 →
  ∃ r lit' buf' w litw,
    io_lit_read lit buf 0 n = (r, lit', buf')
    ∧ ioread_full (S fuel) iolit_ops lit buf n = Some (r, (lit', buf'))
    ∧ (r = 0 ∨ r = - EINVAL)
    ∧ io_lit_write lit buf 0 n = (w, litw)
    ∧ iowrite (S fuel) iolit_ops lit buf n = Some (w, litw)
    ∧ (w = 0 ∨ w = - EINVAL).
Proof.
  intros Hein Hn.
  assert (to_ulong 0 < n) as H0.
  { replace (to_ulong 0) with 0 by (vm_compute; reflexivity). lia. }
  assert (to_ulong (n - 0) = n) as Hlen.
  { unfold to_ulong. rewrite Z.sub_0_r. apply Z.mod_small. lia. }
  destruct (io_lit_read lit buf 0 n) as [[r lit'] buf'] eqn:Hrd.
  destruct (io_lit_write lit buf 0 n) as [w litw] eqn:Hwr.
  assert (r = 0 ∨ r = - EINVAL) as Hr.
  { unfold io_lit_read in Hrd. case_bool_decide; injection Hrd as <- _ _; auto. }
  assert (w = 0 ∨ w = - EINVAL) as Hw.
  { unfold io_lit_write in Hwr. case_bool_decide; injection Hwr as <- _; auto. }
  exists r, lit', buf', w, litw. split_and!; try done.
  - unfold ioread_full. simpl ops_read. cbv beta iota.
    unfold transfer_loop. rewrite (bool_decide_eq_true_2 _ H0).
    unfold read_step at 1. rewrite Hlen, Hrd.
    destruct Hr as [-> | ->].
    + rewrite bool_decide_eq_false_2 by lia.
      by rewrite bool_decide_eq_true_2.
    + by rewrite bool_decide_eq_true_2 by lia.
  - unfold iowrite. simpl ops_write. cbv beta iota.
    unfold transfer_loop. rewrite (bool_decide_eq_true_2 _ H0).
    unfold write_step at 1. rewrite Hlen, Hwr.
    destruct Hw as [-> | ->].
    + rewrite bool_decide_eq_false_2 by lia.
      by rewrite bool_decide_eq_true_2.
    + by rewrite bool_decide_eq_true_2 by lia.
Qed.

(** X21: the control commands of a literal. [IOCTL_GETPOS] after
    [IOCTL_SETPOS] returns the position that was set, for every value;
    [IOCTL_GETLEN] returns the size and [IOCTL_GETBLKSZ] 4096, and none of
    the three changes the device; [IOCTL_SETPOS] changes the position only.
    Every other command returns -1 (not [-ENOTSUP]) and touches neither the
    device nor the argument. *)
Theorem io_lit_ioctl_commands (lit : io_lit) (pos arg cmd : Z) :
  IOCTL_SETPOS ≠ IOCTL_GETLEN → IOCTL_GETPOS ≠ IOCTL_GETLEN →
  IOCTL_GETPOS ≠ IOCTL_SETPOS → IOCTL_GETBLKSZ ≠ IOCTL_GETLEN →
  IOCTL_GETBLKSZ ≠ IOCTL_SETPOS → IOCTL_GETBLKSZ ≠ IOCTL_GETPOS →
  io_lit_ioctl lit IOCTL_SETPOS pos = (0, set_lit_pos pos lit, pos)
  ∧ io_lit_ioctl (set_lit_pos pos lit) IOCTL_GETPOS arg
    = (0, set_lit_pos pos lit, pos)
  ∧ io_lit_ioctl (set_lit_pos pos lit) IOCTL_GETLEN arg
    = (0, set_lit_pos pos lit, lit_size lit)
  ∧ io_lit_ioctl lit IOCTL_GETBLKSZ arg = (0, lit, 4096)
  ∧ (cmd ≠ IOCTL_GETLEN → cmd ≠ IOCTL_SETPOS → cmd ≠ IOCTL_GETPOS →
     cmd ≠ IOCTL_GETBLKSZ → io_lit_ioctl lit cmd arg = (-1, lit, arg)).
Proof.
  intros H1 H2 H3 H4 H5 H6. unfold io_lit_ioctl. split_and!.
  - rewrite (bool_decide_eq_false_2 _ H1). by rewrite bool_decide_eq_true_2.
  - rewrite (bool_decide_eq_false_2 _ H2), (bool_decide_eq_false_2 _ H3).
    by rewrite bool_decide_eq_true_2.
  - by rewrite bool_decide_eq_true_2.
  - rewrite (bool_decide_eq_false_2 _ H4), (bool_decide_eq_false_2 _ H5),
      (bool_decide_eq_false_2 _ H6).
    by rewrite bool_decide_eq_true_2.
  - intros C1 C2 C3 C4.
    by rewrite (bool_decide_eq_false_2 _ C1), (bool_decide_eq_false_2 _ C2),
      (bool_decide_eq_false_2 _ C3), (bool_decide_eq_false_2 _ C4).
Qed.


(** ** The terminal layer *)

(** ** Reading from a terminal *)

Lemma crlf_in_app cr a b :
  crlf_in cr (a ++ b)
  = ((crlf_in cr a).1 ++ (crlf_in (crlf_in cr a).2 b).1,
     (crlf_in (crlf_in cr a).2 b).2).
Proof.
  revert cr. induction a as [|ch a IH]; intros cr; simpl.
  { by destruct (crlf_in cr b). }
  destruct (crlf_in_step cr ch) as [o cr1]. rewrite IH.
  destruct (crlf_in cr1 a) as [oa cra]. simpl.
  destruct (crlf_in cra b) as [ob crb]. simpl. by rewrite app_assoc.
Qed.

Lemma crlf_in_no_cr cr bs : 13 ∉ (crlf_in cr bs).1.
Proof.
  revert cr. induction bs as [|ch bs IH]; intros cr; simpl.
  { apply not_elem_of_nil. }
  specialize (IH (crlf_in_step cr ch).2).
  unfold crlf_in_step in *.
  destruct cr; repeat case_bool_decide; simpl in *;
    destruct (crlf_in _ bs) as [os cr']; simpl in *;
    rewrite ?not_elem_of_cons; try done; split; try done; congruence.
Qed.

Lemma crlf_in_length cr bs : (length (crlf_in cr bs).1 ≤ length bs)%nat.
Proof.
  revert cr. induction bs as [|ch bs IH]; intros cr; simpl; [done|].
  specialize (IH (crlf_in_step cr ch).2).
  unfold crlf_in_step in *.
  destruct cr; repeat case_bool_decide; simpl in *;
    destruct (crlf_in _ bs) as [os cr']; simpl in *; lia.
Qed.

Lemma crlf_in_cons cr ch bs :
  crlf_in cr (ch :: bs)
  = ((crlf_in_step cr ch).1 ++ (crlf_in (crlf_in_step cr ch).2 bs).1,
     (crlf_in (crlf_in_step cr ch).2 bs).2).
Proof.
  simpl. destruct (crlf_in_step cr ch) as [o cr1]. simpl.
  by destruct (crlf_in cr1 bs).
Qed.

Lemma ioterm_read_scan_emit (n : nat) (buf : list Z) rp wp x buf' os :
  (wp ≤ rp)%nat → (rp < length buf)%nat →
  take (S wp + length os) buf' = take (S wp) (<[wp:=x]> buf) ++ os →
  length buf' = length (<[wp:=x]> buf) →
  drop (S rp + n) buf' = drop (S rp + n) (<[wp:=x]> buf) →
  (S wp + length os = wp + length ([x] ++ os))%nat
  ∧ take (wp + length ([x] ++ os)) buf' = take wp buf ++ [x] ++ os
  ∧ length buf' = length buf
  ∧ drop (rp + S n) buf' = drop (rp + S n) buf.
Proof.
  intros Hwp Hrp Ht Hl Hd.
  assert (S wp + length os = wp + length ([x] ++ os))%nat as E
    by (rewrite length_app; simpl; lia).
  split; [done|]. rewrite <- E. split_and!.
  - rewrite Ht, (take_S_r _ _ x).
    + rewrite take_insert_ge by lia. by rewrite <- app_assoc.
    + apply list_lookup_insert_eq. lia.
  - by rewrite Hl, length_insert.
  - replace (rp + S n)%nat with (S rp + n)%nat by lia.
    rewrite Hd. by rewrite drop_insert_lt by lia.
Qed.

Lemma ioterm_read_scan_spec n buf rp wp cr :
  (wp ≤ rp)%nat → (rp + n ≤ length buf)%nat →
  ∃ buf',
    ioterm_read_scan n buf rp wp cr
    = Ok (buf', (wp + length (crlf_in cr (take n (drop rp buf))).1)%nat,
          (crlf_in cr (take n (drop rp buf))).2)
    ∧ take (wp + length (crlf_in cr (take n (drop rp buf))).1) buf'
      = take wp buf ++ (crlf_in cr (take n (drop rp buf))).1
    ∧ length buf' = length buf
    ∧ drop (rp + n) buf' = drop (rp + n) buf.
Proof.
  revert buf rp wp cr. induction n as [|n IH]; intros buf rp wp cr Hwp Hlen.
  { exists buf. simpl. rewrite Nat.add_0_r, app_nil_r. done. }
  destruct (lookup_lt_is_Some_2 buf rp ltac:(lia)) as [ch Hch].
  rewrite (drop_S _ _ _ Hch).
  change (take (S n) (ch :: drop (S rp) buf))
    with (ch :: take n (drop (S rp) buf)).
  rewrite crlf_in_cons.
  set (bs := take n (drop (S rp) buf)).
  assert (∀ x, take n (drop (S rp) (<[wp:=x]> buf)) = bs) as Hsame.
  { intros x. unfold bs. by rewrite drop_insert_lt by lia. }
  assert (∀ x cr1,
    (crlf_in_step cr ch = ([x], cr1)) →
    ioterm_read_scan (S n) buf rp wp cr
    = ioterm_read_scan n (<[wp:=x]> buf) (S rp) (S wp) cr1 →
    ∃ buf',
      ioterm_read_scan (S n) buf rp wp cr
      = Ok (buf',
            (wp + length ((crlf_in_step cr ch).1
                          ++ (crlf_in (crlf_in_step cr ch).2 bs).1))%nat,
            (crlf_in (crlf_in_step cr ch).2 bs).2)
      ∧ take (wp + length ((crlf_in_step cr ch).1
                           ++ (crlf_in (crlf_in_step cr ch).2 bs).1)) buf'
        = take wp buf ++ (crlf_in_step cr ch).1
          ++ (crlf_in (crlf_in_step cr ch).2 bs).1
      ∧ length buf' = length buf
      ∧ drop (rp + S n) buf' = drop (rp + S n) buf) as Hemit.
  { intros x cr1 Hstep Hunf. rewrite Hstep, Hunf. simpl fst. simpl snd.
    destruct (IH (<[wp:=x]> buf) (S rp) (S wp) cr1)
      as (buf' & Hrun & Ht & Hl & Hd); [lia|rewrite length_insert; lia|].
    rewrite Hsame in Hrun, Ht.
    destruct (ioterm_read_scan_emit n buf rp wp x buf'
                (crlf_in cr1 bs).1) as (E & Ht' & Hl' & Hd');
      [lia|lia|done..|].
    exists buf'. rewrite Hrun, E. done. }
  assert (ioterm_read_scan (S n) buf rp wp cr
          = if cr then
              if bool_decide (ch = 13) then
                ioterm_read_scan n (<[wp := 10]> buf) (S rp) (S wp) cr
              else if bool_decide (ch = 10) then
                ioterm_read_scan n buf (S rp) wp false
              else ioterm_read_scan n (<[wp := ch]> buf) (S rp) (S wp) false
            else
              if bool_decide (ch = 13) then
                ioterm_read_scan n (<[wp := 10]> buf) (S rp) (S wp) true
              else ioterm_read_scan n (<[wp := ch]> buf) (S rp) (S wp) cr)
    as Hunf.
  { simpl. by rewrite Hch. }
  destruct cr.
  - destruct (decide (ch = 13)) as [E13|E13].
    { apply (Hemit 10 true).
      - unfold crlf_in_step. by rewrite bool_decide_eq_true_2.
      - rewrite Hunf. by rewrite bool_decide_eq_true_2. }
    destruct (decide (ch = 10)) as [E10|E10].
    { assert (crlf_in_step true ch = ([], false)) as Hstep.
      { unfold crlf_in_step. rewrite bool_decide_eq_false_2 by done.
        by rewrite bool_decide_eq_true_2. }
      rewrite Hunf, Hstep, bool_decide_eq_false_2 by done.
      rewrite bool_decide_eq_true_2 by done. simpl fst. simpl snd.
      destruct (IH buf (S rp) wp false) as (buf' & Hrun & Ht & Hl & Hd);
        [lia..|].
      fold bs in Hrun, Ht. exists buf'. rewrite Hrun.
      split_and!; try done.
      replace (rp + S n)%nat with (S rp + n)%nat by lia. done. }
    apply (Hemit ch false).
    + unfold crlf_in_step. by rewrite !bool_decide_eq_false_2.
    + rewrite Hunf. by rewrite !bool_decide_eq_false_2.
  - destruct (decide (ch = 13)) as [E13|E13].
    { apply (Hemit 10 true).
      - unfold crlf_in_step. by rewrite bool_decide_eq_true_2.
      - rewrite Hunf. by rewrite bool_decide_eq_true_2. }
    apply (Hemit ch false).
    + unfold crlf_in_step. by rewrite !bool_decide_eq_false_2.
    + rewrite Hunf. by rewrite !bool_decide_eq_false_2.
Qed.

Lemma crlf_in_nil_length cr bs :
  (crlf_in cr bs).1 = [] → (length bs ≤ 1)%nat.
Proof.
  destruct bs as [|c bs]; [simpl; lia|].
  rewrite crlf_in_cons. intros H. apply app_eq_nil in H as [H1 H2].
  unfold crlf_in_step in H1.
  destruct cr; repeat case_bool_decide; simplify_eq/=.
  destruct bs as [|c' bs]; [simpl; lia|].
  rewrite crlf_in_cons in H2. apply app_eq_nil in H2 as [H2 _].
  unfold crlf_in_step in H2. simpl in H2.
  repeat case_bool_decide; simplify_eq/=.
Qed.

Lemma ioterm_read_round {R : Type}
    (ioread : R → list Z → Z → Z → Z * R * list Z) (fuel : nat)
    (iot : io_term R) (buf : list Z) (off len cnt : Z) (raw : R)
    (buf1 : list Z) :
  ioread (rawio iot) buf off len = (cnt, raw, buf1) →
  0 ≤ off → 0 ≤ cnt →
  (Z.to_nat off + Z.to_nat cnt ≤ length buf1)%nat →
  let bs := take (Z.to_nat cnt) (drop (Z.to_nat off) buf1) in
  let out := (crlf_in (cr_in iot) bs).1 in
  out ≠ [] →
  ∃ buf',
    ioterm_read ioread (S fuel) iot buf off len
    = Some (Ok (Z.of_nat (length out),
                set_cr_in (crlf_in (cr_in iot) bs).2 (set_rawio raw iot),
                buf'))
    ∧ take (length out) (drop (Z.to_nat off) buf') = out
    ∧ length buf' = length buf1
    ∧ take (Z.to_nat off) buf' = take (Z.to_nat off) buf1
    ∧ drop (Z.to_nat off + Z.to_nat cnt) buf'
      = drop (Z.to_nat off + Z.to_nat cnt) buf1
    ∧ (13 ∉ out)
    ∧ 0 < Z.of_nat (length out) ≤ cnt.
Proof.
  intros Hrd Hoff Hcnt Hlen bs out Hne.
  destruct (ioterm_read_scan_spec (Z.to_nat cnt) buf1 (Z.to_nat off)
              (Z.to_nat off) (cr_in iot)) as (buf' & Hrun & Ht & Hl & Hd);
    [lia|lia|].
  fold bs in Hrun, Ht. fold out in Hrun, Ht.
  assert (0 < length out)%nat as Hpos.
  { destruct out; [done|simpl; lia]. }
  assert (length out ≤ Z.to_nat cnt)%nat as Hle.
  { pose proof (crlf_in_length (cr_in iot) bs) as Hl'. fold out in Hl'.
    assert (length bs ≤ Z.to_nat cnt)%nat
      by (unfold bs; rewrite length_take; lia).
    lia. }
  exists buf'. split_and!.
  - cbn [ioterm_read]. rewrite Hrd.
    rewrite bool_decide_eq_false_2 by lia.
    change (cr_in (set_rawio raw iot)) with (cr_in iot).
    rewrite Hrun. rewrite bool_decide_eq_false_2 by lia.
    do 4 f_equal. lia.
  - apply (f_equal (drop (Z.to_nat off))) in Ht.
    rewrite drop_app_length' in Ht by (rewrite length_take; lia).
    rewrite take_drop_commute. exact Ht.
  - exact Hl.
  - apply (f_equal (take (Z.to_nat off))) in Ht.
    rewrite take_take in Ht.
    rewrite Nat.min_l in Ht by lia. rewrite Ht.
    by rewrite take_app_length' by (rewrite length_take; lia).
  - exact Hd.
  - apply crlf_in_no_cr.
  - lia.
  - lia.
Qed.

Lemma ioterm_read_nonzero {R : Type}
    (ioread : R → list Z → Z → Z → Z * R * list Z) (fuel : nat)
    (iot : io_term R) (buf : list Z) (off len : Z) n iot' buf' :
  ioterm_read ioread fuel iot buf off len = Some (Ok (n, iot', buf')) →
  n ≠ 0.
Proof.
  revert iot buf. induction fuel as [|fuel IH]; intros iot buf; [done|].
  cbn [ioterm_read].
  destruct (ioread (rawio iot) buf off len) as [[cnt raw] buf1].
  case_bool_decide as Hneg; [intros [= <- _ _]; lia|].
  destruct (ioterm_read_scan _ _ _ _ _) as [[[b wp] cr]|f]; [|done].
  case_bool_decide as Hwp; [apply IH|].
  intros [= <- _ _]. lia.
Qed.

Lemma ioterm_read_spins {R : Type}
    (ioread : R → list Z → Z → Z → Z * R * list Z) (fuel : nat)
    (iot : io_term R) (buf : list Z) (off len : Z) :
  (∀ r b o l, (ioread r b o l).1.1 = 0) →
  ioterm_read ioread fuel iot buf off len = None.
Proof.
  intros Hz. revert iot buf.
  induction fuel as [|fuel IH]; intros iot buf; [done|].
  cbn [ioterm_read]. specialize (Hz (rawio iot) buf off len).
  destruct (ioread (rawio iot) buf off len) as [[cnt raw] buf1].
  simpl in Hz. subst cnt.
  rewrite bool_decide_eq_false_2 by lia.
  change (Z.to_nat 0) with 0%nat. cbn [ioterm_read_scan].
  rewrite bool_decide_eq_true_2 by done. apply IH.
Qed.

(** X22: [ioterm_read] hands over what the backing device delivers with the
    line endings normalised. When the backing read puts [cnt] bytes into
    the buffer and their normalised form [out] (the rule of the comment at
    the head of the terminal code, started in the state [cr_in]) is not
    empty, the call returns after this round with the length of [out];
    [out] stands at the start of the buffer area, holds no carriage return
    and is between 1 and [cnt] bytes long; [cr_in] is the state the rule
    ends in; the buffer keeps its length, and what lies before [off] and
    behind the bytes read is untouched. *)
Theorem ioterm_read_normalises {R : Type}
    (ioread : R → list Z → Z → Z → Z * R * list Z) (fuel : nat)
    (iot : io_term R) (buf : list Z) (off len cnt : Z) (raw : R)
    (buf1 : list Z) :
  ioread (rawio iot) buf off len = (cnt, raw, buf1) →
  0 ≤ off → 0 ≤ cnt →
  (Z.to_nat off + Z.to_nat cnt ≤ length buf1)%nat →
  let bs := take (Z.to_nat cnt) (drop (Z.to_nat off) buf1) in
  let out := (crlf_in (cr_in iot) bs).1 in
  out ≠ [] →
  ∃ buf',
    ioterm_read ioread (S fuel) iot buf off len
    = Some (Ok (Z.of_nat (length out),
                set_cr_in (crlf_in (cr_in iot) bs).2 (set_rawio raw iot),
                buf'))
    ∧ take (length out) (drop (Z.to_nat off) buf') = out
    ∧ length buf' = length buf1
    ∧ take (Z.to_nat off) buf' = take (Z.to_nat off) buf1
    ∧ drop (Z.to_nat off + Z.to_nat cnt) buf'
      = drop (Z.to_nat off + Z.to_nat cnt) buf1
    ∧ (13 ∉ out)
    ∧ 0 < Z.of_nat (length out) ≤ cnt.
Proof. exact (ioterm_read_round ioread fuel iot buf off len cnt raw buf1). Qed.

(** X23: [ioterm_read] never reports the end of the input. Whatever the
    backing device does, a call that returns does not return 0; and when
    the backing read answers 0 every time, as a device at its end does, the
    call reads again and again and does not return, whatever the number of
    rounds it is given. *)
Theorem ioterm_read_never_reports_end {R : Type}
    (ioread : R → list Z → Z → Z → Z * R * list Z) (fuel : nat)
    (iot : io_term R) (buf : list Z) (off len : Z) :
  (∀ n iot' buf',
     ioterm_read ioread fuel iot buf off len = Some (Ok (n, iot', buf')) →
     n ≠ 0)
  ∧ ((∀ r b o l, (ioread r b o l).1.1 = 0) →
     ioterm_read ioread fuel iot buf off len = None).
Proof.
  split.
  - intros n iot' buf'. apply ioterm_read_nonzero.
  - apply ioterm_read_spins.
Qed.

(** X24: the normalisation of the input does not depend on how the backing
    device cuts the stream. If the device delivers [bs1] to a first
    [ioterm_read] and [bs2] to a second, and neither call is left with
    nothing to return, then what the two calls return, one after the other,
    is the normalised form of [bs1 ++ bs2], and [cr_in] ends as it would
    after the whole; a carriage return at the end of [bs1] and a line feed
    at the start of [bs2] give one line feed. *)
Theorem ioterm_read_in_two_reads {R : Type}
    (ioread : R → list Z → Z → Z → Z * R * list Z)
    (iot : io_term R) (buf : list Z) (off len : Z) (bs1 bs2 : list Z)
    (raw1 raw2 : R) (buf1 : list Z) :
  0 ≤ off →
  ioread (rawio iot) buf off len = (Z.of_nat (length bs1), raw1, buf1) →
  take (length bs1) (drop (Z.to_nat off) buf1) = bs1 →
  (∀ b, length b = length buf1 →
        ∃ b2, ioread raw1 b off len = (Z.of_nat (length bs2), raw2, b2)
              ∧ take (length bs2) (drop (Z.to_nat off) b2) = bs2) →
  (crlf_in (cr_in iot) bs1).1 ≠ [] →
  (crlf_in (crlf_in (cr_in iot) bs1).2 bs2).1 ≠ [] →
  ∃ n1 iot1 b1 n2 iot2 b2,
    ioterm_read ioread 1 iot buf off len = Some (Ok (n1, iot1, b1))
    ∧ ioterm_read ioread 1 iot1 b1 off len = Some (Ok (n2, iot2, b2))
    ∧ take (Z.to_nat n1) (drop (Z.to_nat off) b1)
      ++ take (Z.to_nat n2) (drop (Z.to_nat off) b2)
      = (crlf_in (cr_in iot) (bs1 ++ bs2)).1
    ∧ cr_in iot2 = (crlf_in (cr_in iot) (bs1 ++ bs2)).2.
Proof.
  intros Hoff Hrd1 Hbs1 Hrd2 Hne1 Hne2.
  assert (∀ (l : list Z) k m, take (length l) (drop k m) = l →
            (k + length l ≤ length m)%nat ∨ l = []) as Hfit.
  { intros l k m E. apply (f_equal length) in E.
    rewrite length_take, length_drop in E.
    destruct l as [|x l]; [by right|left]. simpl length in *. lia. }
  assert (Z.to_nat off + Z.to_nat (Z.of_nat (length bs1)) ≤ length buf1)%nat
    as Hlen1.
  { destruct (Hfit _ _ _ Hbs1) as [?| ->]; [lia|]. by simpl in Hne1. }
  destruct (ioterm_read_round ioread 0 iot buf off len _ raw1 buf1 Hrd1)
    as (b1 & Hrun1 & Hout1 & Hl1 & _); [lia|lia|lia| |].
  { by rewrite Nat2Z.id, Hbs1. }
  rewrite Nat2Z.id, Hbs1 in Hrun1, Hout1.
  set (iot1 := set_cr_in (crlf_in (cr_in iot) bs1).2 (set_rawio raw1 iot))
    in *.
  destruct (Hrd2 b1 Hl1) as (buf2 & Hrd2' & Hbs2).
  assert (Z.to_nat off + Z.to_nat (Z.of_nat (length bs2)) ≤ length buf2)%nat
    as Hlen2.
  { destruct (Hfit _ _ _ Hbs2) as [?| ->]; [lia|]. by simpl in Hne2. }
  destruct (ioterm_read_round ioread 0 iot1 b1 off len _ raw2 buf2 Hrd2')
    as (b2 & Hrun2 & Hout2 & _); [lia|lia|lia| |].
  { by rewrite Nat2Z.id, Hbs2. }
  rewrite Nat2Z.id, Hbs2 in Hrun2, Hout2.
  change (cr_in iot1) with (crlf_in (cr_in iot) bs1).2 in Hrun2, Hout2.
  eexists _, _, _, _, _, _. split; [exact Hrun1|]. split; [exact Hrun2|].
  rewrite !Nat2Z.id, Hout1, Hout2, crlf_in_app. done.
Qed.

Lemma crlf_in_text cr t :
  10 ∉ t → 13 ∉ t →
  crlf_in cr t = (t, if bool_decide (t = []) then cr else false).
Proof.
  revert cr. induction t as [|c t IH]; intros cr H10 H13; [done|].
  apply not_elem_of_cons in H10 as [? H10].
  apply not_elem_of_cons in H13 as [? H13].
  rewrite crlf_in_cons.
  assert (crlf_in_step cr c = ([c], false)) as ->.
  { unfold crlf_in_step. destruct cr; by rewrite !bool_decide_eq_false_2. }
  cbn [fst snd]. rewrite (IH false H10 H13). simpl. f_equal.
  by destruct (bool_decide (t = [])).
Qed.

Lemma crlf_in_after_cr (bs : list Z) :
  bs !! 0%nat ≠ Some 10 → (crlf_in true bs).1 = (crlf_in false bs).1.
Proof.
  destruct bs as [|c bs]; [done|]. intros Hc.
  change ((c :: bs) !! 0%nat) with (Some c) in Hc.
  rewrite !crlf_in_cons. unfold crlf_in_step.
  destruct (decide (c = 13)) as [->|?].
  { by rewrite !bool_decide_eq_true_2. }
  rewrite !bool_decide_eq_false_2 by congruence. done.
Qed.

Lemma crlf_in_line_end (t e rest : list Z) :
  10 ∉ t → 13 ∉ t →
  e = [13; 10] ∨ e = [10] ∨ (e = [13] ∧ rest !! 0%nat ≠ Some 10) →
  (crlf_in false (t ++ e ++ rest)).1 = t ++ [10] ++ (crlf_in false rest).1.
Proof.
  intros H10 H13 He. rewrite crlf_in_app, (crlf_in_text _ _ H10 H13).
  simpl fst. simpl snd. f_equal.
  replace (if bool_decide (t = []) then false else false) with false
    by (by destruct (bool_decide (t = []))).
  destruct He as [->|[->|[-> Hh]]].
  - rewrite crlf_in_app. done.
  - rewrite crlf_in_app. done.
  - rewrite crlf_in_app. simpl. f_equal. by apply crlf_in_after_cr.
Qed.

(** X25: the scan of [ioterm_read] turns each of the three line endings into
    one line feed. For a text [t] without carriage return and line feed,
    followed by CR LF, by a lone LF, or by a lone CR (one that no LF
    follows), and then by any [rest], the scan started with [cr_in] clear
    leaves [t], one line feed, and what the scan of [rest] alone leaves. *)
Theorem ioterm_read_scan_line_endings (t e rest : list Z) :
  10 ∉ t → 13 ∉ t →
  e = [13; 10] ∨ e = [10] ∨ (e = [13] ∧ rest !! 0%nat ≠ Some 10) →
  ∃ b wp cr b_r wp_r cr_r,
    ioterm_read_scan (length (t ++ e ++ rest)) (t ++ e ++ rest) 0 0 false
    = Ok (b, wp, cr)
    ∧ ioterm_read_scan (length rest) rest 0 0 false = Ok (b_r, wp_r, cr_r)
    ∧ take wp b = t ++ [10] ++ take wp_r b_r.
Proof.
  intros H10 H13 He.
  destruct (ioterm_read_scan_spec (length (t ++ e ++ rest)) (t ++ e ++ rest)
              0 0 false) as (b & Hrun & Ht & _); [lia|lia|].
  destruct (ioterm_read_scan_spec (length rest) rest 0 0 false)
    as (b_r & Hrun_r & Ht_r & _); [lia|lia|].
  rewrite drop_0, firstn_all in Hrun, Ht, Hrun_r, Ht_r.
  eexists _, _, _, _, _, _. split; [exact Hrun|]. split; [exact Hrun_r|].
  rewrite Ht, Ht_r. simpl. by apply crlf_in_line_end.
Qed.

(** ** [ioterm_write] over a device that takes everything it is given *)

Lemma crlf_out_cons cr ch bs :
  crlf_out cr (ch :: bs)
  = ((crlf_out_step cr ch).1 ++ (crlf_out (crlf_out_step cr ch).2 bs).1,
     (crlf_out (crlf_out_step cr ch).2 bs).2).
Proof.
  simpl. destruct (crlf_out_step cr ch) as [o cr1]. simpl.
  by destruct (crlf_out cr1 bs).
Qed.

Lemma iowrite_accepts_all {R : Type} (sent : R → list Z) (ops : io_ops R)
    (ioputc : R → Z → Z * R) fuel r (b : list Z) n :
  accepts_all sent ops ioputc → 0 < n ≤ LONG_MAX →
  ∃ r', iowrite (S fuel) ops r b (to_ulong n) = Some (n, r')
        ∧ sent r' = sent r ++ take (Z.to_nat n) b.
Proof.
  intros [(wr & Hwr & Hall) _] Hn. unfold LONG_MAX in Hn.
  unfold iowrite. rewrite Hwr.
  assert (to_ulong n = n) as -> by (unfold to_ulong; apply Z.mod_small; lia).
  destruct (Hall r b 0 n) as [Hcnt Hsent]; [lia..|].
  exists (wr r b 0 n).2. split; [|by rewrite Hsent, drop_0].
  cbn [transfer_loop].
  replace (to_ulong 0) with 0 by (vm_compute; reflexivity).
  rewrite bool_decide_eq_true_2 by lia.
  assert (to_ulong (n - 0) = n) as ->
    by (unfold to_ulong; rewrite Z.sub_0_r; apply Z.mod_small; lia).
  unfold write_step. destruct (wr r b 0 n) as [cnt r'] eqn:E.
  simpl in Hcnt. subst cnt. simpl snd.
  rewrite !bool_decide_eq_false_2 by lia.
  assert (to_long (0 + n) = n) as ->.
  { unfold to_long. rewrite Z.add_0_l.
    rewrite Z.mod_small by lia. lia. }
  assert (to_ulong n = n) as Hu by (unfold to_ulong; apply Z.mod_small; lia).
  destruct fuel; cbn [transfer_loop]; rewrite Hu;
    by rewrite bool_decide_eq_false_2 by lia.
Qed.

Lemma ioterm_write_out_accepts {R : Type} (sent : R → list Z)
    (ops : io_ops R) (ioputc : R → Z → Z * R) fuel (iot : io_term R)
    (buf : list Z) wp n acc k :
  accepts_all sent ops ioputc → 0 < n ≤ LONG_MAX →
  ∃ r', ioterm_write_out (S fuel) ops iot buf wp n acc k
        = k n (set_rawio r' iot)
        ∧ sent r' = sent (rawio iot)
                    ++ take (Z.to_nat n) (drop (Z.to_nat wp) buf).
Proof.
  intros Hacc Hn.
  destruct (iowrite_accepts_all sent ops ioputc fuel (rawio iot)
              (drop (Z.to_nat wp) buf) n Hacc Hn) as (r' & Hw & Hs).
  exists r'. split; [|done]. unfold ioterm_write_out. rewrite Hw.
  by rewrite !bool_decide_eq_false_2 by lia.
Qed.

Lemma ioterm_write_putc_accepts {R : Type} (sent : R → list Z)
    (ops : io_ops R) (ioputc : R → Z → Z * R) (iot : io_term R) c k :
  accepts_all sent ops ioputc →
  ∃ r', ioterm_write_putc ioputc iot c k = k (set_rawio r' iot)
        ∧ sent r' = sent (rawio iot) ++ [c].
Proof.
  intros [_ Hp]. destruct (Hp (rawio iot) c) as [Hc Hs].
  exists (ioputc (rawio iot) c).2. split; [|done].
  unfold ioterm_write_putc. destruct (ioputc (rawio iot) c) as [cnt r'].
  simpl in *. by rewrite bool_decide_eq_false_2 by lia.
Qed.

Lemma pending_snoc (buf : list Z) (rp wp ch : Z) :
  0 ≤ wp ≤ rp → buf !! Z.to_nat rp = Some ch →
  take (Z.to_nat (rp + 1 - wp)) (drop (Z.to_nat wp) buf)
  = take (Z.to_nat (rp - wp)) (drop (Z.to_nat wp) buf) ++ [ch].
Proof.
  intros Hwp Hch.
  replace (Z.to_nat (rp + 1 - wp)) with (S (Z.to_nat (rp - wp))) by lia.
  apply take_S_r. rewrite lookup_drop.
  by replace (Z.to_nat wp + Z.to_nat (rp - wp))%nat with (Z.to_nat rp) by lia.
Qed.

Lemma rest_cons (buf : list Z) (rp ch : Z) (n : nat) :
  0 ≤ rp → buf !! Z.to_nat rp = Some ch →
  take (S n) (drop (Z.to_nat rp) buf)
  = ch :: take n (drop (Z.to_nat (rp + 1)) buf).
Proof.
  intros Hrp Hch. rewrite (drop_S _ _ _ Hch).
  by replace (Z.to_nat (rp + 1)) with (S (Z.to_nat rp)) by lia.
Qed.

Lemma ioterm_write_loop_spec {R : Type} (sent : R → list Z)
    (ops : io_ops R) (ioputc : R → Z → Z * R) (fuel : nat) (buf : list Z) :
  accepts_all sent ops ioputc →
  ∀ (n : nat) (iot : io_term R) (rp wp acc : Z),
    0 ≤ wp ≤ rp → (Z.to_nat rp + n ≤ length buf)%nat →
    (cr_out iot = true → wp = rp) →
    0 ≤ acc → acc + (rp + Z.of_nat n - wp) ≤ LONG_MAX →
    let rest := take n (drop (Z.to_nat rp) buf) in
    let pend := take (Z.to_nat (rp - wp)) (drop (Z.to_nat wp) buf) in
    ∃ iot',
      ioterm_write_loop ioputc (S fuel) ops n buf iot rp wp acc
      = Some (Ok (acc + (rp + Z.of_nat n - wp)
                  - (if cr_out iot && bool_decide (rest !! 0%nat = Some 10)
                     then 1 else 0), iot'))
      ∧ sent (rawio iot')
        = sent (rawio iot) ++ pend ++ (crlf_out (cr_out iot) rest).1
      ∧ cr_out iot' = (crlf_out (cr_out iot) rest).2.
Proof.
  intros Hdev n. induction n as [n IH] using lt_wf_ind.
  intros iot rp wp acc Hwp Hlen Hcr Hacc Hmax rest pend.
  assert (∀ z, 0 ≤ z → z ≤ LONG_MAX → to_long z = z) as Hlong.
  { intros z ? Hz. unfold LONG_MAX in Hz. unfold to_long.
    rewrite Z.mod_small; lia. }
  destruct n as [|n'].
  { (* after the loop *)
    subst rest. cbn [take crlf_out fst snd ioterm_write_loop].
    replace (bool_decide ([] !! 0%nat = Some 10)) with false by done.
    rewrite andb_false_r, app_nil_r, Z.sub_0_r.
    case_bool_decide as Hne.
    - destruct (ioterm_write_out_accepts sent ops ioputc fuel iot buf wp
                  (rp - wp) acc
                  (λ cnt iot, Some (Ok (to_long (acc + cnt), iot))) Hdev)
        as (r' & -> & Hs); [lia|].
      exists (set_rawio r' iot). rewrite Hlong by lia.
      split; [do 3 f_equal; lia|]. by split.
    - exists iot. subst pend.
      replace (rp - wp) with 0 by lia.
      split; [do 3 f_equal; lia|]. simpl. by rewrite app_nil_r. }
  destruct (lookup_lt_is_Some_2 buf (Z.to_nat rp) ltac:(lia)) as [ch Hch].
  assert (rest = ch :: take n' (drop (Z.to_nat (rp + 1)) buf)) as Hrest
    by (apply rest_cons; [lia|done]).
  set (rest' := take n' (drop (Z.to_nat (rp + 1)) buf)) in *.
  assert (take (Z.to_nat (rp + 1 - wp)) (drop (Z.to_nat wp) buf)
          = pend ++ [ch]) as Hpend by (by apply pending_snoc).
  assert (pend = take (Z.to_nat (rp - wp)) (drop (Z.to_nat wp) buf))
    as Hpdef by done.
  clearbody rest pend. subst rest.
  change ((ch :: rest') !! 0%nat) with (Some ch).
  rewrite crlf_out_cons.
  cbn [ioterm_write_loop]. rewrite Hch. cbv zeta.
  (* the sequel of a carriage return that is not followed by a line feed *)
  assert (ch = 13 → rest' !! 0%nat ≠ Some 10 →
    ∃ iot',
      ioterm_write_out (S fuel) ops iot buf wp (rp + 1 - wp) acc
        (λ cnt iot0,
           ioterm_write_putc ioputc iot0 10
             (λ iot1,
                ioterm_write_loop ioputc (S fuel) ops n' buf
                  (set_cr_out true iot1) (rp + 1) (wp + cnt)
                  (to_long (acc + cnt))))
      = Some (Ok (acc + (rp + Z.of_nat (S n') - wp) - 0, iot'))
      ∧ sent (rawio iot')
        = sent (rawio iot) ++ pend ++ [13; 10] ++ (crlf_out true rest').1
      ∧ cr_out iot' = (crlf_out true rest').2) as Hlone.
  { intros -> Hnx.
    destruct (ioterm_write_out_accepts sent ops ioputc fuel iot buf wp
                (rp + 1 - wp) acc
                (λ cnt iot0,
                   ioterm_write_putc ioputc iot0 10
                     (λ iot1,
                        ioterm_write_loop ioputc (S fuel) ops n' buf
                          (set_cr_out true iot1) (rp + 1) (wp + cnt)
                          (to_long (acc + cnt)))) Hdev)
      as (r1 & -> & Hs1); [lia|].
    destruct (ioterm_write_putc_accepts sent ops ioputc (set_rawio r1 iot) 10
                (λ iot1,
                   ioterm_write_loop ioputc (S fuel) ops n' buf
                     (set_cr_out true iot1) (rp + 1) (wp + (rp + 1 - wp))
                     (to_long (acc + (rp + 1 - wp)))) Hdev)
      as (r2 & -> & Hs2).
    rewrite Hlong by lia.
    destruct (IH n' ltac:(lia)
                (set_cr_out true (set_rawio r2 (set_rawio r1 iot)))
                (rp + 1) (wp + (rp + 1 - wp)) (acc + (rp + 1 - wp)))
      as (iot' & Hrun & Hs & Hc); [lia|lia|simpl; lia|lia|lia|].
    fold rest' in Hrun, Hs, Hc. cbn [cr_out set_cr_out] in Hrun, Hs, Hc.
    rewrite (bool_decide_eq_false_2 _ Hnx) in Hrun. cbn [andb] in Hrun.
    exists iot'. rewrite Hrun. split; [do 3 f_equal; lia|].
    split; [|done]. rewrite Hs. cbn [rawio set_cr_out set_rawio].
    rewrite Hs2. cbn [rawio set_rawio]. rewrite Hs1, Hpend.
    replace (rp + 1 - (wp + (rp + 1 - wp))) with 0 by lia.
    cbn [Z.to_nat take]. rewrite <- !app_assoc. done. }
  destruct (decide (ch = 13)) as [E13|E13].
  { rewrite (bool_decide_eq_true_2 _ E13).
    assert (crlf_out_step (cr_out iot) ch = ([13; 10], true)) as ->.
    { unfold crlf_out_step. rewrite (bool_decide_eq_true_2 _ E13).
      by destruct (cr_out iot). }
    cbn [fst snd].
    replace (bool_decide (Some ch = Some 10)) with false
      by (symmetry; apply bool_decide_eq_false_2; congruence).
    rewrite andb_false_r.
    destruct n' as [|n''].
    { apply Hlone; [done|]. by subst rest'. }
    destruct (lookup_lt_is_Some_2 buf (Z.to_nat (rp + 1)) ltac:(lia))
      as [nx Hnx].
    rewrite Hnx.
    assert (rest' = nx :: take n'' (drop (Z.to_nat (rp + 1 + 1)) buf))
      as Hrest' by (apply rest_cons; [lia|done]).
    destruct (decide (nx = 10)) as [E10|E10].
    - rewrite (bool_decide_eq_true_2 _ E10).
      destruct (IH n'' ltac:(lia) (set_cr_out false iot) (rp + 1 + 1) wp acc)
        as (iot' & Hrun & Hs & Hc); [lia|lia|done|lia|lia|].
      cbn [cr_out set_cr_out andb] in Hrun, Hs, Hc.
      exists iot'. rewrite Hrun. split; [do 3 f_equal; lia|].
      rewrite Hrest', E10, crlf_out_cons.
      assert (crlf_out_step true 10 = ([], false)) as -> by done.
      cbn [fst snd app]. split; [|done].
      rewrite Hs. cbn [rawio set_cr_out]. f_equal.
      rewrite (pending_snoc buf (rp + 1) wp 10) by (subst; done || lia).
      rewrite Hpend, E13. by rewrite <- !app_assoc.
    - rewrite (bool_decide_eq_false_2 _ E10).
      apply Hlone; [done|]. rewrite Hrest'. simpl. congruence. }
  clear Hlone. rewrite (bool_decide_eq_false_2 _ E13).
  destruct (decide (ch = 10)) as [E10|E10].
  { rewrite (bool_decide_eq_true_2 _ E10).
    rewrite (bool_decide_eq_true_2 (Some ch = Some 10)) by congruence.
    destruct (cr_out iot) eqn:Hcro.
    - (* the line feed of a pair that was split between two calls *)
      assert (wp = rp) as -> by auto.
      assert (crlf_out_step true ch = ([], false)) as ->.
      { unfold crlf_out_step. rewrite (bool_decide_eq_false_2 _ E13).
        by rewrite (bool_decide_eq_true_2 _ E10). }
      destruct (IH n' ltac:(lia) (set_cr_out false iot) (rp + 1) (rp + 1) acc)
        as (iot' & Hrun & Hs & Hc); [lia|lia|done|lia|lia|].
      fold rest' in Hrun, Hs, Hc.
      cbn [cr_out set_cr_out andb] in Hrun, Hs, Hc.
      exists iot'. rewrite Hrun. cbn [andb fst snd app].
      split; [do 3 f_equal; lia|]. split; [|done].
      rewrite Hs. cbn [rawio set_cr_out]. f_equal.
      replace (rp + 1 - (rp + 1)) with 0 by lia.
      assert (pend = []) as ->; [|done].
      apply (f_equal length) in Hpend. rewrite length_app in Hpend.
      rewrite length_take in Hpend. simpl in Hpend.
      destruct pend; [done|]. simpl in Hpend. lia.
    - assert (crlf_out_step false ch = ([13; 10], false)) as ->.
      { unfold crlf_out_step. rewrite (bool_decide_eq_false_2 _ E13).
        by rewrite (bool_decide_eq_true_2 _ E10). }
      cbn [andb fst snd].
      assert (∀ iot0 wp0 acc0,
        wp0 = rp → acc0 = acc + (rp - wp) →
        ∃ iot',
          ioterm_write_putc ioputc iot0 13
            (λ iot1,
               ioterm_write_loop ioputc (S fuel) ops n' buf
                 (set_cr_out false iot1) (rp + 1) wp0 acc0)
          = Some (Ok (acc + (rp + Z.of_nat (S n') - wp) - 0, iot'))
          ∧ sent (rawio iot')
            = sent (rawio iot0) ++ [13; 10] ++ (crlf_out false rest').1
          ∧ cr_out iot' = (crlf_out false rest').2) as Hput.
      { intros iot0 wp0 acc0 -> ->.
        destruct (ioterm_write_putc_accepts sent ops ioputc iot0 13
                    (λ iot1,
                       ioterm_write_loop ioputc (S fuel) ops n' buf
                         (set_cr_out false iot1) (rp + 1) rp
                         (acc + (rp - wp))) Hdev)
          as (r2 & -> & Hs2).
        destruct (IH n' ltac:(lia) (set_cr_out false (set_rawio r2 iot0))
                    (rp + 1) rp (acc + (rp - wp)))
          as (iot' & Hrun & Hs & Hc); [lia|lia|done|lia|lia|].
        fold rest' in Hrun, Hs, Hc.
        cbn [cr_out set_cr_out andb] in Hrun, Hs, Hc.
        exists iot'. rewrite Hrun. split; [do 3 f_equal; lia|].
        split; [|done]. rewrite Hs. cbn [rawio set_cr_out set_rawio].
        rewrite Hs2.
        rewrite (pending_snoc buf rp rp ch) by (done || lia).
        replace (rp - rp) with 0 by lia. cbn [Z.to_nat take].
        rewrite E10. by rewrite <- !app_assoc. }
      replace (rp + 1 - 1) with rp by lia.
      case_bool_decide as Hne.
      + destruct (ioterm_write_out_accepts sent ops ioputc fuel iot buf wp
                    (rp - wp) acc
                    (λ cnt iot0,
                       ioterm_write_putc ioputc iot0 13
                         (λ iot1,
                            ioterm_write_loop ioputc (S fuel) ops n' buf
                              (set_cr_out false iot1) (rp + 1) (wp + cnt)
                              (to_long (acc + cnt)))) Hdev)
          as (r1 & -> & Hs1); [lia|].
        rewrite Hlong by lia.
        destruct (Hput (set_rawio r1 iot) (wp + (rp - wp)) (acc + (rp - wp)))
          as (iot' & Hrun & Hs & Hc); [lia|done|].
        exists iot'. split; [exact Hrun|]. split; [|done].
        rewrite Hs. cbn [rawio set_rawio]. rewrite Hs1, <- Hpdef.
        by rewrite <- !app_assoc.
      + destruct (Hput iot wp acc) as (iot' & Hrun & Hs & Hc); [lia|lia|].
        exists iot'. split; [exact Hrun|]. split; [|done].
        rewrite Hs. f_equal.
        assert (pend = []) as ->; [|done].
        assert (wp = rp) as -> by lia.
        apply (f_equal length) in Hpend. rewrite length_app in Hpend.
        rewrite length_take in Hpend. simpl in Hpend.
        destruct pend; [done|]. simpl in Hpend. lia. }
  rewrite (bool_decide_eq_false_2 _ E10).
  rewrite (bool_decide_eq_false_2 (Some ch = Some 10)) by congruence.
  rewrite andb_false_r.
  assert (crlf_out_step (cr_out iot) ch = ([ch], false)) as ->.
  { unfold crlf_out_step. rewrite (bool_decide_eq_false_2 _ E13).
    rewrite (bool_decide_eq_false_2 _ E10). by destruct (cr_out iot). }
  destruct (IH n' ltac:(lia) (set_cr_out false iot) (rp + 1) wp acc)
    as (iot' & Hrun & Hs & Hc); [lia|lia|done|lia|lia|].
  fold rest' in Hrun, Hs, Hc. cbn [cr_out set_cr_out andb] in Hrun, Hs, Hc.
  exists iot'. rewrite Hrun. cbn [fst snd].
  split; [do 3 f_equal; lia|]. split; [|done].
  rewrite Hs. cbn [rawio set_cr_out]. rewrite Hpend.
  by rewrite <- !app_assoc.
Qed.

Lemma crlf_only_app (a b : list Z) :
  crlf_only a = true → crlf_only b = true → crlf_only (a ++ b) = true.
Proof.
  intros Ha Hb. remember (length a) as n eqn:Hn.
  revert a Hn Ha. induction n as [n IH] using lt_wf_ind. intros a Hn Ha.
  destruct a as [|c a]; [done|].
  cbn [app crlf_only] in *. destruct (bool_decide (c = 13)).
  - destruct a as [|d a]; [done|]. cbn [app].
    apply andb_true_iff in Ha as [Hd Ha]. rewrite Hd. cbn [andb].
    apply (IH (length a)); [simpl in Hn; lia|done|done].
  - apply andb_true_iff in Ha as [Hc Ha]. rewrite Hc. cbn [andb].
    apply (IH (length a)); [simpl in Hn; lia|done|done].
Qed.

Lemma crlf_out_crlf_only cr bs : crlf_only (crlf_out cr bs).1 = true.
Proof.
  revert cr. induction bs as [|ch bs IH]; intros cr; [done|].
  rewrite crlf_out_cons. cbn [fst]. apply crlf_only_app; [|apply IH].
  unfold crlf_out_step.
  destruct cr; repeat case_bool_decide; subst; cbn [fst crlf_only];
    rewrite ?bool_decide_eq_true_2, ?bool_decide_eq_false_2 by done;
    try done.
  all: rewrite bool_decide_eq_true_2 by done; done.
Qed.

Lemma ioterm_write_spec {R : Type} (sent : R → list Z) (ops : io_ops R)
    (ioputc : R → Z → Z * R) (fuel : nat) (iot : io_term R)
    (buf : list Z) (off len : Z) :
  accepts_all sent ops ioputc →
  0 ≤ off → 0 ≤ len → off + len ≤ LONG_MAX →
  (Z.to_nat off + Z.to_nat len ≤ length buf)%nat →
  let bs := take (Z.to_nat len) (drop (Z.to_nat off) buf) in
  ∃ iot',
    ioterm_write ioputc (S fuel) ops iot buf off len
    = Some (Ok (len - (if cr_out iot && bool_decide (bs !! 0%nat = Some 10)
                       then 1 else 0), iot'))
    ∧ sent (rawio iot') = sent (rawio iot) ++ (crlf_out (cr_out iot) bs).1
    ∧ cr_out iot' = (crlf_out (cr_out iot) bs).2.
Proof.
  intros Hdev Hoff Hlen Hmax Hfit bs.
  destruct (ioterm_write_loop_spec sent ops ioputc fuel buf Hdev
              (Z.to_nat len) iot off off 0)
    as (iot' & Hrun & Hs & Hc); [lia|lia|done|lia|lia|].
  fold bs in Hrun, Hs, Hc. exists iot'. unfold ioterm_write.
  rewrite Hrun. split; [do 3 f_equal; lia|]. split; [|done].
  rewrite Hs. replace (off - off) with 0 by lia. done.
Qed.

(** X26: [ioterm_write] sends the bytes of the caller with the line endings
    normalised. Over a backing device that takes all it is given, a call
    for the [len] bytes [bs] of the buffer returns, the device has received
    exactly the normalised form of [bs] (the rule of the comment at the head
    of the terminal code, started in the state [cr_out]) behind what it had,
    and [cr_out] is the state the rule ends in. *)
Theorem ioterm_write_normalises {R : Type} (sent : R → list Z)
    (ops : io_ops R) (ioputc : R → Z → Z * R) (fuel : nat)
    (iot : io_term R) (buf : list Z) (off len : Z) :
  accepts_all sent ops ioputc →
  0 ≤ off → 0 ≤ len → off + len ≤ LONG_MAX →
  (Z.to_nat off + Z.to_nat len ≤ length buf)%nat →
  let bs := take (Z.to_nat len) (drop (Z.to_nat off) buf) in
  ∃ ret iot',
    ioterm_write ioputc (S fuel) ops iot buf off len = Some (Ok (ret, iot'))
    ∧ sent (rawio iot') = sent (rawio iot) ++ (crlf_out (cr_out iot) bs).1
    ∧ cr_out iot' = (crlf_out (cr_out iot) bs).2.
Proof.
  intros Hdev Hoff Hlen Hmax Hfit bs.
  destruct (ioterm_write_spec sent ops ioputc fuel iot buf off len)
    as (iot' & Hrun & Hs & Hc); [done..|].
  eexists _, iot'. split; [exact Hrun|]. by split.
Qed.

(** X27: the count [ioterm_write] reports. Over a backing device that takes
    all it is given the call returns [len], with one exception: when
    [cr_out] is set and the buffer starts with a line feed, which is dropped
    as the second half of a CR LF, that byte is not counted and the call
    returns [len - 1]. *)
Theorem ioterm_write_count {R : Type} (sent : R → list Z)
    (ops : io_ops R) (ioputc : R → Z → Z * R) (fuel : nat)
    (iot : io_term R) (buf : list Z) (off len : Z) :
  accepts_all sent ops ioputc →
  0 ≤ off → 0 ≤ len → off + len ≤ LONG_MAX →
  (Z.to_nat off + Z.to_nat len ≤ length buf)%nat →
  ∃ iot',
    ioterm_write ioputc (S fuel) ops iot buf off len
    = Some (Ok ((if cr_out iot
                    && bool_decide (buf !! Z.to_nat off = Some 10)
                    && bool_decide (0 < len)
                 then len - 1 else len), iot')).
Proof.
  intros Hdev Hoff Hlen Hmax Hfit.
  destruct (ioterm_write_spec sent ops ioputc fuel iot buf off len)
    as (iot' & Hrun & _); [done..|].
  exists iot'. rewrite Hrun. do 3 f_equal.
  destruct (decide (0 < len)) as [Hpos|Hpos].
  - rewrite (bool_decide_eq_true_2 (0 < len)) by done.
    rewrite andb_true_r, lookup_take_lt by lia.
    rewrite lookup_drop, Nat.add_0_r.
    destruct (cr_out iot && bool_decide (buf !! Z.to_nat off = Some 10));
      lia.
  - rewrite (bool_decide_eq_false_2 (0 < len)) by done.
    rewrite andb_false_r. assert (len = 0) as -> by lia.
    cbn [Z.to_nat take]. 
    replace (bool_decide ([] !! 0%nat = Some 10)) with false by done.
    rewrite andb_false_r. lia.
Qed.

(** X28: only CR LF line endings reach the backing device. If in what the
    device has received so far every carriage return is followed by a line
    feed and every line feed follows a carriage return, the same holds after
    a call of [ioterm_write], whatever the bytes written and the state of
    [cr_out]. *)
Theorem ioterm_write_sends_only_crlf {R : Type} (sent : R → list Z)
    (ops : io_ops R) (ioputc : R → Z → Z * R) (fuel : nat)
    (iot : io_term R) (buf : list Z) (off len : Z) :
  accepts_all sent ops ioputc →
  0 ≤ off → 0 ≤ len → off + len ≤ LONG_MAX →
  (Z.to_nat off + Z.to_nat len ≤ length buf)%nat →
  crlf_only (sent (rawio iot)) = true →
  ∃ ret iot',
    ioterm_write ioputc (S fuel) ops iot buf off len = Some (Ok (ret, iot'))
    ∧ crlf_only (sent (rawio iot')) = true.
Proof.
  intros Hdev Hoff Hlen Hmax Hfit Hinv.
  destruct (ioterm_write_spec sent ops ioputc fuel iot buf off len)
    as (iot' & Hrun & Hs & _); [done..|].
  eexists _, iot'. split; [exact Hrun|]. rewrite Hs.
  apply crlf_only_app; [done|apply crlf_out_crlf_only].
Qed.

(** ** [ioterm_getsn] *)

Lemma ioterm_getsn_loop_in_buffer {R : Type}
    (iogetc : io_term R → Z * io_term R) (ioputc : R → Z → Z * R)
    (buf0 : list Z) (n0 : Z) (fuel : nat) :
  1 ≤ n0 ≤ Z.of_nat (length buf0) → n0 < 2 ^ 64 →
  ∀ (iot : io_term R) (buf : list Z) (p n : Z) r,
    0 ≤ p → 1 ≤ n → p + n = n0 →
    length buf = length buf0 →
    drop (Z.to_nat n0) buf = drop (Z.to_nat n0) buf0 →
    ioterm_getsn_loop iogetc ioputc fuel iot buf p n = Some r →
    ∃ ok iot' buf',
      r = Ok (ok, iot', buf')
      ∧ length buf' = length buf0
      ∧ drop (Z.to_nat n0) buf' = drop (Z.to_nat n0) buf0
      ∧ (ok = true →
         ∃ k, 0 ≤ k < n0 ∧ buf' !! Z.to_nat k = Some 0).
Proof.
  intros Hn0 Hmax.
  induction fuel as [|fuel IH]; intros iot buf p n r Hp Hn Hsum Hl Hd Hrun;
    [done|].
  cbn [ioterm_getsn_loop] in Hrun.
  destruct (iogetc iot) as [c iot1].
  assert (∀ c', poke buf p c' = Ok (<[Z.to_nat p := c']> buf)) as Hpoke.
  { intros c'. unfold poke. by rewrite bool_decide_eq_true_2 by lia. }
  assert (∀ c', drop (Z.to_nat n0) (<[Z.to_nat p := c']> buf)
                = drop (Z.to_nat n0) buf0) as Hd'.
  { intros c'. rewrite drop_insert_lt by lia. done. }
  assert (∀ fuel' iot' buf' p' n' r,
            0 ≤ p' → 1 ≤ n' → p' + n' = n0 →
            length buf' = length buf0 →
            drop (Z.to_nat n0) buf' = drop (Z.to_nat n0) buf0 →
            fuel' = fuel →
            ioterm_getsn_loop iogetc ioputc fuel' iot' buf' p' n' = Some r →
            ∃ ok iot' buf',
              r = Ok (ok, iot', buf')
              ∧ length buf' = length buf0
              ∧ drop (Z.to_nat n0) buf' = drop (Z.to_nat n0) buf0
              ∧ (ok = true →
                 ∃ k, 0 ≤ k < n0 ∧ buf' !! Z.to_nat k = Some 0)) as Hnext.
  { intros fuel' iot' buf' p' n' r' ? ? ? ? ? -> Hrun'.
    by apply (IH iot' buf' p' n' r'). }
  assert (∀ iot', Some (Ok (false, iot', buf)) = Some r →
            ∃ ok iot' buf',
              r = Ok (ok, iot', buf')
              ∧ length buf' = length buf0
              ∧ drop (Z.to_nat n0) buf' = drop (Z.to_nat n0) buf0
              ∧ (ok = true →
                 ∃ k, 0 ≤ k < n0 ∧ buf' !! Z.to_nat k = Some 0)) as Hnull.
  { intros iot' [= <-]. exists false, iot', buf. by split_and!. }
  case_bool_decide as Hesc.
  { eapply Hnext; [..|exact Hrun]; (done || lia). }
  case_bool_decide as Hnl.
  { destruct (getsn_putc ioputc iot1 13) as [r1 iot2].
    case_bool_decide; [by eapply Hnull|].
    destruct (getsn_putc ioputc iot2 10) as [r2 iot3].
    case_bool_decide; [by eapply Hnull|].
    rewrite Hpoke in Hrun. injection Hrun as <-.
    eexists _, _, _. split; [done|]. rewrite length_insert.
    split_and!; [done|apply Hd'|].
    intros _. exists p. split_and!; [lia|lia|].
    apply list_lookup_insert_eq. lia. }
  case_bool_decide as Hbs.
  { case_bool_decide as Hp0.
    - destruct (getsn_putc ioputc iot1 8) as [r1 iot2].
      case_bool_decide; [by eapply Hnull|].
      destruct (getsn_putc ioputc iot2 32) as [r2 iot3].
      case_bool_decide; [by eapply Hnull|].
      destruct (getsn_putc ioputc iot3 8) as [r3 iot4].
      case_bool_decide; [by eapply Hnull|].
      assert (to_ulong (n + 1) = n + 1) as Hu
        by (unfold to_ulong; apply Z.mod_small; lia).
      rewrite Hu in Hrun.
      eapply Hnext; [..|exact Hrun]; (done || lia).
    - destruct (getsn_putc ioputc iot1 7) as [r1 iot2].
      case_bool_decide; [by eapply Hnull|].
      eapply Hnext; [..|exact Hrun]; (done || lia). }
  case_bool_decide as Hroom.
  - destruct (getsn_putc ioputc iot1 c) as [r1 iot2].
    rewrite Hpoke in Hrun.
    case_bool_decide.
    { injection Hrun as <-. eexists _, _, _. split; [done|].
      rewrite length_insert. split_and!; [done|apply Hd'|done]. }
    assert (to_ulong (n - 1) = n - 1) as Hu
      by (unfold to_ulong; apply Z.mod_small; lia).
    rewrite Hu in Hrun.
    eapply Hnext; [..|exact Hrun];
      rewrite ?length_insert; (done || lia || apply Hd').
  - destruct (getsn_putc ioputc iot1 7) as [r1 iot2].
    case_bool_decide; [by eapply Hnull|].
    eapply Hnext; [..|exact Hrun]; (done || lia).
Qed.

Lemma getsn_putc_delivers {R : Type} (keys : io_term R → list Z)
    (iogetc : io_term R → Z * io_term R) (ioputc : R → Z → Z * R)
    (t : io_term R) (c : Z) :
  delivers keys iogetc ioputc →
  ∃ res t', getsn_putc ioputc t c = (res, t') ∧ 0 ≤ res ∧ keys t' = keys t.
Proof.
  intros [_ Hput]. destruct (Hput t c) as [Hres Hk].
  unfold getsn_putc. destruct (ioputc (rawio t) c) as [res raw].
  by exists res, (set_rawio raw t).
Qed.

Lemma ioterm_getsn_loop_plain {R : Type} (keys : io_term R → list Z)
    (iogetc : io_term R → Z * io_term R) (ioputc : R → Z → Z * R)
    (line more : list Z) (nl : Z) :
  delivers keys iogetc ioputc → nl = 13 ∨ nl = 10 →
  ∀ (iot : io_term R) (buf : list Z) (p n : Z),
    Forall (λ c, c ≠ 91 ∧ c ≠ 13 ∧ c ≠ 10 ∧ c ≠ 8 ∧ c ≠ 127) line →
    0 ≤ p → Z.of_nat (length line) < n → n < 2 ^ 64 →
    p + n ≤ Z.of_nat (length buf) →
    keys iot = line ++ [nl] ++ more →
    ∃ iot' buf',
      ioterm_getsn_loop iogetc ioputc (S (length line)) iot buf p n
      = Some (Ok (true, iot', buf'))
      ∧ take (Z.to_nat p + length line + 1) buf'
        = take (Z.to_nat p) buf ++ line ++ [0]
      ∧ length buf' = length buf
      ∧ keys iot' = more.
Proof.
  intros Hdev Hnl. pose proof Hdev as [Hget _].
  induction line as [|c line IH]; intros iot buf p n Hplain Hp Hn Hmax Hfit Hk.
  - cbn [length ioterm_getsn_loop].
    destruct (Hget iot nl more Hk) as [Hc Hk1].
    destruct (iogetc iot) as [c iot1]. simpl in Hc, Hk1. subst c.
    rewrite bool_decide_eq_false_2 by lia.
    rewrite bool_decide_eq_true_2 by done.
    destruct (getsn_putc_delivers keys iogetc ioputc iot1 13 Hdev)
      as (r1 & iot2 & -> & Hr1 & Hk2).
    rewrite bool_decide_eq_false_2 by lia.
    destruct (getsn_putc_delivers keys iogetc ioputc iot2 10 Hdev)
      as (r2 & iot3 & -> & Hr2 & Hk3).
    rewrite bool_decide_eq_false_2 by lia.
    unfold poke. rewrite bool_decide_eq_true_2 by (simpl in Hn; lia).
    eexists _, _. split; [done|]. rewrite length_insert.
    split_and!; [|done|congruence].
    rewrite Nat.add_0_r, Nat.add_1_r. cbn [app].
    rewrite (take_S_r _ _ 0) by (apply list_lookup_insert_eq; lia).
    by rewrite take_insert_ge by lia.
  - apply Forall_cons in Hplain as [(H91 & H13 & H10 & H8 & H127) Hplain].
    cbn [length] in *. remember (S (length line)) as fuel.
    cbn [ioterm_getsn_loop]. subst fuel.
    destruct (Hget iot c (line ++ [nl] ++ more) Hk) as [Hc Hk1].
    destruct (iogetc iot) as [c' iot1]. simpl in Hc, Hk1. subst c'.
    rewrite bool_decide_eq_false_2 by done.
    rewrite bool_decide_eq_false_2 by lia.
    rewrite bool_decide_eq_false_2 by lia.
    rewrite bool_decide_eq_true_2 by lia.
    destruct (getsn_putc_delivers keys iogetc ioputc iot1 c Hdev)
      as (r1 & iot2 & -> & Hr1 & Hk2).
    unfold poke. rewrite bool_decide_eq_true_2 by lia.
    rewrite bool_decide_eq_false_2 by lia.
    assert (to_ulong (n - 1) = n - 1) as ->
      by (unfold to_ulong; apply Z.mod_small; lia).
    destruct (IH iot2 (<[Z.to_nat p := c]> buf) (p + 1) (n - 1))
      as (iot' & buf' & Hrun & Ht & Hl & Hk');
      [done|lia|lia|lia|rewrite length_insert; lia|by rewrite Hk2|].
    exists iot', buf'. split; [exact Hrun|].
    rewrite length_insert in Hl. split_and!; [|done|done].
    replace (Z.to_nat p + S (length line) + 1)%nat
      with (Z.to_nat (p + 1) + length line + 1)%nat by lia.
    rewrite Ht.
    replace (Z.to_nat (p + 1)) with (S (Z.to_nat p)) by lia.
    rewrite (take_S_r _ _ c) by (apply list_lookup_insert_eq; lia).
    rewrite take_insert_ge by lia. by rewrite <- app_assoc.
Qed.

(** X29: [ioterm_getsn] stays inside the [n] bytes it is given. For a buffer
    of at least [n] bytes, [n >= 1], whatever characters arrive and whatever
    the echo answers, a call that returns has written no byte outside the
    buffer: the buffer has its length, the bytes from [n] on are as before,
    and when the result is the buffer and not NULL, there is a NUL among
    the first [n] bytes. *)
Theorem ioterm_getsn_stays_in_buffer {R : Type}
    (iogetc : io_term R → Z * io_term R) (ioputc : R → Z → Z * R)
    (fuel : nat) (iot : io_term R) (buf : list Z) (n : Z) r :
  1 ≤ n ≤ Z.of_nat (length buf) → n < 2 ^ 64 →
  ioterm_getsn iogetc ioputc fuel iot buf n = Some r →
  ∃ ok iot' buf',
    r = Ok (ok, iot', buf')
    ∧ length buf' = length buf
    ∧ drop (Z.to_nat n) buf' = drop (Z.to_nat n) buf
    ∧ (ok = true → ∃ k, 0 ≤ k < n ∧ buf' !! Z.to_nat k = Some 0).
Proof.
  intros Hn Hmax Hrun.
  apply (ioterm_getsn_loop_in_buffer iogetc ioputc buf n fuel Hn Hmax
           iot buf 0 n r); (done || lia).
Qed.

(** X30: [ioterm_getsn] returns the line that was typed. When the terminal
    delivers the characters of [line], none of them an editing character
    ('[', CR, LF, backspace, delete) and fewer than [n], and then a line
    end, be it the line feed that the input normalisation of the terminal
    delivers or a carriage return, and the echo is taken, the call returns
    the buffer after [length line + 1] characters with [line] and a NUL at
    its start, and leaves the rest of the input for the next call. *)
Theorem ioterm_getsn_returns_plain_line {R : Type}
    (keys : io_term R → list Z) (iogetc : io_term R → Z * io_term R)
    (ioputc : R → Z → Z * R) (iot : io_term R) (buf : list Z) (n : Z)
    (line more : list Z) (nl : Z) :
  delivers keys iogetc ioputc →
  Forall (λ c, c ≠ 91 ∧ c ≠ 13 ∧ c ≠ 10 ∧ c ≠ 8 ∧ c ≠ 127) line →
  Z.of_nat (length line) < n → n < 2 ^ 64 → n ≤ Z.of_nat (length buf) →
  nl = 10 ∨ nl = 13 →
  keys iot = line ++ [nl] ++ more →
  ∃ iot' buf',
    ioterm_getsn iogetc ioputc (S (length line)) iot buf n
    = Some (Ok (true, iot', buf'))
    ∧ take (length line + 1) buf' = line ++ [0]
    ∧ keys iot' = more.
Proof.
  intros Hdev Hplain Hn Hmax Hfit Hnl Hk.
  destruct (ioterm_getsn_loop_plain keys iogetc ioputc line more nl Hdev
              ltac:(tauto) iot buf 0 n)
    as (iot' & buf' & Hrun & Ht & _ & Hk');
    [done|lia|lia|lia|lia|done|].
  exists iot', buf'. split; [exact Hrun|]. by split.
Qed.

End Kernel.

(** ** A run of the thread manager on concrete values *)

(** Sample values for the constants of the missing headers: pages of
    4 KiB, a stack anchor of two 8-byte members, a trap frame of 34
    registers with [a0] being [x[10]]. *)
Definition page_size : Z := 4096.
Definition anchor_size : Z := 16.
Definition tfr_size : Z := 272.
Definition tfr_a0_offset : Z := 80.

Definition the_state (r : result kstate) (dflt : kstate) : kstate :=
  match r with Ok s => s | Fault _ => dflt end.

Definition run (o : sched_op) (st : kstate) : kstate :=
  the_state (run_op page_size anchor_size tfr_size tfr_a0_offset o st) st.

(** The contents of a block fresh from [kmalloc]. *)
Definition fresh_block : thread :=
  mk_thread ra_null "" 0 0 THREAD_UNINITIALIZED 0 None None None None.

Definition boot : kstate := boot_state idle_thread ∅.

(** [thread_init]; main spawns a worker and yields to the idle thread, which
    yields to the worker; the worker spawns a helper and waits on the
    condition at address 7; main, running again, broadcasts it. *)
Definition s_init : kstate :=
  the_state (thread_init 0x80041000 0x80040000 0x80042000 0x80041000 boot)
    boot.
Definition s_spawned : kstate :=
  run (op_thread_spawn "worker" 0x80100000 fresh_block 0x80200000) s_init.
Definition s_idle : kstate := run op_thread_yield s_spawned.
Definition s_worker : kstate := run op_thread_yield s_idle.
Definition s_helper : kstate :=
  run (op_thread_spawn "helper" 0x80101000 fresh_block 0x80201000) s_worker.
Definition s_waiting : kstate := run (op_condition_wait (cond_at 7)) s_helper.
Definition s_woken : kstate :=
  run (op_condition_broadcast (cond_at 7)) s_waiting.
Definition s_idle2 : kstate := run op_thread_yield s_woken.
Definition s_helper_runs : kstate := run op_thread_yield s_idle2.
Definition s_worker2 : kstate := run op_thread_yield s_helper_runs.
Definition s_exited : kstate := run op_thread_exit s_worker2.


Definition s_recycled : kstate := the_state (recycle_thread 1 s_exited) s_exited.

Lemma reachable_s_init :
  reachable page_size anchor_size tfr_size tfr_a0_offset s_init.
Proof.
  apply (reachable_init _ _ _ _ idle_thread ∅
           0x80041000 0x80040000 0x80042000 0x80041000).
  vm_compute. reflexivity.
Qed.

Ltac reach_by o st :=
  apply (reachable_step page_size anchor_size tfr_size tfr_a0_offset st o);
  [| vm_compute; first [exact I | reflexivity] | vm_compute; reflexivity].

Lemma reachable_s_waiting :
  reachable page_size anchor_size tfr_size tfr_a0_offset s_waiting.
Proof.
  reach_by (op_condition_wait (cond_at 7)) s_helper.
  reach_by (op_thread_spawn "helper" 0x80101000 fresh_block 0x80201000)
           s_worker.
  reach_by op_thread_yield s_idle.
  reach_by op_thread_yield s_spawned.
  reach_by (op_thread_spawn "worker" 0x80100000 fresh_block 0x80200000)
           s_init.
  apply reachable_s_init.
Qed.

Lemma reachable_s_exited :
  reachable page_size anchor_size tfr_size tfr_a0_offset s_exited.
Proof.
  reach_by op_thread_exit s_worker2.
  reach_by op_thread_yield s_helper_runs.
  reach_by op_thread_yield s_idle2.
  reach_by op_thread_yield s_woken.
  reach_by (op_condition_broadcast (cond_at 7)) s_waiting.
  apply reachable_s_waiting.
Qed.

Lemma scheduler_invariant_reachable_witness :
  reachable page_size anchor_size tfr_size tfr_a0_offset s_exited
  ∧ scheduler_invariant s_exited
  ∧ ∀ o st', kmalloc_fresh o s_exited →
             run_op page_size anchor_size tfr_size tfr_a0_offset o s_exited
             = Ok st' →
             scheduler_invariant st'.
Proof.
  split; [apply reachable_s_exited|].
  apply (scheduler_invariant_reachable page_size anchor_size tfr_size
           tfr_a0_offset s_exited).
  apply reachable_s_exited.
Defined.

Ltac by_evaluation :=
  vm_compute;
  repeat match goal with
         | |- _ ∧ _ => split
         | |- ∃ _, _ => eexists
         | |- _ = _ => reflexivity
         end.

Definition worker : tptr := Kmalloc 0x80100000.
Definition helper : tptr := Kmalloc 0x80101000.

Lemma condition_broadcast_wakes_in_order_witness :
  ∃ st',
    condition_broadcast (cond_at 7) s_waiting = Ok st'
    ∧ tl_elems (heap st') (ready_list st') = [idle_thread; helper; worker]
    ∧ tl_elems (heap st') (conds st' (cond_at 7)) = [].
Proof.
  destruct (condition_broadcast_wakes_in_order (cond_at 7) s_waiting
              [idle_thread; helper] [worker])
    as (_ & st' & Hrun & _ & Hrl & _ & Hwl & _).
  - by_evaluation.
  - by_evaluation.
  - intros r Hr.
    apply elem_of_cons in Hr as [->|Hr]; [by_evaluation|].
    apply list_elem_of_singleton in Hr as ->. by_evaluation.
  - intros w Hw. apply list_elem_of_singleton in Hw as ->. by_evaluation.
  - exists st'. split; [exact Hrun|]. split; [|exact Hwl].
    rewrite Hrl. vm_compute. reflexivity.
Defined.

(** The worker has exited; main reaps it with [thread_join]. *)
Example thread_join_recycles :
  thread_join page_size tfr_size tfr_a0_offset 1 s_exited
  = Ok (Returned 1 s_recycled).
Proof. vm_compute. reflexivity. Qed.

Lemma recycle_thread_reparents_witness :
  recycle_thread 1 s_exited = Ok s_recycled
  ∧ (∃ t, heap s_exited !! helper = Some t ∧ parent t = Some worker)
  ∧ (∃ t, heap s_recycled !! helper = Some t ∧ parent t = Some main_thread)
  ∧ thrtab s_recycled !! 1%nat = Some None
  ∧ heap s_recycled !! worker = None.
Proof.
  assert (recycle_thread 1 s_exited = Ok s_recycled) as Hrun
    by (vm_compute; reflexivity).
  destruct (recycle_thread_reparents 1 s_exited s_recycled)
    as (thr & t & _ & Hslot & Ht & _ & Hchildren & Htab & Hfree & _).
  - vm_compute. reflexivity.
  - intros p0 t0 Hp0 Ht0. vm_compute in Hp0. injection Hp0 as <-.
    vm_compute in Ht0. injection Ht0 as <-. reflexivity.
  - exact Hrun.
  - vm_compute in Hslot. injection Hslot as <-.
    vm_compute in Ht. injection Ht as <-.
    split; [exact Hrun|]. split; [by_evaluation|]. split; [|split].
    + eexists.
      split; [eapply (Hchildren 2%nat helper);
                [vm_compute; reflexivity | vm_compute; reflexivity
                | reflexivity | discriminate]
             | reflexivity].
    + exact Htab.
    + exact Hfree.
Defined.

(** The main thread, right after [thread_init], forks a thread for the
    process at address [0x80300000]. *)
Definition main_at_init : thread :=
  mk_thread ra_null "main" 0x80041000 4096 THREAD_RUNNING 0
            None None None None.

Definition s_forked : kstate :=
  match thread_fork_to_user page_size anchor_size tfr_size tfr_a0_offset
          (Some 0x80300000) 0x80400000 0x80102000 fresh_block 0x80040F00
          s_init with
  | Ok (_, st) => st
  | Fault _ => s_init
  end.

Lemma fork_return_divergence_witness :
  thread_fork_to_user page_size anchor_size tfr_size tfr_a0_offset
    (Some 0x80300000) 0x80400000 0x80102000 fresh_block 0x80040F00 s_init
  = Ok (1, s_forked)
  ∧ CURTHR s_forked = Kmalloc 0x80102000
  ∧ (∃ c, heap s_forked !! Kmalloc 0x80102000 = Some c
          ∧ load64 (kmem s_forked)
              (stack_base c - tfr_size + tfr_a0_offset) = 0)
  ∧ thread_fork_to_user_resumed tfr_size tfr_a0_offset 1
      (Kmalloc 0x80102000) (with_CURTHR main_thread s_forked)
    = Ok (1, with_CURTHR main_thread s_forked).
Proof.
  assert (thread_fork_to_user page_size anchor_size tfr_size tfr_a0_offset
            (Some 0x80300000) 0x80400000 0x80102000 fresh_block 0x80040F00
            s_init = Ok (1, s_forked)) as Hrun by (vm_compute; reflexivity).
  destruct (fork_return_divergence page_size anchor_size tfr_size
              tfr_a0_offset (Some 0x80300000) 0x80400000 0x80102000
              fresh_block 0x80040F00 s_init s_forked 1 main_at_init)
    as (c & par & _ & _ & _ & Hcur & Hc & _ & _ & _ & _ & Ha0 & Hpar & _ & _
        & Hid & Hparent).
  - vm_compute. reflexivity.
  - vm_compute. reflexivity.
  - eexists. vm_compute. reflexivity.
  - vm_compute. discriminate.
  - vm_compute. reflexivity.
  - exact Hrun.
  - split; [exact Hrun|]. split; [exact Hcur|]. split.
    + exists c. split; [exact Hc|exact Ha0].
    + apply (Hparent (with_CURTHR main_thread s_forked) par).
      * reflexivity.
      * exact Hpar.
      * exact Hid.
Defined.

(** ** A full thread table *)

Fixpoint spawn_many (n : nat) (addr : Z) (st : kstate) : kstate :=
  match n with
  | O => st
  | S n' =>
      spawn_many n' (addr + 0x1000)
        (run (op_thread_spawn "t" addr fresh_block (addr + 0x100000)) st)
  end.

Definition s_full : kstate := spawn_many 14 0x80100000 s_init.

Lemma s_full_occupied i :
  1 ≤ i < NTHR → ∃ p, thrtab s_full !! Z.to_nat i = Some (Some p).
Proof.
  intros Hi. unfold NTHR in Hi.
  assert (∃ k : nat, Z.to_nat i = k ∧ (1 ≤ k ≤ 15)%nat) as (k & -> & Hk)
    by (eexists; split; [reflexivity|lia]).
  do 16 (destruct k as [|k];
         [first [lia | eexists; vm_compute; reflexivity]|]).
  lia.
Qed.

(** C2, the counterexample: with all sixteen slots occupied,
    [thread_spawn] hands no error to its caller; it does not return. *)
Lemma thread_spawn_full_table_panics :
  (∀ i, 0 ≤ i < NTHR → ∃ p, thrtab s_full !! Z.to_nat i = Some (Some p))
  ∧ thread_spawn page_size anchor_size "late" 0x80900000 fresh_block
      0x80A00000 s_full
    = Fault (Panic "Too many threads")
  ∧ ¬ ∃ e st', thread_spawn page_size anchor_size "late" 0x80900000
                 fresh_block 0x80A00000 s_full = Ok (e, st').
Proof.
  assert (thread_spawn page_size anchor_size "late" 0x80900000 fresh_block
            0x80A00000 s_full = Fault (Panic "Too many threads")) as Hrun
    by (vm_compute; reflexivity).
  split; [|split; [exact Hrun|]].
  - intros i Hi. destruct (decide (i = 0)) as [->|Hne].
    + eexists. vm_compute. reflexivity.
    + apply s_full_occupied. lia.
  - intros (e & st' & Hok). rewrite Hrun in Hok. discriminate.
Qed.

Lemma thread_spawn_slot_witness :
  thread_spawn page_size anchor_size "late" 0x80900000 fresh_block
    0x80A00000 s_full
  = Fault (Panic "Too many threads")
  ∧ ∃ st',
      thread_spawn page_size anchor_size "worker" 0x80100000 fresh_block
        0x80200000 s_init = Ok (1, st')
      ∧ thrtab st' !! 1%nat = Some (Some worker)
      ∧ tl_elems (heap st') (ready_list st') = [idle_thread; worker].
Proof.
  split.
  - apply (proj1 (thread_spawn_slot page_size anchor_size "late" 0x80900000
                    fresh_block 0x80A00000 s_full)).
    apply s_full_occupied.
  - destruct (proj2 (thread_spawn_slot page_size anchor_size "worker"
                       0x80100000 fresh_block 0x80200000 s_init)
                1 [idle_thread] main_at_init)
      as (st' & Hrun & _ & Hslot & _ & Hrl).
    + unfold NTHR. lia.
    + vm_compute. reflexivity.
    + intros j Hj. lia.
    + vm_compute. reflexivity.
    + by_evaluation.
    + vm_compute. reflexivity.
    + exists st'. split; [exact Hrun|]. split; [exact Hslot|exact Hrl].
Defined.

(** C5: the worker was made by [thread_spawn] on the stack page
    [0x80200000]. When it has exited and main is switched in, [suspend_self]
    hands [0x801FFFF0] to [memory_free_page], the address 16 bytes (the size
    of the stack anchor) below that page; the page itself is never freed. *)
Theorem exited_thread_stack_page_not_freed :
  thread_spawn page_size anchor_size "worker" 0x80100000 fresh_block
    0x80200000 s_init = Ok (1, s_spawned)
  ∧ CURTHR s_worker2 = worker
  ∧ thread_exit page_size tfr_size tfr_a0_offset s_worker2 = Ok s_exited
  ∧ has_state s_exited worker THREAD_EXITED
  ∧ freed_pages s_worker2 = []
  ∧ freed_pages s_exited = [0x80200000 - 16]
  ∧ 0x80200000 ∉ freed_pages s_exited.
Proof.
  split_and!; try (vm_compute; reflexivity).
  - by_evaluation.
  - vm_compute. intros [H|H]%elem_of_cons; [discriminate|].
    by apply elem_of_nil in H.
Qed.

(** ** The I/O layer on concrete values *)

(** Sample values for the error numbers and the [ioctl] commands. *)
Definition einval : Z := 1.
Definition enotsup : Z := 3.
Definition ioctl_getlen : Z := 1.
Definition ioctl_getpos : Z := 3.
Definition ioctl_setpos : Z := 4.
Definition ioctl_getblksz : Z := 6.

Definition sample_lit : io_lit := iolit_init [10; 20; 30; 40; 50; 60; 70; 80] 8.

(** C3: a literal of 8 bytes at position 0 is read into a buffer of 4
    bytes and is written from one: in both cases 4 = min(4, 8 - 0) bytes are
    moved and the position goes to 4, but the value returned is 0, not 4.
    [ioread_full] takes the 0 for the end of the data and reports that
    nothing was read. *)
Theorem io_lit_transfers_but_returns_zero :
  io_lit_read einval sample_lit [0; 0; 0; 0] 0 4
  = (0, set_lit_pos 4 sample_lit, [10; 20; 30; 40])
  ∧ io_lit_write einval sample_lit [1; 2; 3; 4] 0 4
    = (0, set_lit_pos 4 (set_lit_buf [1; 2; 3; 4; 50; 60; 70; 80] sample_lit))
  ∧ Z.min 4 (lit_size sample_lit - lit_pos sample_lit) = 4
  ∧ ioread_full enotsup 4 (iolit_ops einval ioctl_getlen ioctl_setpos
                              ioctl_getpos ioctl_getblksz)
      sample_lit [0; 0; 0; 0] 4
    = Some (0, (set_lit_pos 4 sample_lit, [10; 20; 30; 40])).
Proof. split_and!; vm_compute; reflexivity. Qed.

(** A device that hands out at most two bytes and takes at most three bytes
    per call, and a bus without operations. *)
Definition two_at_a_time : io_ops unit :=
  mk_io_ops (Some (λ d b off len, (Z.min len 2, d, b)))
            (Some (λ d b off len, (Z.min len 3, d))) None.

Definition no_operations : io_ops unit := mk_io_ops None None None.

Lemma io_transfer_helpers_witness :
  (∃ r s', ioread_full enotsup 5 two_at_a_time () [] 5 = Some (r, s')
           ∧ (r < 0 ∨ 0 ≤ r ≤ 5))
  ∧ (∃ r s', iowrite enotsup 5 two_at_a_time () [] 5 = Some (r, s')
             ∧ (r < 0 ∨ 0 ≤ r ≤ 5))
  ∧ ioread_full enotsup 5 no_operations () [] 5 = Some (- enotsup, ((), []))
  ∧ iowrite enotsup 5 no_operations () [] 5 = Some (- enotsup, ()).
Proof.
  destruct (io_transfer_helpers enotsup two_at_a_time () [] 5 5)
    as [Hread Hwrite].
  - unfold LONG_MAX. lia.
  - lia.
  - destruct (io_transfer_helpers enotsup no_operations () [] 5 5)
      as [Hnoread Hnowrite].
    + unfold LONG_MAX. lia.
    + lia.
    + split; [|split; [|split; [exact Hnoread|exact Hnowrite]]].
      * destruct Hread as (r & io' & buf' & Hrun & _ & Hr).
        -- intros d b off len Hlen. simpl. lia.
        -- exists r, (io', buf'). split; [exact Hrun|exact Hr].
      * destruct Hwrite as (r & io' & Hrun & _ & Hr).
        -- intros d b off len Hlen. simpl. lia.
        -- exists r, io'. split; [exact Hrun|exact Hr].
Defined.

(** A device that reports one byte more than it was asked for, and a device
    that moves up to 2^62 bytes a call. *)
Definition one_too_many : io_ops unit :=
  mk_io_ops (Some (λ d b off len, (len + 1, d, b)))
            (Some (λ d b off len, (len + 1, d))) None.

Definition in_big_pieces : io_ops unit :=
  mk_io_ops (Some (λ d b off len, (Z.min len (2 ^ 62), d, b)))
            (Some (λ d b off len, (Z.min len (2 ^ 62), d))) None.

(** C7, the counterexample: the helpers take the count of the backing
    operation as it comes. Over a backing operation that reports one byte
    more than it was asked for, a request for 5 bytes returns 6, which is
    not between 0 and the requested length. And a request for 2^63 bytes,
    a length that does not fit a [long], served in two pieces of 2^62
    bytes, returns -2^63, a negative result although the backing operation
    reported no error. *)
Theorem io_transfer_result_out_of_range :
  ioread_full enotsup 5 one_too_many () [] 5 = Some (6, ((), []))
  ∧ iowrite enotsup 5 one_too_many () [] 5 = Some (6, ())
  ∧ ¬ (0 ≤ 6 ≤ 5)
  ∧ ioread_full enotsup 5 in_big_pieces () [] (2 ^ 63)
    = Some (- 2 ^ 63, ((), []))
  ∧ iowrite enotsup 5 in_big_pieces () [] (2 ^ 63) = Some (- 2 ^ 63, ()).
Proof.
  split; [vm_compute; reflexivity|]. split; [vm_compute; reflexivity|].
  split; [lia|]. split; vm_compute; reflexivity.
Qed.

Example ioread_full_two_at_a_time :
  ioread_full enotsup 5 two_at_a_time () [] 5 = Some (5, ((), [])).
Proof. vm_compute. reflexivity. Qed.

(** C8, the counterexample: on a literal of 8 bytes, [IOCTL_SETPOS] with
    position 100 returns 0, not [-EINVAL], and the position is 100
    afterwards. *)
Lemma io_lit_setpos_beyond_size_accepted :
  lit_size sample_lit < 100
  ∧ io_lit_ioctl ioctl_getlen ioctl_setpos ioctl_getpos ioctl_getblksz
      sample_lit ioctl_setpos 100
    = (0, set_lit_pos 100 sample_lit, 100)
  ∧ 0 ≠ - einval
  ∧ lit_pos (set_lit_pos 100 sample_lit) ≠ lit_pos sample_lit.
Proof. split_and!; vm_compute; congruence. Qed.

Lemma io_lit_setpos_then_einval_witness :
  io_lit_ioctl ioctl_getlen ioctl_setpos ioctl_getpos ioctl_getblksz
    sample_lit ioctl_setpos 100
  = (0, set_lit_pos 100 sample_lit, 100)
  ∧ io_lit_read einval (set_lit_pos 100 sample_lit) [0; 0] 0 2
    = (- einval, set_lit_pos 100 sample_lit, [0; 0])
  ∧ io_lit_write einval (set_lit_pos 100 sample_lit) [0; 0] 0 2
    = (- einval, set_lit_pos 100 sample_lit).
Proof.
  destruct (io_lit_setpos_then_einval einval ioctl_getlen ioctl_setpos
              ioctl_getpos ioctl_getblksz sample_lit 100 [0; 0] 0 2)
    as [Hctl Hrw].
  - discriminate.
  - split; [exact Hctl|]. apply Hrw. vm_compute. discriminate.
Defined.

(** ** The accessors at a thread id beyond the table *)

(** At [tid = NTHR] the accessors are past their range test and index the
    table of [s_init] behind its last slot. *)
Lemma tid_range_test_never_rejects_witness :
  ¬ (0 ≤ 16 < NTHR)
  ∧ thread_process 16 s_init
    = Fault (Undefined "thrtab index out of bounds")
  ∧ thread_set_process 16 None s_init
    = Fault (Undefined "thrtab index out of bounds")
  ∧ thread_name 16 s_init = Fault (Undefined "thrtab index out of bounds").
Proof.
  assert (Hout : ¬ (0 ≤ 16 < NTHR)) by (unfold NTHR; lia).
  split; [exact Hout|].
  exact (proj2 (proj2 (proj2 (proj2
           (tid_range_test_never_rejects 16 s_init None)))) Hout).
Defined.

(** ** The added properties on the sample run *)

Lemma s_init_ok :
  thread_init 0x80041000 0x80040000 0x80042000 0x80041000 boot = Ok s_init.
Proof. vm_compute. reflexivity. Qed.

Lemma s_init_inv : sched_inv_at s_init [idle_thread] (λ _, []).
Proof. exact (thread_init_sched_inv _ _ _ _ _ _ _ s_init_ok). Qed.

Lemma s_init_table : thrtab_inv s_init.
Proof. exact (thread_init_thrtab_inv _ _ _ _ _ _ _ s_init_ok). Qed.

(** The idle thread as [thread_init] leaves it. *)
Definition idle_at_init : thread :=
  mk_thread ra_thread_start "idle" 0x80042000 4096 THREAD_READY 15
            None (Some main_thread) None None.

Lemma s_init_idle : heap s_init !! idle_thread = Some idle_at_init.
Proof. vm_compute. reflexivity. Qed.

Lemma s_init_main : heap s_init !! main_thread = Some main_at_init.
Proof. vm_compute. reflexivity. Qed.

Lemma tlinsert_tlremove_fifo_witness :
  ∃ h1 l1 h2 l2,
    tlinsert (heap s_init) (ready_list s_init) main_thread = Ok (h1, l1)
    ∧ tl_elems h1 l1 = [idle_thread; main_thread]
    ∧ tlremove h1 l1 = Ok (h2, l2, Some idle_thread)
    ∧ tl_elems h2 l2 = [main_thread].
Proof.
  destruct (tlinsert_tlremove_fifo (heap s_init) (ready_list s_init)
              [idle_thread] main_thread main_at_init)
    as [_ (h1 & l1 & h2 & l2 & x & rest & Hins & He1 & Hx & Hrem & He2 & _)].
  - by_evaluation.
  - exact s_init_main.
  - intros Hin%list_elem_of_singleton. discriminate Hin.
  - injection Hx as <- <-. exists h1, l1, h2, l2.
    split; [exact Hins|]. split; [exact He1|]. split; [exact Hrem|exact He2].
Defined.

Lemma tlappend_concatenates_witness :
  ∃ h' l0' l1',
    tlappend (heap s_waiting) (ready_list s_waiting)
      (conds s_waiting (cond_at 7)) = Ok (h', l0', l1')
    ∧ tl_elems h' l0' = [idle_thread; helper; worker]
    ∧ tlempty l1' = true.
Proof.
  destruct (tlappend_concatenates (heap s_waiting) (ready_list s_waiting)
              (conds s_waiting (cond_at 7)) [idle_thread; helper] [worker])
    as (h' & l0' & l1' & Happ & He & Hemp & _).
  - by_evaluation.
  - by_evaluation.
  - intros x Hx Hw%list_elem_of_singleton. subst x.
    apply elem_of_cons in Hx as [Hx|Hx%list_elem_of_singleton];
      discriminate Hx.
  - exists h', l0', l1'. split; [exact Happ|]. split; [exact He|exact Hemp].
Defined.

(** The main thread waits on the condition at address 7 right after
    [thread_init]: the idle thread runs and nothing is ready. *)
Definition s_main_waits : kstate :=
  the_state (condition_wait page_size tfr_size tfr_a0_offset (cond_at 7)
               s_init) s_init.

Lemma s_main_waits_inv :
  sched_inv_at s_main_waits []
    (<[cond_at 7 := [] ++ [main_thread]]> (λ _, [])).
Proof.
  destruct (condition_wait_spec page_size tfr_size tfr_a0_offset (cond_at 7)
              s_init idle_thread [] (λ _, []) idle_at_init s_init_inv
              s_init_idle) as (st' & Hw & Hinv & _).
  - left. reflexivity.
  - unfold s_main_waits. rewrite Hw. exact Hinv.
Qed.

Lemma suspend_self_needs_a_ready_thread_witness :
  CURTHR s_main_waits = idle_thread
  ∧ tl_elems (heap s_main_waits) (ready_list s_main_waits) = []
  ∧ thread_yield page_size tfr_size tfr_a0_offset s_main_waits
    = Fault (AssertFailed "!tlempty(&ready_list)").
Proof.
  split; [vm_compute; reflexivity|]. split; [vm_compute; reflexivity|].
  exact (proj1 (proj2 (suspend_self_needs_a_ready_thread page_size tfr_size
                         tfr_a0_offset s_main_waits (cond_at 7) _
                         s_main_waits_inv))).
Defined.

Lemma s_spawned_ok :
  thread_spawn page_size anchor_size "worker" 0x80100000 fresh_block
    0x80200000 s_init = Ok (1, s_spawned).
Proof. vm_compute. reflexivity. Qed.

Lemma s_spawned_inv :
  sched_inv_at s_spawned [idle_thread; worker] (λ _, []).
Proof.
  apply (thread_spawn_sched_inv_at page_size anchor_size "worker" 0x80100000
           fresh_block 0x80200000 s_init [idle_thread] (λ _, []) 1
           s_spawned s_init_inv).
  - vm_compute. reflexivity.
  - exact s_spawned_ok.
Qed.

Lemma s_idle_ok :
  thread_yield page_size tfr_size tfr_a0_offset s_spawned = Ok s_idle.
Proof. vm_compute. reflexivity. Qed.

Lemma s_idle_inv : sched_inv_at s_idle [worker; main_thread] (λ _, []).
Proof.
  edestruct (thread_yield_spec page_size tfr_size tfr_a0_offset s_spawned
               idle_thread [worker] (λ _, [])) as (st' & Hy & _ & Hinv & _).
  - exact s_spawned_inv.
  - vm_compute. reflexivity.
  - left. reflexivity.
  - rewrite s_idle_ok in Hy. injection Hy as <-.
    assert (CURTHR s_spawned = main_thread) as E by (vm_compute; reflexivity).
    rewrite E in Hinv. exact Hinv.
Qed.

Lemma reachable_by_all_s_forked :
  reachable_by_all page_size anchor_size tfr_size tfr_a0_offset s_forked.
Proof.
  apply (reachable_by_all_step page_size anchor_size tfr_size tfr_a0_offset
           s_init
           (call_thread_fork_to_user (Some 0x80300000) 0x80400000 0x80102000
              fresh_block 0x80040F00)).
  - exact (reachable_by_all_init _ _ _ _ _ _ _ _ _ _ _ s_init_ok).
  - vm_compute. reflexivity.
  - vm_compute. reflexivity.
Qed.

Lemma scheduler_invariant_all_operations_witness :
  reachable_by_all page_size anchor_size tfr_size tfr_a0_offset s_forked
  ∧ scheduler_invariant s_forked.
Proof.
  split; [exact reachable_by_all_s_forked|].
  exact (proj1 (scheduler_invariant_all_operations page_size anchor_size
                  tfr_size tfr_a0_offset s_forked
                  reachable_by_all_s_forked)).
Defined.

Lemma thread_table_never_dangles_witness :
  thrtab s_forked !! 1%nat = Some (Some (Kmalloc 0x80102000))
  ∧ ∃ t, heap s_forked !! Kmalloc 0x80102000 = Some t ∧ id t = 1.
Proof.
  assert (thrtab s_forked !! 1%nat = Some (Some (Kmalloc 0x80102000)))
    as Hslot by (vm_compute; reflexivity).
  split; [exact Hslot|].
  destruct (thread_table_never_dangles page_size anchor_size tfr_size
              tfr_a0_offset s_forked reachable_by_all_s_forked)
    as (_ & _ & Hlive & _).
  exact (Hlive 1%nat _ Hslot).
Defined.

Lemma thread_exit_finds_live_parent_witness :
  ∃ tc tp,
    heap s_forked !! CURTHR s_forked = Some tc
    ∧ parent tc = Some main_thread
    ∧ heap s_forked !! main_thread = Some tp.
Proof.
  destruct (thread_exit_finds_live_parent page_size anchor_size tfr_size
              tfr_a0_offset s_forked reachable_by_all_s_forked)
    as (tc & par & tp & Htc & _ & Hpar & Htp & _).
  - vm_compute. discriminate.
  - assert (par = main_thread) as ->.
    { pose proof Htc as Htc'. vm_compute in Htc'. injection Htc' as <-.
      simpl in Hpar. congruence. }
    exists tc, tp. split; [exact Htc|]. split; [exact Hpar|exact Htp].
Defined.

Lemma thread_fork_to_user_slot_witness :
  ∃ st',
    thread_fork_to_user page_size anchor_size tfr_size tfr_a0_offset
      (Some 0x80300000) 0x80400000 0x80102000 fresh_block 0x80040F00 s_init
    = Ok (1, st')
    ∧ CURTHR st' = Kmalloc 0x80102000
    ∧ has_state st' main_thread THREAD_READY
    ∧ tl_elems (heap st') (ready_list st') = [idle_thread; main_thread]
    ∧ active_mspace st' = Some 0x80300000.
Proof.
  assert (CURTHR s_init = main_thread) as E by (vm_compute; reflexivity).
  destruct (thread_fork_to_user_slot page_size anchor_size tfr_size
              tfr_a0_offset (Some 0x80300000) 0x80400000 0x80102000
              fresh_block 0x80040F00 s_init [idle_thread] (λ _, [])
              s_init_inv) as (_ & _ & H).
  - vm_compute. reflexivity.
  - destruct (H 0x80300000 1 eq_refl)
      as (st' & c & Hf & _ & Hcur & _ & _ & _ & _ & _ & Hs & Hrl & Hms & _).
    + unfold NTHR. lia.
    + vm_compute. reflexivity.
    + intros j Hj. assert (j = 0) as -> by lia. eexists.
      vm_compute. reflexivity.
    + rewrite E in Hs, Hrl.
      exists st'. split; [exact Hf|]. split; [exact Hcur|].
      split; [exact Hs|]. split; [exact Hrl|exact Hms].
Defined.

Lemma thread_join_rejects_witness :
  thread_join page_size tfr_size tfr_a0_offset 0 s_init
  = Ok (Returned (-1) s_init)
  ∧ thread_join page_size tfr_size tfr_a0_offset 1 s_init
    = Ok (Returned (-1) s_init)
  ∧ thread_join page_size tfr_size tfr_a0_offset 16 s_init
    = Fault (Undefined "thrtab index out of bounds").
Proof.
  split; [|split].
  - apply (proj1 (thread_join_rejects page_size tfr_size tfr_a0_offset 0
                    s_init s_init_table)).
    + unfold NTHR. lia.
    + left. reflexivity.
  - apply (proj1 (thread_join_rejects page_size tfr_size tfr_a0_offset 1
                    s_init s_init_table)).
    + unfold NTHR. lia.
    + right. left. vm_compute. reflexivity.
  - apply (proj2 (thread_join_rejects page_size tfr_size tfr_a0_offset 16
                    s_init s_init_table)).
    unfold NTHR. lia.
Defined.

Lemma s_exited_inv :
  sched_inv s_exited ∧ thrtab_inv s_exited.
Proof.
  apply (reachable_by_all_inv page_size anchor_size tfr_size tfr_a0_offset).
  apply reachable_reachable_by_all. exact reachable_s_exited.
Qed.

Lemma thread_join_reaps_exited_child_witness :
  ∃ st',
    thread_join page_size tfr_size tfr_a0_offset 1 s_exited
    = Ok (Returned 1 st')
    ∧ thrtab st' !! 1%nat = Some None
    ∧ heap st' !! worker = None
    ∧ ∃ tid' st'',
        thread_spawn page_size anchor_size "again" 0x80100000 fresh_block
          0x80200000 st' = Ok (tid', st'')
        ∧ 0 < tid' ≤ 1.
Proof.
  destruct s_exited_inv as [(rs & ws & Hinv) Hti].
  edestruct (thread_join_reaps_exited_child page_size anchor_size tfr_size
               tfr_a0_offset 1 s_exited rs ws worker)
    as (st' & Hj & Hslot & Hfreed & _ & _ & _ & _ & _ & _ & Hsp).
  - exact Hinv.
  - exact Hti.
  - unfold NTHR. lia.
  - vm_compute. reflexivity.
  - vm_compute. reflexivity.
  - vm_compute. reflexivity.
  - reflexivity.
  - exists st'. split; [exact Hj|]. split; [exact Hslot|].
    split; [exact Hfreed|].
    exact (Hsp "again" 0x80100000 fresh_block 0x80200000 Hfreed).
Defined.

(** The main thread waits for the idle thread in [thread_join]. *)
Definition s_main_joins : kstate :=
  the_state (condition_wait page_size tfr_size tfr_a0_offset
               (child_exit main_thread) s_init) s_init.

Lemma s_main_joins_inv :
  sched_inv_at s_main_joins []
    (<[child_exit main_thread := [] ++ [main_thread]]> (λ _, []))
  ∧ thrtab_inv s_main_joins.
Proof.
  assert (CURTHR s_init = main_thread) as E by (vm_compute; reflexivity).
  destruct (condition_wait_spec page_size tfr_size tfr_a0_offset
              (child_exit main_thread) s_init idle_thread [] (λ _, [])
              idle_at_init s_init_inv s_init_idle)
    as (st' & Hw & Hinv & _ & Htab & _ & _ & Hid).
  - left. reflexivity.
  - unfold s_main_joins. rewrite Hw. rewrite E in Hinv.
    split; [exact Hinv|].
    exact (thrtab_inv_frame _ _ s_init_table Htab
             (agree_identity_kinship _ _ Hid)).
Qed.

Lemma thread_exit_then_parent_joins_witness :
  ∃ st1 st2,
    thread_exit page_size tfr_size tfr_a0_offset s_main_joins = Ok st1
    ∧ CURTHR st1 = main_thread
    ∧ thread_join_wait page_size tfr_size tfr_a0_offset 15 idle_thread st1
      = Ok (Returned 15 st2)
    ∧ thrtab st2 !! 15%nat = Some None
    ∧ heap st2 !! idle_thread = None
    ∧ freed_pages st2 = [0x80042000 - 4096].
Proof.
  assert (CURTHR s_main_joins = idle_thread) as E
    by (vm_compute; reflexivity).
  destruct s_main_joins_inv as [Hinv Hti].
  edestruct (thread_exit_then_parent_joins page_size tfr_size tfr_a0_offset
               s_main_joins) as (st1 & st2 & Hex & Hcur & _ & _ & Hj & _
                                 & Hslot & Hfreed & Hfp & _).
  - exact Hinv.
  - exact Hti.
  - rewrite E. discriminate.
  - vm_compute. reflexivity.
  - reflexivity.
  - vm_compute. reflexivity.
  - vm_compute. reflexivity.
  - reflexivity.
  - rewrite E in Hj, Hfreed. vm_compute in Hfp.
    exists st1, st2. split; [exact Hex|]. split; [exact Hcur|].
    split; [exact Hj|]. split; [exact Hslot|].
    split; [exact Hfreed|exact Hfp].
Defined.

Lemma thread_join_any_outcomes_witness :
  ∃ st',
    thread_join_any page_size tfr_size tfr_a0_offset s_exited
    = Ok (Returned 1 st')
    ∧ thrtab st' !! 1%nat = Some None.
Proof.
  destruct s_exited_inv as [_ Hti].
  destruct (thread_join_any_outcomes page_size tfr_size tfr_a0_offset
              s_exited Hti) as (H & _).
  destruct (H 1) as (st' & child & Hj & _ & _ & Hslot & _).
  - unfold NTHR. lia.
  - exists worker. eexists. by_evaluation.
  - intros j Hj. lia.
  - exists st'. split; [exact Hj|exact Hslot].
Defined.

Lemma thread_spawn_then_accessors_witness :
  ∃ st',
    thread_spawn page_size anchor_size "worker" 0x80100000 fresh_block
      0x80200000 s_init = Ok (1, st')
    ∧ thread_name 1 st' = Ok "worker"
    ∧ CURTHR st' = main_thread
    ∧ ∃ st'',
        thread_set_process 1 (Some 0x80300000) st' = Ok st''
        ∧ thread_process 1 st'' = Ok (Some 0x80300000)
        ∧ thread_name 1 st'' = Ok "worker".
Proof.
  assert (CURTHR s_init = main_thread) as E by (vm_compute; reflexivity).
  destruct (thread_spawn_then_accessors page_size anchor_size "worker"
              0x80100000 fresh_block 0x80200000 s_init [idle_thread]
              (λ _, []) 1 s_init_inv)
    as (st' & tc & Hsp & _ & Hnm & _ & Hcur & _ & _ & _ & Hset).
  - vm_compute. reflexivity.
  - unfold NTHR. lia.
  - vm_compute. reflexivity.
  - intros j Hj. lia.
  - rewrite E in Hcur. exists st'. split; [exact Hsp|].
    split; [exact Hnm|]. split; [exact Hcur|].
    exact (Hset (Some 0x80300000)).
Defined.


(** ** Switching on the sample runs *)

Definition run_all (o : thread_op) (st : kstate) : kstate :=
  the_state (run_thread_op page_size anchor_size tfr_size tfr_a0_offset o st)
    st.

Ltac reach_by_all o st :=
  apply (reachable_by_all_step page_size anchor_size tfr_size tfr_a0_offset
           st o);
  [| vm_compute; first [exact I | reflexivity] | vm_compute; reflexivity].

Lemma reachable_by_all_s_init :
  reachable_by_all page_size anchor_size tfr_size tfr_a0_offset s_init.
Proof. exact (reachable_by_all_init _ _ _ _ _ _ _ _ _ _ _ s_init_ok). Qed.

Lemma reachable_by_all_s_waiting :
  reachable_by_all page_size anchor_size tfr_size tfr_a0_offset s_waiting.
Proof. apply reachable_reachable_by_all. exact reachable_s_waiting. Qed.

(** The forked thread (slot 1) of [s_forked]. *)
Definition forked : tptr := Kmalloc 0x80102000.

(** After the fork of [s_forked] the child yields: the idle thread runs,
    and the main thread, parked in [thread_fork_to_user], is the next to
    run, before the child. *)
Definition s_forked_idle : kstate :=
  run_all (call_sched op_thread_yield) s_forked.

Lemma reachable_by_all_s_forked_idle :
  reachable_by_all page_size anchor_size tfr_size tfr_a0_offset s_forked_idle.
Proof.
  reach_by_all (call_sched op_thread_yield) s_forked.
  exact reachable_by_all_s_forked.
Qed.

Lemma thread_yield_round_robin_witness :
  CURTHR s_forked_idle = idle_thread
  ∧ (∃ t, heap s_forked_idle !! main_thread = Some t
          ∧ context_ra t = ra_fork 1 forked)
  ∧ ∃ st',
      thread_yield page_size tfr_size tfr_a0_offset s_forked_idle = Ok st'
      ∧ CURTHR st' = main_thread
      ∧ tl_elems (heap st') (ready_list st') = [forked; idle_thread].
Proof.
  assert (CURTHR s_forked_idle = idle_thread) as Ec
    by (vm_compute; reflexivity).
  split; [exact Ec|].
  split; [eexists; split; vm_compute; reflexivity|].
  pose proof (reachable_by_all_lists _ _ _ _ _
                reachable_by_all_s_forked_idle) as Hinv.
  assert (tl_elems (heap s_forked_idle) (ready_list s_forked_idle)
          = [main_thread; forked]) as E by (vm_compute; reflexivity).
  rewrite E in Hinv.
  destruct (thread_yield_round_robin page_size anchor_size tfr_size
              tfr_a0_offset s_forked_idle main_thread [forked] _
              reachable_by_all_s_forked_idle Hinv)
    as (st' & Hy & Hcur & _ & _ & He & _).
  rewrite Ec in He.
  exists st'. split; [exact Hy|]. split; [exact Hcur|exact He].
Defined.

Lemma condition_wait_blocks_caller_witness :
  tl_elems (heap s_waiting) (ready_list s_waiting) = [idle_thread; helper]
  ∧ tl_elems (heap s_waiting) (conds s_waiting (cond_at 7)) = [worker]
  ∧ ∃ st',
      condition_wait page_size tfr_size tfr_a0_offset (cond_at 7) s_waiting
      = Ok st'
      ∧ CURTHR st' = idle_thread
      ∧ has_state st' main_thread THREAD_WAITING
      ∧ tl_elems (heap st') (conds st' (cond_at 7)) = [worker; main_thread]
      ∧ tl_elems (heap st') (ready_list st') = [helper].
Proof.
  assert (tl_elems (heap s_waiting) (ready_list s_waiting)
          = [idle_thread; helper]) as E by (vm_compute; reflexivity).
  assert (tl_elems (heap s_waiting) (conds s_waiting (cond_at 7))
          ++ [CURTHR s_waiting] = [worker; main_thread]) as Ew
    by (vm_compute; reflexivity).
  assert (CURTHR s_waiting = main_thread) as Ec by (vm_compute; reflexivity).
  split; [exact E|]. split; [vm_compute; reflexivity|].
  pose proof (reachable_by_all_lists _ _ _ _ _ reachable_by_all_s_waiting)
    as Hinv.
  rewrite E in Hinv.
  destruct (condition_wait_blocks_caller page_size anchor_size tfr_size
              tfr_a0_offset (cond_at 7) s_waiting idle_thread [helper] _
              reachable_by_all_s_waiting Hinv)
    as (st' & t & Hw & Hcur & _ & Ht & Hs & _ & Hwl & Hrl & _).
  rewrite Ec in Ht.
  exists st'. split; [exact Hw|]. split; [exact Hcur|].
  split; [exists t; split; [exact Ht|exact Hs]|].
  split; [exact (eq_trans Hwl Ew)|exact Hrl].
Defined.

Lemma condition_wait_then_broadcast_witness :
  ∃ st1 st2,
    condition_wait page_size tfr_size tfr_a0_offset (cond_at 7) s_waiting
    = Ok st1
    ∧ condition_broadcast (cond_at 7) st1 = Ok st2
    ∧ CURTHR st2 = idle_thread
    ∧ has_state st2 main_thread THREAD_READY
    ∧ tl_elems (heap st2) (ready_list st2) = [helper; worker; main_thread]
    ∧ tl_elems (heap st2) (conds st2 (cond_at 7)) = [].
Proof.
  assert (tl_elems (heap s_waiting) (ready_list s_waiting)
          = [idle_thread; helper]) as E by (vm_compute; reflexivity).
  assert ([helper]
          ++ tl_elems (heap s_waiting) (conds s_waiting (cond_at 7))
          ++ [CURTHR s_waiting] = [helper; worker; main_thread]) as Ew
    by (vm_compute; reflexivity).
  assert (CURTHR s_waiting = main_thread) as Ec by (vm_compute; reflexivity).
  pose proof (reachable_by_all_lists _ _ _ _ _ reachable_by_all_s_waiting)
    as Hinv.
  rewrite E in Hinv.
  destruct (condition_wait_then_broadcast page_size anchor_size tfr_size
              tfr_a0_offset (cond_at 7) s_waiting idle_thread [helper] _
              reachable_by_all_s_waiting Hinv)
    as (st1 & st2 & Hw & Hb & Hcur & Hs & _ & Hrl & Hwl & _).
  rewrite Ec in Hs.
  exists st1, st2. split; [exact Hw|]. split; [exact Hb|].
  split; [exact Hcur|]. split; [exact Hs|].
  split; [exact (eq_trans Hrl Ew)|exact Hwl].
Defined.

(** The main thread spawns the worker and joins it; the idle thread runs
    and yields to the worker, which then is the thread that runs, with the
    idle thread ready and the main thread waiting for it. *)
Definition s_joined : kstate := run_all (call_thread_join 1) s_spawned.
Definition s_worker_last : kstate :=
  run_all (call_sched op_thread_yield) s_joined.

Lemma reachable_by_all_s_worker_last :
  reachable_by_all page_size anchor_size tfr_size tfr_a0_offset s_worker_last.
Proof.
  reach_by_all (call_sched op_thread_yield) s_joined.
  reach_by_all (call_thread_join 1) s_spawned.
  reach_by_all (call_sched (op_thread_spawn "worker" 0x80100000 fresh_block
                              0x80200000)) s_init.
  exact reachable_by_all_s_init.
Qed.

Lemma thread_exit_wakes_parent_witness :
  thread_exit page_size tfr_size tfr_a0_offset s_init = Fault Halted
  ∧ tl_elems (heap s_worker_last) (ready_list s_worker_last) = [idle_thread]
  ∧ tl_elems (heap s_worker_last)
      (conds s_worker_last (child_exit main_thread)) = [main_thread]
  ∧ ∃ st',
      thread_exit page_size tfr_size tfr_a0_offset s_worker_last = Ok st'
      ∧ CURTHR st' = idle_thread
      ∧ has_state st' worker THREAD_EXITED
      ∧ has_state st' main_thread THREAD_READY
      ∧ tl_elems (heap st') (ready_list st') = [main_thread]
      ∧ freed_pages st' = [0x80200000 + 4096 - 16 - 4096].
Proof.
  split.
  { apply (proj1 (thread_exit_wakes_parent page_size anchor_size tfr_size
                    tfr_a0_offset s_init [idle_thread] (λ _, [])
                    reachable_by_all_s_init s_init_inv)).
    vm_compute. reflexivity. }
  assert (tl_elems (heap s_worker_last) (ready_list s_worker_last)
          = [idle_thread]) as E by (vm_compute; reflexivity).
  assert (CURTHR s_worker_last = worker) as Ec by (vm_compute; reflexivity).
  split; [exact E|]. split; [vm_compute; reflexivity|].
  pose proof (reachable_by_all_lists _ _ _ _ _
                reachable_by_all_s_worker_last) as Hinv.
  rewrite E in Hinv.
  destruct (proj2 (thread_exit_wakes_parent page_size anchor_size tfr_size
                     tfr_a0_offset s_worker_last [idle_thread] _
                     reachable_by_all_s_worker_last Hinv))
    as (tc & par & Htc & Hpar & H & _).
  { rewrite Ec. discriminate. }
  assert (tc = mk_thread ra_thread_start "worker"
                 (0x80200000 + 4096 - 16) (4096 - 16) THREAD_RUNNING 1 None
                 (Some main_thread) None None) as ->.
  { vm_compute in Htc. injection Htc as <-. reflexivity. }
  injection Hpar as <-.
  destruct (H idle_thread [main_thread])
    as (tn & st' & Htn & Hex & Hcur & Hs & Hrl & _ & _ & _ & Hw & _ & Hfp).
  { vm_compute. reflexivity. }
  assert (context_ra tn = ra_suspend_self) as Era.
  { vm_compute in Htn. injection Htn as <-. reflexivity. }
  rewrite (bool_decide_eq_true_2 _ Era) in Hfp.
  rewrite Ec in Hs.
  exists st'. split; [exact Hex|]. split; [exact Hcur|].
  split; [exact Hs|]. split.
  { apply (Hw main_thread); [vm_compute|discriminate].
    apply list_elem_of_here. }
  split; [exact Hrl|exact Hfp].
Defined.

(** After the fork of [s_forked] the child forks in its turn and yields,
    and so does the idle thread: the main thread runs again, with its
    child, parked in [thread_fork_to_user], next on the ready list. *)
Definition forked_again : tptr := Kmalloc 0x80103000.

Definition s_forked_twice : kstate :=
  run_all (call_thread_fork_to_user (Some 0x80301000) 0x80401000 0x80103000
             fresh_block 0x80400F00) s_forked.
Definition s_main_back : kstate :=
  run_all (call_sched op_thread_yield)
    (run_all (call_sched op_thread_yield) s_forked_twice).

Lemma reachable_by_all_s_main_back :
  reachable_by_all page_size anchor_size tfr_size tfr_a0_offset s_main_back.
Proof.
  reach_by_all (call_sched op_thread_yield)
    (run_all (call_sched op_thread_yield) s_forked_twice).
  reach_by_all (call_sched op_thread_yield) s_forked_twice.
  reach_by_all (call_thread_fork_to_user (Some 0x80301000) 0x80401000
                  0x80103000 fresh_block 0x80400F00) s_forked.
  exact reachable_by_all_s_forked.
Qed.

Lemma thread_join_blocks_until_exit_witness :
  CURTHR s_main_back = main_thread
  ∧ (∃ t, heap s_main_back !! forked = Some t
          ∧ context_ra t = ra_fork 2 forked_again)
  ∧ ∃ st',
      thread_join page_size tfr_size tfr_a0_offset 1 s_main_back
      = Ok (Suspended st')
      ∧ CURTHR st' = forked
      ∧ has_state st' main_thread THREAD_WAITING
      ∧ tl_elems (heap st') (conds st' (child_exit main_thread))
        = [main_thread]
      ∧ thrtab st' = thrtab s_main_back.
Proof.
  assert (CURTHR s_main_back = main_thread) as Ec
    by (vm_compute; reflexivity).
  split; [exact Ec|].
  split; [eexists; split; vm_compute; reflexivity|].
  assert (tl_elems (heap s_main_back) (ready_list s_main_back)
          = [forked; forked_again; idle_thread]) as E
    by (vm_compute; reflexivity).
  assert (tl_elems (heap s_main_back)
            (conds s_main_back (child_exit (CURTHR s_main_back)))
          ++ [CURTHR s_main_back] = [main_thread]) as Ew
    by (vm_compute; reflexivity).
  pose proof (reachable_by_all_lists _ _ _ _ _ reachable_by_all_s_main_back)
    as Hinv.
  rewrite E in Hinv.
  edestruct (thread_join_blocks_until_exit page_size anchor_size tfr_size
               tfr_a0_offset 1 s_main_back forked
               [forked_again; idle_thread]
               (λ c, tl_elems (heap s_main_back) (conds s_main_back c))
               forked)
    as (st' & t & Hj & Hcur & Ht & Hs & _ & Hwl & Htab & _).
  - exact reachable_by_all_s_main_back.
  - exact Hinv.
  - unfold NTHR. lia.
  - vm_compute. reflexivity.
  - vm_compute. reflexivity.
  - vm_compute. reflexivity.
  - vm_compute. discriminate.
  - rewrite Ec in Ht, Hwl.
    exists st'. split; [exact Hj|]. split; [exact Hcur|].
    split; [exists t; split; [exact Ht|exact Hs]|].
    split; [|exact Htab].
    rewrite Ec in Ew. exact (eq_trans Hwl Ew).
Defined.

(** ** The literal device and the terminal on sample devices *)

Lemma io_lit_write_then_read_back_witness :
  ∃ lit1 lit2 lit3,
    io_lit_write einval sample_lit [1; 2; 3] 0 3 = (0, lit1)
    ∧ io_lit_ioctl ioctl_getlen ioctl_setpos ioctl_getpos ioctl_getblksz
        lit1 ioctl_setpos 0 = (0, lit2, 0)
    ∧ io_lit_read einval lit2 [0; 0; 0] 0 3 = (0, lit3, [1; 2; 3]).
Proof.
  destruct (io_lit_write_then_read_back einval ioctl_getlen ioctl_setpos
              ioctl_getpos ioctl_getblksz sample_lit [1; 2; 3] [0; 0; 0])
    as (lit1 & lit2 & lit3 & Hw & Hc & Hr & _).
  - vm_compute. discriminate.
  - vm_compute. discriminate.
  - vm_compute. reflexivity.
  - vm_compute. discriminate.
  - vm_compute. reflexivity.
  - vm_compute. lia.
  - reflexivity.
  - exists lit1, lit2, lit3. split; [exact Hw|]. split; [exact Hc|exact Hr].
Defined.


Lemma iolit_transfers_report_no_count_witness :
  ∃ r s' w litw,
    ioread_full enotsup 1
      (iolit_ops einval ioctl_getlen ioctl_setpos ioctl_getpos ioctl_getblksz)
      sample_lit [0; 0; 0] 3 = Some (r, s')
    ∧ (r = 0 ∨ r = - einval)
    ∧ iowrite enotsup 1
        (iolit_ops einval ioctl_getlen ioctl_setpos ioctl_getpos
           ioctl_getblksz)
        sample_lit [0; 0; 0] 3 = Some (w, litw)
    ∧ (w = 0 ∨ w = - einval).
Proof.
  destruct (iolit_transfers_report_no_count einval enotsup ioctl_getlen
              ioctl_setpos ioctl_getpos ioctl_getblksz sample_lit [0; 0; 0]
              3 0)
    as (r & lit' & buf' & w & litw & _ & Hr & Hr0 & _ & Hw & Hw0).
  - vm_compute. reflexivity.
  - split; [|vm_compute]; reflexivity.
  - exists r, (lit', buf'), w, litw. split; [exact Hr|].
    split; [exact Hr0|]. split; [exact Hw|exact Hw0].
Defined.

Lemma io_lit_ioctl_commands_witness :
  io_lit_ioctl ioctl_getlen ioctl_setpos ioctl_getpos ioctl_getblksz
    sample_lit ioctl_setpos 5 = (0, set_lit_pos 5 sample_lit, 5)
  ∧ io_lit_ioctl ioctl_getlen ioctl_setpos ioctl_getpos ioctl_getblksz
      (set_lit_pos 5 sample_lit) ioctl_getpos 0
    = (0, set_lit_pos 5 sample_lit, 5)
  ∧ io_lit_ioctl ioctl_getlen ioctl_setpos ioctl_getpos ioctl_getblksz
      sample_lit 99 0 = (-1, sample_lit, 0).
Proof.
  destruct (io_lit_ioctl_commands ioctl_getlen ioctl_setpos ioctl_getpos
              ioctl_getblksz sample_lit 5 0 99)
    as (Hset & Hget & _ & _ & Hother).
  - vm_compute. discriminate.
  - vm_compute. discriminate.
  - vm_compute. discriminate.
  - vm_compute. discriminate.
  - vm_compute. discriminate.
  - vm_compute. discriminate.
  - split; [exact Hset|]. split; [exact Hget|].
    apply Hother; vm_compute; discriminate.
Defined.

(** A backing device for reading: its state is the bytes that are still to
    come; a read delivers as many of them as are asked for and there are. *)
Definition stream_read (pending : list Z) (buf : list Z) (off len : Z)
  : Z * list Z * list Z :=
  let n := Z.min len (Z.of_nat (length pending)) in
  (n, drop (Z.to_nat n) pending, copy_bytes buf off pending 0 n).

(** A device at its end: every read reports 0. *)
Definition eof_read (r : unit) (buf : list Z) (off len : Z)
  : Z * unit * list Z := (0, r, buf).

(** A backing device for writing: its state is the bytes it has received. *)
Definition sink_ops : io_ops (list Z) :=
  mk_io_ops None
    (Some (λ r b off n, (n, r ++ take (Z.to_nat n) (drop (Z.to_nat off) b))))
    None.

Definition sink_putc (r : list Z) (c : Z) : Z * list Z := (0, r ++ [c]).

Lemma sink_accepts_all : accepts_all (λ r : list Z, r) sink_ops sink_putc.
Proof.
  split.
  - eexists. split; [reflexivity|]. intros r b off n _ _. by split.
  - intros r c. split; [done|reflexivity].
Qed.

(** A keyboard with a screen: the keys that are still to come and what has
    been echoed. Out of keys it delivers line feeds. *)
Definition kbd_getc (t : io_term (list Z * list Z))
  : Z * io_term (list Z * list Z) :=
  match (rawio t).1 with
  | c :: ks => (c, set_rawio (ks, (rawio t).2) t)
  | [] => (10, t)
  end.

Definition kbd_putc (r : list Z * list Z) (c : Z) : Z * (list Z * list Z) :=
  (0, (r.1, r.2 ++ [c])).

(** A keyboard that hands over one byte a read, and the one-character read
    of a terminal on it: one byte read through [ioterm_read]. What the
    terminal will deliver is the normalised form of the keys that are still
    to come. *)
Definition kbd_read (r : list Z * list Z) (buf : list Z) (off len : Z)
  : Z * (list Z * list Z) * list Z :=
  match r.1 with
  | [] => (0, r, buf)
  | b :: ks => (1, (ks, r.2), <[Z.to_nat off := b]> buf)
  end.

Definition term_getc (t : io_term (list Z * list Z))
  : Z * io_term (list Z * list Z) :=
  match ioterm_read kbd_read 2 t [0] 0 1 with
  | Some (Ok (_, t', c :: _)) => (c, t')
  | _ => (-1, t)
  end.

Definition term_keys (t : io_term (list Z * list Z)) : list Z :=
  (crlf_in (cr_in t) (rawio t).1).1.

Lemma term_getc_emits (t : io_term (list Z * list Z)) b ks x cr y :
  (rawio t).1 = b :: ks → crlf_in_step (cr_in t) b = ([x], cr) →
  ∀ fuel, ioterm_read kbd_read (S fuel) t [y] 0 1
          = Some (Ok (1, mk_io_term (ks, (rawio t).2) (cr_out t) cr, [x])).
Proof.
  intros Hraw Hstep fuel. cbn [ioterm_read]. unfold kbd_read. rewrite Hraw.
  rewrite bool_decide_eq_false_2 by lia.
  change (Z.to_nat 1) with 1%nat. change (Z.to_nat 0) with 0%nat.
  cbn [ioterm_read_scan list_insert insert lookup list_lookup cr_in set_rawio].
  unfold crlf_in_step in Hstep.
  destruct (cr_in t); repeat case_bool_decide; simplify_eq/=;
    rewrite ?bool_decide_eq_false_2 by lia; reflexivity.
Qed.

Lemma term_getc_skips (t : io_term (list Z * list Z)) ks y :
  (rawio t).1 = 10 :: ks → cr_in t = true →
  ∀ fuel, ioterm_read kbd_read (S fuel) t [y] 0 1
          = ioterm_read kbd_read fuel
              (mk_io_term (ks, (rawio t).2) (cr_out t) false) [10] 0 1.
Proof.
  intros Hraw Hcr fuel. cbn [ioterm_read]. unfold kbd_read at 1.
  rewrite Hraw. rewrite bool_decide_eq_false_2 by lia.
  change (Z.to_nat 1) with 1%nat. change (Z.to_nat 0) with 0%nat.
  cbn [ioterm_read_scan list_insert insert lookup list_lookup cr_in set_rawio].
  rewrite Hcr. rewrite bool_decide_eq_false_2 by lia.
  rewrite bool_decide_eq_true_2 by done.
  rewrite bool_decide_eq_true_2 by done. reflexivity.
Qed.

Lemma term_delivers : delivers term_keys term_getc kbd_putc.
Proof.
  split.
  - intros t c ks Hk. unfold term_keys in Hk.
    destruct (rawio t).1 as [|b raw] eqn:Hraw; [done|].
    rewrite crlf_in_cons in Hk. cbn [fst] in Hk.
    destruct (crlf_in_step (cr_in t) b) as [o cr1] eqn:Hstep.
    cbn [fst snd] in Hk.
    assert (o = [] ∧ cr_in t = true ∧ b = 10 ∧ cr1 = false
            ∨ ∃ x, o = [x]) as [(-> & Hcr & -> & ->)|[x ->]].
    { unfold crlf_in_step in Hstep.
      destruct (cr_in t); repeat case_bool_decide; simplify_eq/=; eauto. }
    + (* the line feed behind a carriage return is passed over *)
      cbn [app] in Hk.
      destruct raw as [|b2 raw2]; [done|].
      rewrite crlf_in_cons in Hk. cbn [fst] in Hk.
      destruct (crlf_in_step false b2) as [o2 cr2] eqn:Hstep2.
      cbn [fst snd] in Hk.
      assert (∃ x, o2 = [x]) as [x ->].
      { unfold crlf_in_step in Hstep2.
        repeat case_bool_decide; simplify_eq/=; eauto. }
      injection Hk as <- <-.
      unfold term_getc.
      rewrite (term_getc_skips t (b2 :: raw2) 0 Hraw Hcr 1).
      rewrite (term_getc_emits _ b2 raw2 x cr2 10); [|done|done].
      split; reflexivity.
    + injection Hk as <- <-.
      unfold term_getc.
      rewrite (term_getc_emits t b raw x cr1 0 Hraw Hstep).
      split; reflexivity.
  - intros t c. by split.
Qed.

Lemma ioterm_read_normalises_witness :
  ∃ buf',
    ioterm_read stream_read 1 (ioterm_init [97; 13; 10; 98]) [0; 0; 0; 0] 0 4
    = Some (Ok (3, mk_io_term [] false false, buf'))
    ∧ take 3 buf' = [97; 10; 98].
Proof.
  destruct (ioterm_read_normalises stream_read 0
              (ioterm_init [97; 13; 10; 98]) [0; 0; 0; 0] 0 4 4 []
              [97; 13; 10; 98]) as (buf' & Hrun & Hout & _).
  - vm_compute. reflexivity.
  - lia.
  - lia.
  - vm_compute. lia.
  - vm_compute. discriminate.
  - exists buf'. split; [exact Hrun|exact Hout].
Defined.

Lemma ioterm_read_never_reports_end_witness :
  ioterm_read eof_read 7 (ioterm_init ()) [0; 0] 0 2 = None.
Proof.
  apply (ioterm_read_never_reports_end eof_read 7 (ioterm_init ()) [0; 0] 0 2).
  intros r b o l. reflexivity.
Defined.

Lemma ioterm_read_in_two_reads_witness :
  ∃ n1 iot1 b1 n2 iot2 b2,
    ioterm_read stream_read 1 (ioterm_init [97; 13; 10; 98]) [0; 0] 0 2
    = Some (Ok (n1, iot1, b1))
    ∧ ioterm_read stream_read 1 iot1 b1 0 2 = Some (Ok (n2, iot2, b2))
    ∧ take (Z.to_nat n1) b1 ++ take (Z.to_nat n2) b2 = [97; 10; 98].
Proof.
  destruct (ioterm_read_in_two_reads stream_read
              (ioterm_init [97; 13; 10; 98]) [0; 0] 0 2 [97; 13] [10; 98]
              [10; 98] [] [97; 13])
    as (n1 & iot1 & b1 & n2 & iot2 & b2 & H1 & H2 & Hout & _).
  - lia.
  - vm_compute. reflexivity.
  - reflexivity.
  - intros b Hb. destruct b as [|x [|y [|z b]]]; try discriminate Hb.
    eexists. split; reflexivity.
  - vm_compute. discriminate.
  - vm_compute. discriminate.
  - exists n1, iot1, b1, n2, iot2, b2. split; [exact H1|].
    split; [exact H2|exact Hout].
Defined.

Lemma ioterm_read_scan_line_endings_witness :
  ∃ b wp cr,
    ioterm_read_scan 4 [97; 98; 13; 99] 0 0 false = Ok (b, wp, cr)
    ∧ take wp b = [97; 98; 10; 99].
Proof.
  destruct (ioterm_read_scan_line_endings [97; 98] [13] [99])
    as (b & wp & cr & b_r & wp_r & cr_r & Hrun & Hrest & Hout).
  - intros H. apply elem_of_cons in H as [H|H]; [discriminate|].
    apply elem_of_cons in H as [H|H]; [discriminate|].
    by apply elem_of_nil in H.
  - intros H. apply elem_of_cons in H as [H|H]; [discriminate|].
    apply elem_of_cons in H as [H|H]; [discriminate|].
    by apply elem_of_nil in H.
  - right. right. split; [reflexivity|]. vm_compute. discriminate.
  - vm_compute in Hrest. injection Hrest as <- <- <-.
    exists b, wp, cr. split; [exact Hrun|exact Hout].
Defined.

Lemma ioterm_write_normalises_witness :
  ∃ ret iot',
    ioterm_write enotsup sink_putc 1 sink_ops (ioterm_init [])
      [97; 10; 98; 13] 0 4 = Some (Ok (ret, iot'))
    ∧ rawio iot' = [97; 13; 10; 98; 13; 10]
    ∧ cr_out iot' = true.
Proof.
  destruct (ioterm_write_normalises enotsup (λ r, r) sink_ops
              sink_putc 0 (ioterm_init []) [97; 10; 98; 13] 0 4)
    as (ret & iot' & Hrun & Hs & Hc).
  - exact sink_accepts_all.
  - lia.
  - lia.
  - vm_compute. discriminate.
  - vm_compute. lia.
  - exists ret, iot'. split; [exact Hrun|]. split; [exact Hs|exact Hc].
Defined.

Lemma ioterm_write_count_witness :
  ∃ iot',
    ioterm_write enotsup sink_putc 1 sink_ops (mk_io_term [13; 10] true false)
      [10; 97; 98] 0 3 = Some (Ok (2, iot')).
Proof.
  destruct (ioterm_write_count enotsup (λ r, r) sink_ops
              sink_putc 0 (mk_io_term [13; 10] true false) [10; 97; 98] 0 3)
    as (iot' & Hrun).
  - exact sink_accepts_all.
  - lia.
  - lia.
  - vm_compute. discriminate.
  - vm_compute. lia.
  - exists iot'. exact Hrun.
Defined.

Lemma ioterm_write_sends_only_crlf_witness :
  ∃ ret iot',
    ioterm_write enotsup sink_putc 1 sink_ops (mk_io_term [13; 10] true false)
      [10; 13; 97] 0 3 = Some (Ok (ret, iot'))
    ∧ crlf_only (rawio iot') = true.
Proof.
  destruct (ioterm_write_sends_only_crlf enotsup (λ r, r) sink_ops
              sink_putc 0 (mk_io_term [13; 10] true false) [10; 13; 97] 0 3)
    as (ret & iot' & Hrun & Hinv).
  - exact sink_accepts_all.
  - lia.
  - lia.
  - vm_compute. discriminate.
  - vm_compute. lia.
  - reflexivity.
  - exists ret, iot'. split; [exact Hrun|exact Hinv].
Defined.

Lemma ioterm_getsn_stays_in_buffer_witness :
  ∃ ok iot' buf',
    ioterm_getsn kbd_getc kbd_putc 9
      (ioterm_init ([104; 101; 108; 8; 121; 13], [])) [1; 1; 1; 1; 1] 3
    = Some (Ok (ok, iot', buf'))
    ∧ drop 3 buf' = [1; 1].
Proof.
  destruct (ioterm_getsn_stays_in_buffer kbd_getc kbd_putc 9
              (ioterm_init ([104; 101; 108; 8; 121; 13], []))
              [1; 1; 1; 1; 1] 3
              (Ok (true,
                   mk_io_term ([], [104; 101; 7; 8; 32; 8; 121; 13; 10])
                     false false,
                   [104; 121; 0; 1; 1])))
    as (ok & iot' & buf' & Hr & _ & Hd & _).
  - vm_compute. split; discriminate.
  - vm_compute. reflexivity.
  - vm_compute. reflexivity.
  - exists ok, iot', buf'. split; [|exact Hd].
    rewrite <- Hr. vm_compute. reflexivity.
Defined.

Lemma ioterm_getsn_returns_plain_line_witness :
  term_keys (ioterm_init ([104; 105; 13; 10; 120], []))
  = [104; 105; 10; 120]
  ∧ ∃ iot' buf',
      ioterm_getsn term_getc kbd_putc 3
        (ioterm_init ([104; 105; 13; 10; 120], [])) [1; 1; 1; 1] 4
      = Some (Ok (true, iot', buf'))
      ∧ take 3 buf' = [104; 105; 0]
      ∧ term_keys iot' = [120].
Proof.
  split; [vm_compute; reflexivity|].
  destruct (ioterm_getsn_returns_plain_line term_keys term_getc kbd_putc
              (ioterm_init ([104; 105; 13; 10; 120], [])) [1; 1; 1; 1] 4
              [104; 105] [120] 10)
    as (iot' & buf' & Hrun & Hline & Hrest).
  - exact term_delivers.
  - repeat constructor; discriminate.
  - vm_compute. reflexivity.
  - vm_compute. reflexivity.
  - vm_compute. discriminate.
  - left. reflexivity.
  - vm_compute. reflexivity.
  - exists iot', buf'. split; [exact Hrun|]. split; [exact Hline|exact Hrest].
Defined.
